(** * rerpc: a JSON-RPC 2.0 runtime in Go -- shallow embedding and properties

    The development follows the layout of the Go package:
    - [Bytes], [Utf8]: byte strings (Go [string] and [[]byte]);
    - [Json]: the behaviour of [encoding/json] that the codec relies on
      (scanner, [compact], [Unmarshal] into [interface{}], [Marshal]);
    - [Protocol]: message.go and errors.go;
    - [Codec]: codec.go ([JSONCodec]);
    - [Registry]: registry.go ([ServiceRegistry.Call]);
    - [Server]: server.go ([parseMethod], [processRequest]);
    - [GoErr], [Pool], [PoolMaintenance]: pool.go ([ConnPool]);
    - [Client], [ClientCalls], [ClientLife]: client.go ([shouldRetry],
      [receiveResponse], [doCall], [Call], [NewClient], [Close]);
    - [Registration]: registry.go ([Register], [validateMethod]);
    - [Connection]: server.go ([handleConn]). *)

From Stdlib Require Import ZArith Lia Ascii String List Bool.
From Stdlib Require Import DecimalString DecimalZ.
From Stdlib Require Import SpecFloat.
From stdpp Require Import base strings gmap.

#[global] Set Warnings "-register-all".
#[global] Set Warnings "-abstract-large-number".
#[global] Set Default Proof Using "Type".

(** ** Byte strings *)

Module Bytes.

Definition code (c : ascii) : N := N_of_ascii c.

Definition dquote : ascii := "034"%char.
Definition backslash : ascii := "\"%char.
Definition newline : ascii := "010"%char.

Definition quoted (s : string) : string :=
  String dquote (s +:+ String dquote "").

Definition ch_eq (c d : ascii) : bool := Ascii.eqb c d.

Definition is_digit (c : ascii) : bool :=
  ((48 <=? code c) && (code c <=? 57))%N.

Definition is_digit19 (c : ascii) : bool :=
  ((49 <=? code c) && (code c <=? 57))%N.

Definition is_hex (c : ascii) : bool :=
  (is_digit c
   || ((97 <=? code c) && (code c <=? 102))
   || ((65 <=? code c) && (code c <=? 70)))%N.

(** JSON insignificant whitespace: space, tab, carriage return, newline. *)
Definition is_space (c : ascii) : bool :=
  ((code c =? 32) || (code c =? 9) || (code c =? 13) || (code c =? 10))%N.

Fixpoint skip_ws (s : string) : string :=
  match s with
  | String c r => if is_space c then skip_ws r else s
  | EmptyString => s
  end.

Fixpoint take (n : nat) (s : string) : string :=
  match n, s with
  | S n, String c r => String c (take n r)
  | _, _ => EmptyString
  end.

Fixpoint drop (n : nat) (s : string) : string :=
  match n, s with
  | S n, String _ r => drop n r
  | _, _ => s
  end.

(** The part of [s] that a scan consumed when it stopped at the suffix
    [rest]: the Go slice [data[start:off]]. *)
Definition consumed (s rest : string) : string :=
  take (String.length s - String.length rest) s.

Definition hexdigit (n : N) : ascii :=
  ascii_of_N (if (n <? 10)%N then 48 + n else 87 + n)%N.

Definition hexval (c : ascii) : N :=
  (if is_digit c then code c - 48
   else if (97 <=? code c) then code c - 87
   else code c - 55)%N.

Fixpoint starts_with (p s : string) : bool :=
  match p with
  | EmptyString => true
  | String a p' =>
    match s with
    | String b s' => Ascii.eqb a b && starts_with p' s'
    | EmptyString => false
    end
  end.

End Bytes.

(** ** UTF-8, as [unicode/utf8] classifies byte sequences *)

Module Utf8.
Import Bytes.

Definition in_range (lo hi : N) (c : ascii) : bool :=
  ((lo <=? code c) && (code c <=? hi))%N.

Definition cont (c : ascii) : bool := in_range 128 191 c.

(** Lead byte of a two-byte sequence: C2..DF. *)
Definition lead2 (c : ascii) : bool := in_range 194 223 c.

(** Lead byte and second byte of a three-byte sequence. *)
Definition lead3 (c0 c1 : ascii) : bool :=
  (ch_eq c0 "224" && in_range 160 191 c1)
  || ((in_range 225 236 c0 || in_range 238 239 c0) && cont c1)
  || (ch_eq c0 "237" && in_range 128 159 c1).

(** Lead byte and second byte of a four-byte sequence. *)
Definition lead4 (c0 c1 : ascii) : bool :=
  (ch_eq c0 "240" && in_range 144 191 c1)
  || (in_range 241 243 c0 && cont c1)
  || (ch_eq c0 "244" && in_range 128 143 c1).

(** U+2028 and U+2029 are E2 80 A8 and E2 80 A9. *)
Definition is_line_sep (c0 c1 c2 : ascii) : bool :=
  ch_eq c0 "226" && ch_eq c1 "128" && (ch_eq c2 "168" || ch_eq c2 "169").

(** The replacement character U+FFFD: EF BF BD. *)
Definition replacement : string :=
  String "239" (String "191" (String "189" "")).

(** [utf8.EncodeRune]; surrogates and out-of-range runes become U+FFFD. *)
Definition encode_rune (r : N) : string :=
  (if r <? 128 then String (ascii_of_N r) ""
   else if r <? 2048 then
     String (ascii_of_N (192 + r / 64))
       (String (ascii_of_N (128 + r mod 64)) "")
   else if (55296 <=? r) && (r <=? 57343) then replacement
   else if r <? 65536 then
     String (ascii_of_N (224 + r / 4096))
       (String (ascii_of_N (128 + (r / 64) mod 64))
          (String (ascii_of_N (128 + r mod 64)) ""))
   else if r <=? 1114111 then
     String (ascii_of_N (240 + r / 262144))
       (String (ascii_of_N (128 + (r / 4096) mod 64))
          (String (ascii_of_N (128 + (r / 64) mod 64))
             (String (ascii_of_N (128 + r mod 64)) "")))
   else replacement)%N.

(** [utf8.ValidString]. *)
Fixpoint valid (s : string) : bool :=
  match s with
  | EmptyString => true
  | String c0 r0 =>
    if (code c0 <? 128)%N then valid r0
    else
      match r0 with
      | String c1 r1 =>
        if lead2 c0 && cont c1 then valid r1
        else
          match r1 with
          | String c2 r2 =>
            if lead3 c0 c1 && cont c2 then valid r2
            else
              match r2 with
              | String c3 r3 =>
                if lead4 c0 c1 && cont c2 && cont c3 then valid r3
                else false
              | EmptyString => false
              end
          | EmptyString => false
          end
      | EmptyString => false
      end
  end.

End Utf8.

(** ** encoding/json: syntax *)

Module Json.
Import Bytes.

(** A parsed JSON text.  Number literals and string bodies are kept as
    written (the decoder converts them only when it knows the target type);
    every object member also records the exact source text of its value,
    which is what a [json.RawMessage] field receives. *)
Inductive value : Type :=
| Null
| Bool (b : bool)
| Number (lit : string)
| Str (body : string)
| Array (elems : list value)
| Object (members : list (string * string * value)).

(** The scanner rejects more than 10000 nested arrays and objects. *)
Definition maxNestingDepth : nat := N.to_nat 10000.

(** *** String literals: the text after the opening quote. *)

Definition simple_escape (e : ascii) : bool :=
  ch_eq e dquote || ch_eq e backslash || ch_eq e "/" || ch_eq e "b"
  || ch_eq e "f" || ch_eq e "n" || ch_eq e "r" || ch_eq e "t".

Definition cons_body (c : ascii) (r : option (string * string))
  : option (string * string) :=
  match r with
  | Some (body, rest) => Some (String c body, rest)
  | None => None
  end.

Fixpoint scan_string (s : string) : option (string * string) :=
  match s with
  | EmptyString => None
  | String c r =>
    if ch_eq c dquote then Some (EmptyString, r)
    else if ch_eq c backslash then
      match r with
      | String e r1 =>
        if simple_escape e then cons_body c (cons_body e (scan_string r1))
        else if ch_eq e "u" then
          match r1 with
          | String h1 (String h2 (String h3 (String h4 r5))) =>
            if is_hex h1 && is_hex h2 && is_hex h3 && is_hex h4 then
              cons_body c (cons_body e (cons_body h1 (cons_body h2
                (cons_body h3 (cons_body h4 (scan_string r5))))))
            else None
          | _ => None
          end
        else None
      | EmptyString => None
      end
    else if (code c <? 32)%N then None
    else cons_body c (scan_string r)
  end.

(** *** Number literals: the scanner's number states. *)

Inductive numstate :=
| NNeg      (* after the minus sign *)
| NZero     (* after a leading 0 *)
| NInt      (* in the integer digits *)
| NDot      (* after the decimal point *)
| NFrac     (* in the fraction digits *)
| NE        (* after e or E *)
| NESign    (* after the sign of the exponent *)
| NExp.     (* in the exponent digits *)

Definition num_accepting (st : numstate) : bool :=
  match st with
  | NZero | NInt | NFrac | NExp => true
  | _ => false
  end.

Definition num_step (st : numstate) (c : ascii) : option numstate :=
  match st with
  | NNeg => if ch_eq c "0" then Some NZero
            else if is_digit19 c then Some NInt else None
  | NZero => if ch_eq c "." then Some NDot
             else if ch_eq c "e" || ch_eq c "E" then Some NE else None
  | NInt => if is_digit c then Some NInt
            else if ch_eq c "." then Some NDot
            else if ch_eq c "e" || ch_eq c "E" then Some NE else None
  | NDot => if is_digit c then Some NFrac else None
  | NFrac => if is_digit c then Some NFrac
             else if ch_eq c "e" || ch_eq c "E" then Some NE else None
  | NE => if ch_eq c "+" || ch_eq c "-" then Some NESign
          else if is_digit c then Some NExp else None
  | NESign => if is_digit c then Some NExp else None
  | NExp => if is_digit c then Some NExp else None
  end.

(** Longest literal from state [st]; fails when it stops in a state that
    is not accepting. *)
Fixpoint scan_num (st : numstate) (s : string) : option (string * string) :=
  match s with
  | String c r =>
    match num_step st c with
    | Some st' => cons_body c (scan_num st' r)
    | None => if num_accepting st then Some (EmptyString, s) else None
    end
  | EmptyString => if num_accepting st then Some (EmptyString, s) else None
  end.

(** A number starts with a minus sign or a digit. *)
Definition scan_number (s : string) : option (string * string) :=
  match s with
  | String c r =>
    if ch_eq c "-" then cons_body c (scan_num NNeg r)
    else if ch_eq c "0" then cons_body c (scan_num NZero r)
    else if is_digit19 c then cons_body c (scan_num NInt r)
    else None
  | EmptyString => None
  end.

Definition expect (lit : string) (v : value) (s : string)
  : option (value * string) :=
  if starts_with lit s then Some (v, drop (String.length lit) s)
  else None.

(** *** Values.  [fuel] bounds the recursion; [depth] is the number of
    further nesting levels the scanner still allows. *)
Fixpoint parse_value (fuel depth : nat) (s : string) {struct fuel}
  : option (value * string) :=
  match fuel with
  | O => None
  | S fuel =>
    match s with
    | EmptyString => None
    | String c r =>
      if ch_eq c "{" then
        match depth with
        | O => None
        | S depth =>
          match skip_ws r with
          | String c' r' =>
            if ch_eq c' "}" then Some (Object [], r')
            else
              match parse_members fuel depth (skip_ws r) with
              | Some (ms, rest) => Some (Object ms, rest)
              | None => None
              end
          | EmptyString => None
          end
        end
      else if ch_eq c "[" then
        match depth with
        | O => None
        | S depth =>
          match skip_ws r with
          | String c' r' =>
            if ch_eq c' "]" then Some (Array [], r')
            else
              match parse_elems fuel depth (skip_ws r) with
              | Some (vs, rest) => Some (Array vs, rest)
              | None => None
              end
          | EmptyString => None
          end
        end
      else if ch_eq c dquote then
        match scan_string r with
        | Some (body, rest) => Some (Str body, rest)
        | None => None
        end
      else if ch_eq c "t" then expect "true" (Bool true) s
      else if ch_eq c "f" then expect "false" (Bool false) s
      else if ch_eq c "n" then expect "null" Null s
      else
        match scan_number s with
        | Some (lit, rest) => Some (Number lit, rest)
        | None => None
        end
    end
  end

(** Elements of a non-empty array, from the start of an element. *)
with parse_elems (fuel depth : nat) (s : string) {struct fuel}
  : option (list value * string) :=
  match fuel with
  | O => None
  | S fuel =>
    match parse_value fuel depth s with
    | Some (v, r) =>
      match skip_ws r with
      | String c r' =>
        if ch_eq c "," then
          match parse_elems fuel depth (skip_ws r') with
          | Some (vs, rest) => Some (v :: vs, rest)
          | None => None
          end
        else if ch_eq c "]" then Some ([v], r')
        else None
      | EmptyString => None
      end
    | None => None
    end
  end

(** Members of a non-empty object, from the opening quote of a key. *)
with parse_members (fuel depth : nat) (s : string) {struct fuel}
  : option (list (string * string * value) * string) :=
  match fuel with
  | O => None
  | S fuel =>
    match s with
    | String q r0 =>
      if ch_eq q dquote then
        match scan_string r0 with
        | Some (key, r1) =>
          match skip_ws r1 with
          | String colon r2 =>
            if ch_eq colon ":" then
              let sv := skip_ws r2 in
              match parse_value fuel depth sv with
              | Some (v, r3) =>
                let m := (key, consumed sv r3, v) in
                match skip_ws r3 with
                | String c r4 =>
                  if ch_eq c "," then
                    match parse_members fuel depth (skip_ws r4) with
                    | Some (ms, rest) => Some (m :: ms, rest)
                    | None => None
                    end
                  else if ch_eq c "}" then Some ([m], r4)
                  else None
                | EmptyString => None
                end
              | None => None
              end
            else None
          | EmptyString => None
          end
        | None => None
        end
      else None
    | EmptyString => None
    end
  end.

(** A complete JSON text: one value between optional whitespace.  Every
    recursive call of the parser either consumes a byte or is followed by
    one that does, so twice the length is fuel enough. *)
Definition parse_at (depth : nat) (s : string) : option value :=
  match parse_value (2 * String.length s + 1) depth (skip_ws s) with
  | Some (v, rest) =>
    match skip_ws rest with
    | EmptyString => Some v
    | _ => None
    end
  | None => None
  end.

Definition parse (s : string) : option value := parse_at maxNestingDepth s.

(** [json.Valid]. *)
Definition Valid (s : string) : bool :=
  match parse s with Some _ => true | None => false end.

End Json.

(** ** float64 and the conversions of [strconv] *)

Module Float64.
Import Bytes.
Local Open Scope Z_scope.

Definition prec : Z := 53.
Definition emax : Z := 1024.

(** The binary64 value nearest to [d * 10^e] (ties to even), with sign. *)
Definition of_decimal (neg : bool) (d : N) (e : Z) : spec_float :=
  match d with
  | N0 => S754_zero neg
  | Npos p =>
    if 0 <=? e then binary_round prec emax neg (Z.to_pos (Zpos p * 10 ^ e)) 0
    else
      let '(q, e', l) :=
        SFdiv_core_binary prec emax (Zpos p) 0 (10 ^ (- e)) 0 in
      binary_round_aux prec emax neg q e' l
  end.

Fixpoint digits (acc : N) (n : nat) (s : string) : N * nat * string :=
  match s with
  | String c r =>
    if is_digit c then digits (10 * acc + (code c - 48))%N (S n) r
    else (acc, n, s)
  | EmptyString => (acc, n, s)
  end.

(** A JSON number literal as sign, digits and decimal exponent. *)
Definition parse_literal (lit : string) : bool * N * Z :=
  let '(neg, s) :=
    match lit with
    | String c r => if ch_eq c "-" then (true, r) else (false, lit)
    | EmptyString => (false, lit)
    end in
  let '(ip, _, s1) := digits 0 0 s in
  let '(m, nfrac, s2) :=
    match s1 with
    | String c r => if ch_eq c "." then digits ip 0 r else (ip, 0%nat, s1)
    | EmptyString => (ip, 0%nat, s1)
    end in
  let ex :=
    match s2 with
    | String _ (String sg r) =>
      if ch_eq sg "-" then - Z.of_N (fst (fst (digits 0 0 r)))
      else if ch_eq sg "+" then Z.of_N (fst (fst (digits 0 0 r)))
      else Z.of_N (fst (fst (digits 0 0 (String sg r))))
    | _ => 0
    end in
  (neg, m, ex - Z.of_nat nfrac).

(** [strconv.ParseFloat(lit, 64)] on a literal the scanner accepted: a
    value out of range is an error. *)
Definition ParseFloat (lit : string) : option spec_float :=
  let '(neg, m, e) := parse_literal lit in
  match of_decimal neg m e with
  | S754_zero s => Some (S754_zero s)
  | S754_finite s m e => Some (S754_finite s m e)
  | _ => None
  end.

Definition is_finite (f : spec_float) : bool :=
  match f with
  | S754_zero _ | S754_finite _ _ _ => true
  | _ => false
  end.

(** The conversion [uint64(f)] truncates toward zero; outside the range of
    uint64 the Go specification leaves the result to the implementation,
    here the parameter [oob]. *)
Definition to_uint64 (oob : spec_float -> Z) (f : spec_float) : Z :=
  match f with
  | S754_zero _ => 0
  | S754_finite s m e =>
    let t := if 0 <=? e then Zpos m * 2 ^ e else Zpos m / 2 ^ (- e) in
    if s then (if t =? 0 then 0 else oob f)
    else if t <? 2 ^ 64 then t else oob f
  | _ => oob f
  end.

(** *** Shortest decimal that reads back as the same float *)

(** Is [num/den < 10^k]? *)
Definition lt_pow10 (num den k : Z) : bool :=
  if 0 <=? k then num <? den * 10 ^ k else num * 10 ^ (- k) <? den.

Fixpoint first_above (fuel : nat) (num den k : Z) : Z :=
  match fuel with
  | O => k
  | S fuel => if lt_pow10 num den k then k
              else first_above fuel num den (k + 1)
  end.

(** The [k] with [10^(k-1) <= num/den < 10^k]. *)
Definition decimal_exponent (num den : Z) : Z :=
  let l := Z.log2 num - Z.log2 den - 1 in
  let k0 := if 0 <=? l then l * 30102 / 100000 else l * 30103 / 100000 in
  first_above 8 num den k0.

(** [num/den * 10^s] rounded to the nearest integer, ties to even. *)
Definition round_scaled (num den s : Z) : Z :=
  let a := if 0 <=? s then num * 10 ^ s else num in
  let b := if 0 <=? s then den else den * 10 ^ (- s) in
  let q := a / b in
  let r := a mod b in
  match 2 * r ?= b with
  | Lt => q
  | Gt => q + 1
  | Eq => if Z.even q then q else q + 1
  end.

(** The [n]-digit decimal nearest to [m * 2^e]: digits and the position
    of the decimal point. *)
Definition nearest (m : positive) (e : Z) (n : Z) : Z * Z :=
  let num := if 0 <=? e then Zpos m * 2 ^ e else Zpos m in
  let den := if 0 <=? e then 1 else 2 ^ (- e) in
  let k := decimal_exponent num den in
  let d := round_scaled num den (n - k) in
  if d =? 10 ^ n then (10 ^ (n - 1), k + 1) else (d, k).

Fixpoint shortest_from (todo : nat) (n : Z) (m : positive) (e : Z) : Z * Z * Z :=
  let '(d, k) := nearest m e n in
  match todo with
  | O => (d, k, n)
  | S todo =>
    match of_decimal false (Z.to_N d) (k - n) with
    | S754_finite _ m' e' =>
      if (Pos.eqb m m' && (e =? e'))%bool then (d, k, n)
      else shortest_from todo (n + 1) m e
    | _ => shortest_from todo (n + 1) m e
    end
  end.

(** Digits [d] (of which there are [n]) and point position [k]:
    the value is [0.d * 10^k].  Seventeen digits always suffice. *)
Definition shortest (m : positive) (e : Z) : Z * Z * Z :=
  shortest_from 16 1 m e.

Definition string_of_N (n : N) : string :=
  NilZero.string_of_uint (N.to_uint n).

Definition string_of_Z (z : Z) : string :=
  NilZero.string_of_int (Z.to_int z).

Fixpoint strip_zeros_rev (s : list ascii) : list ascii :=
  match s with
  | c :: r => if ch_eq c "0" then strip_zeros_rev r else s
  | [] => []
  end.

Definition strip_trailing_zeros (s : string) : string :=
  string_of_list_ascii
    (rev (strip_zeros_rev (rev (list_ascii_of_string s)))).

Fixpoint zeros (n : nat) : string :=
  match n with
  | O => EmptyString
  | S n => String "0" (zeros n)
  end.

(** The %e form, with the encoder's clean-up of e-09 to e-9. *)
Definition format_e (ds : string) (k : Z) : string :=
  let x := k - 1 in
  let mant :=
    match ds with
    | String c EmptyString => ds
    | String c r => String c (String "." r)
    | EmptyString => ds
    end in
  let ex :=
    if x <? 0 then
      "e-" +:+ string_of_Z (- x)
    else
      "e+" +:+ (if x <? 10 then "0" else "") +:+ string_of_Z x in
  mant +:+ ex.

(** The %f form. *)
Definition format_f (ds : string) (k : Z) : string :=
  let len := Z.of_nat (String.length ds) in
  if k <=? 0 then "0." +:+ zeros (Z.to_nat (- k)) +:+ ds
  else if len <=? k then ds +:+ zeros (Z.to_nat (k - len))
  else take (Z.to_nat k) ds +:+ "." +:+ drop (Z.to_nat k) ds.

(** The encoder's float64 rendering: %e below 1e-6 and from 1e21 on,
    %f otherwise, always with the shortest digits; NaN and the infinities
    are an [UnsupportedValueError]. *)
Definition FormatFloat (f : spec_float) : option string :=
  match f with
  | S754_zero s => Some (if s then "-0" else "0")
  | S754_finite s m e =>
    let '(d, k, _) := shortest m e in
    let ds := strip_trailing_zeros (string_of_Z d) in
    let a := S754_finite false m e in
    let body :=
      if (SFltb a (of_decimal false 1 (-6))
          || negb (SFltb a (of_decimal false 1 21)))%bool
      then format_e ds k else format_f ds k in
    Some ((if s then "-" else "") +:+ body)
  | _ => None
  end.

End Float64.

(** ** encoding/json: values *)

Module GoJson.
Import Bytes.

(** What an [interface{}] holds: the shapes [Unmarshal] produces, and the
    unsigned integer that the client stores as request identifier. *)
Inductive GoValue : Type :=
| VNil
| VBool (b : bool)
| VFloat64 (f : spec_float)
| VString (s : string)
| VSlice (l : list GoValue)
| VMap (m : list (string * GoValue))
| VUint64 (n : Z).

Definition prepend (pre : string) (o : option string) : option string :=
  match o with
  | Some s => Some (pre +:+ s)
  | None => None
  end.

(** *** Strings *)

Definition hex4 (h1 h2 h3 h4 : ascii) : N :=
  (4096 * hexval h1 + 256 * hexval h2 + 16 * hexval h3 + hexval h4)%N.

Definition unescape (e : ascii) : option ascii :=
  if ch_eq e dquote then Some dquote
  else if ch_eq e backslash then Some backslash
  else if ch_eq e "/" then Some "/"%char
  else if ch_eq e "b" then Some "008"%char
  else if ch_eq e "f" then Some "012"%char
  else if ch_eq e "n" then Some "010"%char
  else if ch_eq e "r" then Some "013"%char
  else if ch_eq e "t" then Some "009"%char
  else None.

Definition is_surrogate (r : N) : bool := ((55296 <=? r) && (r <? 57344))%N.

(** [utf16.DecodeRune]. *)
Definition utf16_pair (r1 r2 : N) : option N :=
  (if (55296 <=? r1) && (r1 <? 56320) && (56320 <=? r2) && (r2 <? 57344)
   then Some ((r1 - 55296) * 1024 + (r2 - 56320) + 65536)
   else None)%N.

(** The low half of a surrogate pair, when the text continues with a
    \u escape. *)
Definition next_u4 (s : string) : option (N * string) :=
  match s with
  | String b (String u (String g1 (String g2 (String g3 (String g4 r))))) =>
    if ch_eq b backslash && ch_eq u "u"
       && is_hex g1 && is_hex g2 && is_hex g3 && is_hex g4
    then Some (hex4 g1 g2 g3 g4, r) else None
  | _ => None
  end.

(** [unquote]: the Go string that a scanned string body denotes.  Escapes
    are resolved; bytes that are not valid UTF-8 and lone surrogates become
    U+FFFD. *)
Fixpoint unquote (s : string) : option string :=
  match s with
  | EmptyString => Some EmptyString
  | String c r =>
    if ch_eq c backslash then
      match r with
      | String e r1 =>
        if ch_eq e "u" then
          match r1 with
          | String h1 (String h2 (String h3 (String h4 r5))) =>
            let rr := hex4 h1 h2 h3 h4 in
            if is_surrogate rr then
              match r5 with
              | String b (String u (String g1 (String g2 (String g3 (String g4 r11))))) =>
                match next_u4 r5 with
                | Some (rr1, _) =>
                  match utf16_pair rr rr1 with
                  | Some dec => prepend (Utf8.encode_rune dec) (unquote r11)
                  | None => prepend Utf8.replacement (unquote r5)
                  end
                | None => prepend Utf8.replacement (unquote r5)
                end
              | _ => prepend Utf8.replacement (unquote r5)
              end
            else prepend (Utf8.encode_rune rr) (unquote r5)
          | _ => None
          end
        else
          match unescape e with
          | Some d => prepend (String d "") (unquote r1)
          | None => None
          end
      | EmptyString => None
      end
    else if ch_eq c dquote || (code c <? 32)%N then None
    else if (code c <? 128)%N then prepend (String c "") (unquote r)
    else
      match r with
      | String c1 r1 =>
        if Utf8.lead2 c && Utf8.cont c1 then
          prepend (String c (String c1 "")) (unquote r1)
        else
          match r1 with
          | String c2 r2 =>
            if Utf8.lead3 c c1 && Utf8.cont c2 then
              prepend (String c (String c1 (String c2 ""))) (unquote r2)
            else
              match r2 with
              | String c3 r3 =>
                if Utf8.lead4 c c1 && Utf8.cont c2 && Utf8.cont c3 then
                  prepend (String c (String c1 (String c2 (String c3 ""))))
                    (unquote r3)
                else prepend Utf8.replacement (unquote r)
              | EmptyString => prepend Utf8.replacement (unquote r)
              end
          | EmptyString => prepend Utf8.replacement (unquote r)
          end
      | EmptyString => Some Utf8.replacement
      end
  end.

Definition u00 (c : ascii) : string :=
  String backslash (String "u" (String "0" (String "0"
    (String (hexdigit (code c / 16)) (String (hexdigit (code c mod 16)) ""))))).

(** One ASCII byte in a quoted string, with HTML escaping on (the
    encoder's default). *)
Definition escape_ascii (c : ascii) : string :=
  if ch_eq c dquote || ch_eq c backslash then String backslash (String c "")
  else if ch_eq c "008" then String backslash "b"
  else if ch_eq c "012" then String backslash "f"
  else if ch_eq c "010" then String backslash "n"
  else if ch_eq c "013" then String backslash "r"
  else if ch_eq c "009" then String backslash "t"
  else if (code c <? 32)%N || ch_eq c "<" || ch_eq c ">" || ch_eq c "&"
  then u00 c
  else String c "".

Definition u202 (c2 : ascii) : string :=
  String backslash ("u202" +:+ String (hexdigit (code c2 mod 16)) "").

Definition ufffd : string := String backslash "ufffd".

(** The body the encoder writes for a Go string. *)
Fixpoint encode_body (s : string) : string :=
  match s with
  | EmptyString => EmptyString
  | String c r =>
    if (code c <? 128)%N then escape_ascii c +:+ encode_body r
    else
      match r with
      | String c1 r1 =>
        if Utf8.lead2 c && Utf8.cont c1 then
          String c (String c1 (encode_body r1))
        else
          match r1 with
          | String c2 r2 =>
            if Utf8.lead3 c c1 && Utf8.cont c2 then
              if Utf8.is_line_sep c c1 c2 then u202 c2 +:+ encode_body r2
              else String c (String c1 (String c2 (encode_body r2)))
            else
              match r2 with
              | String c3 r3 =>
                if Utf8.lead4 c c1 && Utf8.cont c2 && Utf8.cont c3 then
                  String c (String c1 (String c2 (String c3 (encode_body r3))))
                else ufffd +:+ encode_body r
              | EmptyString => ufffd +:+ encode_body r
              end
          | EmptyString => ufffd +:+ encode_body r
          end
      | EmptyString => ufffd
      end
  end.

Definition encode_string (s : string) : string := quoted (encode_body s).

(** *** [compact]: the bytes of a valid JSON text without insignificant
    whitespace; inside string literals the bytes of <, > and & and of
    U+2028 and U+2029 are replaced by \u escapes. *)
Fixpoint escape_raw (s : string) : string :=
  match s with
  | EmptyString => EmptyString
  | String c r =>
    if ch_eq c "<" || ch_eq c ">" || ch_eq c "&" then u00 c +:+ escape_raw r
    else
      match r with
      | String c1 (String c2 r2) =>
        if Utf8.is_line_sep c c1 c2 then u202 c2 +:+ escape_raw r2
        else String c (escape_raw r)
      | _ => String c (escape_raw r)
      end
  end.

Fixpoint join (parts : list string) : string :=
  match parts with
  | [] => EmptyString
  | [p] => p
  | p :: ps => p +:+ "," +:+ join ps
  end.

Fixpoint cprint (v : Json.value) : string :=
  match v with
  | Json.Null => "null"
  | Json.Bool true => "true"
  | Json.Bool false => "false"
  | Json.Number lit => lit
  | Json.Str body => quoted (escape_raw body)
  | Json.Array elems => "[" +:+ join (map cprint elems) +:+ "]"
  | Json.Object members =>
    "{" +:+
    join (map (fun m : string * string * Json.value =>
                 quoted (escape_raw (fst (fst m))) +:+ ":" +:+ cprint (snd m))
            members)
    +:+ "}"
  end.

Definition compact (s : string) : option string :=
  match Json.parse s with
  | Some v => Some (cprint v)
  | None => None
  end.

(** *** [Unmarshal] into an [interface{}] *)

(** Storing into a Go map: a later member with the same key replaces the
    earlier one.  The list is kept in key order, the order in which
    [Marshal] writes a map. *)
Fixpoint map_store (k : string) (v : GoValue) (m : list (string * GoValue))
  : list (string * GoValue) :=
  match m with
  | [] => [(k, v)]
  | (k', v') :: m' =>
    match String.compare k k' with
    | Lt => (k, v) :: m
    | Eq => (k, v) :: m'
    | Gt => (k', v') :: map_store k v m'
    end
  end.

Fixpoint to_interface (j : Json.value) : option GoValue :=
  match j with
  | Json.Null => Some VNil
  | Json.Bool b => Some (VBool b)
  | Json.Number lit =>
    match Float64.ParseFloat lit with
    | Some f => Some (VFloat64 f)
    | None => None
    end
  | Json.Str body =>
    match unquote body with
    | Some s => Some (VString s)
    | None => None
    end
  | Json.Array elems =>
    let fix go (l : list Json.value) : option (list GoValue) :=
      match l with
      | [] => Some []
      | x :: l' =>
        match to_interface x, go l' with
        | Some y, Some ys => Some (y :: ys)
        | _, _ => None
        end
      end in
    match go elems with
    | Some ys => Some (VSlice ys)
    | None => None
    end
  | Json.Object members =>
    let fix go (l : list (string * string * Json.value)) (acc : list (string * GoValue))
      : option (list (string * GoValue)) :=
      match l with
      | [] => Some acc
      | (k, _, x) :: l' =>
        match unquote k, to_interface x with
        | Some key, Some y => go l' (map_store key y acc)
        | _, _ => None
        end
      end in
    match go members [] with
    | Some m => Some (VMap m)
    | None => None
    end
  end.

(** *** [Marshal] of an [interface{}] *)

Definition sequence (l : list (option string)) : option (list string) :=
  fold_right (fun o acc =>
                match o, acc with
                | Some x, Some xs => Some (x :: xs)
                | _, _ => None
                end) (Some []) l.

Fixpoint marshal (v : GoValue) : option string :=
  match v with
  | VNil => Some "null"
  | VBool true => Some "true"
  | VBool false => Some "false"
  | VFloat64 f => Float64.FormatFloat f
  | VString s => Some (encode_string s)
  | VSlice l =>
    match sequence (map marshal l) with
    | Some parts => Some ("[" +:+ join parts +:+ "]")
    | None => None
    end
  | VMap m =>
    match sequence (map (fun kv : string * GoValue =>
                           prepend (encode_string (fst kv) +:+ ":")
                                   (marshal (snd kv))) m) with
    | Some parts => Some ("{" +:+ join parts +:+ "}")
    | None => None
    end
  | VUint64 n => Some (Float64.string_of_Z n)
  end.

End GoJson.

(** ** message.go and errors.go *)

Module Protocol.
Import GoJson.
Local Open Scope Z_scope.

Definition JSONRPCVersion : string := "2.0".

Definition ErrCodeParse : Z := -32700.
Definition ErrCodeInvalidRequest : Z := -32600.
Definition ErrCodeMethodNotFound : Z := -32601.
Definition ErrCodeInvalidParams : Z := -32602.
Definition ErrCodeInternal : Z := -32603.

Definition ErrMsgParse : string := "Parse error".
Definition ErrMsgInvalidRequest : string := "Invalid Request".
Definition ErrMsgMethodNotFound : string := "Method not found".
Definition ErrMsgInvalidParams : string := "Invalid params".
Definition ErrMsgInternal : string := "Internal error".

(** [Error]: [Data] is an [interface{}], [VNil] when absent. *)
Record Error := NewError { Code : Z; Message : string; Data : GoValue }.

(** A [json.RawMessage] is a byte slice: [None] is the nil slice. *)
Definition RawMessage := option string.

Record Request := mkRequest {
  req_Jsonrpc : string;
  req_Method : string;
  req_Params : RawMessage;
  req_ID : GoValue
}.

Record Response := mkResponse {
  resp_Jsonrpc : string;
  resp_Result : RawMessage;
  resp_Error : option Error;
  resp_ID : GoValue
}.

(** The state after [Reset], which is also the zero value. *)
Definition zeroRequest : Request := mkRequest "" "" None VNil.
Definition zeroResponse : Response := mkResponse "" None None VNil.
Definition zeroError : Error := NewError 0 "" VNil.

Definition NewParseError (data : GoValue) : Error :=
  NewError ErrCodeParse ErrMsgParse data.
Definition NewInvalidRequestError (data : GoValue) : Error :=
  NewError ErrCodeInvalidRequest ErrMsgInvalidRequest data.
Definition NewMethodNotFoundError (method : string) : Error :=
  NewError ErrCodeMethodNotFound ErrMsgMethodNotFound (VString method).
Definition NewInvalidParamsError (data : GoValue) : Error :=
  NewError ErrCodeInvalidParams ErrMsgInvalidParams data.
Definition NewInternalError (data : GoValue) : Error :=
  NewError ErrCodeInternal ErrMsgInternal data.

End Protocol.

(** ** Go error values *)

Module GoErr.

(** Package-level error variables, compared by identity. *)
Inductive sentinel :=
| ErrPoolClosed | ErrPoolExhausted | ErrInvalidConn
| ErrClientClosed | ErrTimeout | ErrNoConnection
| io_EOF | context_Canceled | context_DeadlineExceeded.

#[global] Instance sentinel_eq_dec : EqDecision sentinel.
Proof. solve_decision. Defined.

Inductive error : Type :=
| Sentinel (s : sentinel)
| Rpc (e : Protocol.Error)                  (* a *Error of this package *)
| Wrapf (msg : string) (inner : error)      (* fmt.Errorf with one %w *)
| NetError (msg : string) (inner : option error)
                                            (* a net.Error, such as *net.OpError *)
| Opaque (msg : string).                    (* any other error value *)

(** [errors.Unwrap]. *)
Definition Unwrap (e : error) : option error :=
  match e with
  | Wrapf _ inner => Some inner
  | NetError _ inner => inner
  | _ => None
  end.

(** [errors.Is] against a package-level error variable. *)
Fixpoint Is (e : error) (target : sentinel) : bool :=
  match e with
  | Sentinel s => bool_decide (s = target)
  | Wrapf _ inner => Is inner target
  | NetError _ (Some inner) => Is inner target
  | _ => false
  end.

(** Does the value itself have the methods of [net.Error]?  Besides the
    errors of package net, [context.DeadlineExceeded] has them. *)
Definition implements_net_Error (e : error) : bool :=
  match e with
  | NetError _ _ => true
  | Sentinel context_DeadlineExceeded => true
  | _ => false
  end.

(** [errors.As] with a target of type [net.Error]. *)
Fixpoint As_net_Error (e : error) : bool :=
  match e with
  | Wrapf _ inner => As_net_Error inner
  | NetError _ _ => true
  | _ => implements_net_Error e
  end.

Definition sentinel_text (s : sentinel) : string :=
  match s with
  | ErrPoolClosed => "connection pool is closed"
  | ErrPoolExhausted => "connection pool exhausted"
  | ErrInvalidConn => "invalid connection"
  | ErrClientClosed => "client is closed"
  | ErrTimeout => "request timeout"
  | ErrNoConnection => "failed to get connection"
  | io_EOF => "EOF"
  | context_Canceled => "context canceled"
  | context_DeadlineExceeded => "context deadline exceeded"
  end.

(** The [Error()] method. *)
Definition ErrorString (e : error) : string :=
  match e with
  | Sentinel s => sentinel_text s
  | Rpc r => Protocol.Message r
  | Wrapf msg _ => msg
  | NetError msg _ => msg
  | Opaque msg => msg
  end.

(** [fmt.Errorf(prefix + ": %w", err)]. *)
Definition Errorf_w (prefix : string) (inner : error) : error :=
  Wrapf (prefix +:+ ": " +:+ ErrorString inner) inner.

Inductive result (A : Type) : Type :=
| Ok (a : A)
| Fail (e : error).
Arguments Ok {A} a.
Arguments Fail {A} e.

End GoErr.

(** ** encoding/json on the message records *)

Module Wire.
Import Bytes GoJson Protocol.
Local Open Scope Z_scope.

(** The library's errors.  Their text depends on the offending byte and
    its offset; the model keeps the kind and a fixed text for it. *)
Inductive jsonerr :=
| SyntaxError            (* the input is not a JSON text *)
| UnmarshalTypeError     (* a JSON value does not fit the Go type *)
| MarshalerError         (* a RawMessage that is not a JSON text *)
| UnsupportedValueError. (* NaN or an infinity *)

Definition jsonerr_text (e : jsonerr) : string :=
  match e with
  | SyntaxError => "json: syntax error"
  | UnmarshalTypeError => "json: cannot unmarshal value into Go type"
  | MarshalerError => "json: error calling MarshalJSON for type json.RawMessage"
  | UnsupportedValueError => "json: unsupported value"
  end.

(** *** Field names.  A key selects the field whose name it equals after
    case folding; under Unicode simple folding the long s (C5 BF) and the
    Kelvin sign (E2 84 AA) fold with the letters s and k. *)
Fixpoint fold_name (s : string) : string :=
  match s with
  | EmptyString => EmptyString
  | String c r =>
    if ((97 <=? code c) && (code c <=? 122))%N
    then String (ascii_of_N (code c - 32)) (fold_name r)
    else
      match r with
      | String c1 r1 =>
        if ch_eq c "197" && ch_eq c1 "191" then String "S" (fold_name r1)
        else
          match r1 with
          | String c2 r2 =>
            if ch_eq c "226" && ch_eq c1 "132" && ch_eq c2 "170"
            then String "K" (fold_name r2)
            else String c (fold_name r)
          | EmptyString => String c (fold_name r)
          end
      | EmptyString => String c (fold_name r)
      end
  end.

Definition selects (key name : string) : bool :=
  String.eqb (fold_name key) (fold_name name).

(** [strconv.ParseInt(lit, 10, 64)] on a number literal. *)
Definition parse_int (lit : string) : option Z :=
  match NilZero.int_of_string lit with
  | Some i =>
    let z := Z.of_int i in
    if (- 2 ^ 63 <=? z) && (z <? 2 ^ 63) then Some z else None
  | None => None
  end.

(** *** Storing a JSON value into a field of each type; [None] is an
    [UnmarshalTypeError].  A JSON null leaves a string or an int as it is
    and resets a pointer or an interface. *)
Definition store_string (j : Json.value) (old : string) : option string :=
  match j with
  | Json.Str body => unquote body
  | Json.Null => Some old
  | _ => None
  end.

Definition store_int (j : Json.value) (old : Z) : option Z :=
  match j with
  | Json.Number lit => parse_int lit
  | Json.Null => Some old
  | _ => None
  end.

Definition store_Error_member (e : Error) (m : string * string * Json.value)
  : option Error :=
  let '(k, _, j) := m in
  match unquote k with
  | None => None
  | Some key =>
    if selects key "code" then
      match store_int j (Code e) with
      | Some c => Some (NewError c (Message e) (Data e))
      | None => None
      end
    else if selects key "message" then
      match store_string j (Message e) with
      | Some s => Some (NewError (Code e) s (Data e))
      | None => None
      end
    else if selects key "data" then
      match to_interface j with
      | Some d => Some (NewError (Code e) (Message e) d)
      | None => None
      end
    else Some e
  end.

Fixpoint store_members {A : Type}
    (f : A -> string * string * Json.value -> option A)
    (ms : list (string * string * Json.value)) (a : A) : option A :=
  match ms with
  | [] => Some a
  | m :: ms' =>
    match f a m with
    | Some a' => store_members f ms' a'
    | None => None
    end
  end.

(** A field of type [*Error]: null stores the nil pointer, an object is
    decoded into the record the pointer already refers to, or into a new
    one. *)
Definition store_Error_ptr (j : Json.value) (old : option Error)
  : option (option Error) :=
  match j with
  | Json.Null => Some None
  | Json.Object ms =>
    match store_members store_Error_member ms
            (match old with Some e => e | None => zeroError end) with
    | Some e => Some (Some e)
    | None => None
    end
  | _ => None
  end.

Definition store_Request_member (r : Request) (m : string * string * Json.value)
  : option Request :=
  let '(k, raw, j) := m in
  match unquote k with
  | None => None
  | Some key =>
    if selects key "jsonrpc" then
      match store_string j (req_Jsonrpc r) with
      | Some s => Some (mkRequest s (req_Method r) (req_Params r) (req_ID r))
      | None => None
      end
    else if selects key "method" then
      match store_string j (req_Method r) with
      | Some s => Some (mkRequest (req_Jsonrpc r) s (req_Params r) (req_ID r))
      | None => None
      end
    else if selects key "params" then
      Some (mkRequest (req_Jsonrpc r) (req_Method r) (Some raw) (req_ID r))
    else if selects key "id" then
      match to_interface j with
      | Some v => Some (mkRequest (req_Jsonrpc r) (req_Method r) (req_Params r) v)
      | None => None
      end
    else Some r
  end.

Definition store_Response_member (r : Response) (m : string * string * Json.value)
  : option Response :=
  let '(k, raw, j) := m in
  match unquote k with
  | None => None
  | Some key =>
    if selects key "jsonrpc" then
      match store_string j (resp_Jsonrpc r) with
      | Some s => Some (mkResponse s (resp_Result r) (resp_Error r) (resp_ID r))
      | None => None
      end
    else if selects key "result" then
      Some (mkResponse (resp_Jsonrpc r) (Some raw) (resp_Error r) (resp_ID r))
    else if selects key "error" then
      match store_Error_ptr j (resp_Error r) with
      | Some e => Some (mkResponse (resp_Jsonrpc r) (resp_Result r) e (resp_ID r))
      | None => None
      end
    else if selects key "id" then
      match to_interface j with
      | Some v => Some (mkResponse (resp_Jsonrpc r) (resp_Result r) (resp_Error r) v)
      | None => None
      end
    else Some r
  end.

(** [json.Unmarshal(data, ptr)] for a pointer to a struct: the text must
    be an object, or null, which stores nothing. *)
Definition Unmarshal_struct {A : Type}
    (f : A -> string * string * Json.value -> option A)
    (data : string) (a : A) : A + jsonerr :=
  match Json.parse data with
  | None => inr SyntaxError
  | Some Json.Null => inl a
  | Some (Json.Object ms) =>
    match store_members f ms a with
    | Some a' => inl a'
    | None => inr UnmarshalTypeError
    end
  | Some _ => inr UnmarshalTypeError
  end.

Definition Unmarshal_Request := Unmarshal_struct store_Request_member.
Definition Unmarshal_Response := Unmarshal_struct store_Response_member.

(** *** Marshal *)

Definition member (name : string) (text : string) : string :=
  quoted name +:+ ":" +:+ text.

(** A RawMessage field tagged omitempty: nothing for a slice of length
    zero, otherwise the compacted bytes. *)
Definition raw_member (name : string) (r : RawMessage)
  : list string + jsonerr :=
  match r with
  | None => inl []
  | Some EmptyString => inl []
  | Some raw =>
    match compact raw with
    | Some c => inl [member name c]
    | None => inr MarshalerError
    end
  end.

Definition interface_member (name : string) (v : GoValue)
  : list string + jsonerr :=
  match marshal v with
  | Some text => inl [member name text]
  | None => inr UnsupportedValueError
  end.

Definition Marshal_Error (e : Error) : string + jsonerr :=
  match
    match Data e with
    | VNil => inl []
    | d => interface_member "data" d
    end
  with
  | inl data =>
    inl ("{" +:+ join ([member "code" (Float64.string_of_Z (Code e));
                        member "message" (encode_string (Message e))]
                       ++ data) +:+ "}")
  | inr err => inr err
  end.

Definition Marshal_Request (r : Request) : string + jsonerr :=
  match raw_member "params" (req_Params r), interface_member "id" (req_ID r) with
  | inl params, inl id =>
    inl ("{" +:+ join ([member "jsonrpc" (encode_string (req_Jsonrpc r));
                        member "method" (encode_string (req_Method r))]
                       ++ params ++ id) +:+ "}")
  | inr err, _ => inr err
  | _, inr err => inr err
  end.

Definition Marshal_Response (r : Response) : string + jsonerr :=
  match raw_member "result" (resp_Result r),
        match resp_Error r with
        | None => inl []
        | Some e =>
          match Marshal_Error e with
          | inl text => inl [member "error" text]
          | inr err => inr err
          end
        end,
        interface_member "id" (resp_ID r) with
  | inl result, inl error, inl id =>
    inl ("{" +:+ join ([member "jsonrpc" (encode_string (resp_Jsonrpc r))]
                       ++ result ++ error ++ id) +:+ "}")
  | inr err, _, _ => inr err
  | _, inr err, _ => inr err
  | _, _, inr err => inr err
  end.

(** [json.NewEncoder(buf).Encode(v)] writes the text and a newline. *)
Definition with_newline (r : string + jsonerr) : string + jsonerr :=
  match r with
  | inl text => inl (text +:+ String newline "")
  | inr err => inr err
  end.

Definition Encode_Request (r : Request) := with_newline (Marshal_Request r).
Definition Encode_Response (r : Response) := with_newline (Marshal_Response r).

End Wire.

(** ** codec.go *)

Module Codec.
Import Bytes GoJson Protocol GoErr Wire.

Definition json_error (e : jsonerr) : error := Opaque (jsonerr_text e).

(** [EncodeRequest] fills in the version of the request it is given, so it
    returns the request as it leaves it along with the result.  The pooled
    buffer is reset when taken and its content copied out, so the bytes
    are exactly what the encoder wrote. *)
Definition EncodeRequest (req : option Request)
  : option Request * result string :=
  match req with
  | None =>
    (None, Fail (Rpc (NewInvalidRequestError (VString "request is nil"))))
  | Some req =>
    if String.eqb (req_Method req) "" then
      (Some req,
       Fail (Rpc (NewInvalidRequestError (VString "method is required"))))
    else
      let req :=
        if String.eqb (req_Jsonrpc req) ""
        then mkRequest JSONRPCVersion (req_Method req) (req_Params req) (req_ID req)
        else req in
      match Encode_Request req with
      | inr err =>
        (Some req, Fail (Errorf_w "encode request failed" (json_error err)))
      | inl data => (Some req, Ok data)
      end
  end.

(** [DecodeRequest]: the request taken from the pool is in its reset
    state; on every failure it goes back to the pool. *)
Definition DecodeRequest (data : string) : result Request :=
  if Nat.eqb (String.length data) 0 then
    Fail (Rpc (NewInvalidRequestError (VString "empty request data")))
  else
    match Unmarshal_Request data zeroRequest with
    | inr err => Fail (Rpc (NewParseError (VString (ErrorString (json_error err)))))
    | inl req =>
      if negb (String.eqb (req_Jsonrpc req) JSONRPCVersion) then
        Fail (Rpc (NewInvalidRequestError
                     (VString ("invalid jsonrpc version: " +:+ req_Jsonrpc req))))
      else if String.eqb (req_Method req) "" then
        Fail (Rpc (NewInvalidRequestError (VString "method is required")))
      else Ok req
    end.

Definition EncodeResponse (resp : option Response)
  : option Response * result string :=
  match resp with
  | None => (None, Fail (Rpc (NewInternalError (VString "response is nil"))))
  | Some resp =>
    let resp :=
      if String.eqb (resp_Jsonrpc resp) ""
      then mkResponse JSONRPCVersion (resp_Result resp) (resp_Error resp) (resp_ID resp)
      else resp in
    match resp_Result resp, resp_Error resp with
    | None, None =>
      (Some resp,
       Fail (Rpc (NewInternalError
                    (VString "response must have either result or error"))))
    | Some _, Some _ =>
      (Some resp,
       Fail (Rpc (NewInternalError
                    (VString "response cannot have both result and error"))))
    | _, _ =>
      match Encode_Response resp with
      | inr err =>
        (Some resp, Fail (Errorf_w "encode response failed" (json_error err)))
      | inl data => (Some resp, Ok data)
      end
    end
  end.

Definition DecodeResponse (data : string) : result Response :=
  if Nat.eqb (String.length data) 0 then
    Fail (Rpc (NewInvalidRequestError (VString "empty response data")))
  else
    match Unmarshal_Response data zeroResponse with
    | inr err => Fail (Rpc (NewParseError (VString (ErrorString (json_error err)))))
    | inl resp =>
      if negb (String.eqb (resp_Jsonrpc resp) JSONRPCVersion) then
        Fail (Rpc (NewInvalidRequestError
                     (VString ("invalid jsonrpc version: " +:+ resp_Jsonrpc resp))))
      else
        match resp_Result resp, resp_Error resp with
        | None, None =>
          Fail (Rpc (NewInvalidRequestError
                       (VString "response must have either result or error")))
        | _, _ => Ok resp
        end
    end.

End Codec.

(** ** registry.go *)

Module Registry.
Import Bytes GoJson Protocol GoErr.

(** What calling a handler through reflection can do: return, having
    filled the reply record, or panic.  A recovered panic is rendered with
    the %v verb and comes with the stack trace of [debug.Stack]. *)
Inductive outcome (V : Type) : Type :=
| Returned (reply : V) (err : option error)
| Panicked (shown : string) (stack : string).
Arguments Returned {V} reply err.
Arguments Panicked {V} shown stack.

Section Reflect.
(** Go values reached through reflection: receivers, argument and
    reply records. *)
Context {V : Type}.
Variable Context_ : Type.

(** [methodType]: the cached [reflect.Method] and the argument and
    reply types.  A [reflect.Type] is used in two ways only: to allocate
    its zero value and to let [json.Unmarshal] decode into it. *)
Record methodType := {
  method : V -> Context_ -> V -> V -> outcome V;
  ArgType_new : V;
  ArgType_unmarshal : string -> V -> V + string;
  ReplyType_new : V
}.

Record serviceType := {
  name : string;
  rcvr : V;
  methods : gmap string methodType
}.

Record ServiceRegistry := {
  services : gmap string serviceType
}.

Definition raw_len (m : RawMessage) : nat :=
  match m with
  | Some s => String.length s
  | None => 0
  end.

Definition raw_bytes (m : RawMessage) : string :=
  match m with
  | Some s => s
  | None => EmptyString
  end.

(** [call]: the deferred function turns a panic of the handler into an
    internal error; [result] is then still nil. *)
Definition call (ctx : Context_) (service : serviceType)
    (m : methodType) (argsData : RawMessage) : result V :=
  let argv := ArgType_new m in
  match
    if Nat.ltb 0 (raw_len argsData)
    then ArgType_unmarshal m (raw_bytes argsData) argv
    else inl argv
  with
  | inr err =>
    Fail (Rpc (NewInvalidParamsError
                 (VString ("failed to unmarshal args: " +:+ err))))
  | inl argv =>
    let replyv := ReplyType_new m in
    match method m (rcvr service) ctx argv replyv with
    | Panicked shown stack =>
      Fail (Rpc (NewInternalError
                   (VString ("panic: " +:+ shown +:+ String newline "stack: "
                             +:+ stack))))
    | Returned reply (Some errInter) =>
      Fail (Rpc (NewInternalError (VString (ErrorString errInter))))
    | Returned reply None => Ok reply
    end
  end.

Definition Call (r : ServiceRegistry) (ctx : Context_)
    (serviceName methodName : string) (args : RawMessage) : result V :=
  match services r !! serviceName with
  | None =>
    Fail (Rpc (NewMethodNotFoundError
                 ("service " +:+ serviceName +:+ " not found")))
  | Some service =>
    match methods service !! methodName with
    | None =>
      Fail (Rpc (NewMethodNotFoundError (serviceName +:+ "." +:+ methodName)))
    | Some m => call ctx service m args
    end
  end.

End Reflect.

Arguments methodType V Context_ : clear implicits.
Arguments serviceType V Context_ : clear implicits.
Arguments ServiceRegistry V Context_ : clear implicits.
Arguments method {V Context_} m.
Arguments ArgType_new {V Context_} m.
Arguments ArgType_unmarshal {V Context_} m.
Arguments ReplyType_new {V Context_} m.
Arguments name {V Context_} s.
Arguments rcvr {V Context_} s.
Arguments methods {V Context_} s.
Arguments services {V Context_} s.
Arguments call {V Context_} ctx service m argsData.
Arguments Call {V Context_} r ctx serviceName methodName args.

End Registry.

(** ** server.go *)

Module Server.
Import Bytes GoJson Protocol GoErr Wire.

(** The index of the first dot, or -1. *)
Fixpoint dotIndex_from (i : Z) (method : string) : Z :=
  match method with
  | String c r => if ch_eq c "." then i else dotIndex_from (i + 1)%Z r
  | EmptyString => (-1)%Z
  end.

Definition parseMethod (method : string) : result (string * string) :=
  let dotIndex := dotIndex_from 0 method in
  if ((dotIndex =? -1) || (dotIndex =? 0)
      || (dotIndex =? Z.of_nat (String.length method) - 1))%Z
  then Fail (Opaque ("invalid method format: " +:+ method))
  else Ok (take (Z.to_nat dotIndex) method,
           drop (Z.to_nat (dotIndex + 1)) method).

Section Server.
Context {V : Type}.
Variable Context_ : Type.
(** [context.Background()]. *)
Variable Background : Context_.
(** [json.Marshal] on a reply record. *)
Variable Marshal_reply : V -> string + jsonerr.
(** The %v verb of package fmt on an identifier. *)
Variable fmt_v : GoValue -> string.

Record Server := {
  registry : Registry.ServiceRegistry V Context_
}.

Definition fallbackResp (id : GoValue) : string :=
  "{" +:+ quoted "jsonrpc" +:+ ":" +:+ quoted "2.0" +:+ ","
  +:+ quoted "error" +:+ ":{" +:+ quoted "code" +:+ ":-32603,"
  +:+ quoted "message" +:+ ":" +:+ quoted "Internal error" +:+ "},"
  +:+ quoted "id" +:+ ":" +:+ fmt_v id +:+ "}" +:+ String newline "".

(** The response record comes from the pool in its reset state. *)
Definition encodeErrorResponse (id : GoValue) (rpcErr : Error) : string :=
  let resp := mkResponse JSONRPCVersion None (Some rpcErr) id in
  match snd (Codec.EncodeResponse (Some resp)) with
  | Ok data => data
  | Fail _ => fallbackResp id
  end.

Definition encodeSuccessResponse (id : GoValue) (result : V) : string :=
  match Marshal_reply result with
  | inr err =>
    encodeErrorResponse id
      (NewInternalError
         (VString ("failed to marshal result: " +:+ jsonerr_text err)))
  | inl resultData =>
    let resp := mkResponse JSONRPCVersion (Some resultData) None id in
    match snd (Codec.EncodeResponse (Some resp)) with
    | Ok data => data
    | Fail err =>
      encodeErrorResponse id
        (NewInternalError
           (VString ("failed to encode response: " +:+ ErrorString err)))
    end
  end.

(** [processRequest]; [None] is the run-time panic of the type
    assertion of [err] to a pointer to [Error], on a decoding error of
    another type. *)
Definition processRequest (s : Server) (data : string) : option string :=
  match Codec.DecodeRequest data with
  | Fail (Rpc e) => Some (encodeErrorResponse VNil e)
  | Fail _ => None
  | Ok req =>
    match parseMethod (req_Method req) with
    | Fail _ =>
      Some (encodeErrorResponse (req_ID req)
              (NewMethodNotFoundError (req_Method req)))
    | Ok (serviceName, methodName) =>
      let ctx := Background in
      match Registry.Call (registry s) ctx serviceName methodName
              (req_Params req) with
      | Fail (Rpc rpcErr) => Some (encodeErrorResponse (req_ID req) rpcErr)
      | Fail err =>
        Some (encodeErrorResponse (req_ID req)
                (NewInternalError (VString (ErrorString err))))
      | Ok result => Some (encodeSuccessResponse (req_ID req) result)
      end
    end
  end.

End Server.

End Server.

(** ** pool.go *)

Module Pool.
Import GoErr.
Local Open Scope Z_scope.

(** Fixed-width integers: [int32] for the atomic counters, [int64] for
    [time.Duration]. *)
Definition wrap32 (z : Z) : Z := (z + 2 ^ 31) mod 2 ^ 32 - 2 ^ 31.
Definition wrap64 (z : Z) : Z := (z + 2 ^ 63) mod 2 ^ 64 - 2 ^ 63.

(** A [net.Conn], by identity. *)
Definition Conn := nat.

(** The world outside the pool: what the next call of the dial function
    and of the health check will answer, the connections closed so far and
    the sleeps taken so far (oldest first). *)
Record World := mkWorld {
  dial_answers : nat -> result Conn;
  dials : nat;
  test_answers : nat -> Conn -> option error;
  tests : nat;
  closed_conns : list Conn;
  sleeps : list Z
}.

Definition dial (w : World) : result Conn * World :=
  (dial_answers w (dials w),
   mkWorld (dial_answers w) (S (dials w)) (test_answers w) (tests w)
           (closed_conns w) (sleeps w)).

Definition testConn (conn : Conn) (w : World) : option error * World :=
  (test_answers w (tests w) conn,
   mkWorld (dial_answers w) (dials w) (test_answers w) (S (tests w))
           (closed_conns w) (sleeps w)).

Definition Close_conn (conn : Conn) (w : World) : World :=
  mkWorld (dial_answers w) (dials w) (test_answers w) (tests w)
          (closed_conns w ++ [conn]) (sleeps w).

Definition Sleep (d : Z) (w : World) : World :=
  mkWorld (dial_answers w) (dials w) (test_answers w) (tests w)
          (closed_conns w) (sleeps w ++ [d]).

(** [ConnPool]: the fields that [Get], [Put] and [Close] read or write.
    The channel of idle connections is a queue whose capacity is
    [maxIdle]; [has_testConn] says that the health-check function is not
    nil. *)
Record ConnPool := mkPool {
  maxIdle : Z;
  maxActive : Z;
  idleConns : list Conn;
  activeNum : Z;
  testOnGet : bool;
  has_testConn : bool;
  closed : bool
}.

Definition set_idle (idle : list Conn) (p : ConnPool) : ConnPool :=
  mkPool (maxIdle p) (maxActive p) idle (activeNum p)
         (testOnGet p) (has_testConn p) (closed p).

(** [atomic.AddInt32(&p.activeNum, delta)]. *)
Definition add_active (delta : Z) (p : ConnPool) : ConnPool :=
  mkPool (maxIdle p) (maxActive p) (idleConns p) (wrap32 (activeNum p + delta))
         (testOnGet p) (has_testConn p) (closed p).

Definition set_closed (p : ConnPool) : ConnPool :=
  mkPool (maxIdle p) (maxActive p) (idleConns p) (activeNum p)
         (testOnGet p) (has_testConn p) true.

Record ConnPoolConfig := {
  cfg_Address : string;
  cfg_MaxIdle : Z;
  cfg_MaxActive : Z;
  cfg_TestOnGet : bool
}.

Definition NewConnPool (config : ConnPoolConfig) : result ConnPool :=
  if String.eqb (cfg_Address config) "" then
    Fail (Opaque "address is required")
  else
    let maxIdle := if cfg_MaxIdle config <=? 0 then 10 else cfg_MaxIdle config in
    let maxActive := if cfg_MaxActive config <? 0 then 0 else cfg_MaxActive config in
    Ok (mkPool maxIdle maxActive [] 0 (cfg_TestOnGet config) true false).

(** The slow path of [Get]: dial unless the limit is reached. *)
Definition Get_slow (p : ConnPool) (w : World) : result Conn * ConnPool * World :=
  if (0 <? maxActive p) && (wrap32 (maxActive p) <=? activeNum p) then
    (Fail (Sentinel ErrPoolExhausted), p, w)
  else
    match dial w with
    | (Fail err, w) => (Fail err, p, w)
    | (Ok conn, w) => (Ok conn, add_active 1 p, w)
    end.

(** The fast path of [Get], over the queue of idle connections.  When the
    connection taken fails the health check, [Get] calls itself; the new
    call reads the closed flag again, which nothing in [Get] changes, and
    goes on with the rest of the queue. *)
Fixpoint Get_fast (idle : list Conn) (p : ConnPool) (w : World)
  : result Conn * ConnPool * World :=
  match idle with
  | conn :: rest =>
    let p := set_idle rest p in
    if testOnGet p && has_testConn p then
      match testConn conn w with
      | (Some _, w) => Get_fast rest (add_active (-1) p) (Close_conn conn w)
      | (None, w) => (Ok conn, p, w)
      end
    else (Ok conn, p, w)
  | [] => Get_slow p w
  end.

Definition Get (p : ConnPool) (w : World) : result Conn * ConnPool * World :=
  if closed p then (Fail (Sentinel ErrPoolClosed), p, w)
  else Get_fast (idleConns p) p w.

(** [Put]; [None] is the nil connection. *)
Definition Put (conn : option Conn) (p : ConnPool) (w : World)
  : option error * ConnPool * World :=
  match conn with
  | None => (Some (Sentinel ErrInvalidConn), p, w)
  | Some conn =>
    if closed p then
      (Some (Sentinel ErrPoolClosed), add_active (-1) p, Close_conn conn w)
    else if Z.of_nat (length (idleConns p)) <? maxIdle p then
      (None, set_idle (idleConns p ++ [conn]) p, w)
    else (None, add_active (-1) p, Close_conn conn w)
  end.

(** [Close] closes the idle connections, one decrement each. *)
Fixpoint Close_idle (idle : list Conn) (p : ConnPool) (w : World)
  : ConnPool * World :=
  match idle with
  | conn :: rest => Close_idle rest (add_active (-1) p) (Close_conn conn w)
  | [] => (p, w)
  end.

Definition Close (p : ConnPool) (w : World) : ConnPool * World :=
  if closed p then (p, w)
  else Close_idle (idleConns p) (set_idle [] (set_closed p)) w.

Definition ActiveCount (p : ConnPool) : Z := activeNum p.
Definition IdleCount (p : ConnPool) : Z := Z.of_nat (length (idleConns p)).

(** The loop of [GetWithRetry], with [n] iterations left and loop
    variable [i]; the result is the pair (connection, error) that the Go
    function returns. *)
Fixpoint GetWithRetry_loop (n : nat) (i maxRetries retryDelay : Z)
    (lastErr : option error) (p : ConnPool) (w : World)
  : (option Conn * option error) * ConnPool * World :=
  match n with
  | O => ((None, lastErr), p, w)
  | S n =>
    match Get p w with
    | (Ok conn, p, w) => ((Some conn, None), p, w)
    | (Fail err, p, w) =>
      if Is err ErrPoolClosed || Is err ErrPoolExhausted then
        ((None, Some err), p, w)
      else
        let w :=
          if i <? maxRetries
          then Sleep (wrap64 (retryDelay * wrap64 (2 ^ i))) w
          else w in
        GetWithRetry_loop n (i + 1) maxRetries retryDelay (Some err) p w
    end
  end.

(** [for i := 0; i <= maxRetries; i++]. *)
Definition GetWithRetry (maxRetries retryDelay : Z) (p : ConnPool) (w : World)
  : (option Conn * option error) * ConnPool * World :=
  GetWithRetry_loop (Z.to_nat (maxRetries + 1)) 0 maxRetries retryDelay None p w.

End Pool.

(** ** client.go *)

Module Client.
Import GoJson Protocol GoErr.
Local Open Scope Z_scope.

(** [shouldRetry]; [None] is the nil error. *)
Definition shouldRetry (err : option error) : bool :=
  match err with
  | None => false
  | Some err =>
    if Is err ErrClientClosed then false
    else if Is err context_Canceled || Is err context_DeadlineExceeded then false
    else if Is err ErrPoolExhausted then false
    else if As_net_Error err then true
    else if Is err ErrNoConnection || Is err io_EOF then true
    else false
  end.

Section Call.
(** The reply record of a call and how [json.Unmarshal] decodes a
    result into it. *)
Context {V : Type}.
Variable Unmarshal_reply : string -> V -> V + Wire.jsonerr.
(** What [uint64(f)] yields outside the range of uint64. *)
Variable oob : spec_float -> Z.

Record Call := mkCall {
  ServiceMethod : string;
  Reply : option V;
  Error : option error;
  seq : Z
}.

Definition set_Error (e : option error) (c : Call) : Call :=
  mkCall (ServiceMethod c) (Reply c) e (seq c).
Definition set_Reply (r : option V) (c : Call) : Call :=
  mkCall (ServiceMethod c) r (Error c) (seq c).

(** [receiveResponse], given what [reader.ReadBytes] returned: the bytes
    read and the error, if any. *)
Definition receiveResponse (read : string * option error) (call : Call)
  : option error * Call :=
  match read with
  | (_, Some err) =>
    match err with
    | Sentinel io_EOF => (Some (Opaque "connection closed by server"), call)
    | _ => (Some (Errorf_w "failed to read response" err), call)
    end
  | (respData, None) =>
    match Codec.DecodeResponse respData with
    | Fail err => (Some (Errorf_w "failed to decode response" err), call)
    | Ok resp =>
      match resp_ID resp with
      | VFloat64 respID =>
        if negb (Float64.to_uint64 oob respID =? seq call) then
          (Some (Opaque ("response ID mismatch: expected "
                         +:+ Float64.string_of_Z (seq call) +:+ ", got "
                         +:+ Float64.string_of_Z (Float64.to_uint64 oob respID))),
           call)
        else
          match resp_Error resp with
          | Some e => (None, set_Error (Some (Rpc e)) call)
          | None =>
            match resp_Result resp, Reply call with
            | Some result, Some reply =>
              match Unmarshal_reply result reply with
              | inr err =>
                (Some (Errorf_w "failed to unmarshal result" (Codec.json_error err)),
                 call)
              | inl reply' => (None, set_Reply (Some reply') call)
              end
            | _, _ => (None, call)
            end
          end
      | _ => (Some (Opaque "invalid response ID type"), call)
      end
    end
  end.

End Call.

End Client.

(** ** pool.go, continued: [Ping], [Stats], [CleanIdleConns] *)

Module PoolMaintenance.
Import GoErr Pool.
Local Open Scope Z_scope.

Definition IsClosed (p : ConnPool) : bool := closed p.

(** [Ping]: a lease that is given back at once. *)
Definition Ping (p : ConnPool) (w : World) : option error * ConnPool * World :=
  match Get p w with
  | (Fail err, p, w) => (Some err, p, w)
  | (Ok conn, p, w) => Put (Some conn) p w
  end.

Record PoolStats := mkStats {
  stat_ActiveCount : Z;
  stat_IdleCount : Z;
  stat_IsClosed : bool
}.

Definition Stats (p : ConnPool) : PoolStats :=
  mkStats (ActiveCount p) (IdleCount p) (IsClosed p).

(** The loop of [CleanIdleConns] with [n] iterations left.  Each iteration
    takes the connection at the head of the queue, or returns when the
    queue is empty; a connection that fails the health check is closed,
    another one is sent back to the queue, or closed when the queue is
    full.  [cleaned] is bounded by the number of iterations. *)
Fixpoint CleanIdleConns_loop (n : nat) (cleaned : Z) (p : ConnPool) (w : World)
  : Z * ConnPool * World :=
  match n with
  | O => (cleaned, p, w)
  | S n =>
    match idleConns p with
    | [] => (cleaned, p, w)
    | conn :: rest =>
      let p := set_idle rest p in
      let '(failed, w) :=
        if has_testConn p then
          match testConn conn w with
          | (Some _, w) => (true, w)
          | (None, w) => (false, w)
          end
        else (false, w) in
      if failed then
        CleanIdleConns_loop n (cleaned + 1) (add_active (-1) p) (Close_conn conn w)
      else if Z.of_nat (length (idleConns p)) <? maxIdle p then
        CleanIdleConns_loop n cleaned (set_idle (idleConns p ++ [conn]) p) w
      else
        CleanIdleConns_loop n (cleaned + 1) (add_active (-1) p) (Close_conn conn w)
    end
  end.

Definition CleanIdleConns (p : ConnPool) (w : World) : Z * ConnPool * World :=
  if closed p then (0, p, w)
  else CleanIdleConns_loop (length (idleConns p)) 0 p w.

End PoolMaintenance.

(** ** client.go, continued: [doCall] and [Call] *)

Module ClientCalls.
Import Bytes GoJson Protocol GoErr Wire Codec Pool Client.
Local Open Scope Z_scope.

(** [uint64] arithmetic, for the sequence numbers. *)
Definition wrap_u64 (z : Z) : Z := z mod 2 ^ 64.

(** How the [select] at the end of [doCall] ends: the goroutine that reads
    the response finished and was chosen, with what [ReadBytes] returned;
    or the context was done and was chosen, with [ctx.Err()], the reading
    goroutine having finished before that or not. *)
Inductive wait_outcome :=
| Answered (read : string * option error)
| Expired (err : error) (late : option (string * option error)).

(** The context and the connection, as far as a call is concerned: what
    the k-th look at [ctx.Done()] finds (nil, or the error of the context
    that is done), and how the k-th request that reaches the writer fares;
    the requests flushed so far and the timers waited for in full. *)
Record Net := mkNet {
  ctx_done : nat -> option error;
  looks : nat;
  write_err : nat -> option error;
  flush_err : nat -> option error;
  waits : nat -> wait_outcome;
  writes : nat;
  sent : list (Conn * string);
  naps : list Z
}.

Definition look (n : Net) : option error * Net :=
  (ctx_done n (looks n),
   mkNet (ctx_done n) (S (looks n)) (write_err n) (flush_err n) (waits n)
         (writes n) (sent n) (naps n)).

Definition next_write (n : Net) : Net :=
  mkNet (ctx_done n) (looks n) (write_err n) (flush_err n) (waits n)
        (S (writes n)) (sent n) (naps n).

Definition flushed (conn : Conn) (data : string) (n : Net) : Net :=
  mkNet (ctx_done n) (looks n) (write_err n) (flush_err n) (waits n)
        (writes n) (sent n ++ [(conn, data)]) (naps n).

Definition nap (d : Z) (n : Net) : Net :=
  mkNet (ctx_done n) (looks n) (write_err n) (flush_err n) (waits n)
        (writes n) (sent n) (naps n ++ [d]).

(** [fmt.Errorf] with the verbs %w: %v on [ErrNoConnection] and the error
    of the pool: only the first is wrapped. *)
Definition no_connection (err : error) : error :=
  Wrapf (sentinel_text ErrNoConnection +:+ ": " +:+ ErrorString err)
        (Sentinel ErrNoConnection).

(** [fmt.Errorf] with %d and %w on the last error, which is nil when the
    loop did not run. *)
Definition call_failed (maxRetries : Z) (lastErr : option error) : error :=
  match lastErr with
  | Some err =>
    Wrapf ("call failed after " +:+ Float64.string_of_Z maxRetries
           +:+ " retries: " +:+ ErrorString err) err
  | None =>
    Opaque ("call failed after " +:+ Float64.string_of_Z maxRetries
            +:+ " retries: %!w(<nil>)")
  end.

Section Calls.
(** The arguments and the reply record of a call, and how [json.Marshal]
    and [json.Unmarshal] treat them. *)
Context {A V : Type}.
Variable Marshal_args : A -> string + jsonerr.
Variable Unmarshal_reply : string -> V -> V + jsonerr.
Variable oob : spec_float -> Z.

(** [Client]: the entries of [pending] are pointers to the calls, kept
    here as the calls were when they were entered. *)
Record Client := mkClient {
  connPool : ConnPool;
  seq_counter : Z;
  pending : gmap Z (Call (V := V));
  closed_flag : bool;
  maxRetries : Z;
  retryDelay : Z
}.

Definition set_connPool (p : ConnPool) (c : Client) : Client :=
  mkClient p (seq_counter c) (pending c) (closed_flag c) (maxRetries c)
           (retryDelay c).

Definition set_seq_counter (n : Z) (c : Client) : Client :=
  mkClient (connPool c) n (pending c) (closed_flag c) (maxRetries c)
           (retryDelay c).

Definition set_pending (m : gmap Z (Call (V := V))) (c : Client) : Client :=
  mkClient (connPool c) (seq_counter c) m (closed_flag c) (maxRetries c)
           (retryDelay c).

Definition set_call_seq (n : Z) (call : Call (V := V)) : Call :=
  mkCall (ServiceMethod call) (Reply call) (Error call) n.

(** [doCall]; [args] is the field [Args] of the call, nil when [None].
    The deferred calls run on every return after their [defer]: the
    connection is given back, then the entry of [pending] is deleted. *)
Definition doCall (args : option A) (call : Call) (c : Client)
    (pw : World) (net : Net)
  : option error * Call * Client * World * Net :=
  let seq := wrap_u64 (seq_counter c + 1) in
  let c := set_seq_counter seq c in
  let call := set_call_seq seq call in
  let c := set_pending (<[seq := call]> (pending c)) c in
  let unregister (c : Client) := set_pending (delete seq (pending c)) c in
  match Get (connPool c) pw with
  | (Fail err, p, pw) =>
    (Some (no_connection err), call, unregister (set_connPool p c), pw, net)
  | (Ok conn, p, pw) =>
    let leave (r : option error) (call : Call) (net : Net) :=
      match Put (Some conn) p pw with
      | (_, p, pw) => (r, call, unregister (set_connPool p c), pw, net)
      end in
    match
      match args with
      | None => inl None
      | Some a =>
        match Marshal_args a with
        | inl argsData => inl (Some argsData)
        | inr err => inr err
        end
      end
    with
    | inr err =>
      leave (Some (Errorf_w "failed to marshal args" (json_error err))) call net
    | inl params =>
      let req := mkRequest JSONRPCVersion (ServiceMethod call) params
                           (VUint64 seq) in
      match snd (EncodeRequest (Some req)) with
      | Fail err => leave (Some (Errorf_w "failed to encode request" err)) call net
      | Ok reqData =>
        let k := writes net in
        let net := next_write net in
        match write_err net k with
        | Some err =>
          leave (Some (Errorf_w "failed to write request" err)) call net
        | None =>
          match flush_err net k with
          | Some err =>
            leave (Some (Errorf_w "failed to flush request" err)) call net
          | None =>
            let net := flushed conn reqData net in
            match waits net k with
            | Answered read =>
              let '(r, call) := receiveResponse Unmarshal_reply oob read call in
              leave r call net
            | Expired err late =>
              let call :=
                match late with
                | Some read =>
                  snd (receiveResponse Unmarshal_reply oob read call)
                | None => call
                end in
              leave (Some err) call net
            end
          end
        end
      end
    end
  end.

(** The loop of [Call] with [n] iterations left. *)
Fixpoint Call_loop (n : nat) (attempt : Z) (lastErr : option error)
    (args : option A) (call : Call) (c : Client) (pw : World) (net : Net)
  : option error * Call * Client * World * Net :=
  match n with
  | O => (Some (call_failed (maxRetries c) lastErr), call, c, pw, net)
  | S n =>
    match look net with
    | (Some ctxErr, net) => (Some ctxErr, call, c, pw, net)
    | (None, net) =>
      match doCall args call c pw net with
      | (None, call, c, pw, net) => (Error call, call, c, pw, net)
      | (Some err, call, c, pw, net) =>
        if negb (shouldRetry (Some err)) then (Some err, call, c, pw, net)
        else if attempt <? maxRetries c then
          let delay := wrap64 (retryDelay c * wrap64 (2 ^ attempt)) in
          match look net with
          | (Some ctxErr, net) => (Some ctxErr, call, c, pw, net)
          | (None, net) =>
            Call_loop n (attempt + 1) (Some err) args call c pw (nap delay net)
          end
        else Call_loop n (attempt + 1) (Some err) args call c pw net
      end
    end
  end.

(** [Call]; the reply is the record that [reply] points to, [None] when
    [reply] is nil. *)
Definition Call_ (serviceMethod : string) (args : option A) (reply : option V)
    (c : Client) (pw : World) (net : Net)
  : option error * option V * Client * World * Net :=
  if closed_flag c then (Some (Sentinel ErrClientClosed), reply, c, pw, net)
  else if String.eqb serviceMethod "" then
    (Some (Opaque "service method is required"), reply, c, pw, net)
  else
    match reply with
    | None => (Some (Opaque "reply must not be nil"), reply, c, pw, net)
    | Some _ =>
      let call := mkCall serviceMethod reply None 0 in
      match Call_loop (Z.to_nat (maxRetries c + 1)) 0 None args call c pw net with
      | (r, call, c, pw, net) => (r, Reply call, c, pw, net)
      end
    end.

End Calls.

End ClientCalls.

(** ** registry.go, continued: [Register] *)

Module Registration.
Import Bytes GoErr Registry.
Local Open Scope N_scope.

Definition RuneError : N := 65533.

(** [utf8.DecodeRuneInString]: the first rune and its width; the empty
    string gives ([RuneError], 0) and an invalid encoding ([RuneError], 1). *)
Definition DecodeRuneInString (s : string) : N * nat :=
  match s with
  | EmptyString => (RuneError, 0%nat)
  | String c0 r0 =>
    if code c0 <? 128 then (code c0, 1%nat)
    else
      match r0 with
      | String c1 r1 =>
        if Utf8.lead2 c0 && Utf8.cont c1 then
          ((code c0 mod 32) * 64 + code c1 mod 64, 2%nat)
        else
          match r1 with
          | String c2 r2 =>
            if Utf8.lead3 c0 c1 && Utf8.cont c2 then
              ((code c0 mod 16) * 4096 + (code c1 mod 64) * 64 + code c2 mod 64,
               3%nat)
            else
              match r2 with
              | String c3 _ =>
                if Utf8.lead4 c0 c1 && Utf8.cont c2 && Utf8.cont c3 then
                  ((code c0 mod 8) * 262144 + (code c1 mod 64) * 4096
                   + (code c2 mod 64) * 64 + code c3 mod 64, 4%nat)
                else (RuneError, 1%nat)
              | EmptyString => (RuneError, 1%nat)
              end
          | EmptyString => (RuneError, 1%nat)
          end
      | EmptyString => (RuneError, 1%nat)
      end
  end.

Section Reflection.
Context {V : Type}.
Variable Context_ : Type.
(** [unicode.IsUpper], the table of upper case letters. *)
Variable unicode_IsUpper : N -> bool.

Definition isExported (name : string) : bool :=
  unicode_IsUpper (fst (DecodeRuneInString name)).

(** What reflection tells about a type that is a parameter or a result of
    a method: its kind, whether it implements [context.Context], whether it
    is the interface [error], its [String()], and for a pointer type what
    [reflect.New] of its [Elem()] allocates and how [json.Unmarshal]
    decodes into that. *)
Record reflectType := {
  Kind_is_Ptr : bool;
  Implements_Context : bool;
  is_error_interface : bool;
  type_String : string;
  Elem_new : V;
  Elem_unmarshal : string -> V -> V + string
}.

(** A [reflect.Method] of the method set; [m_In] starts with the
    receiver. *)
Record reflectMethod := {
  m_Name : string;
  m_In : list reflectType;
  m_Out : list reflectType;
  m_Func : V -> Context_ -> V -> V -> outcome V
}.

(** The value passed to [Register], which is not nil, as reflection sees
    it: [typ_Name] is the name of the type behind the pointer, empty for an
    unnamed type. *)
Record goService := {
  typ_String : string;
  typ_Name : string;
  svc_value : V;
  typ_Methods : list reflectMethod
}.

Definition show_nat (n : nat) : string :=
  Float64.string_of_Z (Z.of_nat n).

(** [validateMethod]; [None] is the nil error.  The number of parameters
    is 4 exactly when the list has the shape matched here, and likewise for
    the single result. *)
Definition validateMethod (mname : string) (mtype : reflectMethod)
  : option error :=
  if negb (isExported mname) then
    Some (Opaque ("method " +:+ mname +:+ " is not exported"))
  else
    match m_In mtype with
    | [_; ctxType; argType; replyType] =>
      if negb (Implements_Context ctxType) then
        Some (Opaque ("method " +:+ mname
                      +:+ " first argument is not context.Context"))
      else if negb (Kind_is_Ptr argType) then
        Some (Opaque ("method " +:+ mname +:+ " args type not a pointer: "
                      +:+ type_String argType))
      else if negb (Kind_is_Ptr replyType) then
        Some (Opaque ("method " +:+ mname +:+ " reply type not a pointer: "
                      +:+ type_String replyType))
      else
        match m_Out mtype with
        | [returnType] =>
          if negb (is_error_interface returnType) then
            Some (Opaque ("method " +:+ mname +:+ " returns "
                          +:+ type_String returnType +:+ " not error"))
          else None
        | outs =>
          Some (Opaque ("method " +:+ mname +:+ " has wrong number of outs: "
                        +:+ show_nat (length outs)))
        end
    | ins =>
      Some (Opaque ("method " +:+ mname +:+ " has wrong number of ins: "
                    +:+ show_nat (length ins)))
    end.

(** The [methodType] cached for a method; [None] is the panic of [In(2)]
    or [In(3)] on a function type with fewer parameters. *)
Definition cache (m : reflectMethod) : option (methodType V Context_) :=
  match m_In m with
  | _ :: _ :: argType :: replyType :: _ =>
    Some {| method := m_Func m;
            ArgType_new := Elem_new argType;
            ArgType_unmarshal := Elem_unmarshal argType;
            ReplyType_new := Elem_new replyType |}
  | _ => None
  end.

(** The loop of [register] over the method set. *)
Fixpoint extract (ms : list reflectMethod)
    (methods : gmap string (methodType V Context_))
  : option (gmap string (methodType V Context_)) :=
  match ms with
  | [] => Some methods
  | m :: rest =>
    match validateMethod (m_Name m) m with
    | Some _ => extract rest methods
    | None =>
      match cache m with
      | Some mt => extract rest (<[m_Name m := mt]> methods)
      | None => None
      end
    end
  end.

(** [register]; the outer [None] is a run-time panic. *)
Definition register (r : ServiceRegistry V Context_) (service : goService)
    (name : string) (useName : bool)
  : option (ServiceRegistry V Context_ * option error) :=
  let sname := if useName then name else typ_Name service in
  if String.eqb sname "" then
    Some (r, Some (Opaque ("rerpc.Register: no service name for type "
                           +:+ typ_String service)))
  else if negb useName && negb (isExported sname) then
    Some (r, Some (Opaque ("rerpc.Register: type " +:+ sname
                           +:+ " is not exported")))
  else
    match services r !! sname with
    | Some _ =>
      Some (r, Some (Opaque ("rerpc.Register: service " +:+ sname
                             +:+ " already registered")))
    | None =>
      match extract (typ_Methods service) ∅ with
      | None => None
      | Some methods =>
        if Nat.eqb (size methods) 0 then
          Some (r, Some (Opaque ("rerpc.Register: type " +:+ sname
                                 +:+ " has no exported methods of suitable type")))
        else
          Some ({| services :=
                     <[sname := {| name := sname;
                                   rcvr := svc_value service;
                                   methods := methods |}]> (services r) |},
                None)
      end
    end.

Definition Register (r : ServiceRegistry V Context_) (service : goService) :=
  register r service "" false.

Definition RegisterName (r : ServiceRegistry V Context_) (name : string)
    (service : goService) :=
  register r service name true.

Definition NewServiceRegistry : ServiceRegistry V Context_ :=
  {| services := ∅ |}.

End Reflection.

End Registration.

(** ** server.go, continued: [handleConn] *)

Module Connection.
Import Bytes GoJson Protocol GoErr Wire Server.

(** [bufio.Reader.ReadBytes] with the newline as delimiter, on the bytes
    that the reader still obtains before its first error: the bytes up to
    and including the first newline, and the bytes after it.  [None] is the
    case where the error comes first (the peer has closed the connection,
    or the read deadline has passed), in which the reader returns the error
    along with the bytes it has read. *)
Fixpoint ReadBytes (s : string) : option (string * string) :=
  match s with
  | EmptyString => None
  | String c r =>
    if ch_eq c newline then Some (String c "", r)
    else
      match ReadBytes r with
      | Some (line, rest) => Some (String c line, rest)
      | None => None
      end
  end.

(** What the k-th turn of the loop of [handleConn] meets: whether the load
    of [s.shutdown] finds 1, and whether [Write] and [Flush] of the
    response return an error. *)
Record Link := mkLink {
  shutdown_at : nat -> bool;
  write_fails : nat -> bool;
  flush_fails : nat -> bool
}.

Section Serving.
Context {V : Type}.
Variable Context_ : Type.
Variable Background : Context_.
Variable Marshal_reply : V -> string + jsonerr.
Variable fmt_v : GoValue -> string.

(** The loop of [handleConn] at its k-th turn with [n] turns left:
    [incoming] are the bytes still to be read and [written] the responses
    written and flushed so far.  [processRequest] returns either a copy of
    the encoder's buffer or the bytes of a string, so the slice it returns
    is never nil and the response is always written.  The result is the
    list of the responses that were written and flushed when the loop
    ends; [None] is a panic of [processRequest], or no turn left, which
    does not happen since every turn reads at least one byte. *)
Fixpoint handleConn_loop (n k : nat) (s : Server Context_) (l : Link)
    (incoming : string) (written : list string) : option (list string) :=
  match n with
  | O => None
  | S n =>
    if shutdown_at l k then Some written
    else
      match ReadBytes incoming with
      | None => Some written
      | Some (data, rest) =>
        match processRequest Context_ Background Marshal_reply fmt_v s data with
        | None => None
        | Some respData =>
          if write_fails l k then Some written
          else if flush_fails l k then Some written
          else handleConn_loop n (S k) s l rest (written ++ [respData])
        end
      end
  end.

(** [handleConn] on a connection from which the reader obtains
    [incoming]; the connection is closed when it returns. *)
Definition handleConn (s : Server Context_) (l : Link) (incoming : string)
  : option (list string) :=
  handleConn_loop (S (String.length incoming)) 0 s l incoming [].

End Serving.

End Connection.

(** ** client.go, continued: [NewClient], [Close], [Ping], [Stats] *)

Module ClientLife.
Import Bytes GoJson Protocol GoErr Wire Codec Pool PoolMaintenance Client.
Import ClientCalls.
Local Open Scope Z_scope.

(** [time.Duration] counts nanoseconds. *)
Definition Millisecond : Z := 1000000.
Definition Second : Z := 1000 * Millisecond.

Record ClientConfig := {
  ccfg_Network : string;
  ccfg_Address : string;
  ccfg_MaxIdle : Z;
  ccfg_MaxActive : Z;
  ccfg_DialTimeout : Z;
  ccfg_MaxRetries : Z;
  ccfg_RetryDelay : Z
}.

Section Life.
Context {V : Type}.

(** [NewClient]: the defaults, then the pool with the health check on. *)
Definition NewClient (config : ClientConfig) : result (Client (V := V)) :=
  if String.eqb (ccfg_Address config) "" then
    Fail (Opaque "address is required")
  else
    let MaxIdle :=
      if ccfg_MaxIdle config <=? 0 then 10 else ccfg_MaxIdle config in
    let MaxActive :=
      if ccfg_MaxActive config <=? 0 then 100 else ccfg_MaxActive config in
    let MaxRetries :=
      if ccfg_MaxRetries config <? 0 then 3 else ccfg_MaxRetries config in
    let RetryDelay :=
      if ccfg_RetryDelay config <=? 0 then 100 * Millisecond
      else ccfg_RetryDelay config in
    match NewConnPool {| cfg_Address := ccfg_Address config;
                         cfg_MaxIdle := MaxIdle;
                         cfg_MaxActive := MaxActive;
                         cfg_TestOnGet := true |} with
    | Fail err => Fail (Errorf_w "failed to create connection pool" err)
    | Ok connPool => Ok (mkClient connPool 0 ∅ false MaxRetries RetryDelay)
    end.

(** [Close]: the first call closes the pool, whose [Close] returns nil,
    and fails the calls that are pending, which it hands to their [Done]
    channels; they are the second component of the result. *)
Definition Close (c : Client (V := V)) (pw : World)
  : option error * gmap Z (Call (V := V)) * Client (V := V) * World :=
  if closed_flag c then (None, ∅, c, pw)
  else
    match Pool.Close (connPool c) pw with
    | (p, pw) =>
      (None,
       set_Error (Some (Sentinel ErrClientClosed)) <$> pending c,
       mkClient p (seq_counter c) ∅ true (maxRetries c) (retryDelay c),
       pw)
    end.

Definition Ping (c : Client (V := V)) (pw : World)
  : option error * Client (V := V) * World :=
  if closed_flag c then (Some (Sentinel ErrClientClosed), c, pw)
  else
    match PoolMaintenance.Ping (connPool c) pw with
    | (r, p, pw) => (r, set_connPool p c, pw)
    end.

Record ClientStats := mkClientStats {
  stat_PendingCalls : Z;
  stat_PoolStats : PoolStats;
  stat_Closed : bool
}.

Definition Stats (c : Client (V := V)) : ClientStats :=
  mkClientStats (Z.of_nat (size (pending c))) (PoolMaintenance.Stats (connPool c))
                (closed_flag c).

Definition SetMaxRetries (n : Z) (c : Client (V := V)) : Client (V := V) :=
  mkClient (connPool c) (seq_counter c) (pending c) (closed_flag c) n
           (retryDelay c).

Definition SetRetryDelay (d : Z) (c : Client (V := V)) : Client (V := V) :=
  mkClient (connPool c) (seq_counter c) (pending c) (closed_flag c)
           (maxRetries c) d.

End Life.

End ClientLife.

(** * Properties *)

(** ** The retry classifier of the client *)

Module ClientRetry.
Import GoErr Client.

(** The errors that end the retries, whatever else they are. *)
Definition terminal (e : error) : bool :=
  Is e ErrClientClosed || Is e context_Canceled
  || Is e context_DeadlineExceeded || Is e ErrPoolExhausted.

(** The errors that are retried when they are not terminal. *)
Definition transient (e : error) : bool :=
  As_net_Error e || Is e ErrNoConnection || Is e io_EOF.

(** A connection attempt abandoned because its context was cancelled: a
    [*net.OpError] that wraps [context.Canceled]. *)
Definition canceled_dial : error :=
  NetError "dial tcp 127.0.0.1:8080: operation was canceled"
           (Some (Sentinel context_Canceled)).

Lemma shouldRetry_canceled_dial :
  As_net_Error canceled_dial = true /\
  shouldRetry (Some canceled_dial) = false.
Proof. split; reflexivity. Qed.

(** C8 (as amended): [shouldRetry] is false for nil and for every error
    whose chain contains [ErrClientClosed], [context.Canceled],
    [context.DeadlineExceeded] or [ErrPoolExhausted], even when the error
    is also a network error; for every other error it is true exactly when
    the chain contains a [net.Error], [ErrNoConnection] or [io.EOF].  In
    particular it is true for a network error that wraps nothing, for
    [io.EOF] and for [ErrNoConnection], and false for the four terminal
    errors themselves, for errors of this package's [Error] type and for
    errors of any other kind. *)
Theorem shouldRetry_priority :
  shouldRetry None = false
  /\ (forall e, shouldRetry (Some e) = negb (terminal e) && transient e)
  /\ (forall msg, shouldRetry (Some (NetError msg None)) = true)
  /\ shouldRetry (Some (Sentinel io_EOF)) = true
  /\ shouldRetry (Some (Sentinel ErrNoConnection)) = true
  /\ shouldRetry (Some (Sentinel context_Canceled)) = false
  /\ shouldRetry (Some (Sentinel context_DeadlineExceeded)) = false
  /\ shouldRetry (Some (Sentinel ErrClientClosed)) = false
  /\ shouldRetry (Some (Sentinel ErrPoolExhausted)) = false
  /\ (forall r, shouldRetry (Some (Rpc r)) = false)
  /\ (forall msg, shouldRetry (Some (Opaque msg)) = false).
Proof.
  repeat split; try reflexivity.
  intros e. unfold shouldRetry, terminal, transient.
  destruct (Is e ErrClientClosed); [reflexivity|].
  destruct (Is e context_Canceled); [reflexivity|].
  destruct (Is e context_DeadlineExceeded); [reflexivity|].
  destruct (Is e ErrPoolExhausted); [reflexivity|].
  destruct (As_net_Error e); [reflexivity|].
  destruct (Is e ErrNoConnection), (Is e io_EOF); reflexivity.
Qed.

End ClientRetry.

(** ** The connection pool *)

Module PoolProps.
Import GoErr Pool.
Local Open Scope Z_scope.

(** *** Fixed-width arithmetic *)

Lemma wrap32_small z : - 2 ^ 31 <= z < 2 ^ 31 -> wrap32 z = z.
Proof. intros H. unfold wrap32. rewrite Z.mod_small; lia. Qed.

Lemma wrap32_add_l a b : wrap32 (wrap32 a + b) = wrap32 (a + b).
Proof.
  unfold wrap32. f_equal.
  replace ((a + 2 ^ 31) mod 2 ^ 32 - 2 ^ 31 + b + 2 ^ 31)
    with ((a + 2 ^ 31) mod 2 ^ 32 + b) by lia.
  rewrite Zplus_mod_idemp_l. f_equal. lia.
Qed.

Lemma wrap32_range z : - 2 ^ 31 <= wrap32 z < 2 ^ 31.
Proof.
  unfold wrap32.
  pose proof (Z.mod_pos_bound (z + 2 ^ 31) (2 ^ 32) ltac:(lia)). lia.
Qed.

Lemma wrap32_le_pos z : 0 < z -> wrap32 z <= z.
Proof.
  intros H. destruct (Z_lt_ge_dec z (2 ^ 31)) as [Hlt|Hge].
  - rewrite wrap32_small; lia.
  - pose proof (wrap32_range z). lia.
Qed.

Lemma wrap64_mul_r a b : wrap64 (a * wrap64 b) = wrap64 (a * b).
Proof.
  unfold wrap64. f_equal.
  rewrite <- (Zplus_mod_idemp_l (a * _)), <- (Zplus_mod_idemp_l (a * b)).
  f_equal. f_equal.
  rewrite Zmult_mod. rewrite (Zmult_mod a b).
  f_equal. f_equal.
  replace ((b + 2 ^ 63) mod 2 ^ 64 - 2 ^ 63)
    with ((b + 2 ^ 63) mod 2 ^ 64 + (- 1) * 2 ^ 63) by lia.
  rewrite <- Zplus_mod_idemp_l, Zmod_mod, Zplus_mod_idemp_l.
  replace (b + 2 ^ 63 + -1 * 2 ^ 63) with b by lia. reflexivity.
Qed.

(** *** Runs of the pool.  [leased] is ghost state: the connections that
    [Get] handed out and that were not yet given back. *)

Inductive op :=
| OpGet
| OpPut (conn : Conn)
| OpClose.

Record sys := mkSys {
  pool : ConnPool;
  world : World;
  leased : list Conn
}.

Fixpoint remove_one (c : Conn) (l : list Conn) : list Conn :=
  match l with
  | [] => []
  | x :: r => if Nat.eqb x c then r else x :: remove_one c r
  end.

Definition step (o : op) (s : sys) : sys :=
  match o with
  | OpGet =>
    match Get (pool s) (world s) with
    | (Ok conn, p, w) => mkSys p w (conn :: leased s)
    | (Fail _, p, w) => mkSys p w (leased s)
    end
  | OpPut conn =>
    match Put (Some conn) (pool s) (world s) with
    | (_, p, w) => mkSys p w (remove_one conn (leased s))
    end
  | OpClose =>
    match Close (pool s) (world s) with
    | (p, w) => mkSys p w (leased s)
    end
  end.

Fixpoint run (ops : list op) (s : sys) : sys :=
  match ops with
  | [] => s
  | o :: rest => run rest (step o s)
  end.

(** A client gives back only connections that it holds. *)
Fixpoint disciplined (ops : list op) (s : sys) : Prop :=
  match ops with
  | [] => True
  | o :: rest =>
    match o with
    | OpPut conn => In conn (leased s)
    | _ => True
    end /\ disciplined rest (step o s)
  end.

(** Connections that are open: on lease or idle in the pool. *)
Definition live (s : sys) : Z :=
  Z.of_nat (length (leased s) + length (idleConns (pool s))).

Definition counted (p : ConnPool) (n : nat) : Prop :=
  activeNum p = wrap32 (Z.of_nat n)
  /\ (0 < maxActive p -> Z.of_nat n <= Z.max 0 (wrap32 (maxActive p))).

Definition inv (s : sys) : Prop :=
  counted (pool s) (length (leased s) + length (idleConns (pool s))).

Lemma counted_exact p n :
  counted p n -> 0 < maxActive p -> activeNum p = Z.of_nat n.
Proof.
  intros [Ha Hb] Hm. specialize (Hb Hm). rewrite Ha.
  pose proof (wrap32_range (maxActive p)).
  apply wrap32_small. lia.
Qed.

Lemma counted_dec p n idle :
  counted p (S n) ->
  counted (add_active (-1) (set_idle idle p)) n.
Proof.
  intros [Ha Hb]. split; simpl.
  - rewrite Ha, wrap32_add_l. f_equal. lia.
  - intros Hm. specialize (Hb Hm). lia.
Qed.

Lemma counted_set_idle p n idle : counted p n -> counted (set_idle idle p) n.
Proof. intros H. exact H. Qed.

Lemma Get_slow_counted p w n :
  counted p n ->
  match Get_slow p w with
  | (Ok _, p', _) => counted p' (S n) /\ idleConns p' = idleConns p
  | (Fail _, p', _) => counted p' n /\ idleConns p' = idleConns p
  end
  /\ maxActive (snd (fst (Get_slow p w))) = maxActive p
  /\ maxIdle (snd (fst (Get_slow p w))) = maxIdle p
  /\ closed (snd (fst (Get_slow p w))) = closed p.
Proof.
  intros Hc. unfold Get_slow.
  destruct ((0 <? maxActive p) && (wrap32 (maxActive p) <=? activeNum p)) eqn:Hex.
  - simpl. auto.
  - unfold dial. destruct (dial_answers w (dials w)) as [conn|err]; simpl; auto.
    repeat split; auto.
    + destruct Hc as [Ha _]. simpl. rewrite Ha, wrap32_add_l. f_equal. lia.
    + simpl. intros Hm. pose proof (counted_exact _ _ Hc Hm) as He.
      apply andb_false_iff in Hex. destruct Hex as [Hex|Hex].
      * apply Z.ltb_ge in Hex. lia.
      * apply Z.leb_gt in Hex. lia.
Qed.

Lemma Get_fast_counted idle : forall p w n,
  idleConns p = idle ->
  counted p (n + length idle) ->
  match Get_fast idle p w with
  | (Ok _, p', _) => counted p' (S n + length (idleConns p'))
  | (Fail _, p', _) => counted p' (n + length (idleConns p'))
  end
  /\ maxActive (snd (fst (Get_fast idle p w))) = maxActive p
  /\ maxIdle (snd (fst (Get_fast idle p w))) = maxIdle p
  /\ closed (snd (fst (Get_fast idle p w))) = closed p.
Proof.
  induction idle as [|conn rest IH]; intros p w n Hidle Hc; simpl.
  - pose proof (Get_slow_counted p w _ Hc) as [H1 H2].
    split; [|exact H2].
    destruct (Get_slow p w) as [[[c|e] p'] w']; destruct H1 as [H1 Hi];
      rewrite Hi, Hidle; simpl; exact H1.
  - destruct (testOnGet p && has_testConn p) eqn:Ht.
    + unfold testConn. destruct (test_answers w (tests w) conn) as [err|].
      * assert (Hc' : counted (add_active (-1) (set_idle rest p)) (n + length rest)).
        { apply counted_dec. simpl in Hc.
          replace (S (n + length rest)) with (n + S (length rest))%nat by lia.
          exact Hc. }
        specialize (IH (add_active (-1) (set_idle rest p))
                       (Close_conn conn
                          (mkWorld (dial_answers w) (dials w) (test_answers w)
                                   (S (tests w)) (closed_conns w) (sleeps w)))
                       n eq_refl Hc').
        exact IH.
      * simpl. repeat split; auto; simpl in Hc; destruct Hc as [Ha Hb]; simpl.
        -- rewrite Ha. f_equal. lia.
        -- intros Hm. specialize (Hb Hm). lia.
    + simpl. repeat split; auto; simpl in Hc; destruct Hc as [Ha Hb]; simpl.
      * rewrite Ha. f_equal. lia.
      * intros Hm. specialize (Hb Hm). lia.
Qed.

Lemma In_remove_one_length c l :
  In c l -> length l = S (length (remove_one c l)).
Proof.
  induction l as [|x r IH]; simpl; [tauto|].
  intros [->|H].
  - rewrite Nat.eqb_refl. reflexivity.
  - destruct (Nat.eqb x c); [reflexivity|]. simpl. rewrite <- IH; auto.
Qed.

Lemma Close_idle_counted idle : forall p w n,
  idleConns p = [] ->
  counted p (n + length idle) ->
  counted (fst (Close_idle idle p w)) n
  /\ idleConns (fst (Close_idle idle p w)) = []
  /\ maxActive (fst (Close_idle idle p w)) = maxActive p
  /\ maxIdle (fst (Close_idle idle p w)) = maxIdle p.
Proof.
  induction idle as [|conn rest IH]; intros p w n Hi Hc; simpl.
  - simpl in Hc. replace (n + 0)%nat with n in Hc by lia. auto.
  - assert (Hc' : counted (add_active (-1) p) (n + length rest)).
    { destruct Hc as [Ha Hb]. split; simpl.
      - rewrite Ha, wrap32_add_l. f_equal. simpl. lia.
      - intros Hm. specialize (Hb Hm). simpl in Hb. lia. }
    destruct (IH (add_active (-1) p) (Close_conn conn w) n Hi Hc')
      as (H1 & H2 & H3 & H4).
    auto.
Qed.

Lemma counted_add_neg p n m :
  counted p n -> n = S m -> counted (add_active (-1) p) m.
Proof.
  intros [Ha Hb] ->. split; simpl.
  - rewrite Ha, wrap32_add_l. f_equal. lia.
  - intros Hm. specialize (Hb Hm). lia.
Qed.

Lemma counted_same p p' n m :
  counted p n -> n = m ->
  activeNum p' = activeNum p -> maxActive p' = maxActive p ->
  counted p' m.
Proof. intros [Ha Hb] -> H1 H2. split; rewrite ?H1, ?H2; assumption. Qed.

Lemma step_inv o s :
  inv s ->
  match o with OpPut conn => In conn (leased s) | _ => True end ->
  inv (step o s)
  /\ maxActive (pool (step o s)) = maxActive (pool s)
  /\ maxIdle (pool (step o s)) = maxIdle (pool s).
Proof.
  unfold inv. intros Hinv Hd. destruct o as [|conn|]; simpl.
  - unfold Get. destruct (closed (pool s)) eqn:Hcl; simpl; [auto|].
    pose proof (Get_fast_counted (idleConns (pool s)) (pool s) (world s)
                  (length (leased s)) eq_refl Hinv) as (H1 & H2 & H3 & _).
    destruct (Get_fast (idleConns (pool s)) (pool s) (world s))
      as [[[c|e] p'] w']; simpl in *; auto.
  - unfold Put. apply In_remove_one_length in Hd.
    destruct (closed (pool s)) eqn:Hcl; simpl.
    + split; [|split; reflexivity].
      apply (counted_add_neg _ _ _ Hinv). lia.
    + destruct (Z.of_nat (length (idleConns (pool s))) <? maxIdle (pool s));
        simpl; (split; [|split; reflexivity]).
      * apply (counted_same _ _ _ _ Hinv); [|reflexivity|reflexivity].
        rewrite length_app. simpl. lia.
      * apply (counted_add_neg _ _ _ Hinv). lia.
  - unfold Close. destruct (closed (pool s)) eqn:Hcl; simpl; [auto|].
    assert (Hc : counted (set_idle [] (set_closed (pool s)))
                   (length (leased s) + length (idleConns (pool s)))).
    { exact Hinv. }
    pose proof (Close_idle_counted (idleConns (pool s))
                  (set_idle [] (set_closed (pool s))) (world s)
                  (length (leased s)) eq_refl Hc) as (H1 & H2 & H3 & H4).
    destruct (Close_idle (idleConns (pool s))
                (set_idle [] (set_closed (pool s))) (world s)) as [p' w'].
    simpl in *. rewrite H2. simpl.
    replace (length (leased s) + 0)%nat with (length (leased s)) by lia.
    auto.
Qed.

Lemma run_inv ops : forall s,
  inv s -> disciplined ops s ->
  inv (run ops s) /\ maxActive (pool (run ops s)) = maxActive (pool s).
Proof.
  induction ops as [|o rest IH]; intros s Hinv Hd; simpl; [auto|].
  destruct Hd as [Hd1 Hd2].
  destruct (step_inv o s Hinv Hd1) as (H1 & H2 & _).
  destruct (IH _ H1 Hd2) as [H3 H4]. split; [exact H3|congruence].
Qed.

Lemma NewConnPool_init config p0 :
  NewConnPool config = Ok p0 ->
  idleConns p0 = [] /\ activeNum p0 = 0 /\ 0 <= maxActive p0.
Proof.
  unfold NewConnPool. destruct (String.eqb _ _); [discriminate|].
  intros [= <-]. simpl. repeat split.
  destruct (cfg_MaxActive config <? 0) eqn:H; [lia|]. apply Z.ltb_ge in H. lia.
Qed.

(** C2 (as amended): in every state that a pool reaches from
    [NewConnPool] by [Get], [Put] and [Close], where [Put] is given only
    connections on lease, the active count is the number of open
    connections, those on lease plus those idle in the pool, as an int32.
    When [maxActive] is positive the count is exactly that number, is not
    negative and does not exceed [maxActive]; without a limit the same
    holds as long as fewer than 2^31 connections are open. *)
Theorem active_count_is_open_connections config p0 w0 ops :
  NewConnPool config = Ok p0 ->
  disciplined ops (mkSys p0 w0 []) ->
  let s := run ops (mkSys p0 w0 []) in
  ActiveCount (pool s) = wrap32 (live s)
  /\ (0 < maxActive (pool s) ->
      ActiveCount (pool s) = live s
      /\ 0 <= ActiveCount (pool s) <= maxActive (pool s))
  /\ (live s < 2 ^ 31 ->
      ActiveCount (pool s) = live s /\ 0 <= ActiveCount (pool s)).
Proof.
  intros Hnew Hd s.
  destruct (NewConnPool_init _ _ Hnew) as (Hi & Ha & Hm).
  assert (Hinv0 : inv (mkSys p0 w0 [])).
  { unfold inv, counted. simpl. rewrite Hi, Ha. simpl. split; [reflexivity|].
    intros _. lia. }
  destruct (run_inv ops _ Hinv0 Hd) as [Hinv Hmax]. fold s in Hinv, Hmax.
  unfold ActiveCount, live. destruct Hinv as [H1 H2].
  split; [exact H1|]. split.
  - intros Hpos. specialize (H2 Hpos).
    pose proof (wrap32_range (maxActive (pool s))).
    pose proof (wrap32_le_pos _ Hpos).
    rewrite H1, wrap32_small by lia. lia.
  - intros Hlt. rewrite H1, wrap32_small by lia. lia.
Qed.

(** A pool with room for five connections, and a server that accepts
    every dial. *)
Definition config5 : ConnPoolConfig :=
  {| cfg_Address := "localhost:8080"; cfg_MaxIdle := 2;
     cfg_MaxActive := 5; cfg_TestOnGet := true |}.

Definition pool5 : ConnPool := mkPool 2 5 [] 0 true true false.

Definition accepting : World :=
  mkWorld (fun n => Ok n) 0 (fun _ _ => None) 0 [] [].

Lemma active_count_is_open_connections_witness :
  let s := run [OpGet; OpGet; OpPut 0%nat; OpGet; OpPut 1%nat; OpPut 0%nat; OpClose]
               (mkSys pool5 accepting []) in
  ActiveCount (pool s) = wrap32 (live s)
  /\ (0 < maxActive (pool s) ->
      ActiveCount (pool s) = live s
      /\ 0 <= ActiveCount (pool s) <= maxActive (pool s))
  /\ (live s < 2 ^ 31 ->
      ActiveCount (pool s) = live s /\ 0 <= ActiveCount (pool s)).
Proof.
  apply (active_count_is_open_connections config5 pool5 accepting).
  - reflexivity.
  - vm_compute. intuition.
Defined.

(** After one lease and its return the connection sits in the idle queue:
    nothing is on lease, yet the active count is 1. *)
Lemma active_count_counts_idle :
  let s := run [OpGet; OpPut 0%nat] (mkSys pool5 accepting []) in
  NewConnPool config5 = Ok pool5
  /\ disciplined [OpGet; OpPut 0%nat] (mkSys pool5 accepting [])
  /\ length (leased s) = 0%nat
  /\ idleConns (pool s) = [0%nat]
  /\ ActiveCount (pool s) = 1.
Proof. simpl. intuition. Qed.

End PoolProps.

(** ** The retrying lease *)

Module RetryProps.
Import GoErr Pool PoolProps.
Local Open Scope Z_scope.

Definition terminal (err : error) : bool :=
  Is err ErrPoolClosed || Is err ErrPoolExhausted.

(** The retrying lease in the words of its description: the run that
    starts with the attempt of index [i] (the first has index 0) on pool
    [p] in world [w], with at most [N] retries and base delay [d], makes
    [k] attempts and ends with the given result and state.
    - An attempt that succeeds ends the run with its connection.
    - An attempt that fails with [ErrPoolClosed] or [ErrPoolExhausted]
      ends the run with that error, and no sleep.
    - The attempt of index [N] is the last: its error ends the run.
    - Any other failed attempt is followed by a sleep of [d * 2^i], as a
      64-bit duration, and by the attempt of index [i + 1]. *)
Inductive retry_run (N d : Z)
  : Z -> ConnPool -> World ->
    (option Conn * option error) * ConnPool * World -> nat -> Prop :=
| run_success i p w conn p' w' :
    Get p w = (Ok conn, p', w') ->
    retry_run N d i p w ((Some conn, None), p', w') 1
| run_terminal i p w err p' w' :
    Get p w = (Fail err, p', w') ->
    terminal err = true ->
    retry_run N d i p w ((None, Some err), p', w') 1
| run_last p w err p' w' :
    Get p w = (Fail err, p', w') ->
    terminal err = false ->
    retry_run N d N p w ((None, Some err), p', w') 1
| run_retry i p w err p' w' r k :
    i < N ->
    Get p w = (Fail err, p', w') ->
    terminal err = false ->
    retry_run N d (i + 1) p' (Sleep (wrap64 (d * 2 ^ i)) w') r k ->
    retry_run N d i p w r (S k).

Lemma GetWithRetry_loop_run N d : forall n i lastErr p w,
  0 <= i ->
  Z.of_nat (S n) = N + 1 - i ->
  exists k,
    retry_run N d i p w (GetWithRetry_loop (S n) i N d lastErr p w) k
    /\ (1 <= k <= S n)%nat.
Proof.
  induction n as [|n IH]; intros i lastErr p w Hi Hn.
  - assert (i = N) by lia. subst i. simpl.
    destruct (Get p w) as [[[conn|err] p'] w'] eqn:Hget.
    + exists 1%nat. split; [apply run_success; exact Hget|lia].
    + fold (terminal err). destruct (terminal err) eqn:Ht.
      * exists 1%nat. split; [apply run_terminal; assumption|lia].
      * rewrite Z.ltb_irrefl.
        exists 1%nat. split; [apply run_last; assumption|lia].
  - cbn [GetWithRetry_loop].
    destruct (Get p w) as [[[conn|err] p'] w'] eqn:Hget.
    + exists 1%nat. split; [apply run_success; exact Hget|lia].
    + fold (terminal err). destruct (terminal err) eqn:Ht.
      * exists 1%nat. split; [apply run_terminal; assumption|lia].
      * assert (Hlt : i < N) by lia.
        apply Z.ltb_lt in Hlt as Hltb. rewrite Hltb.
        rewrite wrap64_mul_r.
        destruct (IH (i + 1) (Some err) p' (Sleep (wrap64 (d * 2 ^ i)) w'))
          as (k & Hrun & Hk); [lia|lia|].
        exists (S k). split; [|lia].
        eapply run_retry; eauto.
Qed.

(** C7 (as amended): [GetWithRetry(N, baseDelay)] with [N >= 0] makes
    between one and [N + 1] attempts, the first and up to [N] retries.
    After the failed attempt of index [i] (counting from 0) it sleeps
    [baseDelay * 2^i], computed as a 64-bit duration, and tries again; an
    attempt that fails with [ErrPoolClosed] or [ErrPoolExhausted] ends the
    call with that error and no further attempt or sleep; any other error
    is retried; when all [N + 1] attempts fail, the error of the last is
    returned, and no sleep follows it. *)
Theorem GetWithRetry_runs N d p w :
  0 <= N ->
  exists k,
    retry_run N d 0 p w (GetWithRetry N d p w) k
    /\ (1 <= k)%nat /\ Z.of_nat k <= N + 1.
Proof.
  intros HN. unfold GetWithRetry.
  destruct (Z.to_nat (N + 1)) as [|n] eqn:Hn; [lia|].
  destruct (GetWithRetry_loop_run N d n 0 None p w) as (k & Hrun & Hk);
    [lia|lia|].
  exists k. split; [exact Hrun|lia].
Qed.

(** A server that refuses every connection. *)
Definition refusing : World :=
  mkWorld (fun _ => Fail (Opaque "dial tcp: connection refused")) 0
          (fun _ _ => None) 0 [] [].

Lemma GetWithRetry_runs_witness :
  exists k,
    retry_run 2 100 0 pool5 refusing (GetWithRetry 2 100 pool5 refusing) k
    /\ (1 <= k)%nat /\ Z.of_nat k <= 2 + 1.
Proof. apply (GetWithRetry_runs 2 100 pool5 refusing). lia. Defined.

(** With [N = 1] and a server that refuses every connection, the pool
    dials twice, sleeping once in between. *)
Lemma GetWithRetry_one_retry_two_attempts :
  let '(r, p', w') := GetWithRetry 1 100 pool5 refusing in
  r = (None, Some (Opaque "dial tcp: connection refused"))
  /\ dials w' = 2%nat
  /\ sleeps w' = [100].
Proof. vm_compute. repeat split. Qed.

End RetryProps.

(** ** Dispatch through the registry *)

Module RegistryProps.
Import Bytes GoJson Protocol GoErr Registry.
Local Open Scope Z_scope.

Section Dispatch.
Context {V Context_ : Type}.
Implicit Types (r : ServiceRegistry V Context_) (svc : serviceType V Context_)
         (mt : methodType V Context_) (raw : RawMessage).

(** What the handler's outcome becomes. *)
Definition reply_or_internal (o : outcome V) : result V :=
  match o with
  | Panicked shown stack =>
    Fail (Rpc (NewError ErrCodeInternal ErrMsgInternal
                 (VString ("panic: " +:+ shown +:+ String newline "stack: "
                           +:+ stack))))
  | Returned _ (Some e) =>
    Fail (Rpc (NewError ErrCodeInternal ErrMsgInternal (VString (ErrorString e))))
  | Returned reply None => Ok reply
  end.

(** The argument record that the handler receives. *)
Inductive args_decoded mt raw : V -> Prop :=
| decoded_empty :
    raw_len raw = 0%nat -> args_decoded mt raw (ArgType_new mt)
| decoded_payload argv :
    (0 < raw_len raw)%nat ->
    ArgType_unmarshal mt (raw_bytes raw) (ArgType_new mt) = inl argv ->
    args_decoded mt raw argv.

Lemma call_decoded ctx svc mt raw argv :
  args_decoded mt raw argv ->
  call ctx svc mt raw
  = reply_or_internal (method mt (rcvr svc) ctx argv (ReplyType_new mt)).
Proof.
  intros Hd. unfold call.
  destruct Hd as [Hz|argv Hpos Hun].
  - rewrite Hz. simpl.
    destruct (method mt _ _ _ _) as [reply [e|]|shown stack]; reflexivity.
  - apply Nat.ltb_lt in Hpos. rewrite Hpos, Hun.
    destruct (method mt _ _ _ _) as [reply [e|]|shown stack]; reflexivity.
Qed.

Lemma call_invalid_params ctx svc mt raw :
  forall e, call ctx svc mt raw = Fail (Rpc e) ->
       Code e = ErrCodeInvalidParams -> (0 < raw_len raw)%nat.
Proof.
  intros e. unfold call.
  destruct (Nat.ltb 0 (raw_len raw)) eqn:Hlen.
  - intros _ _. apply Nat.ltb_lt. exact Hlen.
  - destruct (method mt _ _ _ _) as [reply [e'|]|shown stack];
      intros [= <-]; discriminate.
Qed.

(** C4: [Call] classifies every outcome.  An unknown service and an
    unknown method give [MethodNotFound] (-32601); a payload that does
    not unmarshal into the argument type gives [InvalidParams]
    (-32602); a panic of the handler is recovered as [Internal]
    (-32603) whose data carries the panic value and the stack; an error
    returned by the handler becomes [Internal] (-32603) with its
    message; otherwise the reply record is returned and no error. *)
Theorem Call_classification r ctx (serviceName methodName : string) raw :
  (services r !! serviceName = None ->
   exists d, Call r ctx serviceName methodName raw
             = Fail (Rpc (NewError (-32601) "Method not found" d)))
  /\ (forall svc,
       services r !! serviceName = Some svc ->
       methods svc !! methodName = None ->
       exists d, Call r ctx serviceName methodName raw
                 = Fail (Rpc (NewError (-32601) "Method not found" d)))
  /\ (forall svc mt,
       services r !! serviceName = Some svc ->
       methods svc !! methodName = Some mt ->
       (forall err,
          (0 < raw_len raw)%nat ->
          ArgType_unmarshal mt (raw_bytes raw) (ArgType_new mt) = inr err ->
          exists d, Call r ctx serviceName methodName raw
                    = Fail (Rpc (NewError (-32602) "Invalid params" d)))
       /\ (forall argv,
             args_decoded mt raw argv ->
             match method mt (rcvr svc) ctx argv (ReplyType_new mt) with
             | Panicked shown stack =>
               Call r ctx serviceName methodName raw
               = Fail (Rpc (NewError (-32603) "Internal error"
                              (VString ("panic: " +:+ shown
                                        +:+ String newline "stack: " +:+ stack))))
             | Returned _ (Some e) =>
               Call r ctx serviceName methodName raw
               = Fail (Rpc (NewError (-32603) "Internal error"
                              (VString (ErrorString e))))
             | Returned reply None =>
               Call r ctx serviceName methodName raw = Ok reply
             end)).
Proof.
  unfold Call. split; [|split].
  - intros ->. eexists. reflexivity.
  - intros svc -> ->. eexists. reflexivity.
  - intros svc mt -> ->. split.
    + intros err Hpos Hun. unfold call.
      apply Nat.ltb_lt in Hpos. rewrite Hpos, Hun. eexists. reflexivity.
    + intros argv Hd. rewrite (call_decoded ctx svc mt raw argv Hd).
      destruct (method mt _ _ _ _) as [reply [e|]|shown stack]; reflexivity.
Qed.

(** C10: with an empty payload the unmarshal step is skipped and the
    handler runs on the zero value of the argument type; so an
    [InvalidParams] error is only ever returned for a payload that is
    not empty. *)
Theorem empty_params_skip_unmarshal r ctx (serviceName methodName : string) raw :
  (forall svc mt,
     services r !! serviceName = Some svc ->
     methods svc !! methodName = Some mt ->
     raw_len raw = 0%nat ->
     Call r ctx serviceName methodName raw
     = reply_or_internal
         (method mt (rcvr svc) ctx (ArgType_new mt) (ReplyType_new mt)))
  /\ (forall e,
        Call r ctx serviceName methodName raw = Fail (Rpc e) ->
        Code e = ErrCodeInvalidParams ->
        (0 < raw_len raw)%nat).
Proof.
  unfold Call. split.
  - intros svc mt -> -> Hz. apply call_decoded. constructor. exact Hz.
  - intros e.
    destruct (services r !! serviceName) as [svc|]; [|intros [= <-]; discriminate].
    destruct (methods svc !! methodName) as [mt|]; [|intros [= <-]; discriminate].
    apply call_invalid_params.
Qed.

End Dispatch.

(** *** The services of the registry's tests *)

Inductive TestValue :=
| TArithService
| TPanicService
| TArithArgs (A B : Z)
| TArithReply (Result : Z)
| TPanicArgs
| TPanicReply.

(** [json.Unmarshal] into an [ArithArgs]: fields a and b of type int. *)
Definition store_ArithArgs_member (v : TestValue) (m : string * string * Json.value)
  : option TestValue :=
  match v with
  | TArithArgs a b =>
    let '(k, _, j) := m in
    match unquote k with
    | None => None
    | Some key =>
      if Wire.selects key "a" then
        match Wire.store_int j a with
        | Some a' => Some (TArithArgs a' b)
        | None => None
        end
      else if Wire.selects key "b" then
        match Wire.store_int j b with
        | Some b' => Some (TArithArgs a b')
        | None => None
        end
      else Some v
    end
  | _ => None
  end.

Definition Unmarshal_into (f : TestValue -> string * string * Json.value -> option TestValue)
    (data : string) (v : TestValue) : TestValue + string :=
  match Wire.Unmarshal_struct f data v with
  | inl v' => inl v'
  | inr err => inr (Wire.jsonerr_text err)
  end.

Definition Add (rcvr : TestValue) (ctx : unit) (args reply : TestValue)
  : outcome TestValue :=
  match args with
  | TArithArgs a b => Returned (TArithReply (a + b)) None
  | _ => Panicked "invalid memory address or nil pointer dereference" "goroutine 1 [running]"
  end.

Definition Divide (rcvr : TestValue) (ctx : unit) (args reply : TestValue)
  : outcome TestValue :=
  match args with
  | TArithArgs a b =>
    if b =? 0 then Returned reply (Some (Opaque "division by zero"))
    else Returned (TArithReply (Z.quot a b)) None
  | _ => Panicked "invalid memory address or nil pointer dereference" "goroutine 1 [running]"
  end.

Definition PanicMethod (rcvr : TestValue) (ctx : unit) (args reply : TestValue)
  : outcome TestValue :=
  Panicked "intentional panic" "goroutine 1 [running]".

Definition arith (f : TestValue -> unit -> TestValue -> TestValue -> outcome TestValue)
  : methodType TestValue unit :=
  {| method := f;
     ArgType_new := TArithArgs 0 0;
     ArgType_unmarshal := Unmarshal_into store_ArithArgs_member;
     ReplyType_new := TArithReply 0 |}.

Definition testRegistry : ServiceRegistry TestValue unit :=
  {| services :=
       {[ "ArithService" :=
            {| name := "ArithService"; rcvr := TArithService;
               methods := {[ "Add" := arith Add; "Divide" := arith Divide ]} |};
          "PanicService" :=
            {| name := "PanicService"; rcvr := TPanicService;
               methods :=
                 {[ "PanicMethod" :=
                      {| method := PanicMethod;
                         ArgType_new := TPanicArgs;
                         ArgType_unmarshal := Unmarshal_into (fun v _ => Some v);
                         ReplyType_new := TPanicReply |} ]} |} ]} |}.

Definition args_10_0 : string :=
  "{" +:+ quoted "a" +:+ ":10," +:+ quoted "b" +:+ ":0}".

Definition args_broken : string :=
  "{" +:+ quoted "invalid" +:+ ": " +:+ quoted "data".

Lemma Call_classification_witness :
  (exists d, Call testRegistry tt "NonExistentService" "Add" (Some args_10_0)
             = Fail (Rpc (NewError (-32601) "Method not found" d)))
  /\ (exists d, Call testRegistry tt "ArithService" "NonExistentMethod" (Some args_10_0)
                = Fail (Rpc (NewError (-32601) "Method not found" d)))
  /\ (exists d, Call testRegistry tt "ArithService" "Add" (Some args_broken)
                = Fail (Rpc (NewError (-32602) "Invalid params" d)))
  /\ Call testRegistry tt "ArithService" "Divide" (Some args_10_0)
     = Fail (Rpc (NewError (-32603) "Internal error" (VString "division by zero")))
  /\ Call testRegistry tt "ArithService" "Add" (Some args_10_0)
     = Ok (TArithReply 10).
Proof.
  split; [|split; [|split; [|split]]].
  - apply (proj1 (Call_classification testRegistry tt
                    "NonExistentService" "Add" (Some args_10_0))).
    reflexivity.
  - apply (proj1 (proj2 (Call_classification testRegistry tt
                           "ArithService" "NonExistentMethod" (Some args_10_0)))
             {| name := "ArithService"; rcvr := TArithService;
                methods := {[ "Add" := arith Add; "Divide" := arith Divide ]} |});
      reflexivity.
  - apply (proj1 (proj2 (proj2 (Call_classification testRegistry tt
                           "ArithService" "Add" (Some args_broken)))
                    {| name := "ArithService"; rcvr := TArithService;
                       methods := {[ "Add" := arith Add; "Divide" := arith Divide ]} |}
                    (arith Add) eq_refl eq_refl)
             (Wire.jsonerr_text Wire.SyntaxError)).
    + vm_compute. lia.
    + vm_compute. reflexivity.
  - apply (proj2 (proj2 (proj2 (Call_classification testRegistry tt
                           "ArithService" "Divide" (Some args_10_0)))
                    {| name := "ArithService"; rcvr := TArithService;
                       methods := {[ "Add" := arith Add; "Divide" := arith Divide ]} |}
                    (arith Divide) eq_refl eq_refl)
             (TArithArgs 10 0)).
    apply decoded_payload; [vm_compute; lia|vm_compute; reflexivity].
  - apply (proj2 (proj2 (proj2 (Call_classification testRegistry tt
                           "ArithService" "Add" (Some args_10_0)))
                    {| name := "ArithService"; rcvr := TArithService;
                       methods := {[ "Add" := arith Add; "Divide" := arith Divide ]} |}
                    (arith Add) eq_refl eq_refl)
             (TArithArgs 10 0)).
    apply decoded_payload; [vm_compute; lia|vm_compute; reflexivity].
Defined.

Lemma empty_params_skip_unmarshal_witness :
  Call testRegistry tt "ArithService" "Add" None = Ok (TArithReply 0)
  /\ Call testRegistry tt "ArithService" "Add" (Some EmptyString)
     = Ok (TArithReply 0)
  /\ (0 < raw_len (Some args_broken))%nat.
Proof.
  split; [|split].
  - apply (proj1 (empty_params_skip_unmarshal testRegistry tt
                    "ArithService" "Add" None)
             {| name := "ArithService"; rcvr := TArithService;
                methods := {[ "Add" := arith Add; "Divide" := arith Divide ]} |}
             (arith Add) eq_refl eq_refl eq_refl).
  - apply (proj1 (empty_params_skip_unmarshal testRegistry tt
                    "ArithService" "Add" (Some EmptyString))
             {| name := "ArithService"; rcvr := TArithService;
                methods := {[ "Add" := arith Add; "Divide" := arith Divide ]} |}
             (arith Add) eq_refl eq_refl eq_refl).
  - apply (proj2 (empty_params_skip_unmarshal testRegistry tt
                    "ArithService" "Add" (Some args_broken))
             (NewInvalidParamsError
                (VString ("failed to unmarshal args: "
                          +:+ Wire.jsonerr_text Wire.SyntaxError)))).
    + vm_compute. reflexivity.
    + reflexivity.
Defined.

End RegistryProps.

(** ** Decoding *)

Module DecodeProps.
Import Bytes GoJson Protocol GoErr Wire Codec.
Local Open Scope Z_scope.

Lemma eqb_neq_false (a b : string) : String.eqb a b = false <-> a <> b.
Proof. apply String.eqb_neq. Qed.

Lemma length_zero_empty (s : string) :
  Nat.eqb (String.length s) 0 = true <-> s = EmptyString.
Proof.
  destruct s; simpl; split; intros H; try reflexivity; discriminate.
Qed.

(** The raw text stored by the last member that selects field [name]. *)
Fixpoint last_raw (name : string) (ms : list (string * string * Json.value))
    (acc : RawMessage) : RawMessage :=
  match ms with
  | [] => acc
  | (k, raw, _) :: ms' =>
    match unquote k with
    | Some key => last_raw name ms' (if selects key name then Some raw else acc)
    | None => last_raw name ms' acc
    end
  end.

Lemma store_Request_params ms : forall r r',
  store_members store_Request_member ms r = Some r' ->
  req_Params r' = last_raw "params" ms (req_Params r).
Proof.
  induction ms as [|[[k raw] j] ms IH]; intros r r' H; simpl in *.
  - congruence.
  - destruct (unquote k) as [key|] eqn:Hk; [|discriminate].
    destruct (selects key "jsonrpc") eqn:H1.
    { assert (selects key "params" = false) as ->.
      { unfold selects in *. apply String.eqb_eq in H1. rewrite H1. reflexivity. }
      destruct (store_string j (req_Jsonrpc r)); [|discriminate].
      apply IH in H. exact H. }
    destruct (selects key "method") eqn:H2.
    { assert (selects key "params" = false) as ->.
      { unfold selects in *. apply String.eqb_eq in H2. rewrite H2. reflexivity. }
      destruct (store_string j (req_Method r)); [|discriminate].
      apply IH in H. exact H. }
    destruct (selects key "params") eqn:H3.
    { apply IH in H. exact H. }
    destruct (selects key "id") eqn:H4.
    { destruct (to_interface j); [|discriminate]. apply IH in H. exact H. }
    apply IH in H. exact H.
Qed.

(** The empty input is not valid JSON, and [DecodeRequest] fails on it
    with an invalid-request error, by its first guard. *)
Lemma DecodeRequest_empty_input :
  Json.Valid EmptyString = false
  /\ DecodeRequest EmptyString
     = Fail (Rpc (NewError (-32600) "Invalid Request"
                    (VString "empty request data"))).
Proof. split; vm_compute; reflexivity. Qed.

(** The text [1] is valid JSON; it does not unmarshal into a request, and
    [DecodeRequest] reports that as a parse error too. *)
Remark DecodeRequest_on_a_number :
  Json.Valid "1" = true
  /\ DecodeRequest "1"
     = Fail (Rpc (NewError (-32700) "Parse error"
                    (VString (jsonerr_text UnmarshalTypeError)))).
Proof. split; vm_compute; reflexivity. Qed.

(** C5 (as amended): on empty input [DecodeRequest] fails with
    [InvalidRequest] (-32600).  On any other input it fails with [Parse]
    (-32700) exactly when [json.Unmarshal] fails, which it does on every
    text that is not valid JSON, and also on valid JSON that is neither
    an object nor null or that has a member of the wrong type; it fails
    with [InvalidRequest] (-32600) when the text was unmarshalled and the
    version is not 2.0 or the method is empty; otherwise it returns the
    unmarshalled request, whose version is 2.0, whose method is not
    empty, and whose parameter payload is the source text of the params
    member, byte for byte. *)
Theorem DecodeRequest_classification (data : string) :
  match DecodeRequest data with
  | Ok req =>
    data <> EmptyString
    /\ Unmarshal_Request data zeroRequest = inl req
    /\ req_Jsonrpc req = "2.0"
    /\ req_Method req <> EmptyString
    /\ exists ms, Json.parse data = Some (Json.Object ms)
                  /\ req_Params req = last_raw "params" ms None
  | Fail e =>
    exists d,
      (e = Rpc (NewError (-32700) "Parse error" d)
       /\ data <> EmptyString
       /\ exists err, Unmarshal_Request data zeroRequest = inr err)
      \/ (e = Rpc (NewError (-32600) "Invalid Request" d)
          /\ (data = EmptyString
              \/ exists req, Unmarshal_Request data zeroRequest = inl req
                             /\ (req_Jsonrpc req <> "2.0"
                                 \/ req_Method req = EmptyString)))
  end
  /\ (Json.Valid data = false ->
      Unmarshal_Request data zeroRequest = inr SyntaxError).
Proof.
  split.
  - unfold DecodeRequest.
    destruct (Nat.eqb (String.length data) 0) eqn:Hlen.
    + apply length_zero_empty in Hlen. eexists. right. split; [reflexivity|]. auto.
    + assert (Hne : data <> EmptyString).
      { intros ->. discriminate. }
      destruct (Unmarshal_Request data zeroRequest) as [req|err] eqn:Hun.
      * destruct (String.eqb (req_Jsonrpc req) JSONRPCVersion) eqn:Hv; simpl.
        -- apply String.eqb_eq in Hv.
           destruct (String.eqb (req_Method req) "") eqn:Hm.
           ++ apply String.eqb_eq in Hm. eexists. right.
              split; [reflexivity|]. right. exists req. auto.
           ++ apply String.eqb_neq in Hm.
              split; [exact Hne|]. split; [reflexivity|].
              split; [exact Hv|]. split; [exact Hm|].
              unfold Unmarshal_Request, Unmarshal_struct in Hun.
              destruct (Json.parse data) as [[| | | | |ms]|]; try discriminate.
              { injection Hun as <-. discriminate Hv. }
              { exists ms. split; [reflexivity|].
                destruct (store_members store_Request_member ms zeroRequest)
                  as [r'|] eqn:Hst; [|discriminate].
                injection Hun as <-.
                apply (store_Request_params ms zeroRequest r' Hst). }
        -- apply String.eqb_neq in Hv. eexists. right.
           split; [reflexivity|]. right. exists req. auto.
      * eexists. left. split; [reflexivity|]. split; [exact Hne|]. eauto.
  - unfold Json.Valid, Unmarshal_Request, Unmarshal_struct.
    destruct (Json.parse data); [discriminate|reflexivity].
Qed.

Lemma DecodeRequest_fail_Rpc data e :
  DecodeRequest data = Fail e -> exists r, e = Rpc r.
Proof.
  unfold DecodeRequest.
  destruct (Nat.eqb _ _); [intros [= <-]; eauto|].
  destruct (Unmarshal_Request _ _); [|intros [= <-]; eauto].
  destruct (negb _); [intros [= <-]; eauto|].
  destruct (String.eqb _ _); [intros [= <-]; eauto|discriminate].
Qed.

(** *** Responses *)

Definition response_with_both : string :=
  "{" +:+ quoted "jsonrpc" +:+ ":" +:+ quoted "2.0" +:+ ","
  +:+ quoted "result" +:+ ":30,"
  +:+ quoted "error" +:+ ":{" +:+ quoted "code" +:+ ":-32603,"
  +:+ quoted "message" +:+ ":" +:+ quoted "Internal error" +:+ "},"
  +:+ quoted "id" +:+ ":1}".

(** C1 (the code at the failing input): [DecodeResponse] accepts a
    response that carries both a result and an error, and returns it with
    both fields set, although [EncodeResponse] refuses such a response. *)
Theorem DecodeResponse_accepts_result_and_error :
  exists resp,
    DecodeResponse response_with_both = Ok resp
    /\ resp_Result resp = Some "30"
    /\ resp_Error resp = Some (NewError (-32603) "Internal error" VNil)
    /\ exists e, snd (EncodeResponse (Some resp)) = Fail (Rpc e).
Proof.
  eexists. split; [vm_compute; reflexivity|].
  split; [reflexivity|]. split; [reflexivity|].
  eexists. vm_compute. reflexivity.
Qed.

(** What does hold: an accepted response has at least one of the two. *)
Lemma DecodeResponse_at_least_one data resp :
  DecodeResponse data = Ok resp ->
  resp_Result resp <> None \/ resp_Error resp <> None.
Proof.
  unfold DecodeResponse.
  destruct (Nat.eqb _ _); [discriminate|].
  destruct (Unmarshal_Response data zeroResponse) as [r|]; [|discriminate].
  destruct (negb _); [discriminate|].
  destruct (resp_Result r) eqn:H1, (resp_Error r) eqn:H2;
    try discriminate; intros [= <-]; rewrite ?H1, ?H2; auto.
Qed.

End DecodeProps.

(** ** Receiving a response *)

Module ReceiveProps.
Import Bytes GoJson Protocol GoErr Wire Codec Client.
Local Open Scope Z_scope.

Definition is_float64 (v : GoValue) : bool :=
  match v with
  | VFloat64 _ => true
  | _ => false
  end.

Definition is_number (j : Json.value) : bool :=
  match j with
  | Json.Number _ => true
  | _ => false
  end.

(** Only a JSON number unmarshals into a float64. *)
Lemma to_interface_float64 j v :
  to_interface j = Some v -> is_float64 v = true -> is_number j = true.
Proof.
  destruct j as [|b|lit|body|elems|ms]; simpl; try reflexivity.
  - intros [= <-]. discriminate.
  - intros [= <-]. discriminate.
  - destruct (unquote body); intros [= <-]. discriminate.
  - match goal with |- context [match ?g elems with _ => _ end] =>
      destruct (g elems) end; intros [= <-]; discriminate.
  - match goal with |- context [match ?g ms [] with _ => _ end] =>
      destruct (g ms []) end; intros [= <-]; discriminate.
Qed.

(** No member that selects the id field holds a number. *)
Fixpoint no_numeric_id (ms : list (string * string * Json.value)) : bool :=
  match ms with
  | [] => true
  | (k, _, j) :: ms' =>
    match unquote k with
    | Some key => (negb (selects key "id") || negb (is_number j))
                  && no_numeric_id ms'
    | None => no_numeric_id ms'
    end
  end.

Lemma store_Response_id ms : forall r r',
  store_members store_Response_member ms r = Some r' ->
  no_numeric_id ms = true ->
  is_float64 (resp_ID r) = false ->
  is_float64 (resp_ID r') = false.
Proof.
  induction ms as [|[[k raw] j] ms IH]; intros r r' H Hno Hr; simpl in *.
  - congruence.
  - destruct (unquote k) as [key|] eqn:Hk; [|discriminate].
    apply andb_true_iff in Hno as [Hno1 Hno2].
    destruct (selects key "jsonrpc") eqn:H1.
    { destruct (store_string j (resp_Jsonrpc r)); [|discriminate].
      eapply IH; eauto. }
    destruct (selects key "result") eqn:H2.
    { eapply IH; eauto. }
    destruct (selects key "error") eqn:H3.
    { destruct (store_Error_ptr j (resp_Error r)); [|discriminate].
      eapply IH; eauto. }
    destruct (selects key "id") eqn:H4.
    { destruct (to_interface j) as [v|] eqn:Hv; [|discriminate].
      eapply IH; eauto. simpl.
      destruct (is_float64 v) eqn:Hf; [|reflexivity].
      rewrite (to_interface_float64 j v Hv Hf) in Hno1. discriminate. }
    eapply IH; eauto.
Qed.

Section Receive.
Context {V : Type}.
Variable Unmarshal_reply : string -> V -> V + jsonerr.
Variable oob : spec_float -> Z.

(** C9: a decoded response whose identifier is not a float64, which is
    what every JSON value other than a number unmarshals to, makes
    [receiveResponse] fail with the invalid-response-ID-type error; and
    whenever [receiveResponse] accepts a response, its identifier is a
    number whose conversion to uint64 equals the sequence number of the
    call. *)
Theorem response_id_must_be_number (data : string) (call : Call) :
  (forall resp,
     DecodeResponse data = Ok resp ->
     is_float64 (resp_ID resp) = false ->
     receiveResponse Unmarshal_reply oob (data, None) call
     = (Some (Opaque "invalid response ID type"), call))
  /\ (forall ms resp,
        Json.parse data = Some (Json.Object ms) ->
        no_numeric_id ms = true ->
        DecodeResponse data = Ok resp ->
        receiveResponse Unmarshal_reply oob (data, None) call
        = (Some (Opaque "invalid response ID type"), call))
  /\ (forall call',
        receiveResponse Unmarshal_reply oob (data, None) call = (None, call') ->
        exists resp f,
          DecodeResponse data = Ok resp
          /\ resp_ID resp = VFloat64 f
          /\ Float64.to_uint64 oob f = seq call).
Proof.
  assert (H1 : forall resp,
             DecodeResponse data = Ok resp ->
             is_float64 (resp_ID resp) = false ->
             receiveResponse Unmarshal_reply oob (data, None) call
             = (Some (Opaque "invalid response ID type"), call)).
  { intros resp Hd Hf. unfold receiveResponse. rewrite Hd.
    destruct (resp_ID resp); try reflexivity. discriminate. }
  split; [exact H1|]. split.
  - intros ms resp Hp Hno Hd. apply (H1 resp Hd).
    unfold DecodeResponse in Hd.
    destruct (Nat.eqb _ _); [discriminate|].
    unfold Unmarshal_Response, Unmarshal_struct in Hd. rewrite Hp in Hd.
    destruct (store_members store_Response_member ms zeroResponse)
      as [r|] eqn:Hst; [|discriminate].
    assert (Hr : is_float64 (resp_ID r) = false).
    { eapply store_Response_id; eauto. }
    destruct (negb _); [discriminate|].
    destruct (resp_Result r), (resp_Error r); try discriminate;
      injection Hd as <-; exact Hr.
  - intros call'. unfold receiveResponse.
    destruct (DecodeResponse data) as [resp|e]; [|discriminate].
    destruct (resp_ID resp) as [|b|f|s|l|m|n] eqn:Hid; try discriminate.
    destruct (Float64.to_uint64 oob f =? seq call) eqn:Heq; [|discriminate].
    intros _. exists resp, f. apply Z.eqb_eq in Heq. auto.
Qed.

End Receive.

Definition response_string_id : string :=
  "{" +:+ quoted "jsonrpc" +:+ ":" +:+ quoted "2.0" +:+ ","
  +:+ quoted "result" +:+ ":{" +:+ quoted "result" +:+ ":30},"
  +:+ quoted "id" +:+ ":" +:+ quoted "7" +:+ "}" +:+ String newline "".

Definition response_number_id : string :=
  "{" +:+ quoted "jsonrpc" +:+ ":" +:+ quoted "2.0" +:+ ","
  +:+ quoted "result" +:+ ":{" +:+ quoted "result" +:+ ":30},"
  +:+ quoted "id" +:+ ":7}" +:+ String newline "".

Definition call7 : Call (V := unit) := mkCall "ArithService.Add" (Some tt) None 7.

Definition keep_reply (data : string) (v : unit) : unit + jsonerr := inl v.

Lemma response_id_must_be_number_witness :
  receiveResponse keep_reply (fun _ => 0) (response_string_id, None) call7
  = (Some (Opaque "invalid response ID type"), call7)
  /\ exists resp f,
       DecodeResponse response_number_id = Ok resp
       /\ resp_ID resp = VFloat64 f
       /\ Float64.to_uint64 (fun _ => 0) f = seq call7.
Proof.
  split.
  - apply (proj1 (response_id_must_be_number keep_reply (fun _ => 0)
                    response_string_id call7)
             (mkResponse "2.0"
                (Some ("{" +:+ quoted "result" +:+ ":30}")) None (VString "7"))).
    + vm_compute. reflexivity.
    + reflexivity.
  - apply (proj2 (proj2 (response_id_must_be_number keep_reply (fun _ => 0)
                           response_number_id call7)) call7).
    vm_compute. reflexivity.
Defined.

End ReceiveProps.

(** ** Values that come out of the decoder can be encoded *)

Module MarshalFacts.
Import Bytes GoJson Protocol GoErr Wire Codec.

(** Induction on a JSON value through its elements and members. *)
Lemma value_ind_nested (P : Json.value -> Prop) :
  P Json.Null ->
  (forall b, P (Json.Bool b)) ->
  (forall lit, P (Json.Number lit)) ->
  (forall body, P (Json.Str body)) ->
  (forall elems, Forall P elems -> P (Json.Array elems)) ->
  (forall ms, Forall (fun m : string * string * Json.value => P (snd m)) ms ->
              P (Json.Object ms)) ->
  forall v, P v.
Proof.
  intros HNull HBool HNum HStr HArr HObj.
  fix IH 1. intros [ |b|lit|body|elems|ms].
  - exact HNull.
  - apply HBool.
  - apply HNum.
  - apply HStr.
  - apply HArr. revert elems. fix IHl 1. intros [|x l].
    + constructor.
    + constructor; [apply IH|apply IHl].
  - apply HObj. revert ms. fix IHl 1. intros [|x l].
    + constructor.
    + constructor; [apply IH|apply IHl].
Qed.

Definition marshals (v : GoValue) : Prop := exists t, marshal v = Some t.

Lemma ParseFloat_finite lit f :
  Float64.ParseFloat lit = Some f -> Float64.is_finite f = true.
Proof.
  unfold Float64.ParseFloat.
  destruct (Float64.parse_literal lit) as [[neg m] e].
  destruct (Float64.of_decimal neg m e); intros [= <-]; reflexivity.
Qed.

Lemma FormatFloat_finite f :
  Float64.is_finite f = true -> exists t, Float64.FormatFloat f = Some t.
Proof.
  destruct f as [s|s| |s m e]; try discriminate; intros _;
    unfold Float64.FormatFloat.
  - eexists. reflexivity.
  - destruct (Float64.shortest m e) as [[d k] n]. eexists. reflexivity.
Qed.

Lemma sequence_Forall {A : Type} (f : A -> option string) (l : list A) :
  Forall (fun x => exists t, f x = Some t) l ->
  exists parts, sequence (map f l) = Some parts.
Proof.
  induction 1 as [|x l [t Ht] _ [parts IH]]; simpl.
  - eexists. reflexivity.
  - rewrite Ht, IH. eexists. reflexivity.
Qed.

Lemma map_store_Forall (P : string * GoValue -> Prop) k v m :
  P (k, v) -> Forall P m -> Forall P (map_store k v m).
Proof.
  intros Hkv. induction 1 as [|[k' v'] m Hx Hm IH]; simpl.
  - constructor; [exact Hkv|constructor].
  - destruct (String.compare k k').
    + constructor; assumption.
    + constructor; [exact Hkv|]. constructor; assumption.
    + constructor; assumption.
Qed.

Lemma marshals_VSlice l : Forall marshals l -> marshals (VSlice l).
Proof.
  intros H. destruct (sequence_Forall marshal l H) as [parts Hp].
  unfold marshals. simpl. rewrite Hp. eexists. reflexivity.
Qed.

Lemma marshals_VMap m :
  Forall (fun kv : string * GoValue => marshals (snd kv)) m -> marshals (VMap m).
Proof.
  intros H.
  destruct (sequence_Forall
              (fun kv : string * GoValue =>
                 prepend (encode_string (fst kv) +:+ ":") (marshal (snd kv))) m)
    as [parts Hp].
  { eapply Forall_impl; [exact H|]. intros [k v] [t Ht]. simpl in *.
    rewrite Ht. eexists. reflexivity. }
  unfold marshals. simpl. rewrite Hp. eexists. reflexivity.
Qed.

(** Whatever [Unmarshal] stores in an [interface{}], [Marshal] accepts. *)
Lemma to_interface_marshals : forall j v, to_interface j = Some v -> marshals v.
Proof.
  induction j as [ |b|lit|body|elems IH|ms IH] using value_ind_nested;
    intros v; simpl.
  - intros [= <-]. eexists. reflexivity.
  - intros [= <-]. destruct b; eexists; reflexivity.
  - destruct (Float64.ParseFloat lit) as [f|] eqn:Hf; intros [= <-].
    apply FormatFloat_finite. eapply ParseFloat_finite. exact Hf.
  - destruct (unquote body); intros [= <-]. eexists. reflexivity.
  - match goal with |- context [match ?g elems with _ => _ end] =>
      set (go := g) end.
    assert (Hgo : forall ys, go elems = Some ys -> Forall marshals ys).
    { induction IH as [|x l Hx Hl IHl]; intros ys; simpl.
      - intros [= <-]. constructor.
      - destruct (to_interface x) as [y|] eqn:Hy; [|discriminate].
        destruct (go l) as [ys'|]; [|discriminate].
        intros [= <-]. constructor; [eapply Hx; eauto|apply IHl; reflexivity]. }
    destruct (go elems) as [ys|]; intros [= <-].
    apply marshals_VSlice. apply Hgo. reflexivity.
  - match goal with |- context [match ?g ms [] with _ => _ end] =>
      set (go := g) end.
    assert (Hgo : forall acc m,
               Forall (fun kv : string * GoValue => marshals (snd kv)) acc ->
               go ms acc = Some m ->
               Forall (fun kv : string * GoValue => marshals (snd kv)) m).
    { induction IH as [|[[k raw] x] l Hx Hl IHl]; intros acc m Hacc; simpl.
      - intros [= <-]. exact Hacc.
      - destruct (unquote k) as [key|]; [|discriminate].
        destruct (to_interface x) as [y|] eqn:Hy; [|discriminate].
        apply IHl. apply map_store_Forall; [|exact Hacc].
        simpl. eapply Hx; eauto. }
    destruct (go ms []) as [m|] eqn:Hm; intros [= <-].
    apply marshals_VMap. eapply Hgo; [constructor|exact Hm].
Qed.

Lemma store_Request_id_marshals ms : forall r r',
  store_members store_Request_member ms r = Some r' ->
  marshals (req_ID r) -> marshals (req_ID r').
Proof.
  induction ms as [|[[k raw] j] ms IH]; intros r r' H Hr; simpl in *.
  - congruence.
  - destruct (unquote k) as [key|]; [|discriminate].
    destruct (selects key "jsonrpc").
    { destruct (store_string j (req_Jsonrpc r)); [|discriminate]. eapply IH; eauto. }
    destruct (selects key "method").
    { destruct (store_string j (req_Method r)); [|discriminate]. eapply IH; eauto. }
    destruct (selects key "params").
    { eapply IH; eauto. }
    destruct (selects key "id").
    { destruct (to_interface j) as [v|] eqn:Hv; [|discriminate].
      eapply IH; eauto. simpl. eapply to_interface_marshals; eauto. }
    eapply IH; eauto.
Qed.

Lemma DecodeRequest_id_marshals data req :
  DecodeRequest data = Ok req -> marshals (req_ID req).
Proof.
  unfold DecodeRequest. destruct (Nat.eqb _ _); [discriminate|].
  destruct (Unmarshal_Request data zeroRequest) as [r|] eqn:Hun; [|discriminate].
  destruct (negb _); [discriminate|].
  destruct (String.eqb _ _); [discriminate|]. intros [= <-].
  unfold Unmarshal_Request, Unmarshal_struct in Hun.
  destruct (Json.parse data) as [[| | | | |ms]|]; try discriminate.
  - injection Hun as <-. eexists. reflexivity.
  - destruct (store_members store_Request_member ms zeroRequest) as [r'|] eqn:Hst;
      [|discriminate].
    injection Hun as <-. eapply store_Request_id_marshals; eauto.
    eexists. reflexivity.
Qed.

End MarshalFacts.

(** ** The server's answer to a malformed method name *)

Module ServerProps.
Import Bytes GoJson Protocol GoErr Wire Codec Server MarshalFacts.
Local Open Scope Z_scope.

(** The position of the first dot. *)
Fixpoint first_dot (s : string) : option nat :=
  match s with
  | EmptyString => None
  | String c r => if ch_eq c "." then Some 0%nat else option_map S (first_dot r)
  end.

(** A method name is malformed when it has no dot, or its first dot is its
    first or its last byte. *)
Definition malformed (method : string) : bool :=
  match first_dot method with
  | None => true
  | Some i => Nat.eqb i 0 || Nat.eqb (S i) (String.length method)
  end.

Lemma dotIndex_from_first_dot s : forall k,
  dotIndex_from k s
  = match first_dot s with
    | None => -1
    | Some i => k + Z.of_nat i
    end.
Proof.
  induction s as [|c r IH]; intros k; simpl; [reflexivity|].
  destruct (ch_eq c "."); [simpl; lia|].
  rewrite IH. destruct (first_dot r); simpl; lia.
Qed.


Lemma parseMethod_wellformed method :
  malformed method = false ->
  exists serviceName methodName, parseMethod method = Ok (serviceName, methodName).
Proof.
  unfold malformed, parseMethod. rewrite dotIndex_from_first_dot.
  destruct (first_dot method) as [i|]; [|discriminate].
  intros H. apply orb_false_iff in H as [H1 H2].
  apply Nat.eqb_neq in H1, H2.
  replace (0 + Z.of_nat i =? -1) with false by (symmetry; apply Z.eqb_neq; lia).
  replace (0 + Z.of_nat i =? 0) with false by (symmetry; apply Z.eqb_neq; lia).
  replace (0 + Z.of_nat i =? Z.of_nat (String.length method) - 1) with false
    by (symmetry; apply Z.eqb_neq; lia).
  simpl. eauto.
Qed.

Section Answer.
Context {V : Type}.
Variable Context_ : Type.
Variable Background : Context_.
Variable Marshal_reply : V -> string + jsonerr.
Variable fmt_v : GoValue -> string.

Lemma Marshal_Error_ok (e : Error) :
  marshals (Data e) -> exists t, Marshal_Error e = inl t.
Proof.
  intros [td Hd]. unfold Marshal_Error, interface_member.
  destruct (Data e); try rewrite Hd; eexists; reflexivity.
Qed.

Lemma Encode_error_Response_ok v id (e : Error) :
  marshals id -> marshals (Data e) ->
  exists data, Encode_Response (mkResponse v None (Some e) id) = inl data.
Proof.
  intros [tid Hid] He. destruct (Marshal_Error_ok e He) as [te Hte].
  unfold Encode_Response, Marshal_Response, interface_member.
  cbn [resp_Result resp_Error resp_ID raw_member].
  rewrite Hte, Hid. eexists. reflexivity.
Qed.

(** An error response for an identifier that marshals is encoded, never
    replaced by the fallback text. *)
Lemma encodeErrorResponse_encoded id (e : Error) :
  marshals id -> marshals (Data e) ->
  snd (EncodeResponse (Some (mkResponse JSONRPCVersion None (Some e) id)))
  = Ok (encodeErrorResponse fmt_v id e).
Proof.
  intros Hid He.
  destruct (Encode_error_Response_ok JSONRPCVersion id e Hid He) as [data Hdata].
  unfold encodeErrorResponse, EncodeResponse.
  cbn [resp_Jsonrpc resp_Result resp_Error resp_ID snd].
  change (String.eqb JSONRPCVersion "") with false.
  cbn iota. rewrite Hdata. reflexivity.
Qed.


(** The type assertion in [processRequest] never fails. *)
Lemma processRequest_no_panic (s : Server Context_) (data : string) :
  exists bytes,
    processRequest Context_ Background Marshal_reply fmt_v s data = Some bytes.
Proof.
  unfold processRequest.
  destruct (DecodeRequest data) as [req|e] eqn:Hdec.
  - destruct (parseMethod (req_Method req)) as [[sn mn]|]; [|eauto].
    destruct (Registry.Call _ _ _ _ _) as [reply|[]]; eauto.
  - destruct (DecodeProps.DecodeRequest_fail_Rpc data e Hdec) as [r ->]. eauto.
Qed.

End Answer.

(** A server with the services of the registry tests, and a request for a
    method without a dot. *)
Definition Marshal_TestValue (v : RegistryProps.TestValue)
  : string + jsonerr :=
  match v with
  | RegistryProps.TArithReply r =>
    inl ("{" +:+ quoted "result" +:+ ":" +:+ Float64.string_of_Z r +:+ "}")
  | _ => inl "{}"
  end.

Definition show_id (v : GoValue) : string :=
  match marshal v with
  | Some text => text
  | None => "<nil>"
  end.

Definition testServer : Server unit :=
  {| registry := RegistryProps.testRegistry |}.




End ServerProps.

(** ** The parser on longer inputs and with more fuel *)

Module ParseFacts.
Import Bytes Json.
#[local] Arguments String.append !_ _ / : simpl nomatch.

(** Case analysis along the parser: take apart the next [match] of
    hypothesis [H], following recursive calls with the facts [Hv], [He]
    and [Hm] about them. *)
Ltac along H Hv He Hm :=
  repeat
    (match type of H with
     | context [match parse_value ?f ?d ?s with _ => _ end] =>
       let E := fresh "E" in
       let E' := fresh "E'" in
       destruct (parse_value f d s) as [[? ?]|] eqn:E;
       [pose proof (Hv _ _ _ E) as E'; try rewrite E' | discriminate H]
     | context [match parse_elems ?f ?d ?s with _ => _ end] =>
       let E := fresh "E" in
       let E' := fresh "E'" in
       destruct (parse_elems f d s) as [[? ?]|] eqn:E;
       [pose proof (He _ _ _ E) as E'; try rewrite E' | discriminate H]
     | context [match parse_members ?f ?d ?s with _ => _ end] =>
       let E := fresh "E" in
       let E' := fresh "E'" in
       destruct (parse_members f d s) as [[? ?]|] eqn:E;
       [pose proof (Hm _ _ _ E) as E'; try rewrite E' | discriminate H]
     | context [match ?x with _ => _ end] =>
       destruct x eqn:?; try discriminate H
     end).

Lemma parse_fuel_step f f' :
  (forall d s r, parse_value f d s = Some r -> parse_value f' d s = Some r) ->
  (forall d s r, parse_elems f d s = Some r -> parse_elems f' d s = Some r) ->
  (forall d s r, parse_members f d s = Some r -> parse_members f' d s = Some r) ->
  (forall d s r, parse_value (S f) d s = Some r -> parse_value (S f') d s = Some r)
  /\ (forall d s r, parse_elems (S f) d s = Some r -> parse_elems (S f') d s = Some r)
  /\ (forall d s r, parse_members (S f) d s = Some r -> parse_members (S f') d s = Some r).
Proof.
  intros Hv He Hm. split; [|split]; intros d s r H.
  - simpl in H |- *.
    pose proof (fun s r => Hv d s r) as Hv'.
    along H Hv He Hm; try exact H; try assumption.
  - simpl in H |- *. along H Hv He Hm; try exact H; try assumption.
  - simpl in H |- *. along H Hv He Hm; try exact H; try assumption.
Qed.

Lemma parse_fuel_mono f : forall f', (f <= f')%nat ->
  (forall d s r, parse_value f d s = Some r -> parse_value f' d s = Some r)
  /\ (forall d s r, parse_elems f d s = Some r -> parse_elems f' d s = Some r)
  /\ (forall d s r, parse_members f d s = Some r -> parse_members f' d s = Some r).
Proof.
  induction f as [|f IH]; intros f' Hle.
  - repeat split; intros d s r H; discriminate H.
  - destruct f' as [|f']; [lia|].
    destruct (IH f' ltac:(lia)) as (Hv & He & Hm).
    apply parse_fuel_step; assumption.
Qed.

(** *** Appending to the input *)

Lemma append_empty_r (s : string) : s +:+ "" = s.
Proof. induction s as [|c s IH]; simpl; [reflexivity|]. rewrite IH. reflexivity. Qed.

Lemma append_assoc (a b c : string) : (a +:+ b) +:+ c = a +:+ (b +:+ c).
Proof. induction a as [|x a IH]; simpl; [reflexivity|]. rewrite IH. reflexivity. Qed.

Lemma length_append (a b : string) :
  String.length (a +:+ b) = (String.length a + String.length b)%nat.
Proof. induction a as [|x a IH]; simpl; [reflexivity|]. rewrite IH. reflexivity. Qed.

Lemma take_append (n : nat) : forall a b,
  (n <= String.length a)%nat -> take n (a +:+ b) = take n a.
Proof.
  induction n as [|n IH]; intros a b H.
  - reflexivity.
  - destruct a as [|x a]; simpl in *; [lia|].
    rewrite IH by lia. reflexivity.
Qed.

Lemma take_all (a : string) : take (String.length a) a = a.
Proof. induction a as [|x a IH]; simpl; [reflexivity|]. rewrite IH. reflexivity. Qed.

Lemma consumed_append (s r t : string) :
  consumed (s +:+ t) (r +:+ t) = consumed s r.
Proof.
  unfold consumed. rewrite !length_append.
  replace (String.length s + String.length t - (String.length r + String.length t))%nat
    with (String.length s - String.length r)%nat by lia.
  apply take_append. lia.
Qed.

Lemma consumed_exact (p t : string) : consumed (p +:+ t) t = p.
Proof.
  unfold consumed. rewrite length_append.
  replace (String.length p + String.length t - String.length t)%nat
    with (String.length p) by lia.
  rewrite take_append by lia. apply take_all.
Qed.

Lemma skip_ws_append s c r t :
  skip_ws s = String c r -> skip_ws (s +:+ t) = String c (r +:+ t).
Proof.
  induction s as [|x s IH]; simpl; [discriminate|].
  destruct (is_space x); [exact IH|]. intros [= -> ->]. reflexivity.
Qed.

(** Induction on the length of a string, for functions that look several
    bytes ahead. *)
Lemma string_length_ind (P : string -> Prop) :
  (forall s, (forall s', (String.length s' < String.length s)%nat -> P s') -> P s) ->
  forall s, P s.
Proof.
  intros H.
  assert (Hn : forall n s, (String.length s < n)%nat -> P s).
  { induction n as [|n IH]; intros s Hs; [lia|].
    apply H. intros s' Hs'. apply IH. lia. }
  intros s. apply (Hn (S (String.length s))). lia.
Qed.

Ltac finish H := simpl in H |- *; injection H as <- <-; reflexivity.

Lemma scan_string_append s : forall body r t,
  scan_string s = Some (body, r) ->
  scan_string (s +:+ t) = Some (body, r +:+ t).
Proof.
  induction s as [s IH] using string_length_ind.
  intros body r t H. destruct s as [|c s1]; [discriminate|].
  simpl in H |- *.
  destruct (ch_eq c dquote); [injection H as <- <-; reflexivity|].
  destruct (ch_eq c backslash).
  - destruct s1 as [|e s2]; [discriminate|]. simpl.
    destruct (simple_escape e).
    + destruct (scan_string s2) as [[b' r']|] eqn:E; [|discriminate].
      rewrite (IH s2 ltac:(simpl; lia) _ _ t E). finish H.
    + destruct (ch_eq e "u"); [|discriminate].
      destruct s2 as [|h1 [|h2 [|h3 [|h4 s6]]]]; try discriminate. simpl.
      destruct (is_hex h1 && is_hex h2 && is_hex h3 && is_hex h4); [|discriminate].
      destruct (scan_string s6) as [[b' r']|] eqn:E; [|discriminate].
      rewrite (IH s6 ltac:(simpl; lia) _ _ t E). finish H.
  - destruct (code c <? 32)%N; [discriminate|].
    destruct (scan_string s1) as [[b' r']|] eqn:E; [|discriminate].
    rewrite (IH s1 ltac:(simpl; lia) _ _ t E). finish H.
Qed.

(** A text that cannot continue a number literal. *)
Definition stops (t : string) : bool :=
  match t with
  | EmptyString => true
  | String c _ =>
    negb (is_digit c || ch_eq c "." || ch_eq c "e" || ch_eq c "E"
          || ch_eq c "+" || ch_eq c "-")
  end.

Lemma num_step_stops st c t :
  stops (String c t) = true -> num_step st c = None.
Proof.
  simpl. intros H. apply negb_true_iff in H.
  repeat (apply orb_false_iff in H; destruct H as [H ?]).
  assert (Hd19 : is_digit19 c = false).
  { unfold is_digit, is_digit19 in *.
    apply andb_false_iff in H as [H|H]; apply andb_false_iff.
    - left. apply N.leb_gt in H. apply N.leb_gt. lia.
    - right. exact H. }
  assert (Hzero : ch_eq c "0" = false).
  { unfold ch_eq. destruct (Ascii.eqb_spec c "0"); [subst; discriminate|reflexivity]. }
  destruct st; simpl;
    repeat match goal with H : _ = false |- _ => rewrite H end; reflexivity.
Qed.

Lemma scan_num_append s : forall st lit r t,
  scan_num st s = Some (lit, r) -> stops t = true ->
  scan_num st (s +:+ t) = Some (lit, r +:+ t).
Proof.
  induction s as [|c s IH]; intros st lit r t H Ht; simpl in H |- *.
  - destruct (num_accepting st) eqn:Hacc; [|discriminate].
    injection H as <- <-. simpl. destruct t as [|c t']; simpl.
    + rewrite Hacc. reflexivity.
    + rewrite (num_step_stops st c t' Ht), Hacc. reflexivity.
  - destruct (num_step st c) as [st'|].
    + destruct (scan_num st' s) as [[lit' r']|] eqn:E; [|discriminate].
      rewrite (IH _ _ _ t E Ht). finish H.
    + destruct (num_accepting st); [|discriminate].
      injection H as <- <-. reflexivity.
Qed.

Lemma scan_number_append s lit r t :
  scan_number s = Some (lit, r) -> stops t = true ->
  scan_number (s +:+ t) = Some (lit, r +:+ t).
Proof.
  destruct s as [|c s]; [discriminate|]. simpl. intros H Ht.
  destruct (ch_eq c "-").
  { destruct (scan_num NNeg s) as [[l' r']|] eqn:E; [|discriminate].
    rewrite (scan_num_append _ _ _ _ t E Ht). finish H. }
  destruct (ch_eq c "0").
  { destruct (scan_num NZero s) as [[l' r']|] eqn:E; [|discriminate].
    rewrite (scan_num_append _ _ _ _ t E Ht). finish H. }
  destruct (is_digit19 c); [|discriminate].
  destruct (scan_num NInt s) as [[l' r']|] eqn:E; [|discriminate].
  rewrite (scan_num_append _ _ _ _ t E Ht). finish H.
Qed.

Lemma starts_with_append p : forall s t,
  starts_with p s = true -> starts_with p (s +:+ t) = true.
Proof.
  induction p as [|x p IH]; intros s t; simpl; [reflexivity|].
  destruct s as [|y s]; [discriminate|]. simpl.
  destruct (Ascii.eqb x y); [apply IH|discriminate].
Qed.

Lemma starts_with_length p : forall s,
  starts_with p s = true -> (String.length p <= String.length s)%nat.
Proof.
  induction p as [|x p IH]; intros s; simpl; [lia|].
  destruct s as [|y s]; [discriminate|]. simpl.
  destruct (Ascii.eqb x y); [|discriminate]. intros H. apply IH in H. lia.
Qed.

Lemma drop_append (n : nat) : forall s t,
  (n <= String.length s)%nat -> drop n (s +:+ t) = drop n s +:+ t.
Proof.
  induction n as [|n IH]; intros s t H.
  - reflexivity.
  - destruct s as [|x s]; simpl in *; [lia|]. apply IH. lia.
Qed.

Lemma expect_append lit v s v' r t :
  expect lit v s = Some (v', r) ->
  expect lit v (s +:+ t) = Some (v', r +:+ t).
Proof.
  unfold expect.
  destruct (starts_with lit s) eqn:Hp; [|discriminate].
  intros [= <- <-]. rewrite (starts_with_append _ _ t Hp).
  rewrite drop_append by (apply starts_with_length; exact Hp). reflexivity.
Qed.


#[local] Arguments scan_number : simpl never.
#[local] Arguments expect : simpl never.

Lemma parse_value_empty f d : parse_value f d "" = None.
Proof. destruct f; reflexivity. Qed.

Lemma parse_elems_empty f d : parse_elems f d "" = None.
Proof. destruct f as [|f]; [reflexivity|]. simpl. rewrite parse_value_empty. reflexivity. Qed.

Lemma parse_members_empty f d : parse_members f d "" = None.
Proof. destruct f; reflexivity. Qed.

(** A value that was parsed is parsed in the same way when text that cannot
    continue a number follows the input. *)
Lemma parse_append f :
  (forall d s v r t,
     parse_value f d s = Some (v, r) -> stops t = true ->
     parse_value f d (s +:+ t) = Some (v, r +:+ t))
  /\ (forall d s vs r t,
        parse_elems f d s = Some (vs, r) -> stops t = true ->
        parse_elems f d (s +:+ t) = Some (vs, r +:+ t))
  /\ (forall d s ms r t,
        parse_members f d s = Some (ms, r) -> stops t = true ->
        parse_members f d (s +:+ t) = Some (ms, r +:+ t)).
Proof.
  induction f as [|f (IHv & IHe & IHm)].
  - repeat split; intros; discriminate.
  - split; [|split].
    + intros d s v r t H Ht. destruct s as [|c r0]; [discriminate|].
      simpl in H |- *.
      destruct (ch_eq c "{").
      { destruct d as [|d]; [discriminate|].
        destruct (skip_ws r0) as [|c' r'] eqn:Hws; [discriminate|].
        rewrite (skip_ws_append _ _ _ t Hws).
        destruct (ch_eq c' "}"); [finish H|].
        destruct (parse_members f d (String c' r')) as [[ms rest]|] eqn:E;
          [|discriminate].
        apply (IHm _ _ _ _ t) in E; [|exact Ht]. simpl in E. rewrite E. finish H. }
      destruct (ch_eq c "[").
      { destruct d as [|d]; [discriminate|].
        destruct (skip_ws r0) as [|c' r'] eqn:Hws; [discriminate|].
        rewrite (skip_ws_append _ _ _ t Hws).
        destruct (ch_eq c' "]"); [finish H|].
        destruct (parse_elems f d (String c' r')) as [[vs rest]|] eqn:E;
          [|discriminate].
        apply (IHe _ _ _ _ t) in E; [|exact Ht]. simpl in E. rewrite E. finish H. }
      destruct (ch_eq c dquote).
      { destruct (scan_string r0) as [[body rest]|] eqn:E; [|discriminate].
        rewrite (scan_string_append _ _ _ t E). finish H. }
      destruct (ch_eq c "t").
      { apply (expect_append _ _ (String c r0)). exact H. }
      destruct (ch_eq c "f").
      { apply (expect_append _ _ (String c r0)). exact H. }
      destruct (ch_eq c "n").
      { apply (expect_append _ _ (String c r0)). exact H. }
      destruct (scan_number (String c r0)) as [[lit rest]|] eqn:E; [|discriminate].
      pose proof (scan_number_append _ _ _ t E Ht) as E'.
      change (String c r0 +:+ t) with (String c (r0 +:+ t)) in E'.
      rewrite E'. finish H.
    + intros d s vs r t H Ht. simpl in H |- *.
      destruct (parse_value f d s) as [[v r1]|] eqn:E; [|discriminate].
      rewrite (IHv _ _ _ _ t E Ht).
      destruct (skip_ws r1) as [|c r'] eqn:Hws; [discriminate|].
      rewrite (skip_ws_append _ _ _ t Hws).
      destruct (ch_eq c ",").
      * destruct (skip_ws r') as [|c2 r2] eqn:Hws2.
        { rewrite parse_elems_empty in H. discriminate. }
        rewrite (skip_ws_append _ _ _ t Hws2).
        destruct (parse_elems f d (String c2 r2)) as [[vs' rest]|] eqn:E2;
          [|discriminate].
        apply (IHe _ _ _ _ t) in E2; [|exact Ht]. simpl in E2. rewrite E2. finish H.
      * destruct (ch_eq c "]"); [finish H|discriminate].
    + intros d s ms r t H Ht. destruct s as [|q r0]; [discriminate|].
      simpl in H |- *.
      destruct (ch_eq q dquote); [|discriminate].
      destruct (scan_string r0) as [[key r1]|] eqn:Ek; [|discriminate].
      rewrite (scan_string_append _ _ _ t Ek).
      destruct (skip_ws r1) as [|colon r2] eqn:Hws1; [discriminate|].
      rewrite (skip_ws_append _ _ _ t Hws1).
      destruct (ch_eq colon ":"); [|discriminate].
      destruct (skip_ws r2) as [|c3 r3] eqn:Hws2.
      { rewrite parse_value_empty in H. discriminate. }
      rewrite (skip_ws_append _ _ _ t Hws2).
      destruct (parse_value f d (String c3 r3)) as [[v r4]|] eqn:Ev; [|discriminate].
      pose proof (IHv _ _ _ _ t Ev Ht) as Ev'. simpl in Ev'. rewrite Ev'.
      change (String c3 (r3 +:+ t)) with (String c3 r3 +:+ t).
      rewrite consumed_append.
      destruct (skip_ws r4) as [|c r5] eqn:Hws3; [discriminate|].
      rewrite (skip_ws_append _ _ _ t Hws3).
      destruct (ch_eq c ",").
      * destruct (skip_ws r5) as [|c6 r6] eqn:Hws4.
        { rewrite parse_members_empty in H. discriminate. }
        rewrite (skip_ws_append _ _ _ t Hws4).
        destruct (parse_members f d (String c6 r6)) as [[ms' rest]|] eqn:E2;
          [|discriminate].
        apply (IHm _ _ _ _ t) in E2; [|exact Ht]. simpl in E2. rewrite E2. finish H.
      * destruct (ch_eq c "}"); [finish H|discriminate].
Qed.

End ParseFacts.

(** ** What the encoder writes, read back *)

Module TextFacts.
Import Bytes Json GoJson ParseFacts.
#[local] Arguments String.append !_ _ / : simpl nomatch.

Definition prefix_body (pre : string) (o : option (string * string))
  : option (string * string) :=
  match o with
  | Some (b, r) => Some (pre +:+ b, r)
  | None => None
  end.

Definition high (c : ascii) : bool := (128 <=? code c)%N.

(** A tactic for facts about one byte: try all 256. *)
Ltac every_byte c :=
  destruct c as [[] [] [] [] [] [] [] []].

Lemma high_plain c :
  high c = true ->
  ch_eq c backslash = false /\ ch_eq c dquote = false
  /\ (code c <? 32)%N = false /\ (code c <? 128)%N = false.
Proof. every_byte c; intros H; try discriminate H; repeat split. Qed.

Lemma not_ascii_high c : (code c <? 128)%N = false -> high c = true.
Proof. every_byte c; intros H; try discriminate H; reflexivity. Qed.

Lemma cont_high c : Utf8.cont c = true -> high c = true.
Proof. every_byte c; intros H; try discriminate H; reflexivity. Qed.

Lemma lead3_high c0 c1 : Utf8.lead3 c0 c1 = true -> high c1 = true.
Proof.
  unfold Utf8.lead3. intros H.
  repeat (apply orb_true_iff in H; destruct H as [H|H]);
    apply andb_true_iff in H as [_ H]; revert H;
    every_byte c1; intros H; try discriminate H; reflexivity.
Qed.

Lemma lead4_high c0 c1 : Utf8.lead4 c0 c1 = true -> high c1 = true.
Proof.
  unfold Utf8.lead4. intros H.
  repeat (apply orb_true_iff in H; destruct H as [H|H]);
    apply andb_true_iff in H as [_ H]; revert H;
    every_byte c1; intros H; try discriminate H; reflexivity.
Qed.

(** *** Scanning an encoded string *)

Lemma scan_string_high c X :
  high c = true -> scan_string (String c X) = cons_body c (scan_string X).
Proof.
  intros H. destruct (high_plain c H) as (H1 & H2 & H3 & _).
  simpl. rewrite H1, H2, H3. reflexivity.
Qed.

Lemma scan_string_escape_ascii c X :
  (code c <? 128)%N = true ->
  scan_string (escape_ascii c +:+ X) = prefix_body (escape_ascii c) (scan_string X).
Proof.
  every_byte c; intros H; try discriminate H;
    cbv [escape_ascii u00 hexdigit code]; simpl;
    destruct (scan_string X) as [[b r]|]; reflexivity.
Qed.

Lemma scan_string_ufffd X :
  scan_string (ufffd +:+ X) = prefix_body ufffd (scan_string X).
Proof. simpl. destruct (scan_string X) as [[b r]|]; reflexivity. Qed.

Lemma scan_string_u202 c0 c1 c2 X :
  Utf8.is_line_sep c0 c1 c2 = true ->
  scan_string (u202 c2 +:+ X) = prefix_body (u202 c2) (scan_string X).
Proof.
  unfold Utf8.is_line_sep. intros H.
  apply andb_true_iff in H as [_ H]. apply orb_true_iff in H.
  destruct H as [H|H]; apply Ascii.eqb_eq in H; subst c2; simpl;
    destruct (scan_string X) as [[b r]|]; reflexivity.
Qed.

Lemma append_cons c (s t : string) : String c s +:+ t = String c (s +:+ t).
Proof. reflexivity. Qed.

Lemma scan_encode_body s : forall t,
  scan_string (encode_body s +:+ String dquote t) = Some (encode_body s, t).
Proof.
  induction s as [s IH] using string_length_ind. intros t.
  destruct s as [|c r]; [reflexivity|].
  cbn [encode_body].
  destruct (code c <? 128)%N eqn:Hc.
  { rewrite append_assoc, scan_string_escape_ascii by exact Hc.
    rewrite IH by (simpl; lia). reflexivity. }
  apply not_ascii_high in Hc.
  destruct r as [|c1 r1]; [reflexivity|].
  destruct (Utf8.lead2 c && Utf8.cont c1) eqn:H2.
  { apply andb_true_iff in H2 as [_ H2]. apply cont_high in H2.
    rewrite !append_cons, !scan_string_high by assumption.
    rewrite IH by (simpl; lia). reflexivity. }
  destruct r1 as [|c2 r2].
  { rewrite append_assoc, scan_string_ufffd.
    rewrite IH by (simpl; lia). reflexivity. }
  destruct (Utf8.lead3 c c1 && Utf8.cont c2) eqn:H3.
  { apply andb_true_iff in H3 as [H3 H3']. apply lead3_high in H3.
    apply cont_high in H3'.
    destruct (Utf8.is_line_sep c c1 c2) eqn:Hls.
    - rewrite append_assoc, (scan_string_u202 _ _ _ _ Hls).
      rewrite IH by (simpl; lia). reflexivity.
    - rewrite !append_cons, !scan_string_high by assumption.
      rewrite IH by (simpl; lia). reflexivity. }
  destruct r2 as [|c3 r3].
  { rewrite append_assoc, scan_string_ufffd.
    rewrite IH by (simpl; lia). reflexivity. }
  destruct (Utf8.lead4 c c1 && Utf8.cont c2 && Utf8.cont c3) eqn:H4.
  { apply andb_true_iff in H4 as [H4 H4c]. apply andb_true_iff in H4 as [H4 H4b].
    apply lead4_high in H4. apply cont_high in H4b, H4c.
    rewrite !append_cons, !scan_string_high by assumption.
    rewrite IH by (simpl; lia). reflexivity. }
  rewrite append_assoc, scan_string_ufffd.
  rewrite IH by (simpl; lia). reflexivity.
Qed.

(** *** Unquoting an encoded string *)

Lemma unquote_escape_ascii c X :
  (code c <? 128)%N = true ->
  unquote (escape_ascii c +:+ X) = prepend (String c "") (unquote X).
Proof.
  every_byte c; intros H; try discriminate H;
    cbv [escape_ascii u00 hexdigit code]; simpl; reflexivity.
Qed.

Lemma unquote_high c X :
  high c = true ->
  unquote (String c X)
  = match X with
    | String c1 r1 =>
      if Utf8.lead2 c && Utf8.cont c1 then
        prepend (String c (String c1 "")) (unquote r1)
      else
        match r1 with
        | String c2 r2 =>
          if Utf8.lead3 c c1 && Utf8.cont c2 then
            prepend (String c (String c1 (String c2 ""))) (unquote r2)
          else
            match r2 with
            | String c3 r3 =>
              if Utf8.lead4 c c1 && Utf8.cont c2 && Utf8.cont c3 then
                prepend (String c (String c1 (String c2 (String c3 ""))))
                  (unquote r3)
              else prepend Utf8.replacement (unquote X)
            | EmptyString => prepend Utf8.replacement (unquote X)
            end
        | EmptyString => prepend Utf8.replacement (unquote X)
        end
    | EmptyString => Some Utf8.replacement
    end.
Proof.
  intros H. destruct (high_plain c H) as (H1 & H2 & H3 & H4).
  cbn [unquote]. rewrite H1, H2, H3, H4. reflexivity.
Qed.

Lemma unquote_u202 c0 c1 c2 X :
  Utf8.is_line_sep c0 c1 c2 = true ->
  unquote (u202 c2 +:+ X)
  = prepend (String c0 (String c1 (String c2 ""))) (unquote X).
Proof.
  unfold Utf8.is_line_sep. intros H.
  apply andb_true_iff in H as [H H2]. apply andb_true_iff in H as [H0 H1].
  apply Ascii.eqb_eq in H0, H1. subst c0 c1.
  apply orb_true_iff in H2.
  destruct H2 as [H|H]; apply Ascii.eqb_eq in H; subst c2; reflexivity.
Qed.

Lemma prepend_Some pre s : prepend pre (Some s) = Some (pre +:+ s).
Proof. reflexivity. Qed.

(** Encoding a string that is valid UTF-8 loses nothing. *)
Lemma unquote_encode_body s :
  Utf8.valid s = true -> unquote (encode_body s) = Some s.
Proof.
  induction s as [s IH] using string_length_ind.
  destruct s as [|c r]; [reflexivity|].
  cbn [encode_body Utf8.valid].
  destruct (code c <? 128)%N eqn:Hc.
  { intros Hv. rewrite unquote_escape_ascii by exact Hc.
    rewrite IH by (simpl; lia || exact Hv). reflexivity. }
  apply not_ascii_high in Hc.
  destruct r as [|c1 r1]; [discriminate|].
  destruct (Utf8.lead2 c && Utf8.cont c1) eqn:H2.
  { intros Hv. rewrite unquote_high by exact Hc. rewrite H2.
    rewrite IH by (simpl; lia || exact Hv). reflexivity. }
  destruct r1 as [|c2 r2]; [discriminate|].
  destruct (Utf8.lead3 c c1 && Utf8.cont c2) eqn:H3.
  { intros Hv. destruct (Utf8.is_line_sep c c1 c2) eqn:Hls.
    - rewrite (unquote_u202 _ _ _ _ Hls).
      rewrite IH by (simpl; lia || exact Hv). reflexivity.
    - rewrite unquote_high by exact Hc. rewrite H2, H3.
      rewrite IH by (simpl; lia || exact Hv). reflexivity. }
  destruct r2 as [|c3 r3]; [discriminate|].
  destruct (Utf8.lead4 c c1 && Utf8.cont c2 && Utf8.cont c3) eqn:H4;
    [|discriminate].
  intros Hv. rewrite unquote_high by exact Hc. rewrite H2, H3, H4.
  rewrite IH by (simpl; lia || exact Hv). reflexivity.
Qed.


(** *** Integers *)

Lemma scan_digits d : forall t,
  stops t = true ->
  scan_num NInt (NilEmpty.string_of_uint d +:+ t)
  = Some (NilEmpty.string_of_uint d, t).
Proof.
  induction d as [|d IH|d IH|d IH|d IH|d IH|d IH|d IH|d IH|d IH|d IH];
    intros t Ht; cbn [NilEmpty.string_of_uint];
    try (rewrite append_cons; cbn [scan_num num_step]; simpl; rewrite IH by exact Ht;
         reflexivity).
  simpl. destruct t as [|c t']; [reflexivity|].
  cbn [scan_num]. rewrite (num_step_stops NInt c t' Ht). reflexivity.
Qed.

Definition leading_nonzero (d : Decimal.uint) : bool :=
  match d with
  | Decimal.Nil | Decimal.D0 _ => false
  | _ => true
  end.

Lemma to_uint_leading_nonzero p : leading_nonzero (Pos.to_uint p) = true.
Proof.
  assert (Hn : Decimal.unorm (Pos.to_uint p) = Pos.to_uint p).
  { rewrite <- (DecimalPos.Unsigned.to_of (Pos.to_uint p)).
    rewrite DecimalPos.Unsigned.of_to. reflexivity. }
  pose proof (DecimalPos.Unsigned.to_uint_nonzero p) as Hz.
  pose proof (DecimalPos.Unsigned.to_uint_nonnil p) as Hnil.
  destruct (Pos.to_uint p) as [|d| | | | | | | | | ]; try reflexivity.
  - contradiction.
  - exfalso. rewrite DecimalFacts.unorm_D0 in Hn.
    destruct d as [|d'|d'|d'|d'|d'|d'|d'|d'|d'|d'].
    + apply Hz. reflexivity.
    + pose proof (DecimalFacts.nb_digits_unorm (Decimal.D0 d') ltac:(discriminate)) as Hle.
      rewrite Hn in Hle. simpl in Hle. lia.
    + pose proof (DecimalFacts.nb_digits_unorm (Decimal.D1 d') ltac:(discriminate)) as Hle.
      rewrite Hn in Hle. simpl in Hle. lia.
    + pose proof (DecimalFacts.nb_digits_unorm (Decimal.D2 d') ltac:(discriminate)) as Hle.
      rewrite Hn in Hle. simpl in Hle. lia.
    + pose proof (DecimalFacts.nb_digits_unorm (Decimal.D3 d') ltac:(discriminate)) as Hle.
      rewrite Hn in Hle. simpl in Hle. lia.
    + pose proof (DecimalFacts.nb_digits_unorm (Decimal.D4 d') ltac:(discriminate)) as Hle.
      rewrite Hn in Hle. simpl in Hle. lia.
    + pose proof (DecimalFacts.nb_digits_unorm (Decimal.D5 d') ltac:(discriminate)) as Hle.
      rewrite Hn in Hle. simpl in Hle. lia.
    + pose proof (DecimalFacts.nb_digits_unorm (Decimal.D6 d') ltac:(discriminate)) as Hle.
      rewrite Hn in Hle. simpl in Hle. lia.
    + pose proof (DecimalFacts.nb_digits_unorm (Decimal.D7 d') ltac:(discriminate)) as Hle.
      rewrite Hn in Hle. simpl in Hle. lia.
    + pose proof (DecimalFacts.nb_digits_unorm (Decimal.D8 d') ltac:(discriminate)) as Hle.
      rewrite Hn in Hle. simpl in Hle. lia.
    + pose proof (DecimalFacts.nb_digits_unorm (Decimal.D9 d') ltac:(discriminate)) as Hle.
      rewrite Hn in Hle. simpl in Hle. lia.
Qed.

Lemma scan_positive d t :
  leading_nonzero d = true -> stops t = true ->
  scan_number (NilZero.string_of_uint d +:+ t) = Some (NilZero.string_of_uint d, t)
  /\ scan_num NNeg (NilZero.string_of_uint d +:+ t)
     = Some (NilZero.string_of_uint d, t).
Proof.
  intros Hd Ht.
  destruct d as [|d|d|d|d|d|d|d|d|d|d]; try discriminate Hd;
    cbn [NilZero.string_of_uint NilEmpty.string_of_uint];
    rewrite append_cons; cbn [scan_number scan_num num_step]; simpl;
    rewrite (scan_digits d t Ht); split; reflexivity.
Qed.

Lemma scan_number_string_of_Z z t :
  stops t = true ->
  scan_number (Float64.string_of_Z z +:+ t) = Some (Float64.string_of_Z z, t).
Proof.
  intros Ht. unfold Float64.string_of_Z. destruct z as [|p|p]; cbn [Z.to_int].
  - change (NilZero.string_of_int (Decimal.Pos Decimal.zero)) with "0".
    rewrite append_cons. cbn [scan_number]. simpl.
    destruct t as [|c t']; [reflexivity|].
    cbn [scan_num]. rewrite (num_step_stops NZero c t' Ht). reflexivity.
  - cbn [NilZero.string_of_int].
    apply scan_positive; [apply to_uint_leading_nonzero|exact Ht].
  - cbn [NilZero.string_of_int]. rewrite append_cons. cbn [scan_number]. simpl.
    destruct (scan_positive (Pos.to_uint p) t (to_uint_leading_nonzero p) Ht)
      as [_ ->]. reflexivity.
Qed.

Lemma parse_int_string_of_Z z :
  (- 2 ^ 63 <= z < 2 ^ 63)%Z ->
  Wire.parse_int (Float64.string_of_Z z) = Some z.
Proof.
  intros Hz. unfold Wire.parse_int, Float64.string_of_Z.
  rewrite NilZero.isi.
  - rewrite DecimalZ.of_to.
    replace (- 2 ^ 63 <=? z)%Z with true by (symmetry; apply Z.leb_le; lia).
    replace (z <? 2 ^ 63)%Z with true by (symmetry; apply Z.ltb_lt; lia).
    reflexivity.
  - destruct z as [|p|p]; cbn [Z.to_int]; try discriminate.
    intros [= H]. apply (DecimalPos.Unsigned.to_uint_nonnil p H).
  - destruct z as [|p|p]; cbn [Z.to_int]; try discriminate.
    intros [= H]. apply (DecimalPos.Unsigned.to_uint_nonnil p H).
Qed.

End TextFacts.

(** ** Round trips through the codec *)

Module RoundTrip.
Import Bytes Json GoJson Protocol GoErr Wire Codec ParseFacts TextFacts.
#[local] Arguments String.append !_ _ / : simpl nomatch.
#[local] Arguments scan_number : simpl never.

(** *** More nesting allowed *)

Lemma parse_depth_mono f :
  (forall d d' s r, (d <= d')%nat ->
     parse_value f d s = Some r -> parse_value f d' s = Some r)
  /\ (forall d d' s r, (d <= d')%nat ->
        parse_elems f d s = Some r -> parse_elems f d' s = Some r)
  /\ (forall d d' s r, (d <= d')%nat ->
        parse_members f d s = Some r -> parse_members f d' s = Some r).
Proof.
  induction f as [|f (IHv & IHe & IHm)].
  - repeat split; intros; discriminate.
  - split; [|split]; intros d d' s r Hle H.
    + destruct s as [|c r0]; [discriminate|]. simpl in H |- *.
      destruct (ch_eq c "{").
      { destruct d as [|d]; [discriminate|]. destruct d' as [|d']; [lia|].
        destruct (skip_ws r0) as [|c' r']; [discriminate|].
        destruct (ch_eq c' "}"); [exact H|].
        destruct (parse_members f d (String c' r')) as [[ms rest]|] eqn:E;
          [|discriminate].
        rewrite (IHm d d' _ _ ltac:(lia) E). exact H. }
      destruct (ch_eq c "[").
      { destruct d as [|d]; [discriminate|]. destruct d' as [|d']; [lia|].
        destruct (skip_ws r0) as [|c' r']; [discriminate|].
        destruct (ch_eq c' "]"); [exact H|].
        destruct (parse_elems f d (String c' r')) as [[vs rest]|] eqn:E;
          [|discriminate].
        rewrite (IHe d d' _ _ ltac:(lia) E). exact H. }
      exact H.
    + simpl in H |- *.
      destruct (parse_value f d s) as [[v r1]|] eqn:E; [|discriminate].
      rewrite (IHv d d' _ _ Hle E).
      destruct (skip_ws r1) as [|c r']; [discriminate|].
      destruct (ch_eq c ","); [|exact H].
      destruct (parse_elems f d (skip_ws r')) as [[vs rest]|] eqn:E2;
        [|discriminate].
      rewrite (IHe d d' _ _ Hle E2). exact H.
    + destruct s as [|q r0]; [discriminate|]. simpl in H |- *.
      destruct (ch_eq q dquote); [|discriminate].
      destruct (scan_string r0) as [[key r1]|]; [|discriminate].
      destruct (skip_ws r1) as [|colon r2]; [discriminate|].
      destruct (ch_eq colon ":"); [|discriminate].
      destruct (parse_value f d (skip_ws r2)) as [[v r3]|] eqn:E; [|discriminate].
      rewrite (IHv d d' _ _ Hle E).
      destruct (skip_ws r3) as [|c r4]; [discriminate|].
      destruct (ch_eq c ","); [|exact H].
      destruct (parse_members f d (skip_ws r4)) as [[ms rest]|] eqn:E2;
        [|discriminate].
      rewrite (IHm d d' _ _ Hle E2). exact H.
Qed.

(** A parsed value does not start with whitespace. *)
Lemma parse_value_skip_ws f d s r :
  parse_value f d s = Some r -> skip_ws s = s.
Proof.
  destruct f as [|f]; [discriminate|].
  destruct s as [|c s']; [discriminate|].
  destruct (is_space c) eqn:Hsp.
  - revert Hsp. every_byte c; intros Hsp; try discriminate Hsp;
      intros H; discriminate H.
  - intros _. simpl. rewrite Hsp. reflexivity.
Qed.

(** *** Texts that the parser reads as one value.  [parses_as d n text v]:
    with at least [n] units of fuel and [d] levels of nesting, the parser
    reads [v] off the front of [text] whatever follows, if it cannot
    continue a number. *)
Definition parses_as (d n : nat) (text : string) (v : value) : Prop :=
  forall f X, (n <= f)%nat -> stops X = true ->
              parse_value f d (text +:+ X) = Some (v, X).

Lemma parses_as_weaken d n n' text v :
  parses_as d n text v -> (n <= n')%nat -> parses_as d n' text v.
Proof. intros H Hle f X Hf HX. apply H; [lia|exact HX]. Qed.

Lemma parses_as_null d : parses_as d 1 "null" Null.
Proof. unfold parses_as. intros [|f] X Hf HX; [lia|]. reflexivity. Qed.

Lemma parses_as_bool d (b : bool) :
  parses_as d 1 (if b then "true" else "false") (Bool b).
Proof. unfold parses_as. intros [|f] X Hf HX; [lia|]. destruct b; reflexivity. Qed.

Lemma parses_as_string d s :
  parses_as d 1 (encode_string s) (Str (encode_body s)).
Proof.
  unfold parses_as. intros [|f] X Hf HX; [lia|]. unfold encode_string, quoted.
  rewrite append_cons, append_assoc, append_cons.
  cbn [parse_value]. simpl. rewrite scan_encode_body. reflexivity.
Qed.

Lemma scan_number_first c r x :
  scan_number (String c r) = Some x ->
  ch_eq c "{" = false /\ ch_eq c "[" = false /\ ch_eq c dquote = false
  /\ ch_eq c "t" = false /\ ch_eq c "f" = false /\ ch_eq c "n" = false.
Proof.
  unfold scan_number.
  every_byte c; simpl; intros H; try discriminate H; repeat split.
Qed.

Lemma parses_as_number d lit :
  scan_number lit = Some (lit, EmptyString) -> parses_as d 1 lit (Number lit).
Proof.
  unfold parses_as. intros Hscan [|f] X Hf HX; [lia|].
  destruct lit as [|c r]; [discriminate|].
  destruct (scan_number_first _ _ _ Hscan) as (H1 & H2 & H3 & H4 & H5 & H6).
  pose proof (scan_number_append _ _ _ X Hscan HX) as E.
  rewrite append_cons in E |- *. cbn [parse_value].
  rewrite H1, H2, H3, H4, H5, H6, E. reflexivity.
Qed.

Lemma parses_as_int d z : parses_as d 1 (Float64.string_of_Z z) (Number (Float64.string_of_Z z)).
Proof.
  apply parses_as_number.
  pose proof (scan_number_string_of_Z z "" eq_refl) as H.
  rewrite append_empty_r in H. exact H.
Qed.


(** *** Members and objects *)

Definition plain (c : ascii) : bool :=
  negb (ch_eq c dquote) && negb (ch_eq c backslash) && negb (code c <? 32)%N.

Fixpoint plain_key (s : string) : bool :=
  match s with
  | EmptyString => true
  | String c r => plain c && plain_key r
  end.

Lemma scan_plain_key name Z :
  plain_key name = true -> scan_string (name +:+ String dquote Z) = Some (name, Z).
Proof.
  induction name as [|c r IH]; [reflexivity|].
  cbn [plain_key]. intros H. apply andb_true_iff in H as [Hc Hr].
  unfold plain in Hc. apply andb_true_iff in Hc as [Hc H3].
  apply andb_true_iff in Hc as [H1 H2].
  apply negb_true_iff in H1, H2, H3.
  rewrite append_cons. cbn [scan_string]. rewrite H1, H2, H3, (IH Hr). reflexivity.
Qed.

Lemma member_append name text R :
  member name text +:+ R
  = String dquote (name +:+ String dquote (String ":" (text +:+ R))).
Proof.
  unfold member, quoted. rewrite !append_cons, !append_assoc.
  reflexivity.
Qed.

Lemma parse_member_step f d name text v R :
  plain_key name = true ->
  parse_value f d (text +:+ R) = Some (v, R) ->
  parse_members (S f) d (member name text +:+ R)
  = match skip_ws R with
    | String c r4 =>
      if ch_eq c "," then
        match parse_members f d (skip_ws r4) with
        | Some (ms, rest) => Some ((name, text, v) :: ms, rest)
        | None => None
        end
      else if ch_eq c "}" then Some ([(name, text, v)], r4)
      else None
    | EmptyString => None
    end.
Proof.
  intros Hk Hv. rewrite member_append. cbn [parse_members].
  change (ch_eq dquote dquote) with true. cbn iota.
  rewrite (scan_plain_key _ _ Hk).
  change (skip_ws (String ":" (text +:+ R))) with (String ":" (text +:+ R)).
  change (ch_eq ":" ":") with true. cbn iota.
  rewrite (parse_value_skip_ws _ _ _ _ Hv), Hv, consumed_exact. reflexivity.
Qed.

Definition item_ok (d n : nat) (i : string * string * value) : Prop :=
  plain_key (fst (fst i)) = true /\ parses_as d n (snd (fst i)) (snd i).

Definition item_text (i : string * string * value) : string :=
  member (fst (fst i)) (snd (fst i)).

Lemma join_cons_cons (a b : string) (l : list string) :
  join (a :: b :: l) = a +:+ "," +:+ join (b :: l).
Proof. reflexivity. Qed.

Lemma parse_members_join d n i items : forall f T,
  Forall (item_ok d n) (i :: items) ->
  (n + length (i :: items) <= f)%nat ->
  parse_members f d (join (map item_text (i :: items)) +:+ String "}" T)
  = Some (i :: items, T).
Proof.
  revert i. induction items as [|i' items IH]; intros [[name text] v] f T Hok Hf.
  - destruct f as [|f]; [simpl in Hf; lia|].
    apply Forall_inv in Hok. destruct Hok as [Hk Hp]. simpl in Hk, Hp.
    cbn [map join].
    change (item_text (name, text, v)) with (member name text).
    rewrite (parse_member_step f d name text v (String "}" T) Hk).
    + reflexivity.
    + apply Hp; [simpl in Hf; lia|reflexivity].
  - destruct f as [|f]; [simpl in Hf; lia|].
    pose proof (Forall_inv Hok) as [Hk Hp]. simpl in Hk, Hp.
    apply Forall_inv_tail in Hok.
    cbn [map]. rewrite join_cons_cons.
    change (item_text (name, text, v)) with (member name text).
    rewrite !append_assoc.
    set (J := join (item_text i' :: map item_text items)).
    change ("," +:+ J +:+ String "}" T) with (String "," (J +:+ String "}" T)).
    rewrite (parse_member_step f d name text v _ Hk).
    + change (skip_ws (String "," (J +:+ String "}" T)))
        with (String "," (J +:+ String "}" T)).
      change (ch_eq "," ",") with true. cbn iota.
      assert (HJ : skip_ws (J +:+ String "}" T) = J +:+ String "}" T).
      { unfold J. destruct items; cbn [map join]; unfold item_text;
          rewrite ?append_assoc, member_append; reflexivity. }
      rewrite HJ. change J with (join (map item_text (i' :: items))).
      rewrite (IH i' f T Hok) by (simpl in Hf |- *; lia). reflexivity.
    + apply Hp; [simpl in Hf; lia|reflexivity].
Qed.

Lemma parses_as_object d n i items :
  Forall (item_ok d n) (i :: items) ->
  parses_as (S d) (S (n + length (i :: items)))
            ("{" +:+ join (map item_text (i :: items)) +:+ "}")
            (Object (i :: items)).
Proof.
  intros Hok f X Hf HX. destruct f as [|f]; [lia|].
  rewrite !append_assoc. rewrite append_cons.
  change ("" +:+ join (map item_text (i :: items)) +:+ "}" +:+ X)
    with (join (map item_text (i :: items)) +:+ String "}" X).
  cbn [parse_value]. change (ch_eq "{" "{") with true. cbn iota.
  assert (HJ : exists Y, join (map item_text (i :: items)) +:+ String "}" X
                         = String dquote Y).
  { destruct items; cbn [map join]; unfold item_text;
      rewrite ?append_assoc, member_append; eexists; reflexivity. }
  destruct HJ as [Y HY].
  pose proof (parse_members_join d n i items f X Hok ltac:(lia)) as Hm.
  rewrite HY in Hm |- *.
  change (skip_ws (String dquote Y)) with (String dquote Y).
  change (ch_eq dquote "}") with false. cbn iota.
  rewrite Hm. reflexivity.
Qed.


(** *** Scalars: what an identifier or the data of an error may be for the
    round trip *)

Definition float_eqb (a b : spec_float) : bool :=
  match a, b with
  | S754_zero s, S754_zero s' => Bool.eqb s s'
  | S754_finite s m e, S754_finite s' m' e' =>
    Bool.eqb s s' && Pos.eqb m m' && Z.eqb e e'
  | _, _ => false
  end.

Lemma float_eqb_eq a b : float_eqb a b = true -> a = b.
Proof.
  destruct a as [s|s| |s m e], b as [s'|s'| |s' m' e']; simpl; try discriminate.
  - intros H. apply Bool.eqb_prop in H. congruence.
  - intros H. apply andb_true_iff in H as [H He]. apply andb_true_iff in H as [Hs Hm].
    apply Bool.eqb_prop in Hs. apply Pos.eqb_eq in Hm. apply Z.eqb_eq in He.
    congruence.
Qed.

(** The float is written as a number literal that reads back as the same
    float: the guarantee of [strconv] for the shortest representation,
    checked here for the float at hand. *)
Definition reads_back (f : spec_float) : bool :=
  match Float64.FormatFloat f with
  | Some t =>
    match scan_number t with
    | Some (lit, EmptyString) =>
      String.eqb lit t
      && match Float64.ParseFloat t with
         | Some g => float_eqb g f
         | None => false
         end
    | _ => false
    end
  | None => false
  end.

Definition scalar (v : GoValue) : bool :=
  match v with
  | VNil => true
  | VBool _ => true
  | VString s => Utf8.valid s
  | VFloat64 f => reads_back f
  | _ => false
  end.

Lemma scalar_text d v :
  scalar v = true ->
  exists text j,
    marshal v = Some text /\ parses_as d 1 text j /\ to_interface j = Some v.
Proof.
  destruct v as [|b|f|s|l|m|n]; simpl; try discriminate.
  - intros _. exists "null", Null. split; [reflexivity|].
    split; [apply parses_as_null|reflexivity].
  - intros _. exists (if b then "true" else "false"), (Bool b).
    split; [destruct b; reflexivity|].
    split; [apply parses_as_bool|reflexivity].
  - unfold reads_back. destruct (Float64.FormatFloat f) as [t|]; [|discriminate].
    destruct (scan_number t) as [[lit [|]]|] eqn:Hs; try discriminate.
    intros H. apply andb_true_iff in H as [Hl Hp].
    apply String.eqb_eq in Hl. subst lit.
    destruct (Float64.ParseFloat t) as [g|] eqn:Hg; [|discriminate].
    apply float_eqb_eq in Hp. subst g.
    exists t, (Number t). split; [reflexivity|].
    split; [apply parses_as_number; exact Hs|].
    cbn [to_interface]. rewrite Hg. reflexivity.
  - intros Hv. exists (encode_string s), (Str (encode_body s)).
    split; [reflexivity|]. split; [apply parses_as_string|].
    cbn [to_interface]. rewrite (unquote_encode_body s Hv). reflexivity.
Qed.

(** *** Payloads.  A payload is compact when it is one JSON value with no
    whitespace around it, nested less deeply than the limit inside a
    message, that [compact] leaves as it is. *)

Definition payloadDepth : nat := N.to_nat 9999.

Lemma maxNestingDepth_S : maxNestingDepth = S payloadDepth.
Proof.
  unfold maxNestingDepth, payloadDepth.
  change 10000%N with (N.succ 9999). apply N2Nat.inj_succ.
Qed.

Definition compact_payload (p : string) : bool :=
  match parse_value (2 * String.length p + 1) payloadDepth p with
  | Some (v, EmptyString) => String.eqb (cprint v) p
  | _ => false
  end.

Lemma compact_payload_spec p :
  compact_payload p = true ->
  p <> EmptyString
  /\ compact p = Some p
  /\ exists v, parses_as payloadDepth (2 * String.length p + 1) p v.
Proof.
  unfold compact_payload.
  destruct (parse_value _ payloadDepth p) as [[v [|]]|] eqn:Hp; try discriminate.
  intros Heq. apply String.eqb_eq in Heq.
  split; [|split].
  - intros ->. rewrite parse_value_empty in Hp. discriminate.
  - unfold compact, parse, parse_at.
    rewrite (parse_value_skip_ws _ _ _ _ Hp).
    rewrite (proj1 (parse_depth_mono _) payloadDepth maxNestingDepth p _
               ltac:(rewrite maxNestingDepth_S; lia) Hp).
    simpl. rewrite Heq. reflexivity.
  - exists v. intros f X Hf HX.
    apply (proj1 (parse_fuel_mono _ f Hf)).
    apply (proj1 (parse_append _) _ _ _ _ X Hp HX).
Qed.


(** *** Storing the members of a message *)

Ltac decide_key k :=
  change (unquote k) with (Some k); cbn beta iota;
  repeat match goal with
  | |- context [selects k ?n] =>
    let b := eval vm_compute in (selects k n) in
    change (selects k n) with b; cbn beta iota
  end.

Lemma store_Request_jsonrpc r raw s :
  Utf8.valid s = true ->
  store_Request_member r ("jsonrpc", raw, Str (encode_body s))
  = Some (mkRequest s (req_Method r) (req_Params r) (req_ID r)).
Proof.
  intros Hs. unfold store_Request_member. decide_key "jsonrpc".
  cbn [store_string]. rewrite (unquote_encode_body s Hs). reflexivity.
Qed.

Lemma store_Request_method r raw s :
  Utf8.valid s = true ->
  store_Request_member r ("method", raw, Str (encode_body s))
  = Some (mkRequest (req_Jsonrpc r) s (req_Params r) (req_ID r)).
Proof.
  intros Hs. unfold store_Request_member. decide_key "method".
  cbn [store_string]. rewrite (unquote_encode_body s Hs). reflexivity.
Qed.

Lemma store_Request_raw_params r raw j :
  store_Request_member r ("params", raw, j)
  = Some (mkRequest (req_Jsonrpc r) (req_Method r) (Some raw) (req_ID r)).
Proof. reflexivity. Qed.

Lemma store_Request_identifier r raw j v :
  to_interface j = Some v ->
  store_Request_member r ("id", raw, j)
  = Some (mkRequest (req_Jsonrpc r) (req_Method r) (req_Params r) v).
Proof.
  intros Hv. unfold store_Request_member. decide_key "id".
  rewrite Hv. reflexivity.
Qed.

Lemma store_Response_jsonrpc r raw s :
  Utf8.valid s = true ->
  store_Response_member r ("jsonrpc", raw, Str (encode_body s))
  = Some (mkResponse s (resp_Result r) (resp_Error r) (resp_ID r)).
Proof.
  intros Hs. unfold store_Response_member. decide_key "jsonrpc".
  cbn [store_string]. rewrite (unquote_encode_body s Hs). reflexivity.
Qed.

Lemma store_Response_result r raw j :
  store_Response_member r ("result", raw, j)
  = Some (mkResponse (resp_Jsonrpc r) (Some raw) (resp_Error r) (resp_ID r)).
Proof. reflexivity. Qed.

Lemma store_Response_error r raw ms e :
  resp_Error r = None ->
  store_members store_Error_member ms zeroError = Some e ->
  store_Response_member r ("error", raw, Object ms)
  = Some (mkResponse (resp_Jsonrpc r) (resp_Result r) (Some e) (resp_ID r)).
Proof.
  intros Hn He. unfold store_Response_member. decide_key "error".
  cbn [store_Error_ptr]. rewrite Hn, He. reflexivity.
Qed.

Lemma store_Response_identifier r raw j v :
  to_interface j = Some v ->
  store_Response_member r ("id", raw, j)
  = Some (mkResponse (resp_Jsonrpc r) (resp_Result r) (resp_Error r) v).
Proof.
  intros Hv. unfold store_Response_member. decide_key "id".
  rewrite Hv. reflexivity.
Qed.

Lemma store_Error_code e raw z :
  (- 2 ^ 63 <= z < 2 ^ 63)%Z ->
  store_Error_member e ("code", raw, Number (Float64.string_of_Z z))
  = Some (NewError z (Message e) (Data e)).
Proof.
  intros Hz. unfold store_Error_member. decide_key "code".
  cbn [store_int]. rewrite (parse_int_string_of_Z z Hz). reflexivity.
Qed.

Lemma store_Error_message e raw s :
  Utf8.valid s = true ->
  store_Error_member e ("message", raw, Str (encode_body s))
  = Some (NewError (Code e) s (Data e)).
Proof.
  intros Hs. unfold store_Error_member. decide_key "message".
  cbn [store_string]. rewrite (unquote_encode_body s Hs). reflexivity.
Qed.

Lemma store_Error_data e raw j v :
  to_interface j = Some v ->
  store_Error_member e ("data", raw, j)
  = Some (NewError (Code e) (Message e) v).
Proof.
  intros Hv. unfold store_Error_member. decide_key "data".
  rewrite Hv. reflexivity.
Qed.


(** *** Reading back the text of an object *)

Definition object_text (items : list (string * string * value)) : string :=
  "{" +:+ join (map item_text items) +:+ "}".

Lemma length_member name text :
  (String.length text <= String.length (member name text))%nat.
Proof.
  unfold member. rewrite !length_append. lia.
Qed.

Lemma length_join_In x l :
  In x l -> (String.length x <= String.length (join l))%nat.
Proof.
  induction l as [|a l IH]; [intros []|].
  intros [->|Hin].
  - destruct l; [apply Nat.le_refl|]. rewrite join_cons_cons, !length_append. lia.
  - destruct l as [|b l]; [destruct Hin|].
    rewrite join_cons_cons, !length_append. specialize (IH Hin). lia.
Qed.

Lemma length_raw_In i items :
  In i items ->
  (String.length (snd (fst i))
   <= String.length (join (map item_text items)))%nat.
Proof.
  intros Hin. etransitivity; [apply (length_member (fst (fst i)))|].
  apply length_join_In. apply (in_map item_text) in Hin. exact Hin.
Qed.

Lemma length_object_text items T :
  String.length (object_text items +:+ T)
  = (String.length (join (map item_text items)) + 2 + String.length T)%nat.
Proof.
  unfold object_text. rewrite !length_append. simpl. lia.
Qed.

Lemma Unmarshal_object {A : Type}
    (store : A -> string * string * value -> option A) n i items a a' :
  Forall (item_ok payloadDepth n) (i :: items) ->
  (n + length (i :: items)
   <= 2 * String.length (join (map item_text (i :: items))) + 6)%nat ->
  store_members store (i :: items) a = Some a' ->
  Unmarshal_struct store (object_text (i :: items) +:+ String newline "") a
  = inl a'.
Proof.
  intros Hok Hn Hst.
  pose proof (parses_as_object payloadDepth n i items Hok) as Hp.
  specialize (Hp (2 * String.length (object_text (i :: items)
                                      +:+ String newline "") + 1)%nat
                 (String newline "")).
  rewrite length_object_text in Hp.
  change (String.length (String newline "")) with 1%nat in Hp.
  specialize (Hp ltac:(lia) eq_refl).
  fold (object_text (i :: items)) in Hp.
  unfold Unmarshal_struct, Json.parse, parse_at.
  rewrite maxNestingDepth_S, length_object_text.
  change (String.length (String newline "")) with 1%nat.
  rewrite (parse_value_skip_ws _ _ _ _ Hp), Hp.
  change (skip_ws (String newline "")) with "".
  cbn iota. rewrite Hst. reflexivity.
Qed.

Lemma object_text_nonempty items T :
  Nat.eqb (String.length (object_text items +:+ T)) 0 = false.
Proof. reflexivity. Qed.


(** *** Requests *)

Definition wf_request (r : Request) : bool :=
  negb (String.eqb (req_Method r) "")
  && Utf8.valid (req_Method r)
  && (String.eqb (req_Jsonrpc r) "" || String.eqb (req_Jsonrpc r) JSONRPCVersion)
  && match req_Params r with
     | Some p => compact_payload p
     | None => true
     end
  && scalar (req_ID r).

Definition with_version (r : Request) : Request :=
  mkRequest JSONRPCVersion (req_Method r) (req_Params r) (req_ID r).

Definition payload_items (name : string) (p : RawMessage) (pv : value)
  : list (string * string * value) :=
  match p with
  | Some raw => [(name, raw, pv)]
  | None => []
  end.

Definition request_items (m : string) (p : RawMessage) (pv : value)
    (idtext : string) (idj : value) : list (string * string * value) :=
  [("jsonrpc", encode_string JSONRPCVersion, Str (encode_body JSONRPCVersion));
   ("method", encode_string m, Str (encode_body m))]
  ++ payload_items "params" p pv ++ [("id", idtext, idj)].

Lemma raw_member_compact name p pv :
  match p with Some raw => compact_payload raw | None => true end = true ->
  raw_member name p = inl (map item_text (payload_items name p pv)).
Proof.
  destruct p as [raw|]; [|reflexivity].
  intros H. destruct (compact_payload_spec raw H) as (Hne & Hc & _).
  unfold raw_member. destruct raw as [|c raw]; [congruence|].
  rewrite Hc. reflexivity.
Qed.

Lemma payload_items_ok name p :
  plain_key name = true ->
  match p with Some raw => compact_payload raw | None => true end = true ->
  exists pv n,
    Forall (item_ok payloadDepth n) (payload_items name p pv)
    /\ (1 <= n)%nat
    /\ forall items,
         incl (payload_items name p pv) items ->
         (n <= 2 * String.length (join (map item_text items)) + 1)%nat.
Proof.
  intros Hk. destruct p as [raw|].
  - intros H. destruct (compact_payload_spec raw H) as (_ & _ & pv & Hp).
    exists pv, (2 * String.length raw + 1)%nat.
    split; [|split].
    + constructor; [|constructor]. split; [exact Hk|exact Hp].
    + lia.
    + intros items Hin.
      pose proof (length_raw_In (name, raw, pv) items
                    (Hin _ (or_introl eq_refl))) as Hl.
      simpl in Hl. lia.
  - intros _. exists Null, 1%nat.
    split; [constructor|]. split; [lia|]. intros; lia.
Qed.

Lemma Encode_Request_text m p pv id idtext :
  match p with Some raw => compact_payload raw | None => true end = true ->
  marshal id = Some idtext ->
  forall idj,
  Encode_Request (mkRequest JSONRPCVersion m p id)
  = inl (object_text (request_items m p pv idtext idj) +:+ String newline "").
Proof.
  intros Hp Hid idj. unfold Encode_Request, Marshal_Request, interface_member.
  cbn [req_Jsonrpc req_Method req_Params req_ID].
  rewrite (raw_member_compact "params" p pv Hp), Hid.
  unfold with_newline, object_text, request_items.
  rewrite !map_app. reflexivity.
Qed.

Lemma request_round_trip r :
  wf_request r = true ->
  exists bytes,
    snd (EncodeRequest (Some r)) = Ok bytes
    /\ DecodeRequest bytes = Ok (with_version r).
Proof.
  destruct r as [ver m p id]. unfold wf_request, with_version.
  cbn [req_Jsonrpc req_Method req_Params req_ID].
  intros H. apply andb_true_iff in H as [H Hid].
  apply andb_true_iff in H as [H Hp]. apply andb_true_iff in H as [H Hver].
  apply andb_true_iff in H as [Hne Hm]. apply negb_true_iff in Hne.
  destruct (scalar_text payloadDepth id Hid) as (idtext & idj & Hit & Hip & Hii).
  destruct (payload_items_ok "params" p eq_refl Hp) as (pv & n & Hok & Hn & Hlen).
  exists (object_text (request_items m p pv idtext idj) +:+ String newline "").
  split.
  - unfold EncodeRequest. cbn [req_Jsonrpc req_Method req_Params req_ID].
    rewrite Hne.
    assert (Hr : (if String.eqb ver ""
                  then mkRequest JSONRPCVersion m p id
                  else mkRequest ver m p id)
                 = mkRequest JSONRPCVersion m p id).
    { destruct (String.eqb ver ""); [reflexivity|].
      simpl in Hver. apply String.eqb_eq in Hver. subst ver. reflexivity. }
    rewrite Hr, (Encode_Request_text m p pv id idtext Hp Hit idj). reflexivity.
  - unfold DecodeRequest. rewrite object_text_nonempty.
    unfold Unmarshal_Request, request_items. cbn [app].
    rewrite (Unmarshal_object store_Request_member n _ _ zeroRequest
               (mkRequest JSONRPCVersion m p id)).
    + cbn [req_Jsonrpc req_Method]. rewrite Hne. reflexivity.
    + constructor; [split; [reflexivity|]|].
      { apply (parses_as_weaken _ 1); [apply parses_as_string|exact Hn]. }
      constructor; [split; [reflexivity|]|].
      { apply (parses_as_weaken _ 1); [apply parses_as_string|exact Hn]. }
      apply Forall_app. split; [exact Hok|].
      constructor; [|constructor]. split; [reflexivity|].
      apply (parses_as_weaken _ 1); [exact Hip|exact Hn].
    + match goal with
      | |- (_ <= 2 * String.length (join (map item_text ?l)) + 6)%nat =>
        specialize (Hlen l)
      end.
      assert (Hl : (length (payload_items "params" p pv) <= 1)%nat)
        by (destruct p; simpl; lia).
      cbn [length]. rewrite length_app. cbn [length].
      specialize (Hlen ltac:(intros x Hx; right; right; apply in_or_app;
                             left; exact Hx)).
      lia.
    + cbn [store_members].
      rewrite (store_Request_jsonrpc _ _ JSONRPCVersion eq_refl).
      rewrite (store_Request_method _ _ m Hm).
      cbn [req_Jsonrpc req_Method req_Params req_ID].
      destruct p as [raw|]; cbn [payload_items app store_members].
      * rewrite store_Request_raw_params, (store_Request_identifier _ _ _ _ Hii). reflexivity.
      * rewrite (store_Request_identifier _ _ _ _ Hii). reflexivity.
Qed.


(** *** Responses *)

Definition wf_error (e : Error) : bool :=
  (- 2 ^ 63 <=? Code e)%Z && (Code e <? 2 ^ 63)%Z
  && Utf8.valid (Message e)
  && scalar (Data e).

Definition wf_response (s : Response) : bool :=
  String.eqb (resp_Jsonrpc s) JSONRPCVersion
  && match resp_Result s, resp_Error s with
     | Some p, None => compact_payload p
     | None, Some e => wf_error e
     | _, _ => false
     end
  && scalar (resp_ID s).

Definition errorDepth : nat := N.to_nat 9998.

Lemma payloadDepth_S : payloadDepth = S errorDepth.
Proof.
  unfold payloadDepth, errorDepth.
  change 9999%N with (N.succ 9998). apply N2Nat.inj_succ.
Qed.

Definition data_items (d : GoValue) (dtext : string) (dj : value)
  : list (string * string * value) :=
  match d with
  | VNil => []
  | _ => [("data", dtext, dj)]
  end.

Definition error_items (e : Error) (dtext : string) (dj : value)
  : list (string * string * value) :=
  [("code", Float64.string_of_Z (Code e),
    Number (Float64.string_of_Z (Code e)));
   ("message", encode_string (Message e), Str (encode_body (Message e)))]
  ++ data_items (Data e) dtext dj.

Lemma Marshal_Error_text e dtext dj :
  marshal (Data e) = Some dtext ->
  Marshal_Error e = inl (object_text (error_items e dtext dj)).
Proof.
  intros Hd. unfold Marshal_Error, interface_member, object_text, error_items.
  destruct (Data e); try rewrite Hd; reflexivity.
Qed.

Lemma error_items_ok e dtext dj :
  plain_key "data" = true ->
  parses_as errorDepth 1 dtext dj ->
  Forall (item_ok errorDepth 1) (error_items e dtext dj).
Proof.
  intros _ Hd. unfold error_items.
  constructor; [split; [reflexivity|apply parses_as_int]|].
  constructor; [split; [reflexivity|apply parses_as_string]|].
  destruct (Data e); cbn [data_items app]; try constructor;
    try (split; [reflexivity|exact Hd]); constructor.
Qed.

Lemma store_error_items e dtext dj :
  wf_error e = true ->
  to_interface dj = Some (Data e) ->
  store_members store_Error_member (error_items e dtext dj) zeroError = Some e.
Proof.
  destruct e as [c m d]. unfold wf_error, error_items.
  cbn [Code Message Data]. intros H Hj.
  apply andb_true_iff in H as [H Hd]. apply andb_true_iff in H as [H Hm].
  apply andb_true_iff in H as [Hlo Hhi].
  apply Z.leb_le in Hlo. apply Z.ltb_lt in Hhi.
  cbn [app store_members].
  rewrite (store_Error_code _ _ c (conj Hlo Hhi)).
  rewrite (store_Error_message _ _ m Hm).
  cbn [Code Message Data zeroError].
  destruct d; cbn [data_items store_members]; try reflexivity;
    rewrite (store_Error_data _ _ _ _ Hj); reflexivity.
Qed.

Definition response_items (result : RawMessage) (pv : value)
    (err : list (string * string * value))
    (idtext : string) (idj : value) : list (string * string * value) :=
  [("jsonrpc", encode_string JSONRPCVersion, Str (encode_body JSONRPCVersion))]
  ++ payload_items "result" result pv ++ err ++ [("id", idtext, idj)].

Lemma result_round_trip p id :
  compact_payload p = true -> scalar id = true ->
  exists bytes,
    snd (EncodeResponse (Some (mkResponse JSONRPCVersion (Some p) None id)))
    = Ok bytes
    /\ DecodeResponse bytes = Ok (mkResponse JSONRPCVersion (Some p) None id).
Proof.
  intros Hp Hid.
  destruct (scalar_text payloadDepth id Hid) as (idtext & idj & Hit & Hip & Hii).
  destruct (payload_items_ok "result" (Some p) eq_refl Hp)
    as (pv & n & Hok & Hn & Hlen).
  exists (object_text (response_items (Some p) pv [] idtext idj)
          +:+ String newline "").
  split.
  - unfold EncodeResponse. cbn [resp_Jsonrpc resp_Result resp_Error resp_ID].
    change (String.eqb JSONRPCVersion "") with false. cbn iota.
    cbn [resp_Jsonrpc resp_Result resp_Error resp_ID].
    unfold Encode_Response, Marshal_Response, interface_member.
    cbn [resp_Jsonrpc resp_Result resp_Error resp_ID].
    rewrite (raw_member_compact "result" (Some p) pv Hp), Hit. reflexivity.
  - unfold DecodeResponse. rewrite object_text_nonempty.
    unfold Unmarshal_Response, response_items. cbn [app payload_items].
    rewrite (Unmarshal_object store_Response_member n _ _ zeroResponse
               (mkResponse JSONRPCVersion (Some p) None id)).
    + reflexivity.
    + constructor; [split; [reflexivity|]|].
      { apply (parses_as_weaken _ 1); [apply parses_as_string|exact Hn]. }
      constructor; [exact (Forall_inv Hok)|].
      constructor; [|constructor]. split; [reflexivity|].
      apply (parses_as_weaken _ 1); [exact Hip|exact Hn].
    + match goal with
      | |- (_ <= 2 * String.length (join (map item_text ?l)) + 6)%nat =>
        specialize (Hlen l)
      end.
      cbn [length].
      specialize (Hlen ltac:(intros x Hx; right; destruct Hx as [<-|[]];
                             left; reflexivity)).
      lia.
    + cbn [store_members].
      rewrite (store_Response_jsonrpc _ _ JSONRPCVersion eq_refl).
      rewrite store_Response_result, (store_Response_identifier _ _ _ _ Hii).
      reflexivity.
Qed.

Lemma error_round_trip e id :
  wf_error e = true -> scalar id = true ->
  exists bytes,
    snd (EncodeResponse (Some (mkResponse JSONRPCVersion None (Some e) id)))
    = Ok bytes
    /\ DecodeResponse bytes = Ok (mkResponse JSONRPCVersion None (Some e) id).
Proof.
  intros He Hid.
  destruct (scalar_text payloadDepth id Hid) as (idtext & idj & Hit & Hip & Hii).
  assert (Hd : scalar (Data e) = true).
  { unfold wf_error in He. apply andb_true_iff in He as [_ He]. exact He. }
  destruct (scalar_text errorDepth (Data e) Hd) as (dtext & dj & Hdt & Hdp & Hdi).
  set (eitems := error_items e dtext dj).
  set (err := [("error", object_text eitems, Object eitems)]).
  exists (object_text (response_items None Null err idtext idj)
          +:+ String newline "").
  split.
  - unfold EncodeResponse. cbn [resp_Jsonrpc resp_Result resp_Error resp_ID].
    change (String.eqb JSONRPCVersion "") with false. cbn iota.
    cbn [resp_Jsonrpc resp_Result resp_Error resp_ID].
    unfold Encode_Response, Marshal_Response, interface_member.
    cbn [resp_Jsonrpc resp_Result resp_Error resp_ID raw_member].
    rewrite (Marshal_Error_text e dtext dj Hdt), Hit. reflexivity.
  - unfold DecodeResponse. rewrite object_text_nonempty.
    unfold Unmarshal_Response, response_items, err. cbn [app payload_items].
    rewrite (Unmarshal_object store_Response_member 5 _ _ zeroResponse
               (mkResponse JSONRPCVersion None (Some e) id)).
    + reflexivity.
    + constructor; [split; [reflexivity|]|].
      { apply (parses_as_weaken _ 1); [apply parses_as_string|lia]. }
      constructor.
      { split; [reflexivity|]. cbn [fst snd].
        pose proof (error_items_ok e dtext dj eq_refl Hdp) as Hok.
        fold eitems in Hok.
        assert (Hl : (2 <= length eitems <= 3)%nat).
        { unfold eitems, error_items. rewrite length_app.
          destruct (Data e); simpl; lia. }
        destruct eitems as [|i items]; [simpl in Hl; lia|].
        rewrite payloadDepth_S.
        apply (parses_as_weaken _ (S (1 + length (i :: items)))).
        - apply parses_as_object. exact Hok.
        - lia. }
      constructor; [|constructor]. split; [reflexivity|].
      apply (parses_as_weaken _ 1); [exact Hip|lia].
    + match goal with
      | |- (_ <= 2 * String.length (join (map item_text ?l)) + 6)%nat =>
        pose proof (length_raw_In _ l (or_introl eq_refl)) as Hl
      end.
      cbn [fst snd] in Hl.
      change (String.length (encode_string JSONRPCVersion)) with 5%nat in Hl.
      cbn [length]. lia.
    + cbn [store_members].
      rewrite (store_Response_jsonrpc _ _ JSONRPCVersion eq_refl).
      cbn [resp_Jsonrpc resp_Result resp_Error resp_ID zeroResponse].
      rewrite (store_Response_error
                 (mkResponse JSONRPCVersion None None VNil) _ eitems e eq_refl
                 (store_error_items e dtext dj He Hdi)).
      rewrite (store_Response_identifier _ _ _ _ Hii). reflexivity.
Qed.

Lemma response_round_trip s :
  wf_response s = true ->
  exists bytes,
    snd (EncodeResponse (Some s)) = Ok bytes /\ DecodeResponse bytes = Ok s.
Proof.
  destruct s as [ver res err id]. unfold wf_response.
  cbn [resp_Jsonrpc resp_Result resp_Error resp_ID].
  intros H. apply andb_true_iff in H as [H Hid].
  apply andb_true_iff in H as [Hver H].
  apply String.eqb_eq in Hver. subst ver.
  destruct res as [p|], err as [e|]; try discriminate H.
  - apply result_round_trip; assumption.
  - apply error_round_trip; assumption.
Qed.


(** *** The round trip *)

(** C3 (as amended): a request whose method is non-empty valid UTF-8, whose
    version tag is empty or [2.0], whose parameter payload is absent or a
    compact JSON text nested less than 10000 deep counting the message, and
    whose identifier is nil, a bool, a valid UTF-8 string or a float64 that
    its shortest decimal form reads back, is encoded, and decoding the
    bytes returns the same request with the version tag [2.0]; a response
    with the version tag [2.0], such an identifier and exactly one of a
    compact result payload and an error (code within int64, valid UTF-8
    message, data nil or such a scalar) is encoded, and decoding the bytes
    returns the same response. *)
Theorem codec_round_trip (r : Request) (s : Response) :
  wf_request r = true ->
  wf_response s = true ->
  (exists bytes,
     snd (EncodeRequest (Some r)) = Ok bytes
     /\ DecodeRequest bytes = Ok (with_version r))
  /\ (exists bytes,
        snd (EncodeResponse (Some s)) = Ok bytes
        /\ DecodeResponse bytes = Ok s).
Proof.
  intros Hr Hs. split.
  - apply request_round_trip. exact Hr.
  - apply response_round_trip. exact Hs.
Qed.

Definition float_1 : spec_float := S754_finite false 4503599627370496 (-52).
Definition float_7 : spec_float := S754_finite false 7881299347898368 (-50).

Definition add_request : Request :=
  mkRequest "" "ArithService.Add"
    (Some ("{" +:+ quoted "a" +:+ ":10," +:+ quoted "b" +:+ ":[20,null]}"))
    (VFloat64 float_1).

Definition not_found_response : Response :=
  mkResponse JSONRPCVersion None
    (Some (NewMethodNotFoundError "ArithService.Sub")) (VString "req-1").

Lemma codec_round_trip_witness :
  wf_request add_request = true
  /\ wf_response not_found_response = true
  /\ (exists bytes,
        snd (EncodeRequest (Some add_request)) = Ok bytes
        /\ DecodeRequest bytes = Ok (with_version add_request))
  /\ (exists bytes,
        snd (EncodeResponse (Some not_found_response)) = Ok bytes
        /\ DecodeResponse bytes = Ok not_found_response).
Proof.
  split; [vm_compute; reflexivity|].
  split; [vm_compute; reflexivity|].
  apply (codec_round_trip add_request not_found_response);
    vm_compute; reflexivity.
Defined.

(** A request as the client builds it, with its sequence number (a
    [uint64]) as identifier, and a payload written with a space. *)
Definition client_request : Request :=
  mkRequest JSONRPCVersion "ArithService.Add" (Some "[1, 2]") (VUint64 7).

(** It is encoded and the bytes decode, but to a request whose identifier
    is the float64 7 and whose payload is the compacted text. *)
Lemma round_trip_changes_request :
  negb (String.eqb (req_Method client_request) "") = true
  /\ exists bytes r',
       snd (EncodeRequest (Some client_request)) = Ok bytes
       /\ DecodeRequest bytes = Ok r'
       /\ req_ID client_request = VUint64 7
       /\ req_ID r' = VFloat64 float_7
       /\ req_Params client_request = Some "[1, 2]"
       /\ req_Params r' = Some "[1,2]".
Proof.
  split; [reflexivity|].
  eexists. eexists.
  split; [vm_compute; reflexivity|].
  split; [vm_compute; reflexivity|].
  repeat split.
Qed.

End RoundTrip.

(** ** Method names: splitting and joining *)

Module MethodNames.
Import Bytes GoErr Server ServerProps ParseFacts TextFacts.
#[local] Arguments String.append !_ _ / : simpl nomatch.

Lemma first_dot_split method : forall i,
  first_dot method = Some i ->
  method = take i method +:+ "." +:+ drop (S i) method
  /\ first_dot (take i method) = None
  /\ String.length (take i method) = i
  /\ (String.length (drop (S i) method) + S i = String.length method)%nat.
Proof.
  induction method as [|c r IH]; intros i; simpl; [discriminate|].
  destruct (ch_eq c ".") eqn:Hc.
  - intros [= <-]. apply Ascii.eqb_eq in Hc. subst c. simpl.
    repeat split. lia.
  - destruct (first_dot r) as [j|]; [|discriminate]. simpl. intros [= <-].
    destruct (IH j eq_refl) as (H1 & H2 & H3 & H4).
    change (take (S j) (String c r)) with (String c (take j r)).
    change (drop (S (S j)) (String c r)) with (drop (S j) r).
    cbn [first_dot String.length]. rewrite Hc, H2, H3, append_cons.
    repeat split; [|lia].
    f_equal. exact H1.
Qed.

Lemma first_dot_join s n :
  first_dot s = None ->
  first_dot (s +:+ "." +:+ n) = Some (String.length s)
  /\ take (String.length s) (s +:+ "." +:+ n) = s
  /\ drop (S (String.length s)) (s +:+ "." +:+ n) = n.
Proof.
  change ("." +:+ n) with (String "." n).
  induction s as [|c r IH]; intros H.
  - repeat split.
  - cbn [first_dot] in H. destruct (ch_eq c ".") eqn:Hc; [discriminate|].
    destruct (first_dot r) eqn:Hr; [discriminate|].
    destruct (IH eq_refl) as (H1 & H2 & H3).
    rewrite append_cons. cbn [first_dot String.length].
    change (take (S (String.length r)) (String c (r +:+ String "." n)))
      with (String c (take (String.length r) (r +:+ String "." n))).
    change (drop (S (S (String.length r))) (String c (r +:+ String "." n)))
      with (drop (S (String.length r)) (r +:+ String "." n)).
    rewrite Hc, H1, H2, H3. repeat split.
Qed.

Lemma length_zero_iff (s : string) : String.length s = 0%nat <-> s = "".
Proof. destruct s; simpl; split; intros H; try reflexivity; discriminate. Qed.

(** [parseMethod] succeeds with the pair (service, method) exactly on the
    names of the form service.method where the service part is not empty
    and has no dot and the method part is not empty; the method part may
    contain further dots. *)
Theorem parseMethod_split_join (name s n : string) :
  parseMethod name = Ok (s, n)
  <-> name = s +:+ "." +:+ n
      /\ first_dot s = None /\ s <> "" /\ n <> "".
Proof.
  unfold parseMethod. rewrite dotIndex_from_first_dot. split.
  - destruct (first_dot name) as [i|] eqn:Hd; [|discriminate].
    destruct (first_dot_split name i Hd) as (H1 & H2 & H3 & H4).
    destruct ((0 + Z.of_nat i =? -1) || (0 + Z.of_nat i =? 0)
              || (0 + Z.of_nat i =? Z.of_nat (String.length name) - 1))%Z
      eqn:Hc; [discriminate|].
    apply orb_false_iff in Hc as [Hc Hlast].
    apply orb_false_iff in Hc as [_ Hzero].
    apply Z.eqb_neq in Hlast, Hzero.
    replace (Z.to_nat (0 + Z.of_nat i)) with i by lia.
    replace (Z.to_nat (0 + Z.of_nat i + 1)) with (S i) by lia.
    intros [= <- <-]. repeat split; [exact H1|exact H2| |].
    + intros He. apply length_zero_iff in He. lia.
    + change (drop (S i) name <> "").
      intros He. apply length_zero_iff in He. lia.
  - intros (-> & Hs & Hne & Hnn).
    destruct (first_dot_join s n Hs) as (H1 & H2 & H3). rewrite H1.
    assert (Hls : String.length s <> 0%nat)
      by (intros He; apply length_zero_iff in He; contradiction).
    assert (Hln : String.length n <> 0%nat)
      by (intros He; apply length_zero_iff in He; contradiction).
    assert (Hl : String.length (s +:+ "." +:+ n)
                 = (String.length s + S (String.length n))%nat).
    { rewrite !length_append. reflexivity. }
    rewrite Hl.
    replace ((0 + Z.of_nat (String.length s) =? -1)
             || (0 + Z.of_nat (String.length s) =? 0)
             || (0 + Z.of_nat (String.length s)
                 =? Z.of_nat (String.length s + S (String.length n)) - 1))%Z
      with false.
    + replace (Z.to_nat (0 + Z.of_nat (String.length s)))
        with (String.length s) by lia.
      replace (Z.to_nat (0 + Z.of_nat (String.length s) + 1))
        with (S (String.length s)) by lia.
      rewrite H2, H3. reflexivity.
    + symmetry. apply orb_false_iff. split; [apply orb_false_iff; split|];
        apply Z.eqb_neq; lia.
Qed.

End MethodNames.

(** ** What the server answers *)

Module ServerAnswers.
Import Bytes GoJson Protocol GoErr Wire Codec Server MarshalFacts RoundTrip.

Lemma DecodeRequest_fail_data data e :
  DecodeRequest data = Fail e ->
  exists r text, e = Rpc r /\ Data r = VString text.
Proof.
  unfold DecodeRequest.
  destruct (Nat.eqb _ _); [intros [= <-]; eexists; eexists; split; reflexivity|].
  destruct (Unmarshal_Request _ _);
    [|intros [= <-]; eexists; eexists; split; reflexivity].
  destruct (negb _); [intros [= <-]; eexists; eexists; split; reflexivity|].
  destruct (String.eqb _ _);
    [intros [= <-]; eexists; eexists; split; reflexivity|discriminate].
Qed.

Lemma marshals_VString s : marshals (VString s).
Proof. eexists. reflexivity. Qed.

Lemma marshals_VNil : marshals VNil.
Proof. eexists. reflexivity. Qed.

Lemma Call_fail_data {V Context_ : Type}
    (r : Registry.ServiceRegistry V Context_) ctx sn mn raw e :
  Registry.Call r ctx sn mn raw = Fail e ->
  exists rpc text, e = Rpc rpc /\ Data rpc = VString text.
Proof.
  unfold Registry.Call.
  destruct (Registry.services r !! sn) as [service|];
    [|intros [= <-]; eexists; eexists; split; reflexivity].
  destruct (Registry.methods service !! mn) as [m|];
    [|intros [= <-]; eexists; eexists; split; reflexivity].
  unfold Registry.call.
  destruct (if Nat.ltb 0 (Registry.raw_len raw)
            then Registry.ArgType_unmarshal m (Registry.raw_bytes raw)
                   (Registry.ArgType_new m)
            else inl (Registry.ArgType_new m)) as [argv|err];
    [|intros [= <-]; eexists; eexists; split; reflexivity].
  destruct (Registry.method m _ _ _ _) as [reply [err|]|shown stack];
    [intros [= <-]; eexists; eexists; split; reflexivity
    |discriminate
    |intros [= <-]; eexists; eexists; split; reflexivity].
Qed.

(** A response is an answer to the identifier [id] when it carries the
    version tag, that identifier, and exactly one of a result and an
    error. *)
Definition answer_to (id : GoValue) (resp : Response) : Prop :=
  resp_Jsonrpc resp = JSONRPCVersion
  /\ resp_ID resp = id
  /\ ((resp_Result resp = None /\ exists e, resp_Error resp = Some e)
      \/ (resp_Error resp = None /\ exists t, resp_Result resp = Some t)).

Section Answers.
Context {V : Type}.
Variable Context_ : Type.
Variable Background : Context_.
Variable Marshal_reply : V -> string + jsonerr.
Variable fmt_v : GoValue -> string.

Lemma error_answer id (e : Error) text :
  marshals id -> Data e = VString text ->
  exists resp,
    snd (EncodeResponse (Some resp)) = Ok (encodeErrorResponse fmt_v id e)
    /\ answer_to id resp.
Proof.
  intros Hid He.
  exists (mkResponse JSONRPCVersion None (Some e) id). split.
  - apply ServerProps.encodeErrorResponse_encoded; [exact Hid|].
    rewrite He. apply marshals_VString.
  - unfold answer_to. simpl. repeat split. left. eauto.
Qed.

Lemma success_answer id (result : V) :
  marshals id ->
  exists resp,
    snd (EncodeResponse (Some resp))
    = Ok (encodeSuccessResponse Marshal_reply fmt_v id result)
    /\ answer_to id resp.
Proof.
  intros Hid. unfold encodeSuccessResponse.
  destruct (Marshal_reply result) as [resultData|err].
  - destruct (snd (EncodeResponse
                     (Some (mkResponse JSONRPCVersion (Some resultData) None id))))
      as [data|err] eqn:Henc.
    + exists (mkResponse JSONRPCVersion (Some resultData) None id).
      split; [exact Henc|]. unfold answer_to. simpl. repeat split. right. eauto.
    + eapply error_answer; [exact Hid|reflexivity].
  - eapply error_answer; [exact Hid|reflexivity].
Qed.

(** Whatever bytes arrive, [processRequest] returns the encoding of a
    response that carries the version tag, exactly one of a result and an
    error, and the identifier of the request when the request could be
    decoded, the nil identifier otherwise.  The type assertion on the
    decoding error never panics and the hand-written fallback text is never
    used. *)
Theorem processRequest_answers (s : Server Context_) (data : string) :
  exists resp bytes,
    processRequest Context_ Background Marshal_reply fmt_v s data = Some bytes
    /\ snd (EncodeResponse (Some resp)) = Ok bytes
    /\ answer_to match DecodeRequest data with
                 | Ok req => req_ID req
                 | Fail _ => VNil
                 end resp.
Proof.
  unfold processRequest.
  destruct (DecodeRequest data) as [req|e] eqn:Hdec.
  - pose proof (DecodeRequest_id_marshals data req Hdec) as Hid.
    destruct (parseMethod (req_Method req)) as [[sn mn]|perr].
    + destruct (Registry.Call (registry Context_ s) Background sn mn (req_Params req))
        as [reply|cerr] eqn:Hcall.
      * destruct (success_answer (req_ID req) reply Hid) as (resp & H1 & H2).
        eauto.
      * destruct (Call_fail_data _ _ _ _ _ _ Hcall) as (rpc & text & -> & Hd).
        destruct (error_answer (req_ID req) rpc text Hid Hd) as (resp & H1 & H2).
        eauto.
    + destruct (error_answer (req_ID req) (NewMethodNotFoundError (req_Method req))
                  (req_Method req) Hid eq_refl) as (resp & H1 & H2).
      eauto.
  - destruct (DecodeRequest_fail_data data e Hdec) as (r & text & -> & Hd).
    destruct (error_answer VNil r text marshals_VNil Hd) as (resp & H1 & H2).
    eauto.
Qed.

End Answers.

(** *** Answers as the client's decoder reads them *)

Section Decoded.
Context {V : Type}.
Variable Context_ : Type.
Variable Background : Context_.
Variable Marshal_reply : V -> string + jsonerr.
Variable fmt_v : GoValue -> string.

(** A request that is decoded, names a registered method and whose handler
    returns gets a line that [DecodeResponse] reads as the response with
    the marshalled reply as result, no error and the identifier of the
    request, provided the marshalled reply is compact JSON and the
    identifier is nil, a bool, a string or a number that reads back. *)
Theorem processRequest_success_decodes (s : Server Context_)
    (data : string) (req : Request) (sn mn : string) (reply : V) (text : string) :
  DecodeRequest data = Ok req ->
  parseMethod (req_Method req) = Ok (sn, mn) ->
  Registry.Call (registry Context_ s) Background sn mn (req_Params req)
  = Ok reply ->
  Marshal_reply reply = inl text ->
  compact_payload text = true ->
  scalar (req_ID req) = true ->
  exists bytes,
    processRequest Context_ Background Marshal_reply fmt_v s data = Some bytes
    /\ DecodeResponse bytes
       = Ok (mkResponse JSONRPCVersion (Some text) None (req_ID req)).
Proof.
  intros Hdec Hpm Hcall Hm Hc Hid.
  destruct (result_round_trip text (req_ID req) Hc Hid) as (bytes & He & Hd).
  exists bytes. split; [|exact Hd].
  unfold processRequest. rewrite Hdec, Hpm, Hcall.
  unfold encodeSuccessResponse. rewrite Hm, He. reflexivity.
Qed.


End Decoded.

Section Undecodable.
Context {V R : Type}.
Variable Context_ : Type.
Variable Background : Context_.
Variable Marshal_reply : V -> string + jsonerr.
Variable fmt_v : GoValue -> string.
Variable Unmarshal_reply : string -> R -> R + jsonerr.
Variable oob : spec_float -> Z.

Lemma jsonerr_text_valid err : Utf8.valid (jsonerr_text err) = true.
Proof. destruct err; vm_compute; reflexivity. Qed.

(** A line that [json.Unmarshal] rejects is answered with a Parse error
    (-32700) under the nil identifier; [DecodeResponse] reads the answer
    back, and the client's [receiveResponse], which wants a number as
    identifier, reports it as an invalid response ID type rather than as
    the Parse error. *)
Theorem undecodable_request_answer (s : Server Context_)
    (data : string) (err : jsonerr) (call : Client.Call (V := R)) :
  Nat.eqb (String.length data) 0 = false ->
  Unmarshal_Request data zeroRequest = inr err ->
  exists bytes d,
    processRequest Context_ Background Marshal_reply fmt_v s data = Some bytes
    /\ DecodeResponse bytes
       = Ok (mkResponse JSONRPCVersion None
               (Some (NewError (-32700) "Parse error" d)) VNil)
    /\ Client.receiveResponse Unmarshal_reply oob (bytes, None) call
       = (Some (Opaque "invalid response ID type"), call).
Proof.
  intros Hlen Hun.
  set (e := NewParseError (VString (ErrorString (json_error err)))).
  assert (He : wf_error e = true).
  { unfold wf_error, e. cbn [Code Message Data NewParseError scalar].
    unfold json_error. cbn [ErrorString]. rewrite jsonerr_text_valid.
    reflexivity. }
  destruct (error_round_trip e VNil He eq_refl) as (bytes & Henc & Hd).
  exists bytes, (VString (ErrorString (json_error err))).
  split; [|split].
  - unfold processRequest, DecodeRequest. rewrite Hlen, Hun.
    unfold encodeErrorResponse. fold e. rewrite Henc. reflexivity.
  - exact Hd.
  - unfold Client.receiveResponse. rewrite Hd. reflexivity.
Qed.

End Undecodable.

(** The arithmetic service of the registry tests answering a call, an
    unknown method and a line that is not JSON. *)
Definition add_bytes : string :=
  "{" +:+ quoted "jsonrpc" +:+ ":" +:+ quoted "2.0" +:+ ","
  +:+ quoted "method" +:+ ":" +:+ quoted "ArithService.Add" +:+ ","
  +:+ quoted "params" +:+ ":" +:+ RegistryProps.args_10_0 +:+ ","
  +:+ quoted "id" +:+ ":7}" +:+ String newline "".

Definition seven : GoValue := VFloat64 (S754_finite false 7881299347898368 (-50)).

Definition add_request : Request :=
  mkRequest "2.0" "ArithService.Add" (Some RegistryProps.args_10_0) seven.

Definition add_reply_text : string := "{" +:+ quoted "result" +:+ ":10}".

Lemma processRequest_success_decodes_witness :
  exists bytes,
    processRequest unit tt ServerProps.Marshal_TestValue ServerProps.show_id
      ServerProps.testServer add_bytes = Some bytes
    /\ DecodeResponse bytes
       = Ok (mkResponse JSONRPCVersion (Some add_reply_text) None seven).
Proof.
  apply (processRequest_success_decodes unit tt ServerProps.Marshal_TestValue
           ServerProps.show_id ServerProps.testServer add_bytes add_request
           "ArithService" "Add" (RegistryProps.TArithReply 10) add_reply_text);
    vm_compute; reflexivity.
Defined.

Definition subtract_bytes : string :=
  "{" +:+ quoted "jsonrpc" +:+ ":" +:+ quoted "2.0" +:+ ","
  +:+ quoted "method" +:+ ":" +:+ quoted "ArithService.Subtract" +:+ ","
  +:+ quoted "id" +:+ ":" +:+ quoted "abc" +:+ "}" +:+ String newline "".



Definition broken_bytes : string :=
  "{" +:+ quoted "jsonrpc" +:+ ":" +:+ String newline "".

Definition pending_call : Client.Call (V := unit) :=
  Client.mkCall "ArithService.Add" (Some tt) None 1.

Lemma undecodable_request_answer_witness :
  exists bytes d,
    processRequest unit tt ServerProps.Marshal_TestValue ServerProps.show_id
      ServerProps.testServer broken_bytes = Some bytes
    /\ DecodeResponse bytes
       = Ok (mkResponse JSONRPCVersion None
               (Some (NewError (-32700) "Parse error" d)) VNil)
    /\ Client.receiveResponse ReceiveProps.keep_reply (fun _ => 0%Z)
         (bytes, None) pending_call
       = (Some (Opaque "invalid response ID type"), pending_call).
Proof.
  apply (undecodable_request_answer unit tt ServerProps.Marshal_TestValue
           ServerProps.show_id ReceiveProps.keep_reply (fun _ => 0%Z)
           ServerProps.testServer broken_bytes SyntaxError pending_call);
    vm_compute; reflexivity.
Defined.

End ServerAnswers.

(** ** Which messages the codec encodes and which responses it accepts *)

Module CodecEdges.
Import Bytes GoJson Protocol GoErr Wire Codec MarshalFacts.








(** [DecodeResponse] fails with Invalid Request (-32600) on empty input;
    on any other input it fails with Parse (-32700) exactly when
    [json.Unmarshal] fails; when the text was unmarshalled it fails with
    Invalid Request (-32600) if the version is not 2.0 or if result and
    error are both nil; otherwise it returns the unmarshalled response,
    whose version is 2.0 and which has a result or an error (or both). *)
Theorem DecodeResponse_classification (data : string) :
  match DecodeResponse data with
  | Ok resp =>
    data <> EmptyString
    /\ Unmarshal_Response data zeroResponse = inl resp
    /\ resp_Jsonrpc resp = "2.0"
    /\ (resp_Result resp <> None \/ resp_Error resp <> None)
  | Fail e =>
    exists d,
      (e = Rpc (NewError (-32700) "Parse error" d)
       /\ data <> EmptyString
       /\ exists err, Unmarshal_Response data zeroResponse = inr err)
      \/ (e = Rpc (NewError (-32600) "Invalid Request" d)
          /\ (data = EmptyString
              \/ exists resp,
                   Unmarshal_Response data zeroResponse = inl resp
                   /\ (resp_Jsonrpc resp <> "2.0"
                       \/ (resp_Result resp = None /\ resp_Error resp = None))))
  end.
Proof.
  unfold DecodeResponse.
  destruct (Nat.eqb (String.length data) 0) eqn:Hlen.
  - apply DecodeProps.length_zero_empty in Hlen.
    eexists. right. split; [reflexivity|]. auto.
  - assert (Hne : data <> EmptyString) by (intros ->; discriminate).
    destruct (Unmarshal_Response data zeroResponse) as [resp|err] eqn:Hun.
    + destruct (String.eqb (resp_Jsonrpc resp) JSONRPCVersion) eqn:Hv; simpl.
      * apply String.eqb_eq in Hv.
        destruct (resp_Result resp) eqn:H1, (resp_Error resp) eqn:H2;
          try (repeat split; try assumption; auto; rewrite ?H1, ?H2;
               try (left; discriminate); right; discriminate).
        eexists. right. split; [reflexivity|]. right. exists resp.
        split; [reflexivity|]. right. auto.
      * apply String.eqb_neq in Hv.
        eexists. right. split; [reflexivity|]. right. exists resp.
        split; [reflexivity|]. left. exact Hv.
    + eexists. left. split; [reflexivity|]. split; [exact Hne|].
      eauto.
Qed.

End CodecEdges.

(** ** The connection pool: closing, reuse and the order of the idle queue *)

Module PoolBehaviour.
Import GoErr Pool PoolMaintenance PoolProps RetryProps.
Local Open Scope Z_scope.

(** [healthy] tells how the health check answers, whenever it is asked. *)
Definition stable (w : World) (healthy : Conn -> bool) : Prop :=
  forall n c, match test_answers w n c with
              | None => healthy c = true
              | Some _ => healthy c = false
              end.

(** [healthy] tells which idle connections [Get] accepts: those that pass
    the check when [Get] checks, all of them when it does not. *)
Definition accepts (p : ConnPool) (w : World) (healthy : Conn -> bool) : Prop :=
  if testOnGet p && has_testConn p then stable w healthy
  else forall c, healthy c = true.

Definition unhealthy (healthy : Conn -> bool) (c : Conn) : bool := negb (healthy c).

(** *** Close *)

Lemma Close_idle_effect idle : forall p w,
  closed (fst (Close_idle idle p w)) = closed p
  /\ idleConns (fst (Close_idle idle p w)) = idleConns p.
Proof.
  induction idle as [|c rest IH]; intros p w; [auto|].
  cbn [Close_idle]. destruct (IH (add_active (-1) p) (Close_conn c w)) as [H1 H2].
  rewrite H1, H2. auto.
Qed.

Lemma Close_idle_active idle : forall p w,
  idle <> [] ->
  activeNum (fst (Close_idle idle p w))
  = wrap32 (activeNum p - Z.of_nat (length idle)).
Proof.
  induction idle as [|c rest IH]; intros p w Hne; [contradiction|].
  cbn [Close_idle]. destruct rest as [|c2 rest].
  - cbn [Close_idle fst add_active activeNum length]. f_equal.
  - rewrite IH by discriminate. cbn [add_active activeNum].
    replace (wrap32 (activeNum p + -1) - Z.of_nat (length (c2 :: rest)))
      with (wrap32 (activeNum p + -1) + - Z.of_nat (length (c2 :: rest))) by lia.
    rewrite wrap32_add_l. f_equal. cbn [length]. lia.
Qed.

Lemma Close_idle_world idle : forall p w,
  closed_conns (snd (Close_idle idle p w)) = closed_conns w ++ idle
  /\ dials (snd (Close_idle idle p w)) = dials w
  /\ sleeps (snd (Close_idle idle p w)) = sleeps w.
Proof.
  induction idle as [|c rest IH]; intros p w.
  - simpl. rewrite app_nil_r. auto.
  - cbn [Close_idle]. destruct (IH (add_active (-1) p) (Close_conn c w))
      as (H1 & H2 & H3).
    rewrite H1, H2, H3. cbn [Close_conn closed_conns dials sleeps].
    rewrite <- app_assoc. auto.
Qed.

(** [Close] on an open pool closes every idle connection, oldest first,
    counting each one down, leaves the queue empty and the pool closed,
    and dials nothing.  On the closed pool every operation refuses:
    [Get] and [GetWithRetry] fail with [ErrPoolClosed] without dialing or
    sleeping, [Put] closes the connection it is given and fails with
    [ErrPoolClosed], [Ping] fails with [ErrPoolClosed], [CleanIdleConns]
    and a second [Close] do nothing. *)
Theorem Close_is_final (p : ConnPool) (w w2 : World) (conn : Conn) (N d : Z) :
  closed p = false ->
  0 <= N ->
  let p' := fst (Close p w) in
  let w' := snd (Close p w) in
  closed p' = true
  /\ idleConns p' = []
  /\ closed_conns w' = closed_conns w ++ idleConns p
  /\ dials w' = dials w
  /\ (idleConns p <> [] ->
      activeNum p' = wrap32 (activeNum p - Z.of_nat (length (idleConns p))))
  /\ Get p' w2 = (Fail (Sentinel ErrPoolClosed), p', w2)
  /\ GetWithRetry N d p' w2 = ((None, Some (Sentinel ErrPoolClosed)), p', w2)
  /\ Put (Some conn) p' w2
     = (Some (Sentinel ErrPoolClosed), add_active (-1) p', Close_conn conn w2)
  /\ Ping p' w2 = (Some (Sentinel ErrPoolClosed), p', w2)
  /\ CleanIdleConns p' w2 = (0, p', w2)
  /\ Close p' w2 = (p', w2).
Proof.
  intros Hopen HN p' w'.
  assert (Hc : closed p' = true /\ idleConns p' = []).
  { unfold p', Close. rewrite Hopen.
    destruct (Close_idle_effect (idleConns p) (set_idle [] (set_closed p)) w)
      as [H1 H2].
    rewrite H1, H2. auto. }
  destruct Hc as [Hc Hi].
  split; [exact Hc|]. split; [exact Hi|].
  pose proof (Close_idle_world (idleConns p) (set_idle [] (set_closed p)) w)
    as (Hw1 & Hw2 & _).
  split; [unfold w', Close; rewrite Hopen; exact Hw1|].
  split; [unfold w', Close; rewrite Hopen; exact Hw2|].
  split.
  { intros Hne. unfold p', Close. rewrite Hopen.
    rewrite (Close_idle_active _ _ _ Hne). reflexivity. }
  assert (Hget : Get p' w2 = (Fail (Sentinel ErrPoolClosed), p', w2)).
  { unfold Get. rewrite Hc. reflexivity. }
  split; [exact Hget|].
  split.
  { unfold GetWithRetry.
    destruct (Z.to_nat (N + 1)) as [|n] eqn:Hn; [lia|].
    cbn [GetWithRetry_loop]. rewrite Hget. reflexivity. }
  split; [unfold Put; rewrite Hc; reflexivity|].
  split; [unfold Ping; rewrite Hget; reflexivity|].
  split; [unfold CleanIdleConns; rewrite Hc; reflexivity|].
  unfold Close. rewrite Hc. reflexivity.
Qed.

(** A pool with two idle connections out of three open ones. *)
Definition pool_two_idle : ConnPool := mkPool 2 5 [3; 4]%nat 3 true true false.

Lemma Close_is_final_witness :
  let p' := fst (Close pool_two_idle accepting) in
  let w' := snd (Close pool_two_idle accepting) in
  closed p' = true
  /\ idleConns p' = []
  /\ closed_conns w' = closed_conns accepting ++ idleConns pool_two_idle
  /\ dials w' = dials accepting
  /\ (idleConns pool_two_idle <> [] ->
      activeNum p'
      = wrap32 (activeNum pool_two_idle
                - Z.of_nat (length (idleConns pool_two_idle))))
  /\ Get p' refusing = (Fail (Sentinel ErrPoolClosed), p', refusing)
  /\ GetWithRetry 2 100 p' refusing
     = ((None, Some (Sentinel ErrPoolClosed)), p', refusing)
  /\ Put (Some 9%nat) p' refusing
     = (Some (Sentinel ErrPoolClosed), add_active (-1) p', Close_conn 9%nat refusing)
  /\ Ping p' refusing = (Some (Sentinel ErrPoolClosed), p', refusing)
  /\ CleanIdleConns p' refusing = (0, p', refusing)
  /\ Close p' refusing = (p', refusing).
Proof.
  apply (Close_is_final pool_two_idle accepting refusing 9%nat 2 100).
  - reflexivity.
  - lia.
Defined.

(** *** Get *)

Lemma accepts_test p w healthy c :
  accepts p w healthy ->
  testOnGet p && has_testConn p = true ->
  match fst (testConn c w) with
  | None => healthy c = true
  | Some _ => healthy c = false
  end.
Proof.
  unfold accepts. intros H Ht. rewrite Ht in H. apply (H (tests w) c).
Qed.

Lemma Get_fast_first_healthy healthy bad : forall p w c rest,
  accepts p w healthy ->
  forallb (unhealthy healthy) bad = true ->
  healthy c = true ->
  exists p' w',
    Get_fast (bad ++ c :: rest) p w = (Ok c, p', w')
    /\ idleConns p' = rest
    /\ (bad <> [] -> activeNum p' = wrap32 (activeNum p - Z.of_nat (length bad)))
    /\ (bad = [] -> activeNum p' = activeNum p)
    /\ closed_conns w' = closed_conns w ++ bad
    /\ dials w' = dials w
    /\ sleeps w' = sleeps w.
Proof.
  induction bad as [|b bad IH]; intros p w c rest Hacc Hbad Hc.
  - cbn [app Get_fast set_idle testOnGet has_testConn].
    destruct (testOnGet p && has_testConn p) eqn:Ht.
    + pose proof (accepts_test p w healthy c Hacc Ht) as Hh.
      unfold testConn in *. cbn [fst] in Hh.
      destruct (test_answers w (tests w) c); [congruence|].
      eexists. eexists. split; [reflexivity|].
      cbn. rewrite app_nil_r. repeat split; congruence.
    + eexists. eexists. split; [reflexivity|].
      cbn. rewrite app_nil_r. repeat split; congruence.
  - cbn [forallb] in Hbad. apply andb_true_iff in Hbad as [Hb Hbad].
    unfold unhealthy in Hb. apply negb_true_iff in Hb.
    cbn [app Get_fast set_idle testOnGet has_testConn].
    destruct (testOnGet p && has_testConn p) eqn:Ht.
    + pose proof (accepts_test p w healthy b Hacc Ht) as Hh.
      unfold testConn in *. cbn [fst] in Hh.
      destruct (test_answers w (tests w) b) as [err|] eqn:Hans; [|congruence].
      match goal with
      | |- context [Get_fast _ ?p1 ?w1] =>
        destruct (IH p1 w1 c rest) as (p' & w' & H1 & H2 & H3 & H4 & H5 & H6 & H7)
      end.
      { unfold accepts in *. cbn [add_active set_idle testOnGet has_testConn].
        rewrite Ht in *. exact Hacc. }
      { exact Hbad. }
      { exact Hc. }
      exists p', w'. split; [exact H1|]. split; [exact H2|].
      split; [|split; [discriminate|]].
      * intros _. destruct bad as [|b2 bad].
        -- rewrite (H4 eq_refl). cbn [add_active set_idle activeNum length]. f_equal.
        -- rewrite H3 by discriminate. cbn [add_active set_idle activeNum].
           replace (wrap32 (activeNum p + -1) - Z.of_nat (length (b2 :: bad)))
             with (wrap32 (activeNum p + -1) + - Z.of_nat (length (b2 :: bad)))
             by lia.
           rewrite wrap32_add_l. f_equal. cbn [length]. lia.
      * rewrite H5, H6, H7. cbn [Close_conn closed_conns dials sleeps].
        rewrite <- app_assoc. auto.
    + unfold accepts in Hacc. rewrite Ht in Hacc. rewrite Hacc in Hb. discriminate.
Qed.

(** On an open pool [Get] hands out the oldest idle connection that it
    accepts (the oldest idle connection when it does not check), closing
    and counting down the ones before it that fail the check, and does not
    dial. *)
Theorem Get_hands_out_first_healthy (p : ConnPool) (w : World)
    (healthy : Conn -> bool) (bad : list Conn) (c : Conn) (rest : list Conn) :
  closed p = false ->
  accepts p w healthy ->
  idleConns p = bad ++ c :: rest ->
  forallb (unhealthy healthy) bad = true ->
  healthy c = true ->
  exists p' w',
    Get p w = (Ok c, p', w')
    /\ idleConns p' = rest
    /\ activeNum p' = (if Nat.eqb (length bad) 0 then activeNum p
                       else wrap32 (activeNum p - Z.of_nat (length bad)))
    /\ closed_conns w' = closed_conns w ++ bad
    /\ dials w' = dials w.
Proof.
  intros Hopen Hacc Hidle Hbad Hc.
  destruct (Get_fast_first_healthy healthy bad p w c rest Hacc Hbad Hc)
    as (p' & w' & H1 & H2 & H3 & H4 & H5 & H6 & _).
  exists p', w'. unfold Get. rewrite Hopen, Hidle.
  split; [exact H1|]. split; [exact H2|]. split; [|auto].
  destruct bad; [apply H4; reflexivity|apply H3; discriminate].
Qed.

(** A health check under which the connections 3 and 4 are broken. *)
Definition from_five (c : Conn) : bool := Nat.leb 5 c.

Definition picky : World :=
  mkWorld (fun n => Ok (100 + n)%nat) 0
          (fun _ c => if from_five c then None else Some (Opaque "broken pipe"))
          0 [] [].

Definition pool_mixed : ConnPool := mkPool 4 5 [3; 4; 7; 8]%nat 4 true true false.

Lemma Get_hands_out_first_healthy_witness :
  exists p' w',
    Get pool_mixed picky = (Ok 7%nat, p', w')
    /\ idleConns p' = [8%nat]
    /\ activeNum p' = (if Nat.eqb (length [3; 4]%nat) 0 then activeNum pool_mixed
                       else wrap32 (activeNum pool_mixed
                                    - Z.of_nat (length [3; 4]%nat)))
    /\ closed_conns w' = closed_conns picky ++ [3; 4]%nat
    /\ dials w' = dials picky.
Proof.
  apply (Get_hands_out_first_healthy pool_mixed picky from_five
           [3; 4]%nat 7%nat [8%nat]).
  - reflexivity.
  - unfold accepts, stable. simpl. intros n c. destruct (from_five c); reflexivity.
  - reflexivity.
  - reflexivity.
  - reflexivity.
Defined.

(** *** What no operation changes: the configuration of the pool and the
    answers of the outside world *)

Definition same_config (p p' : ConnPool) : Prop :=
  maxIdle p' = maxIdle p /\ maxActive p' = maxActive p
  /\ testOnGet p' = testOnGet p /\ has_testConn p' = has_testConn p.

Definition same_oracles (w w' : World) : Prop :=
  dial_answers w' = dial_answers w /\ test_answers w' = test_answers w.

Lemma same_config_refl p : same_config p p.
Proof. repeat split. Qed.

Lemma same_oracles_refl w : same_oracles w w.
Proof. repeat split. Qed.

Lemma same_config_trans p1 p2 p3 :
  same_config p1 p2 -> same_config p2 p3 -> same_config p1 p3.
Proof. unfold same_config. intuition congruence. Qed.

Lemma same_oracles_trans w1 w2 w3 :
  same_oracles w1 w2 -> same_oracles w2 w3 -> same_oracles w1 w3.
Proof. unfold same_oracles. intuition congruence. Qed.


Lemma Get_slow_frame p w :
  same_config p (snd (fst (Get_slow p w)))
  /\ same_oracles w (snd (Get_slow p w))
  /\ closed (snd (fst (Get_slow p w))) = closed p.
Proof.
  unfold Get_slow.
  destruct ((0 <? maxActive p) && (wrap32 (maxActive p) <=? activeNum p));
    [repeat split|].
  unfold dial. destruct (dial_answers w (dials w)); repeat split.
Qed.

Lemma Get_fast_frame idle : forall p w,
  same_config p (snd (fst (Get_fast idle p w)))
  /\ same_oracles w (snd (Get_fast idle p w))
  /\ closed (snd (fst (Get_fast idle p w))) = closed p.
Proof.
  induction idle as [|c rest IH]; intros p w.
  - apply Get_slow_frame.
  - cbn [Get_fast set_idle testOnGet has_testConn].
    destruct (testOnGet p && has_testConn p); [|repeat split].
    unfold testConn. destruct (test_answers w (tests w) c); [|repeat split].
    match goal with
    | |- context [Get_fast rest ?p1 ?w1] =>
      destruct (IH p1 w1) as (H1 & H2 & H3)
    end.
    split; [|split].
    + eapply same_config_trans; [|exact H1]. repeat split.
    + eapply same_oracles_trans; [|exact H2]. repeat split.
    + rewrite H3. reflexivity.
Qed.

Lemma Get_frame p w :
  same_config p (snd (fst (Get p w)))
  /\ same_oracles w (snd (Get p w))
  /\ closed (snd (fst (Get p w))) = closed p.
Proof.
  unfold Get. destruct (closed p) eqn:Hc; [repeat split; exact Hc|].
  destruct (Get_fast_frame (idleConns p) p w) as (H1 & H2 & H3).
  rewrite H3. auto.
Qed.

Lemma Put_frame conn p w :
  same_config p (snd (fst (Put conn p w)))
  /\ same_oracles w (snd (Put conn p w))
  /\ closed (snd (fst (Put conn p w))) = closed p.
Proof.
  unfold Put. destruct conn as [c|]; [|repeat split].
  destruct (closed p) eqn:Hc; [repeat split; exact Hc|].
  destruct (Z.of_nat (length (idleConns p)) <? maxIdle p);
    repeat split; exact Hc.
Qed.

(** *** The slow path *)

Lemma Get_fast_all_bad healthy bad : forall p w,
  accepts p w healthy ->
  idleConns p = bad ->
  forallb (unhealthy healthy) bad = true ->
  exists p1 w1,
    Get_fast bad p w = Get_slow p1 w1
    /\ idleConns p1 = []
    /\ activeNum p1 = (if Nat.eqb (length bad) 0 then activeNum p
                       else wrap32 (activeNum p - Z.of_nat (length bad)))
    /\ maxActive p1 = maxActive p
    /\ closed_conns w1 = closed_conns w ++ bad
    /\ dials w1 = dials w
    /\ dial_answers w1 = dial_answers w.
Proof.
  induction bad as [|b bad IH]; intros p w Hacc Hidle Hbad.
  - exists p, w. cbn [Get_fast length Nat.eqb]. rewrite app_nil_r. auto 10.
  - cbn [forallb] in Hbad. apply andb_true_iff in Hbad as [Hb Hbad].
    unfold unhealthy in Hb. apply negb_true_iff in Hb.
    cbn [Get_fast set_idle testOnGet has_testConn].
    destruct (testOnGet p && has_testConn p) eqn:Ht.
    + pose proof (accepts_test p w healthy b Hacc Ht) as Hh.
      unfold testConn in *. cbn [fst] in Hh.
      destruct (test_answers w (tests w) b) as [err|] eqn:Hans; [|congruence].
      match goal with
      | |- context [Get_fast _ ?p1 ?w1] =>
        destruct (IH p1 w1) as (p2 & w2 & H1 & H2 & H3 & H4 & H5 & H6 & H7)
      end.
      { unfold accepts in *. cbn [add_active set_idle testOnGet has_testConn].
        rewrite Ht in *. exact Hacc. }
      { reflexivity. }
      { exact Hbad. }
      exists p2, w2. split; [exact H1|]. split; [exact H2|].
      split; [|split; [exact H4|]].
      * rewrite H3. cbn [add_active set_idle activeNum length Nat.eqb].
        destruct bad as [|b2 bad]; cbn [length Nat.eqb]; [f_equal|].
        replace (wrap32 (activeNum p + -1) - Z.of_nat (S (length bad)))
          with (wrap32 (activeNum p + -1) + - Z.of_nat (S (length bad))) by lia.
        rewrite wrap32_add_l. f_equal. lia.
      * rewrite H5, H6, H7. cbn [Close_conn closed_conns dials dial_answers].
        rewrite <- app_assoc. auto.
    + unfold accepts in Hacc. rewrite Ht in Hacc. rewrite Hacc in Hb. discriminate.
Qed.

(** When [Get] accepts none of the idle connections of an open pool (or
    there is none), it closes them all and then either fails with
    [ErrPoolExhausted] without dialing, when a limit is set and the count of
    the remaining connections has reached it, or dials exactly once and
    returns what the dial returned, counting the new connection. *)
Theorem Get_without_idle (p : ConnPool) (w : World) (healthy : Conn -> bool) :
  closed p = false ->
  accepts p w healthy ->
  forallb (unhealthy healthy) (idleConns p) = true ->
  let n := length (idleConns p) in
  let left := if Nat.eqb n 0 then activeNum p
              else wrap32 (activeNum p - Z.of_nat n) in
  let '(r, p', w') := Get p w in
  idleConns p' = []
  /\ closed_conns w' = closed_conns w ++ idleConns p
  /\ if (0 <? maxActive p) && (wrap32 (maxActive p) <=? left)
     then r = Fail (Sentinel ErrPoolExhausted)
          /\ dials w' = dials w /\ activeNum p' = left
     else r = dial_answers w (dials w)
          /\ dials w' = S (dials w)
          /\ activeNum p' = match r with
                            | Ok _ => wrap32 (left + 1)
                            | Fail _ => left
                            end.
Proof.
  intros Hopen Hacc Hbad n left.
  destruct (Get_fast_all_bad healthy (idleConns p) p w Hacc eq_refl Hbad)
    as (p1 & w1 & H1 & H2 & H3 & H4 & H5 & H6 & H7).
  unfold Get. rewrite Hopen, H1. unfold Get_slow.
  rewrite H4, H3. fold n. fold left.
  destruct ((0 <? maxActive p) && (wrap32 (maxActive p) <=? left)).
  - rewrite H3. auto.
  - unfold dial. rewrite H7, H6.
    destruct (dial_answers w (dials w)) as [conn|err];
      cbn [add_active idleConns activeNum closed_conns dials];
      rewrite H2, H3, H5; auto.
Qed.

Definition pool_at_limit : ConnPool := mkPool 4 2 [3; 4]%nat 4 true true false.

Lemma Get_without_idle_witness :
  let n := length (idleConns pool_at_limit) in
  let left := if Nat.eqb n 0 then activeNum pool_at_limit
              else wrap32 (activeNum pool_at_limit - Z.of_nat n) in
  let '(r, p', w') := Get pool_at_limit picky in
  idleConns p' = []
  /\ closed_conns w' = closed_conns picky ++ idleConns pool_at_limit
  /\ if (0 <? maxActive pool_at_limit)
        && (wrap32 (maxActive pool_at_limit) <=? left)
     then r = Fail (Sentinel ErrPoolExhausted)
          /\ dials w' = dials picky /\ activeNum p' = left
     else r = dial_answers picky (dials picky)
          /\ dials w' = S (dials picky)
          /\ activeNum p' = match r with
                            | Ok _ => wrap32 (left + 1)
                            | Fail _ => left
                            end.
Proof.
  apply (Get_without_idle pool_at_limit picky from_five).
  - reflexivity.
  - unfold accepts, stable. simpl. intros n c. destruct (from_five c); reflexivity.
  - reflexivity.
Defined.


(** *** The idle queue is first in, first out *)








(** *** CleanIdleConns *)

(** [healthy] tells which idle connections [CleanIdleConns] keeps: those
    that pass the check, or all of them when the pool has no check. *)
Definition keeps (p : ConnPool) (w : World) (healthy : Conn -> bool) : Prop :=
  if has_testConn p then stable w healthy else forall c, healthy c = true.

(** The active count after [k] decrements. *)
Definition count_down (a : Z) (k : nat) : Z :=
  if Nat.eqb k 0 then a else wrap32 (a - Z.of_nat k).

Lemma count_down_S a k : count_down (wrap32 (a + -1)) k = count_down a (S k).
Proof.
  unfold count_down. destruct k as [|k]; cbn [Nat.eqb].
  - f_equal.
  - replace (wrap32 (a + -1) - Z.of_nat (S k))
      with (wrap32 (a + -1) + - Z.of_nat (S k)) by lia.
    rewrite wrap32_add_l. f_equal. lia.
Qed.

Lemma CleanIdleConns_loop_filters healthy todo : forall kept p w cleaned,
  keeps p w healthy ->
  idleConns p = todo ++ kept ->
  Z.of_nat (length (todo ++ kept)) <= maxIdle p ->
  let broken := List.filter (unhealthy healthy) todo in
  exists p' w',
    CleanIdleConns_loop (length todo) cleaned p w
    = (cleaned + Z.of_nat (length broken), p', w')
    /\ idleConns p' = kept ++ List.filter healthy todo
    /\ activeNum p' = count_down (activeNum p) (length broken)
    /\ closed_conns w' = closed_conns w ++ broken
    /\ dials w' = dials w
    /\ closed p' = closed p
    /\ same_config p p'.
Proof.
  induction todo as [|c todo IH]; intros kept p w cleaned Hk Hidle Hroom broken.
  - exists p, w. cbn [length CleanIdleConns_loop]. unfold broken. cbn.
    rewrite Z.add_0_r, !app_nil_r. repeat split. exact Hidle.
  - cbn [length CleanIdleConns_loop]. rewrite Hidle. cbn [app].
    cbn [set_idle has_testConn idleConns maxIdle].
    assert (Hlt : (Z.of_nat (length (todo ++ kept)) <? maxIdle p) = true).
    { apply Z.ltb_lt. cbn [app length] in Hroom. lia. }
    assert (Hcase : (healthy c = true /\
                     (if has_testConn p
                      then match testConn c w with
                           | (Some _, w0) => (true, w0)
                           | (None, w0) => (false, w0)
                           end
                      else (false, w))
                     = (false, if has_testConn p then snd (testConn c w) else w))
                    \/ (healthy c = false /\
                        (if has_testConn p
                         then match testConn c w with
                              | (Some _, w0) => (true, w0)
                              | (None, w0) => (false, w0)
                              end
                         else (false, w))
                        = (true, snd (testConn c w)))).
    { unfold keeps in Hk. destruct (has_testConn p).
      - specialize (Hk (tests w) c). unfold testConn.
        destruct (test_answers w (tests w) c); [right|left]; auto.
      - left. auto. }
    destruct Hcase as [[Hc ->]|[Hc ->]].
    + rewrite Hlt.
      match goal with
      | |- context [CleanIdleConns_loop _ _ ?p1 ?w1] =>
        destruct (IH (kept ++ [c]) p1 w1 cleaned)
          as (p' & w' & H1 & H2 & H3 & H4 & H5 & H6 & H7)
      end.
      { unfold keeps, stable in *. cbn [set_idle has_testConn].
        destruct (has_testConn p); [|exact Hk]. exact Hk. }
      { cbn [set_idle idleConns]. rewrite <- app_assoc. reflexivity. }
      { cbn [set_idle maxIdle]. rewrite !length_app in *. cbn [length] in *. lia. }
      assert (Hu : unhealthy healthy c = false)
        by (unfold unhealthy; rewrite Hc; reflexivity).
      exists p', w'. unfold broken. cbn [List.filter]. rewrite Hu, Hc.
      split; [exact H1|]. split; [rewrite H2, <- app_assoc; reflexivity|].
      split; [exact H3|]. split.
      { rewrite H4. destruct (has_testConn p); reflexivity. }
      split; [rewrite H5; destruct (has_testConn p); reflexivity|].
      split; [exact H6|]. eapply same_config_trans; [|exact H7]. repeat split.
    + match goal with
      | |- context [CleanIdleConns_loop _ _ ?p1 ?w1] =>
        destruct (IH kept p1 w1 (cleaned + 1))
          as (p' & w' & H1 & H2 & H3 & H4 & H5 & H6 & H7)
      end.
      { unfold keeps, stable in *. cbn [add_active set_idle has_testConn].
        destruct (has_testConn p); exact Hk. }
      { reflexivity. }
      { cbn [add_active set_idle maxIdle]. cbn [app length] in Hroom. lia. }
      assert (Hu : unhealthy healthy c = true)
        by (unfold unhealthy; rewrite Hc; reflexivity).
      exists p', w'. unfold broken. cbn [List.filter]. rewrite Hu, Hc.
      cbn [length].
      split; [rewrite H1; f_equal; f_equal; lia|]. split; [exact H2|].
      split.
      { rewrite H3. cbn [add_active set_idle activeNum]. apply count_down_S. }
      split.
      { rewrite H4. cbn [Close_conn testConn snd closed_conns].
        rewrite <- app_assoc. reflexivity. }
      split; [rewrite H5; reflexivity|].
      split; [exact H6|]. eapply same_config_trans; [|exact H7]. repeat split.
Qed.

(** [CleanIdleConns] on an open pool whose queue is within its capacity
    goes once through the queue: it closes the idle connections that fail
    the health check, counting each one down, keeps the others in their
    order, returns the number of connections it closed, and dials nothing.
    Nothing is ever closed for being idle too long: the idle timeout is not
    consulted. *)
Theorem CleanIdleConns_filters (p : ConnPool) (w : World) (healthy : Conn -> bool) :
  closed p = false ->
  keeps p w healthy ->
  Z.of_nat (length (idleConns p)) <= maxIdle p ->
  let broken := List.filter (unhealthy healthy) (idleConns p) in
  let '(cleaned, p', w') := CleanIdleConns p w in
  cleaned = Z.of_nat (length broken)
  /\ idleConns p' = List.filter healthy (idleConns p)
  /\ closed_conns w' = closed_conns w ++ broken
  /\ activeNum p' = count_down (activeNum p) (length broken)
  /\ dials w' = dials w
  /\ closed p' = false.
Proof.
  intros Hopen Hk Hroom broken.
  destruct (CleanIdleConns_loop_filters healthy (idleConns p) [] p w 0 Hk)
    as (p' & w' & H1 & H2 & H3 & H4 & H5 & H6 & _).
  - rewrite app_nil_r. reflexivity.
  - rewrite app_nil_r. exact Hroom.
  - unfold CleanIdleConns. rewrite Hopen, H1. fold broken.
    cbn [app] in H2. repeat split; try assumption; try lia; congruence.
Qed.

Lemma CleanIdleConns_filters_witness :
  let broken := List.filter (unhealthy from_five) (idleConns pool_mixed) in
  let '(cleaned, p', w') := CleanIdleConns pool_mixed picky in
  cleaned = Z.of_nat (length broken)
  /\ idleConns p' = List.filter from_five (idleConns pool_mixed)
  /\ closed_conns w' = closed_conns picky ++ broken
  /\ activeNum p' = count_down (activeNum pool_mixed) (length broken)
  /\ dials w' = dials picky
  /\ closed p' = false.
Proof.
  apply (CleanIdleConns_filters pool_mixed picky from_five).
  - reflexivity.
  - unfold keeps, stable. simpl. intros n c. destruct (from_five c); reflexivity.
  - simpl. lia.
Defined.

(** *** Connections on lease are open and held once *)

(** What a client can do with a pool; [leased] follows the connections
    that it holds. *)
Inductive action :=
| DoGet
| DoPut (conn : Conn)
| DoClose
| DoPing
| DoClean
| DoGetWithRetry (maxRetries retryDelay : Z).

Definition act (a : action) (s : sys) : sys :=
  match a with
  | DoGet => step OpGet s
  | DoPut conn => step (OpPut conn) s
  | DoClose => step OpClose s
  | DoPing =>
    match Ping (pool s) (world s) with
    | (_, p, w) => mkSys p w (leased s)
    end
  | DoClean =>
    match CleanIdleConns (pool s) (world s) with
    | (_, p, w) => mkSys p w (leased s)
    end
  | DoGetWithRetry N d =>
    match GetWithRetry N d (pool s) (world s) with
    | ((Some conn, _), p, w) => mkSys p w (conn :: leased s)
    | ((None, _), p, w) => mkSys p w (leased s)
    end
  end.

Fixpoint acts (l : list action) (s : sys) : sys :=
  match l with
  | [] => s
  | a :: rest => acts rest (act a s)
  end.

(** The client gives back only connections that it holds. *)
Fixpoint careful (l : list action) (s : sys) : Prop :=
  match l with
  | [] => True
  | a :: rest =>
    match a with
    | DoPut conn => In conn (leased s)
    | _ => True
    end /\ careful rest (act a s)
  end.

(** The connections that the pool has: idle, or closed by it. *)
Definition stock (p : ConnPool) (w : World) : list Conn :=
  idleConns p ++ closed_conns w.

(** All connections that were ever dialed. *)
Definition held (s : sys) : list Conn :=
  leased s ++ stock (pool s) (world s).

(** [c] is the result of one of the dials made so far. *)
Definition dialed (w : World) (c : Conn) : Prop :=
  exists n, (n < dials w)%nat /\ dial_answers w n = Ok c.

(** Every dial that succeeds returns a new connection. *)
Definition fresh_dials (w : World) : Prop :=
  forall n m c, dial_answers w n = Ok c -> dial_answers w m = Ok c -> n = m.

(** From [h] in world [w] to [h'] in world [w']: the same connections, or
    one more, which a dial made in between returned. *)
Definition moves (h : list Conn) (w : World) (h' : list Conn) (w' : World)
  : Prop :=
  dial_answers w' = dial_answers w
  /\ (dials w <= dials w')%nat
  /\ (h' ≡ₚ h
      \/ exists c n, h' ≡ₚ c :: h
                     /\ (dials w <= n < dials w')%nat
                     /\ dial_answers w n = Ok c).

Lemma moves_keeps_sound h w h' w' :
  fresh_dials w -> NoDup h -> Forall (dialed w) h ->
  moves h w h' w' ->
  fresh_dials w' /\ NoDup h' /\ Forall (dialed w') h'.
Proof.
  intros Hf Hn Hd (Ha & Hle & Hm).
  assert (Hd' : Forall (dialed w') h).
  { eapply Forall_impl; [exact Hd|]. intros c (n & Hlt & Hn').
    exists n. rewrite Ha. split; [lia|exact Hn']. }
  split; [unfold fresh_dials; rewrite Ha; exact Hf|].
  destruct Hm as [Hp|(c & n & Hp & Hr & Hc)].
  - rewrite Hp. auto.
  - rewrite Hp. split.
    + apply NoDup_cons. split; [|exact Hn].
      intros Hin. rewrite Forall_forall in Hd.
      destruct (Hd c Hin) as (m & Hlt & Hm).
      pose proof (Hf n m c Hc Hm). lia.
    + constructor; [|exact Hd'].
      exists n. rewrite Ha. split; [lia|exact Hc].
Qed.

Lemma Get_slow_stock p w r p' w' :
  Get_slow p w = (r, p', w') ->
  dial_answers w' = dial_answers w
  /\ idleConns p' = idleConns p
  /\ maxIdle p' = maxIdle p
  /\ stock p' w' = stock p w
  /\ match r with
     | Ok c => dials w' = S (dials w) /\ dial_answers w (dials w) = Ok c
     | Fail _ => (dials w <= dials w')%nat
     end.
Proof.
  unfold Get_slow.
  destruct ((0 <? maxActive p) && (wrap32 (maxActive p) <=? activeNum p)).
  - intros [= <- <- <-]. repeat split. lia.
  - unfold dial. destruct (dial_answers w (dials w)) as [c|e] eqn:Hd;
      intros [= <- <- <-]; repeat split; cbn; lia.
Qed.

Lemma Get_fast_stock idle : forall p w r p' w',
  idleConns p = idle ->
  Get_fast idle p w = (r, p', w') ->
  dial_answers w' = dial_answers w
  /\ (length (idleConns p') <= length idle)%nat
  /\ maxIdle p' = maxIdle p
  /\ match r with
     | Ok c =>
       (c :: stock p' w' ≡ₚ stock p w /\ dials w' = dials w)
       \/ (stock p' w' ≡ₚ stock p w
           /\ dials w' = S (dials w) /\ dial_answers w (dials w) = Ok c)
     | Fail _ => stock p' w' ≡ₚ stock p w /\ (dials w <= dials w')%nat
     end.
Proof.
  induction idle as [|c rest IH]; intros p w r p' w' Hidle.
  - cbn [Get_fast]. intros Hs.
    destruct (Get_slow_stock p w r p' w' Hs) as (H1 & H2 & H3 & H4 & H5).
    split; [exact H1|]. split; [rewrite H2, Hidle; reflexivity|].
    split; [exact H3|]. rewrite H4.
    destruct r; [right|]; intuition.
  - cbn [Get_fast set_idle testOnGet has_testConn].
    assert (Hhand : forall w1,
                    dial_answers w1 = dial_answers w -> dials w1 = dials w ->
                    closed_conns w1 = closed_conns w ->
                    (Ok c, set_idle rest p, w1) = (r, p', w') ->
                    dial_answers w' = dial_answers w
                    /\ (length (idleConns p') <= length (c :: rest))%nat
                    /\ maxIdle p' = maxIdle p
                    /\ match r with
                       | Ok c0 =>
                         (c0 :: stock p' w' ≡ₚ stock p w /\ dials w' = dials w)
                         \/ (stock p' w' ≡ₚ stock p w
                             /\ dials w' = S (dials w)
                             /\ dial_answers w (dials w) = Ok c0)
                       | Fail _ =>
                         stock p' w' ≡ₚ stock p w /\ (dials w <= dials w')%nat
                       end).
    { intros w1 Ha Hd Hc [= <- <- <-]. cbn [set_idle idleConns maxIdle length].
      split; [exact Ha|]. split; [lia|]. split; [reflexivity|].
      left. unfold stock. cbn [set_idle idleConns].
      rewrite Hidle, Hc. auto. }
    destruct (testOnGet p && has_testConn p).
    + unfold testConn. destruct (test_answers w (tests w) c) as [err|].
      * intros Hg.
        match type of Hg with
        | Get_fast rest ?p1 ?w1 = _ =>
          destruct (IH p1 w1 r p' w' eq_refl Hg) as (H1 & H2 & H3 & H4);
          assert (Hst : stock p1 w1 ≡ₚ stock p w)
        end.
        { unfold stock. cbn [add_active set_idle idleConns Close_conn closed_conns].
          rewrite Hidle. cbn [app].
          rewrite app_assoc, <- Permutation_cons_append. reflexivity. }
        split; [exact H1|]. split; [cbn [length]; lia|]. split; [exact H3|].
        cbn [Close_conn dials dial_answers] in H4.
        destruct r; [destruct H4 as [[Ha Hb]|(Ha & Hb & Hc)]; [left|right]|];
          rewrite <- Hst; intuition.
      * apply Hhand; reflexivity.
    + apply Hhand; reflexivity.
Qed.

Lemma Get_stock p w r p' w' :
  Get p w = (r, p', w') ->
  dial_answers w' = dial_answers w
  /\ (length (idleConns p') <= length (idleConns p))%nat
  /\ maxIdle p' = maxIdle p
  /\ match r with
     | Ok c =>
       (c :: stock p' w' ≡ₚ stock p w /\ dials w' = dials w)
       \/ (stock p' w' ≡ₚ stock p w
           /\ dials w' = S (dials w) /\ dial_answers w (dials w) = Ok c)
     | Fail _ => stock p' w' ≡ₚ stock p w /\ (dials w <= dials w')%nat
     end.
Proof.
  unfold Get. destruct (closed p).
  - intros [= <- <- <-]. split; [reflexivity|]. split; [lia|].
    split; [reflexivity|]. split; [reflexivity|lia].
  - apply Get_fast_stock. reflexivity.
Qed.

Lemma Put_stock c p w e p' w' :
  Put (Some c) p w = (e, p', w') ->
  Z.of_nat (length (idleConns p)) <= maxIdle p ->
  dial_answers w' = dial_answers w
  /\ dials w' = dials w
  /\ maxIdle p' = maxIdle p
  /\ Z.of_nat (length (idleConns p')) <= maxIdle p'
  /\ stock p' w' ≡ₚ c :: stock p w.
Proof.
  unfold Put, stock. intros H Hb. destruct (closed p).
  - injection H as <- <- <-. cbn. repeat split; [exact Hb|].
    rewrite app_assoc, <- Permutation_cons_append. reflexivity.
  - destruct (Z.of_nat (length (idleConns p)) <? maxIdle p) eqn:Hroom;
      injection H as <- <- <-; cbn; repeat split.
    + apply Z.ltb_lt in Hroom. rewrite length_app. cbn [length]. lia.
    + rewrite <- app_assoc. cbn [app]. symmetry. apply Permutation_middle.
    + exact Hb.
    + rewrite app_assoc, <- Permutation_cons_append. reflexivity.
Qed.

Lemma Close_idle_stock idle : forall p w,
  dial_answers (snd (Close_idle idle p w)) = dial_answers w
  /\ dials (snd (Close_idle idle p w)) = dials w
  /\ maxIdle (fst (Close_idle idle p w)) = maxIdle p
  /\ idleConns (fst (Close_idle idle p w)) = idleConns p
  /\ closed_conns (snd (Close_idle idle p w)) = closed_conns w ++ idle.
Proof.
  induction idle as [|c rest IH]; intros p w.
  - cbn. rewrite app_nil_r. auto.
  - cbn [Close_idle].
    destruct (IH (add_active (-1) p) (Close_conn c w)) as (H1 & H2 & H3 & H4 & H5).
    rewrite H1, H2, H3, H4, H5. cbn. rewrite <- app_assoc. auto.
Qed.

Lemma Close_stock p w :
  dial_answers (snd (Close p w)) = dial_answers w
  /\ dials (snd (Close p w)) = dials w
  /\ maxIdle (fst (Close p w)) = maxIdle p
  /\ (length (idleConns (fst (Close p w))) <= length (idleConns p))%nat
  /\ stock (fst (Close p w)) (snd (Close p w)) ≡ₚ stock p w.
Proof.
  unfold Close. destruct (closed p);
    [repeat split; try reflexivity; lia|].
  destruct (Close_idle_stock (idleConns p) (set_idle [] (set_closed p)) w)
    as (H1 & H2 & H3 & H4 & H5).
  unfold stock. rewrite H1, H2, H3, H4, H5. cbn.
  split; [reflexivity|]. split; [reflexivity|]. split; [reflexivity|].
  split; [lia|]. apply Permutation_app_comm.
Qed.

Lemma CleanIdleConns_loop_stock n : forall cleaned p w,
  Z.of_nat (length (idleConns p)) <= maxIdle p ->
  let r := CleanIdleConns_loop n cleaned p w in
  dial_answers (snd r) = dial_answers w
  /\ dials (snd r) = dials w
  /\ maxIdle (snd (fst r)) = maxIdle p
  /\ Z.of_nat (length (idleConns (snd (fst r)))) <= maxIdle p
  /\ stock (snd (fst r)) (snd r) ≡ₚ stock p w.
Proof.
  induction n as [|n IH]; intros cleaned p w Hb r.
  - unfold r. cbn. repeat split; try reflexivity. exact Hb.
  - unfold r. cbn [CleanIdleConns_loop].
    destruct (idleConns p) as [|c rest] eqn:Hidle.
    + cbn. rewrite Hidle. repeat split; try reflexivity. cbn. lia.
    + cbn [set_idle has_testConn idleConns maxIdle].
      assert (Hclose : forall w1 k,
                 dial_answers w1 = dial_answers w -> dials w1 = dials w ->
                 closed_conns w1 = closed_conns w ->
                 let r1 := CleanIdleConns_loop n k
                             (add_active (-1) (set_idle rest p))
                             (Close_conn c w1) in
                 dial_answers (snd r1) = dial_answers w
                 /\ dials (snd r1) = dials w
                 /\ maxIdle (snd (fst r1)) = maxIdle p
                 /\ Z.of_nat (length (idleConns (snd (fst r1)))) <= maxIdle p
                 /\ stock (snd (fst r1)) (snd r1) ≡ₚ c :: rest ++ closed_conns w).
      { intros w1 k Ha Hd Hc r1.
        destruct (IH k (add_active (-1) (set_idle rest p)) (Close_conn c w1))
          as (H1 & H2 & H3 & H4 & H5).
        { cbn. cbn [length] in Hb. lia. }
        fold r1 in H1, H2, H3, H4, H5.
        rewrite H1, H2, H3, H5. cbn. rewrite Ha, Hd, Hc.
        split; [reflexivity|]. split; [reflexivity|]. split; [reflexivity|].
        split; [exact H4|].
        unfold stock. cbn.
        rewrite app_assoc, <- Permutation_cons_append. reflexivity. }
      assert (Hkeep : forall w1,
                 dial_answers w1 = dial_answers w -> dials w1 = dials w ->
                 closed_conns w1 = closed_conns w ->
                 let r1 := if Z.of_nat (length rest) <? maxIdle p
                           then CleanIdleConns_loop n cleaned
                                  (set_idle (rest ++ [c]) (set_idle rest p)) w1
                           else CleanIdleConns_loop n (cleaned + 1)
                                  (add_active (-1) (set_idle rest p))
                                  (Close_conn c w1) in
                 dial_answers (snd r1) = dial_answers w
                 /\ dials (snd r1) = dials w
                 /\ maxIdle (snd (fst r1)) = maxIdle p
                 /\ Z.of_nat (length (idleConns (snd (fst r1)))) <= maxIdle p
                 /\ stock (snd (fst r1)) (snd r1) ≡ₚ c :: rest ++ closed_conns w).
      { intros w1 Ha Hd Hc.
        destruct (Z.of_nat (length rest) <? maxIdle p) eqn:Hroom.
        - intros r1.
          destruct (IH cleaned (set_idle (rest ++ [c]) (set_idle rest p)) w1)
            as (H1 & H2 & H3 & H4 & H5).
          { cbn. apply Z.ltb_lt in Hroom. rewrite length_app. cbn [length]. lia. }
          fold r1 in H1, H2, H3, H4, H5.
          rewrite H1, H2, H3, H5. rewrite Ha, Hd.
          split; [reflexivity|]. split; [reflexivity|]. split; [reflexivity|].
          split; [exact H4|].
          unfold stock. cbn. rewrite Hc.
          rewrite <- app_assoc. cbn [app]. symmetry. apply Permutation_middle.
        - apply Hclose; assumption. }
      unfold stock at 2. rewrite Hidle. cbn [app].
      destruct (has_testConn p).
      * unfold testConn. destruct (test_answers w (tests w) c).
        -- apply Hclose; reflexivity.
        -- apply Hkeep; reflexivity.
      * apply Hkeep; reflexivity.
Qed.

Lemma CleanIdleConns_stock p w :
  Z.of_nat (length (idleConns p)) <= maxIdle p ->
  let r := CleanIdleConns p w in
  dial_answers (snd r) = dial_answers w
  /\ dials (snd r) = dials w
  /\ maxIdle (snd (fst r)) = maxIdle p
  /\ Z.of_nat (length (idleConns (snd (fst r)))) <= maxIdle p
  /\ stock (snd (fst r)) (snd r) ≡ₚ stock p w.
Proof.
  intros Hb. unfold CleanIdleConns. destruct (closed p).
  - cbn. repeat split; try reflexivity. exact Hb.
  - apply CleanIdleConns_loop_stock. exact Hb.
Qed.

Lemma GetWithRetry_loop_stock n : forall i N d lastErr p w res p' w',
  GetWithRetry_loop n i N d lastErr p w = (res, p', w') ->
  dial_answers w' = dial_answers w
  /\ (dials w <= dials w')%nat
  /\ (length (idleConns p') <= length (idleConns p))%nat
  /\ maxIdle p' = maxIdle p
  /\ match fst res with
     | Some c =>
       c :: stock p' w' ≡ₚ stock p w
       \/ (stock p' w' ≡ₚ stock p w
           /\ exists k, (dials w <= k < dials w')%nat
                        /\ dial_answers w k = Ok c)
     | None => stock p' w' ≡ₚ stock p w
     end.
Proof.
  induction n as [|n IH]; intros i N d lastErr p w res p' w'.
  - cbn [GetWithRetry_loop]. intros [= <- <- <-]. cbn.
    repeat split; try reflexivity; lia.
  - cbn [GetWithRetry_loop].
    destruct (Get p w) as [[[c|err] p1] w1] eqn:Hget;
      destruct (Get_stock p w _ p1 w1 Hget) as (G1 & G2 & G3 & G4).
    + intros [= <- <- <-]. cbn [fst].
      split; [exact G1|].
      destruct G4 as [[Ha Hb]|(Ha & Hb & Hc)].
      * split; [lia|]. split; [exact G2|]. split; [exact G3|]. left. exact Ha.
      * split; [lia|]. split; [exact G2|]. split; [exact G3|].
        right. split; [exact Ha|]. exists (dials w). split; [lia|exact Hc].
    + destruct G4 as [Ha Hb].
      destruct (Is err ErrPoolClosed || Is err ErrPoolExhausted).
      * intros [= <- <- <-]. cbn [fst]. auto.
      * intros Hl.
        match type of Hl with
        | GetWithRetry_loop n _ _ _ _ _ ?w2 = _ =>
          destruct (IH _ _ _ _ _ _ _ _ _ Hl) as (H1 & H2 & H3 & H4 & H5);
          assert (Hw : dial_answers w2 = dial_answers w1
                       /\ dials w2 = dials w1
                       /\ stock p1 w2 = stock p1 w1)
            by (destruct (i <? N)%Z; repeat split)
        end.
        destruct Hw as (W1 & W2 & W3).
        rewrite W1, W2, W3 in *.
        split; [congruence|]. split; [lia|]. split; [lia|].
        split; [congruence|].
        destruct (fst res) as [c|].
        -- destruct H5 as [H5|(H5 & k & Hk & Hc)].
           ++ left. rewrite H5. exact Ha.
           ++ right. split; [rewrite H5; exact Ha|].
              exists k. split; [lia|]. rewrite <- G1. exact Hc.
        -- rewrite H5. exact Ha.
Qed.

Definition sound (s : sys) : Prop :=
  fresh_dials (world s)
  /\ NoDup (held s)
  /\ Forall (dialed (world s)) (held s)
  /\ Z.of_nat (length (idleConns (pool s))) <= maxIdle (pool s).

Lemma remove_one_Permutation c l : In c l -> l ≡ₚ c :: remove_one c l.
Proof.
  induction l as [|x r IH]; cbn [In remove_one]; [tauto|].
  intros [->|H].
  - rewrite Nat.eqb_refl. reflexivity.
  - destruct (Nat.eqb x c) eqn:He.
    + apply Nat.eqb_eq in He. subst x. reflexivity.
    + rewrite (IH H) at 1. apply perm_swap.
Qed.

Lemma sound_moves s s' :
  sound s ->
  moves (held s) (world s) (held s') (world s') ->
  Z.of_nat (length (idleConns (pool s'))) <= maxIdle (pool s') ->
  sound s'.
Proof.
  intros (Hf & Hn & Hd & _) Hm Hb.
  destruct (moves_keeps_sound _ _ _ _ Hf Hn Hd Hm) as (H1 & H2 & H3).
  repeat split; assumption.
Qed.

Lemma act_sound a s :
  sound s ->
  match a with DoPut conn => In conn (leased s) | _ => True end ->
  sound (act a s).
Proof.
  intros Hs Hput. pose proof Hs as (_ & _ & _ & Hb).
  destruct a as [|conn| | | |N d]; cbn [act step].
  - destruct (Get (pool s) (world s)) as [[[c|err] p1] w1] eqn:Hget;
      destruct (Get_stock _ _ _ _ _ Hget) as (G1 & G2 & G3 & G4);
      (eapply sound_moves; [exact Hs| |cbn [pool]; lia]);
      unfold moves, held; cbn [pool world leased].
    + destruct G4 as [[Ha Hd]|(Ha & Hd & Hc)].
      * split; [exact G1|]. split; [lia|]. left.
        cbn [app]. rewrite Permutation_middle, Ha. reflexivity.
      * split; [exact G1|]. split; [lia|]. right.
        exists c, (dials (world s)). cbn [app]. rewrite Ha.
        split; [reflexivity|]. split; [lia|exact Hc].
    + destruct G4 as [Ha Hd]. split; [exact G1|]. split; [exact Hd|].
      left. rewrite Ha. reflexivity.
  - destruct (Put (Some conn) (pool s) (world s)) as [[e p1] w1] eqn:Hp.
    destruct (Put_stock _ _ _ _ _ _ Hp Hb) as (P1 & P2 & P3 & P4 & P5).
    eapply sound_moves; [exact Hs| |exact P4].
    unfold moves, held; cbn [pool world leased].
    split; [exact P1|]. split; [lia|]. left.
    rewrite P5, <- Permutation_middle.
    rewrite (remove_one_Permutation conn (leased s) Hput) at 2. reflexivity.
  - destruct (Close_stock (pool s) (world s)) as (C1 & C2 & C3 & C4 & C5).
    destruct (Close (pool s) (world s)) as [p1 w1].
    cbn [fst snd] in *.
    eapply sound_moves; [exact Hs| |cbn [pool]; lia].
    unfold moves, held; cbn [pool world leased].
    split; [exact C1|]. split; [lia|]. left. rewrite C5. reflexivity.
  - unfold Ping.
    destruct (Get (pool s) (world s)) as [[[c|err] p1] w1] eqn:Hget;
      destruct (Get_stock _ _ _ _ _ Hget) as (G1 & G2 & G3 & G4).
    + destruct (Put (Some c) p1 w1) as [[e p2] w2] eqn:Hp.
      destruct (Put_stock _ _ _ _ _ _ Hp ltac:(lia)) as (P1 & P2 & P3 & P4 & P5).
      eapply sound_moves; [exact Hs| |exact P4].
      unfold moves, held; cbn [pool world leased].
      split; [congruence|].
      destruct G4 as [[Ha Hd]|(Ha & Hd & Hc)].
      * split; [lia|]. left. rewrite P5, Ha. reflexivity.
      * split; [lia|]. right. exists c, (dials (world s)).
        rewrite P5, Ha, <- Permutation_middle.
        split; [reflexivity|]. split; [lia|exact Hc].
    + destruct G4 as [Ha Hd].
      eapply sound_moves; [exact Hs| |cbn [pool]; lia].
      unfold moves, held; cbn [pool world leased].
      split; [exact G1|]. split; [exact Hd|]. left. rewrite Ha. reflexivity.
  - destruct (CleanIdleConns_stock (pool s) (world s) Hb)
      as (C1 & C2 & C3 & C4 & C5).
    destruct (CleanIdleConns (pool s) (world s)) as [[k p1] w1].
    cbn [fst snd] in *.
    eapply sound_moves; [exact Hs| |cbn [pool]; lia].
    unfold moves, held; cbn [pool world leased].
    split; [exact C1|]. split; [lia|]. left. rewrite C5. reflexivity.
  - unfold GetWithRetry.
    destruct (GetWithRetry_loop _ 0 N d None (pool s) (world s))
      as [[[[c|] e] p1] w1] eqn:Hl;
      destruct (GetWithRetry_loop_stock _ _ _ _ _ _ _ _ _ _ Hl)
        as (H1 & H2 & H3 & H4 & H5);
      cbn [fst] in H5;
      (eapply sound_moves; [exact Hs| |cbn [pool]; lia]);
      unfold moves, held; cbn [pool world leased].
    + split; [exact H1|]. split; [exact H2|].
      destruct H5 as [H5|(H5 & k & Hk & Hc)].
      * left. cbn [app]. rewrite Permutation_middle, H5. reflexivity.
      * right. exists c, k. cbn [app]. rewrite H5. auto.
    + split; [exact H1|]. split; [exact H2|]. left. rewrite H5. reflexivity.
Qed.

Lemma acts_sound l : forall s, sound s -> careful l s -> sound (acts l s).
Proof.
  induction l as [|a l IH]; intros s Hs Hc; [exact Hs|].
  destruct Hc as [Ha Hc]. cbn [acts]. apply IH; [|exact Hc].
  apply act_sound; assumption.
Qed.

(** Whatever a client does with a pool made by [NewConnPool] ([Get],
    [Put] of a connection it holds, [Close], [Ping], [CleanIdleConns],
    [GetWithRetry]), when every successful dial returns a new connection:
    the connections on lease, the idle ones and the ones the pool closed
    are all different, so no connection is on lease twice and none on lease
    or idle has been closed by the pool; each one came from a dial; and the
    queue holds at most [maxIdle] connections. *)
Theorem leases_are_open_and_distinct (config : ConnPoolConfig)
    (p0 : ConnPool) (w0 : World) (l : list action) :
  NewConnPool config = Ok p0 ->
  dials w0 = 0%nat ->
  closed_conns w0 = [] ->
  fresh_dials w0 ->
  careful l (mkSys p0 w0 []) ->
  let s := acts l (mkSys p0 w0 []) in
  NoDup (leased s ++ idleConns (pool s) ++ closed_conns (world s))
  /\ Forall (dialed (world s))
            (leased s ++ idleConns (pool s) ++ closed_conns (world s))
  /\ Z.of_nat (length (idleConns (pool s))) <= maxIdle (pool s).
Proof.
  intros Hnew Hd Hc Hf Hl s.
  assert (H0 : sound (mkSys p0 w0 [])).
  { unfold sound, held, stock. cbn [pool world leased app].
    unfold NewConnPool in Hnew.
    destruct (String.eqb (cfg_Address config) ""); [discriminate|].
    injection Hnew as <-. cbn [idleConns maxIdle]. rewrite Hc. cbn [app length].
    split; [exact Hf|]. split; [constructor|]. split; [constructor|].
    destruct (cfg_MaxIdle config <=? 0) eqn:Hm; [lia|].
    apply Z.leb_gt in Hm. lia. }
  destruct (acts_sound l _ H0 Hl) as (_ & H2 & H3 & H4).
  fold s in H2, H3, H4. unfold held, stock in H2, H3. auto.
Qed.

Lemma leases_are_open_and_distinct_witness :
  let s := acts [DoGet; DoGet; DoPut 100%nat; DoPing; DoGetWithRetry 2 100;
                 DoClean; DoPut 101%nat; DoClose]
                (mkSys pool5 picky []) in
  NoDup (leased s ++ idleConns (pool s) ++ closed_conns (world s))
  /\ Forall (dialed (world s))
            (leased s ++ idleConns (pool s) ++ closed_conns (world s))
  /\ Z.of_nat (length (idleConns (pool s))) <= maxIdle (pool s).
Proof.
  apply (leases_are_open_and_distinct config5 pool5 picky).
  - reflexivity.
  - reflexivity.
  - reflexivity.
  - intros n m c Hn Hm. simpl in Hn, Hm. injection Hn as Hn. injection Hm as Hm. lia.
  - vm_compute. intuition.
Defined.

(** *** Ping *)

Lemma Get_fast_shrinks idle : forall p w c p' w',
  idleConns p = idle ->
  Get_fast idle p w = (Ok c, p', w') ->
  (length (idleConns p') < length idle)%nat \/ idleConns p' = [].
Proof.
  induction idle as [|x rest IH]; intros p w c p' w' Hidle.
  - cbn [Get_fast]. intros Hs.
    destruct (Get_slow_stock p w _ p' w' Hs) as (_ & H2 & _).
    right. congruence.
  - cbn [Get_fast set_idle testOnGet has_testConn].
    destruct (testOnGet p && has_testConn p).
    + unfold testConn. destruct (test_answers w (tests w) x).
      * intros Hg.
        match type of Hg with
        | Get_fast rest ?p1 ?w1 = _ =>
          destruct (IH p1 w1 c p' w' eq_refl Hg) as [H|H]; [left|right]
        end.
        -- cbn [length]. lia.
        -- exact H.
      * intros [= <- <- <-]. left. cbn. lia.
    + intros [= <- <- <-]. left. cbn. lia.
Qed.

(** [Ping] on an open pool fails exactly when its [Get] fails, with the
    same error; otherwise it returns nil and the connection that [Get]
    handed out or dialed is not closed but goes to the back of the idle
    queue, for which there is always room. *)
Theorem Ping_keeps_its_connection (p : ConnPool) (w : World) :
  closed p = false ->
  0 < maxIdle p ->
  Z.of_nat (length (idleConns p)) <= maxIdle p ->
  match Get p w with
  | (Fail err, p1, w1) => Ping p w = (Some err, p1, w1)
  | (Ok conn, p1, w1) =>
    Ping p w = (None, set_idle (idleConns p1 ++ [conn]) p1, w1)
  end.
Proof.
  intros Hopen Hpos Hb. unfold Ping.
  destruct (Get p w) as [[[c|err] p1] w1] eqn:Hget; [|reflexivity].
  pose proof (Get_frame p w) as ((Hmi & _) & _ & Hcl).
  rewrite Hget in Hmi, Hcl. cbn [fst snd] in Hmi, Hcl.
  assert (Hroom : Z.of_nat (length (idleConns p1)) < maxIdle p1).
  { unfold Get in Hget. rewrite Hopen in Hget.
    destruct (Get_fast_shrinks _ _ _ _ _ _ eq_refl Hget) as [H|H].
    - lia.
    - rewrite H, Hmi. cbn. lia. }
  unfold Put. rewrite Hcl, Hopen.
  apply Z.ltb_lt in Hroom. rewrite Hroom. reflexivity.
Qed.

Lemma Ping_keeps_its_connection_witness :
  match Get pool_mixed picky with
  | (Fail err, p1, w1) => Ping pool_mixed picky = (Some err, p1, w1)
  | (Ok conn, p1, w1) =>
    Ping pool_mixed picky = (None, set_idle (idleConns p1 ++ [conn]) p1, w1)
  end.
Proof.
  apply (Ping_keeps_its_connection pool_mixed picky).
  - reflexivity.
  - reflexivity.
  - simpl. lia.
Defined.

(** *** The active count under every operation *)

Lemma CleanIdleConns_loop_counted n : forall cleaned p w k,
  counted p (k + length (idleConns p)) ->
  let r := CleanIdleConns_loop n cleaned p w in
  counted (snd (fst r)) (k + length (idleConns (snd (fst r))))
  /\ maxActive (snd (fst r)) = maxActive p.
Proof.
  induction n as [|n IH]; intros cleaned p w k Hc r.
  - unfold r. cbn. auto.
  - unfold r. cbn [CleanIdleConns_loop].
    destruct (idleConns p) as [|c rest] eqn:Hidle.
    + cbn. rewrite Hidle. auto.
    + cbn [set_idle has_testConn idleConns maxIdle].
      assert (Hclose : forall w1 j,
                 let r1 := CleanIdleConns_loop n j
                             (add_active (-1) (set_idle rest p)) w1 in
                 counted (snd (fst r1)) (k + length (idleConns (snd (fst r1))))
                 /\ maxActive (snd (fst r1)) = maxActive p).
      { intros w1 j.
        destruct (IH j (add_active (-1) (set_idle rest p)) w1 k) as [A B].
        - cbn [add_active set_idle idleConns].
          apply counted_dec. cbn [length] in Hc.
          replace (S (k + length rest)) with (k + S (length rest))%nat by lia.
          exact Hc.
        - split; [exact A|exact B]. }
      assert (Hkeep : forall w1,
                 let r1 := CleanIdleConns_loop n cleaned
                             (set_idle (rest ++ [c]) (set_idle rest p)) w1 in
                 counted (snd (fst r1)) (k + length (idleConns (snd (fst r1))))
                 /\ maxActive (snd (fst r1)) = maxActive p).
      { intros w1.
        destruct (IH cleaned (set_idle (rest ++ [c]) (set_idle rest p)) w1 k)
          as [A B].
        - cbn [set_idle idleConns].
          rewrite length_app. cbn [length] in *.
          replace (k + (length rest + 1))%nat with (k + S (length rest))%nat
            by lia.
          exact Hc.
        - split; [exact A|exact B]. }
      destruct (has_testConn p).
      * unfold testConn. destruct (test_answers w (tests w) c).
        -- apply Hclose.
        -- destruct (Z.of_nat (length rest) <? maxIdle p);
             [apply Hkeep|apply Hclose].
      * destruct (Z.of_nat (length rest) <? maxIdle p);
          [apply Hkeep|apply Hclose].
Qed.

Lemma GetWithRetry_loop_inv n : forall i N d lastErr s,
  inv s ->
  match GetWithRetry_loop n i N d lastErr (pool s) (world s) with
  | ((Some conn, _), p, w) => inv (mkSys p w (conn :: leased s))
  | ((None, _), p, w) => inv (mkSys p w (leased s))
  end
  /\ maxActive (snd (fst (GetWithRetry_loop n i N d lastErr (pool s) (world s))))
     = maxActive (pool s).
Proof.
  induction n as [|n IH]; intros i N d lastErr s Hinv.
  - cbn. auto.
  - cbn [GetWithRetry_loop].
    pose proof (step_inv OpGet s Hinv I) as (H1 & H2 & _).
    cbn [step] in H1, H2.
    destruct (Get (pool s) (world s)) as [[[c|err] p1] w1] eqn:Hget.
    + cbn in *. auto.
    + destruct (Is err ErrPoolClosed || Is err ErrPoolExhausted).
      * cbn in *. auto.
      * match goal with
        | |- context [GetWithRetry_loop n _ _ _ _ p1 ?w2] =>
          destruct (IH (i + 1)%Z N d (Some err) (mkSys p1 w2 (leased s)))
            as [G1 G2]; [exact H1|]
        end.
        cbn [pool world leased] in G1, G2. split; [exact G1|].
        rewrite G2. exact H2.
Qed.

Lemma act_inv a s :
  inv s ->
  match a with DoPut conn => In conn (leased s) | _ => True end ->
  inv (act a s) /\ maxActive (pool (act a s)) = maxActive (pool s).
Proof.
  intros Hinv Hput. destruct a as [|conn| | | |N d]; cbn [act].
  - destruct (step_inv OpGet s Hinv I) as (H1 & H2 & _). auto.
  - destruct (step_inv (OpPut conn) s Hinv Hput) as (H1 & H2 & _). auto.
  - destruct (step_inv OpClose s Hinv I) as (H1 & H2 & _). auto.
  - unfold Ping.
    pose proof (step_inv OpGet s Hinv I) as (H1 & H2 & _).
    cbn [step] in H1, H2.
    destruct (Get (pool s) (world s)) as [[[c|err] p1] w1] eqn:Hget.
    + pose proof (step_inv (OpPut c) (mkSys p1 w1 (c :: leased s)) H1
                    (or_introl eq_refl)) as (G1 & G2 & _).
      cbn [step pool world leased remove_one] in G1, G2.
      rewrite Nat.eqb_refl in G1.
      destruct (Put (Some c) p1 w1) as [[e p2] w2].
      cbn [pool] in *. split; [exact G1|congruence].
    + cbn [pool] in *. auto.
  - unfold CleanIdleConns. destruct (closed (pool s)); [auto|].
    pose proof (CleanIdleConns_loop_counted (length (idleConns (pool s))) 0
                  (pool s) (world s) (length (leased s)) Hinv) as [H1 H2].
    destruct (CleanIdleConns_loop _ 0 (pool s) (world s)) as [[k p1] w1].
    cbn [fst snd] in *. auto.
  - unfold GetWithRetry.
    pose proof (GetWithRetry_loop_inv (Z.to_nat (N + 1)) 0 N d None s Hinv)
      as [H1 H2].
    destruct (GetWithRetry_loop _ 0 N d None (pool s) (world s))
      as [[[[c|] e] p1] w1]; cbn [fst snd pool] in *; auto.
Qed.

Lemma acts_inv l : forall s,
  inv s -> careful l s ->
  inv (acts l s) /\ maxActive (pool (acts l s)) = maxActive (pool s).
Proof.
  induction l as [|a l IH]; intros s Hinv Hc; [auto|].
  destruct Hc as [Ha Hc]. cbn [acts].
  destruct (act_inv a s Hinv Ha) as [H1 H2].
  destruct (IH _ H1 Hc) as [H3 H4]. split; [exact H3|congruence].
Qed.

(** Under every operation of the pool ([Ping], [CleanIdleConns] and
    [GetWithRetry] besides [Get], [Put] and [Close]) the active count stays
    the number of open connections, on lease or idle, as an int32; with a
    positive [maxActive] it is exactly that number and never exceeds
    [maxActive]. *)
Theorem active_count_under_every_operation (config : ConnPoolConfig)
    (p0 : ConnPool) (w0 : World) (l : list action) :
  NewConnPool config = Ok p0 ->
  careful l (mkSys p0 w0 []) ->
  let s := acts l (mkSys p0 w0 []) in
  ActiveCount (pool s) = wrap32 (live s)
  /\ (0 < maxActive (pool s) ->
      ActiveCount (pool s) = live s
      /\ 0 <= ActiveCount (pool s) <= maxActive (pool s)).
Proof.
  intros Hnew Hc s.
  destruct (NewConnPool_init _ _ Hnew) as (Hi & Ha & Hm).
  assert (Hinv0 : inv (mkSys p0 w0 [])).
  { unfold inv, counted. simpl. rewrite Hi, Ha. simpl. split; [reflexivity|].
    intros _. lia. }
  destruct (acts_inv l _ Hinv0 Hc) as [Hinv Hmax]. fold s in Hinv, Hmax.
  unfold ActiveCount, live. destruct Hinv as [H1 H2].
  split; [exact H1|].
  intros Hpos. specialize (H2 Hpos).
  pose proof (wrap32_range (maxActive (pool s))).
  pose proof (wrap32_le_pos _ Hpos).
  rewrite H1, wrap32_small by lia. lia.
Qed.

Lemma active_count_under_every_operation_witness :
  let s := acts [DoGet; DoGet; DoPut 100%nat; DoPing; DoGetWithRetry 2 100;
                 DoClean; DoPut 101%nat; DoClose]
                (mkSys pool5 picky []) in
  ActiveCount (pool s) = wrap32 (live s)
  /\ (0 < maxActive (pool s) ->
      ActiveCount (pool s) = live s
      /\ 0 <= ActiveCount (pool s) <= maxActive (pool s)).
Proof.
  apply (active_count_under_every_operation config5 pool5 picky).
  - reflexivity.
  - vm_compute. intuition.
Defined.

End PoolBehaviour.

(** ** The client's retries *)

Module ClientCallProps.
Import Bytes GoJson Protocol GoErr Wire Codec Pool Client ClientCalls PoolProps.
Import RetryProps.
Local Open Scope Z_scope.

(** Whatever the pool's error is, its wrapping by [doCall] is retried:
    only [ErrNoConnection] is in the chain. *)
Lemma no_connection_retried err :
  shouldRetry (Some (no_connection err)) = true
  /\ Is (no_connection err) ErrNoConnection = true
  /\ Is (no_connection err) ErrPoolExhausted = false
  /\ Is (no_connection err) ErrPoolClosed = false.
Proof. repeat split. Qed.

(** The delays of the timers between [n] failed attempts, from the
    attempt of index [from]. *)
Fixpoint backoffs (n : nat) (from : Z) (retryDelay : Z) : list Z :=
  match n with
  | O => []
  | S n => wrap64 (retryDelay * wrap64 (2 ^ from))
           :: backoffs n (from + 1) retryDelay
  end.

(** A pool that has reached its limit and has no idle connection. *)
Definition exhausted (p : ConnPool) : Prop :=
  closed p = false /\ idleConns p = []
  /\ 0 < maxActive p /\ wrap32 (maxActive p) <= activeNum p.

Lemma Get_exhausted p w :
  exhausted p -> Get p w = (Fail (Sentinel ErrPoolExhausted), p, w).
Proof.
  intros (Hc & Hi & Hm & Ha). unfold Get. rewrite Hc, Hi. cbn [Get_fast].
  unfold Get_slow.
  apply Z.ltb_lt in Hm. apply Z.leb_le in Ha. rewrite Hm, Ha. reflexivity.
Qed.

Section Retries.
Context {A V : Type}.
Variable Marshal_args : A -> string + jsonerr.
Variable Unmarshal_reply : string -> V -> V + jsonerr.
Variable oob : spec_float -> Z.

Definition never_done (net : Net) : Prop := forall k, ctx_done net k = None.

Lemma doCall_exhausted args call (c : Client (V := V)) pw net :
  exhausted (connPool c) ->
  exists call' c',
    ClientCalls.doCall Marshal_args Unmarshal_reply oob args call c pw net
    = (Some (no_connection (Sentinel ErrPoolExhausted)), call', c', pw, net)
    /\ Reply call' = Reply call
    /\ connPool c' = connPool c
    /\ seq_counter c' = wrap_u64 (seq_counter c + 1)
    /\ maxRetries c' = maxRetries c
    /\ retryDelay c' = retryDelay c
    /\ (pending c = ∅ -> pending c' = ∅).
Proof.
  intros Hex. unfold ClientCalls.doCall.
  cbn [set_pending set_seq_counter connPool].
  rewrite (Get_exhausted _ pw Hex).
  eexists. eexists. split; [reflexivity|].
  cbn. repeat split.
  intros ->. rewrite delete_insert_eq. apply delete_empty.
Qed.

Lemma Call_loop_exhausted n : forall attempt lastErr args call
    (c : Client (V := V)) pw net,
  exhausted (connPool c) ->
  never_done net ->
  Z.of_nat n = maxRetries c + 1 - attempt ->
  (0 < n)%nat ->
  exists call' c' net',
    ClientCalls.Call_loop Marshal_args Unmarshal_reply oob
      n attempt lastErr args call c pw net
    = (Some (call_failed (maxRetries c)
               (Some (no_connection (Sentinel ErrPoolExhausted)))),
       call', c', pw, net')
    /\ Reply call' = Reply call
    /\ connPool c' = connPool c
    /\ seq_counter c' = wrap_u64 (seq_counter c + Z.of_nat n)
    /\ naps net' = naps net ++ backoffs (n - 1) attempt (retryDelay c)
    /\ sent net' = sent net
    /\ writes net' = writes net
    /\ (pending c = ∅ -> pending c' = ∅).
Proof.
  induction n as [|n IH]; intros attempt lastErr args call c pw net Hex Hnd Hn Hpos;
    [lia|].
  cbn [ClientCalls.Call_loop]. unfold look at 1. rewrite (Hnd (looks net)).
  match goal with
  | |- context [ClientCalls.doCall _ _ _ args call c pw ?net1] =>
    destruct (doCall_exhausted args call c pw net1 Hex)
      as (call1 & c1 & Hd & D1 & D2 & D3 & D4 & D5 & D6);
    rewrite Hd
  end.
  destruct (no_connection_retried (Sentinel ErrPoolExhausted)) as (Hr & _).
  rewrite Hr. cbn [negb]. rewrite D4.
  destruct n as [|n].
  - assert (attempt = maxRetries c) by lia. subst attempt.
    rewrite Z.ltb_irrefl. cbn [ClientCalls.Call_loop]. rewrite D4.
    eexists. eexists. eexists. split; [reflexivity|].
    cbn. rewrite app_nil_r. repeat split; try assumption.
  - assert (Hlt : attempt < maxRetries c) by lia.
    apply Z.ltb_lt in Hlt. rewrite Hlt.
    unfold look. cbn [ctx_done looks]. rewrite (Hnd (S (looks net))).
    match goal with
    | |- context [ClientCalls.Call_loop _ _ _ (S n) ?a ?le args call1 c1 pw ?net2] =>
      destruct (IH a le args call1 c1 pw net2)
        as (call' & c' & net' & H1 & H2 & H3 & H4 & H5 & H6 & H7 & H8)
    end.
    + rewrite D2. exact Hex.
    + intros k. apply Hnd.
    + rewrite D4. lia.
    + lia.
    + rewrite D4 in H1. rewrite H1.
      exists call', c', net'. split; [reflexivity|].
      split; [congruence|]. split; [congruence|].
      split.
      { rewrite H4, D3. unfold wrap_u64.
        rewrite Zplus_mod_idemp_l. f_equal. lia. }
      split.
      { rewrite H5. cbn [nap naps]. rewrite D5, <- app_assoc.
        replace (S (S n) - 1)%nat with (S n) by lia.
        replace (S n - 1)%nat with n by lia. reflexivity. }
      split; [rewrite H6; reflexivity|].
      split; [rewrite H7; reflexivity|]. auto.
Qed.

(** Against a pool that has reached its limit and has no idle connection,
    and with a context that is never done, [Call] does not stop at the first
    attempt: [doCall] wraps the pool's error so that only [ErrNoConnection]
    is in the chain, which [shouldRetry] retries.  [Call] makes
    [maxRetries + 1] attempts, each taking a sequence number, waits for
    [maxRetries] timers of [retryDelay * 2^attempt], sends nothing, and
    returns an error in whose chain [errors.Is] finds [ErrNoConnection] but
    not [ErrPoolExhausted]; the reply is untouched. *)
Theorem Call_retries_when_pool_exhausted (serviceMethod : string)
    (args : option A) (reply : V) (c : Client (V := V)) (pw : World) (net : Net) :
  closed_flag c = false ->
  String.eqb serviceMethod "" = false ->
  0 <= maxRetries c ->
  exhausted (connPool c) ->
  never_done net ->
  exists err c' net',
    Call_ Marshal_args Unmarshal_reply oob serviceMethod args (Some reply)
      c pw net
    = (Some err, Some reply, c', pw, net')
    /\ err = call_failed (maxRetries c)
               (Some (no_connection (Sentinel ErrPoolExhausted)))
    /\ Is err ErrNoConnection = true
    /\ Is err ErrPoolExhausted = false
    /\ seq_counter c' = wrap_u64 (seq_counter c + (maxRetries c + 1))
    /\ naps net' = naps net
                   ++ backoffs (Z.to_nat (maxRetries c)) 0 (retryDelay c)
    /\ sent net' = sent net
    /\ connPool c' = connPool c.
Proof.
  intros Hopen Hm HN Hex Hnd. unfold ClientCalls.Call_. rewrite Hopen, Hm.
  destruct (Call_loop_exhausted (Z.to_nat (maxRetries c + 1)) 0 None args
              (mkCall serviceMethod (Some reply) None 0) c pw net Hex Hnd)
    as (call' & c' & net' & H1 & H2 & H3 & H4 & H5 & H6 & H7 & H8);
    [lia|lia|].
  rewrite H1.
  exists (call_failed (maxRetries c)
            (Some (no_connection (Sentinel ErrPoolExhausted)))), c', net'.
  rewrite H2. cbn [Reply].
  split; [reflexivity|]. split; [reflexivity|].
  split; [reflexivity|]. split; [reflexivity|].
  split; [rewrite H4; f_equal; lia|].
  split; [rewrite H5; do 2 f_equal; lia|]. auto.
Qed.

(** *** How many attempts *)

Lemma doCall_frame args call (c : Client (V := V)) pw net r call' c' pw' net' :
  ClientCalls.doCall Marshal_args Unmarshal_reply oob args call c pw net
  = (r, call', c', pw', net') ->
  seq_counter c' = wrap_u64 (seq_counter c + 1)
  /\ maxRetries c' = maxRetries c
  /\ retryDelay c' = retryDelay c
  /\ closed_flag c' = closed_flag c
  /\ pending c' = delete (wrap_u64 (seq_counter c + 1)) (pending c)
  /\ naps net' = naps net
  /\ looks net' = looks net
  /\ ctx_done net' = ctx_done net.
Proof.
  unfold ClientCalls.doCall.
  cbn [set_pending set_seq_counter set_connPool connPool pending seq_counter
       maxRetries retryDelay closed_flag].
  set (call1 := set_call_seq _ call).
  assert (Hdel : delete (wrap_u64 (seq_counter c + 1))
                   (<[wrap_u64 (seq_counter c + 1) := call1]> (pending c))
                 = delete (wrap_u64 (seq_counter c + 1)) (pending c))
    by apply delete_insert_eq.
  destruct (Get (connPool c) pw) as [[[conn|err] p1] pw1].
  2: { intros [= <- <- <- <- <-]. cbn. rewrite Hdel. repeat split. }
  destruct (Put (Some conn) p1 pw1) as [[e p2] pw2].
  destruct args as [a|]; [destruct (Marshal_args a) as [argsData|merr]|];
    try (intros [= <- <- <- <- <-]; cbn; rewrite Hdel; repeat split);
    (destruct (snd (EncodeRequest _)) as [reqData|eerr];
     [|intros [= <- <- <- <- <-]; cbn; rewrite Hdel; repeat split]);
    cbn [next_write write_err flush_err waits writes flushed];
    (destruct (write_err net (writes net));
     [intros [= <- <- <- <- <-]; cbn; rewrite Hdel; repeat split|]);
    (destruct (flush_err net (writes net));
     [intros [= <- <- <- <- <-]; cbn; rewrite Hdel; repeat split|]);
    (destruct (waits net (writes net)) as [read|werr late];
     [destruct (receiveResponse Unmarshal_reply oob read call1) as [rr rc]|]);
    intros [= <- <- <- <- <-]; cbn; rewrite Hdel; repeat split.
Qed.

Lemma Call_loop_bounded n : forall attempt lastErr args call
    (c : Client (V := V)) pw net r call' c' pw' net',
  ClientCalls.Call_loop Marshal_args Unmarshal_reply oob
    n attempt lastErr args call c pw net = (r, call', c', pw', net') ->
  exists k added,
    (k <= n)%nat
    /\ (k = 0%nat -> c' = c /\ pw' = pw /\ call' = call)
    /\ ((0 < k)%nat -> seq_counter c' = wrap_u64 (seq_counter c + Z.of_nat k))
    /\ maxRetries c' = maxRetries c
    /\ length (naps net') = (length (naps net) + added)%nat
    /\ (added <= k)%nat
    /\ Z.of_nat added <= Z.max 0 (maxRetries c - attempt).
Proof.
  induction n as [|n IH];
    intros attempt lastErr args call c pw net r call' c' pw' net'.
  - cbn [ClientCalls.Call_loop]. intros [= <- <- <- <- <-].
    exists 0%nat, 0%nat. repeat split; lia.
  - cbn [ClientCalls.Call_loop]. unfold look at 1.
    destruct (ctx_done net (looks net)) as [ctxErr|].
    { intros [= <- <- <- <- <-]. exists 0%nat, 0%nat. cbn. repeat split; lia. }
    match goal with
    | |- context [ClientCalls.doCall _ _ _ args call c pw ?net1] =>
      destruct (ClientCalls.doCall Marshal_args Unmarshal_reply oob
                  args call c pw net1)
        as [[[[r1 call1] c1] pw1] net1'] eqn:Hd;
      destruct (doCall_frame _ _ _ _ _ _ _ _ _ _ Hd)
        as (D1 & D2 & D3 & D4 & D5 & D6 & D7 & D8)
    end.
    assert (HD6 : length (naps net1') = length (naps net))
      by (rewrite D6; reflexivity).
    assert (Hone : forall netx,
               length (naps netx) = length (naps net) ->
               exists k added,
                 (k <= S n)%nat
                 /\ (k = 0%nat -> c1 = c /\ pw1 = pw /\ call1 = call)
                 /\ ((0 < k)%nat ->
                     seq_counter c1 = wrap_u64 (seq_counter c + Z.of_nat k))
                 /\ maxRetries c1 = maxRetries c
                 /\ length (naps netx) = (length (naps net) + added)%nat
                 /\ (added <= k)%nat
                 /\ Z.of_nat added <= Z.max 0 (maxRetries c - attempt)).
    { intros netx Hx. exists 1%nat, 0%nat.
      split; [lia|]. split; [intros Hk; discriminate|].
      split; [intros _; exact D1|]. split; [exact D2|].
      split; [lia|]. split; lia. }
    destruct r1 as [err|].
    2: { intros [= <- <- <- <- <-]. apply Hone. exact HD6. }
    destruct (negb (shouldRetry (Some err))).
    { intros [= <- <- <- <- <-]. apply Hone. exact HD6. }
    assert (Hstep : forall netx extra,
               length (naps netx) = (length (naps net) + extra)%nat ->
               (extra <= 1)%nat ->
               (extra = 1%nat -> attempt < maxRetries c) ->
               ClientCalls.Call_loop Marshal_args Unmarshal_reply oob
                 n (attempt + 1) (Some err) args call1 c1 pw1 netx
               = (r, call', c', pw', net') ->
               exists k added,
                 (k <= S n)%nat
                 /\ (k = 0%nat -> c' = c /\ pw' = pw /\ call' = call)
                 /\ ((0 < k)%nat ->
                     seq_counter c' = wrap_u64 (seq_counter c + Z.of_nat k))
                 /\ maxRetries c' = maxRetries c
                 /\ length (naps net') = (length (naps net) + added)%nat
                 /\ (added <= k)%nat
                 /\ Z.of_nat added <= Z.max 0 (maxRetries c - attempt)).
    { intros netx extra Hx Hle Hex Hl.
      destruct (IH _ _ _ _ _ _ _ _ _ _ _ _ Hl)
        as (k & added & K1 & K2 & K3 & K4 & K5 & K6 & K7).
      exists (S k), (extra + added)%nat.
      split; [lia|]. split; [lia|]. split.
      { intros _. destruct k as [|k].
        - destruct (K2 eq_refl) as (-> & _ & _). rewrite D1. reflexivity.
        - rewrite K3 by lia. rewrite D1. unfold wrap_u64.
          rewrite Zplus_mod_idemp_l. f_equal. lia. }
      split; [congruence|]. split; [lia|]. split; [lia|].
      rewrite D2 in K7. lia. }
    destruct (attempt <? maxRetries c1) eqn:Hlt.
    + unfold look. cbn [ctx_done looks].
      destruct (ctx_done net1' (looks net1')) as [ctxErr|].
      * intros [= <- <- <- <- <-]. apply Hone. cbn [naps]. exact HD6.
      * apply (Hstep _ 1%nat).
        -- cbn [nap naps]. rewrite length_app, HD6. cbn [length]. lia.
        -- lia.
        -- intros _. apply Z.ltb_lt in Hlt. lia.
    + apply (Hstep _ 0%nat); [rewrite HD6; lia|lia|lia].
Qed.

(** [Call] makes at most [maxRetries + 1] attempts, each of which takes
    the next sequence number, and waits for at most [maxRetries] timers
    and for no more timers than it makes attempts.  On a closed client,
    with an empty method name or with a nil reply it fails without an
    attempt and changes nothing; with a negative [maxRetries] it makes no
    attempt either and returns a "call failed" error that wraps nothing. *)
Theorem Call_attempts_bounded (serviceMethod : string) (args : option A)
    (reply : option V) (c : Client (V := V)) (pw : World) (net : Net) :
  let '(r, reply', c', pw', net') :=
    Call_ Marshal_args Unmarshal_reply oob serviceMethod args reply c pw net in
  (exists k added,
     Z.of_nat k <= Z.max 0 (maxRetries c + 1)
     /\ (k = 0%nat -> c' = c /\ pw' = pw /\ reply' = reply)
     /\ ((0 < k)%nat -> seq_counter c' = wrap_u64 (seq_counter c + Z.of_nat k))
     /\ length (naps net') = (length (naps net) + added)%nat
     /\ (added <= k)%nat
     /\ Z.of_nat added <= Z.max 0 (maxRetries c))
  /\ (closed_flag c = true ->
      r = Some (Sentinel ErrClientClosed) /\ c' = c /\ pw' = pw /\ net' = net)
  /\ (closed_flag c = false -> serviceMethod = "" \/ reply = None ->
      (exists text, r = Some (Opaque text)) /\ c' = c /\ pw' = pw /\ net' = net)
  /\ (closed_flag c = false -> serviceMethod <> "" -> reply <> None ->
      maxRetries c < 0 ->
      r = Some (call_failed (maxRetries c) None)
      /\ Unwrap (call_failed (maxRetries c) None) = None
      /\ c' = c /\ pw' = pw /\ net' = net).
Proof.
  unfold ClientCalls.Call_.
  destruct (closed_flag c) eqn:Hcl.
  { split; [exists 0%nat, 0%nat; repeat split; lia|].
    split; [auto|]. split; intros; discriminate. }
  destruct (String.eqb serviceMethod "") eqn:Hm.
  { split; [exists 0%nat, 0%nat; repeat split; lia|].
    split; [discriminate|]. split; [eauto|].
    intros _ Hne. apply String.eqb_eq in Hm. contradiction. }
  apply String.eqb_neq in Hm.
  destruct reply as [reply|].
  2: { split; [exists 0%nat, 0%nat; repeat split; lia|].
       split; [discriminate|]. split; [eauto|].
       intros _ _ Hne. contradiction. }
  destruct (ClientCalls.Call_loop Marshal_args Unmarshal_reply oob
              (Z.to_nat (maxRetries c + 1)) 0 None args
              (mkCall serviceMethod (Some reply) None 0) c pw net)
    as [[[[r call'] c'] pw'] net'] eqn:Hl.
  destruct (Call_loop_bounded _ _ _ _ _ _ _ _ _ _ _ _ _ Hl)
    as (k & added & K1 & K2 & K3 & K4 & K5 & K6 & K7).
  split.
  { exists k, added. split; [lia|]. split.
    - intros Hk. destruct (K2 Hk) as (-> & -> & ->). auto.
    - split; [exact K3|]. split; [exact K5|]. split; [exact K6|lia]. }
  split; [discriminate|]. split.
  { intros _ [He|He]; [contradiction|discriminate]. }
  intros _ _ _ Hneg.
  replace (Z.to_nat (maxRetries c + 1)) with 0%nat in Hl by lia.
  cbn [ClientCalls.Call_loop] in Hl. injection Hl as <- <- <- <- <-.
  repeat split.
Qed.

End Retries.

(** A client whose pool of one connection is all on lease, and a context
    that is never done. *)
Definition busy_client : Client (V := unit) :=
  mkClient (mkPool 10 1 [] 1 true true false) 41 ∅ false 2 100.

Definition patient : Net :=
  mkNet (fun _ => None) 0 (fun _ => None) (fun _ => None)
        (fun _ => Answered (EmptyString, Some (Sentinel io_EOF))) 0 [] [].

Definition marshal_unit (_ : unit) : string + jsonerr := inl "null".

Lemma Call_retries_when_pool_exhausted_witness :
  exists err c' net',
    Call_ marshal_unit ReceiveProps.keep_reply (fun _ => 0)
      "ArithService.Add" (Some tt) (Some tt) busy_client refusing patient
    = (Some err, Some tt, c', refusing, net')
    /\ err = call_failed (maxRetries busy_client)
               (Some (no_connection (Sentinel ErrPoolExhausted)))
    /\ Is err ErrNoConnection = true
    /\ Is err ErrPoolExhausted = false
    /\ seq_counter c'
       = wrap_u64 (seq_counter busy_client + (maxRetries busy_client + 1))
    /\ naps net' = naps patient
                   ++ backoffs (Z.to_nat (maxRetries busy_client)) 0
                        (retryDelay busy_client)
    /\ sent net' = sent patient
    /\ connPool c' = connPool busy_client.
Proof.
  apply (Call_retries_when_pool_exhausted marshal_unit ReceiveProps.keep_reply
           (fun _ => 0) "ArithService.Add" (Some tt) tt busy_client
           RetryProps.refusing patient).
  - reflexivity.
  - reflexivity.
  - simpl. lia.
  - unfold exhausted. simpl. repeat split; try reflexivity; lia.
  - intros k. reflexivity.
Defined.

End ClientCallProps.

(** ** Registering services *)

Module RegistrationProps.
Import Bytes Protocol GoErr Registry Registration.

Section Registered.
Context {V : Type}.
Variable Context_ : Type.
Variable unicode_IsUpper : N -> bool.

(** The methods that [register] keeps. *)
Definition suitable (m : reflectMethod (V := V) Context_) : Prop :=
  validateMethod Context_ unicode_IsUpper (m_Name Context_ m) m = None.

Lemma suitable_cache m : suitable m -> exists mt, cache Context_ m = Some mt.
Proof.
  unfold suitable, validateMethod, cache.
  destruct (negb (isExported unicode_IsUpper (m_Name Context_ m))); [discriminate|].
  destruct (m_In Context_ m) as [|t0 [|t1 [|t2 [|t3 [|t4 ts]]]]];
    try discriminate.
  intros _. eexists. reflexivity.
Qed.

Lemma extract_result ms : forall acc,
  exists methods,
    extract Context_ unicode_IsUpper ms acc = Some methods
    /\ (forall m, In m ms -> suitable m ->
        NoDup (map (m_Name Context_) ms) ->
        methods !! m_Name Context_ m = cache Context_ m)
    /\ (forall k, (forall m, In m ms -> suitable m -> m_Name Context_ m <> k) ->
        methods !! k = acc !! k).
Proof.
  induction ms as [|m ms IH]; intros acc.
  - exists acc. split; [reflexivity|]. split; [intros m []|auto].
  - cbn [extract].
    destruct (validateMethod Context_ unicode_IsUpper (m_Name Context_ m) m)
      as [err|] eqn:Hv.
    + destruct (IH acc) as (methods & H1 & H2 & H3).
      exists methods. split; [exact H1|]. split.
      * intros m' [<-|Hin] Hs Hnd.
        -- unfold suitable in Hs. congruence.
        -- apply H2; [exact Hin|exact Hs|].
           cbn [map] in Hnd. apply NoDup_cons in Hnd. apply Hnd.
      * intros k Hk. apply H3. intros m' Hin Hs. apply Hk; [right; exact Hin|exact Hs].
    + destruct (suitable_cache m Hv) as [mt Hmt]. rewrite Hmt.
      destruct (IH (<[m_Name Context_ m := mt]> acc)) as (methods & H1 & H2 & H3).
      exists methods. split; [exact H1|]. split.
      * intros m' [<-|Hin] Hs Hnd.
        -- cbn [map] in Hnd. apply NoDup_cons in Hnd. destruct Hnd as [Hni _].
           rewrite H3.
           ++ rewrite lookup_insert_eq. symmetry. exact Hmt.
           ++ intros m' Hin _ He. apply Hni. rewrite <- He.
              apply list_elem_of_In. apply in_map. exact Hin.
        -- apply H2; [exact Hin|exact Hs|].
           cbn [map] in Hnd. apply NoDup_cons in Hnd. apply Hnd.
      * intros k Hk. rewrite H3.
        -- apply lookup_insert_ne. apply Hk; [left; reflexivity|exact Hv].
        -- intros m' Hin Hs. apply Hk; [right; exact Hin|exact Hs].
Qed.

Lemma extract_keeps ms :
  forall (acc methods : gmap string (methodType V Context_)) k,
  extract Context_ unicode_IsUpper ms acc = Some methods ->
  is_Some (acc !! k) -> is_Some (methods !! k).
Proof.
  induction ms as [|m ms IH]; intros acc methods k; cbn [extract].
  - intros [= <-]. auto.
  - destruct (validateMethod _ _ _ m); [apply IH|].
    destruct (cache Context_ m) as [mt|]; [|discriminate].
    intros He Hk. apply (IH _ _ _ He).
    destruct (decide (m_Name Context_ m = k)) as [->|Hne].
    + rewrite lookup_insert_eq. eauto.
    + rewrite lookup_insert_ne by exact Hne. exact Hk.
Qed.

Lemma extract_has ms : forall acc methods m,
  extract Context_ unicode_IsUpper ms acc = Some methods ->
  In m ms -> suitable m -> is_Some (methods !! m_Name Context_ m).
Proof.
  induction ms as [|m0 ms IH]; intros acc methods m; cbn [extract]; [intros _ []|].
  intros He [<-|Hin] Hs.
  - unfold suitable in Hs. rewrite Hs in He.
    destruct (cache Context_ m0) as [mt|]; [|discriminate].
    apply (extract_keeps _ _ _ _ He). rewrite lookup_insert_eq. eauto.
  - destruct (validateMethod _ _ _ m0); [eapply IH; eauto|].
    destruct (cache Context_ m0) as [mt|]; [|discriminate].
    eapply IH; eauto.
Qed.

Lemma some_suitable ms :
  (exists m, In m ms /\ suitable m) \/ (forall m, In m ms -> ~ suitable m).
Proof.
  induction ms as [|m ms [(m' & Hin & Hs)|Hnot]].
  - right. intros m [].
  - left. exists m'. split; [right; exact Hin|exact Hs].
  - destruct (validateMethod Context_ unicode_IsUpper (m_Name Context_ m) m)
      as [err|] eqn:Hv.
    + right. intros m' [<-|Hin]; [unfold suitable; congruence|auto].
    + left. exists m. split; [left; reflexivity|exact Hv].
Qed.

(** The name under which [register] files the service. *)
Definition service_name (service : goService (V := V) Context_)
    (name : string) (useName : bool) : string :=
  if useName then name else typ_Name Context_ service.

(** [register] of a service value that is not nil never panics.  It
    accepts the service exactly when the service name is not empty, is exported unless it was given by the
    caller, is not registered yet, and the value has at least one method of
    the right shape; otherwise it leaves the registry as it was.  Once a
    service is registered, every registration under the same name is
    refused as already registered and changes nothing. *)
Theorem register_outcome (r : ServiceRegistry V Context_)
    (service : goService (V := V) Context_) (name : string) (useName : bool) :
  exists r' err,
    register Context_ unicode_IsUpper r service name useName = Some (r', err)
    /\ (err = None <->
        service_name service name useName <> ""
        /\ (useName = true
            \/ isExported unicode_IsUpper (service_name service name useName)
               = true)
        /\ services r !! service_name service name useName = None
        /\ exists m, In m (typ_Methods Context_ service) /\ suitable m)
    /\ (err <> None -> r' = r)
    /\ (err = None ->
        forall service2 name2 useName2,
          service_name service2 name2 useName2
          = service_name service name useName ->
          exists text,
            register Context_ unicode_IsUpper r' service2 name2 useName2
            = Some (r', Some (Opaque text))).
Proof.
  unfold register. fold (service_name service name useName).
  set (sname := service_name service name useName).
  destruct (String.eqb sname "") eqn:Hn.
  { apply String.eqb_eq in Hn. eexists. eexists. split; [reflexivity|].
    split; [|split; [reflexivity|discriminate]].
    split; [discriminate|]. intros (Hne & _). contradiction. }
  pose proof Hn as Hnb. apply String.eqb_neq in Hn.
  destruct (negb useName && negb (isExported unicode_IsUpper sname)) eqn:He.
  { eexists. eexists. split; [reflexivity|].
    split; [|split; [reflexivity|discriminate]].
    split; [discriminate|]. intros (_ & Hx & _).
    apply andb_true_iff in He as [H1 H2].
    apply negb_true_iff in H1, H2. destruct Hx; congruence. }
  destruct (services r !! sname) as [st|] eqn:Hl.
  { eexists. eexists. split; [reflexivity|].
    split; [|split; [reflexivity|discriminate]].
    split; [discriminate|]. intros (_ & _ & Hx & _). discriminate. }
  destruct (extract_result (typ_Methods Context_ service) ∅)
    as (methods & Hex & _ & Hnone).
  rewrite Hex.
  destruct (Nat.eqb (size methods) 0) eqn:Hs.
  { apply Nat.eqb_eq in Hs. apply map_size_empty_iff in Hs. subst methods.
    eexists. eexists. split; [reflexivity|].
    split; [|split; [reflexivity|discriminate]].
    split; [discriminate|]. intros (_ & _ & _ & m & Hin & Hm).
    destruct (extract_has _ _ _ m Hex Hin Hm) as [mt Hmt].
    rewrite lookup_empty in Hmt. discriminate. }
  apply Nat.eqb_neq in Hs.
  eexists. eexists. split; [reflexivity|].
  split; [|split; [congruence|]].
  - split; [|reflexivity]. intros _.
    split; [exact Hn|]. split.
    { apply andb_false_iff in He as [H1|H1]; apply negb_false_iff in H1; auto. }
    split; [reflexivity|].
    destruct (some_suitable (typ_Methods Context_ service)) as [Hsome|Hnot];
      [exact Hsome|].
    exfalso. apply Hs. apply map_size_empty_iff. apply map_eq. intros k.
    rewrite (Hnone k); [reflexivity|].
    intros m Hin Hm _. exact (Hnot m Hin Hm).
  - intros _ service2 name2 useName2 Hsame.
    fold (service_name service2 name2 useName2). rewrite Hsame. fold sname.
    rewrite Hnb. cbn [services]. rewrite lookup_insert_eq.
    destruct (negb useName2 && negb (isExported unicode_IsUpper sname));
      eexists; reflexivity.
Qed.

Lemma register_accepted (r r' : ServiceRegistry V Context_)
    (service : goService (V := V) Context_) (name : string) (useName : bool) :
  register Context_ unicode_IsUpper r service name useName = Some (r', None) ->
  exists methods,
    extract Context_ unicode_IsUpper (typ_Methods Context_ service) ∅
    = Some methods
    /\ r' = {| services :=
                 <[service_name service name useName :=
                     {| Registry.name := service_name service name useName;
                        rcvr := svc_value Context_ service;
                        methods := methods |}]> (services r) |}.
Proof.
  unfold register. fold (service_name service name useName).
  destruct (String.eqb _ ""); [discriminate|].
  destruct (negb useName && _); [discriminate|].
  destruct (services r !! _); [discriminate|].
  destruct (extract _ _ _ ∅) as [methods|]; [|discriminate].
  destruct (Nat.eqb (size methods) 0); [discriminate|].
  intros [= <-]. exists methods. split; reflexivity.
Qed.

(** What [Call] finds after [register] has accepted a service whose
    methods have distinct names, as the methods of a Go method set have.
    Under the service's name every method of the right shape is reached:
    the call runs the method's function on the registered receiver with the
    argument and reply types taken from its third and fourth parameter.
    Every other method name is answered with method not found, and so the
    methods that [validateMethod] turned down cannot be called.  Calls to
    services under other names go as they did before the registration. *)
Theorem Register_then_Call (r r' : ServiceRegistry V Context_)
    (service : goService (V := V) Context_) (name : string) (useName : bool)
    (ctx : Context_) (raw : RawMessage) :
  register Context_ unicode_IsUpper r service name useName = Some (r', None) ->
  NoDup (map (m_Name Context_) (typ_Methods Context_ service)) ->
  (forall m, In m (typ_Methods Context_ service) -> suitable m ->
     exists svc mt,
       rcvr svc = svc_value Context_ service
       /\ cache Context_ m = Some mt
       /\ Call r' ctx (service_name service name useName) (m_Name Context_ m) raw
          = call ctx svc mt raw)
  /\ (forall k,
        (forall m, In m (typ_Methods Context_ service) -> suitable m ->
                   m_Name Context_ m <> k) ->
        Call r' ctx (service_name service name useName) k raw
        = Fail (Rpc (NewMethodNotFoundError
                       (service_name service name useName +:+ "." +:+ k))))
  /\ (forall other k,
        other <> service_name service name useName ->
        Call r' ctx other k raw = Call r ctx other k raw).
Proof.
  intros Hreg Hnd.
  destruct (register_accepted _ _ _ _ _ Hreg) as (methods & Hex & ->).
  destruct (extract_result (typ_Methods Context_ service) ∅)
    as (methods' & Hex' & Hhas & Hnone).
  rewrite Hex in Hex'. injection Hex' as <-.
  unfold Call. cbn [services]. split; [|split].
  - intros m Hin Hm. rewrite lookup_insert_eq. cbn [Registry.methods].
    destruct (suitable_cache m Hm) as [mt Hmt].
    rewrite (Hhas m Hin Hm Hnd), Hmt.
    eexists. exists mt. split; [|split; [reflexivity|reflexivity]].
    reflexivity.
  - intros k Hk. rewrite lookup_insert_eq. cbn [Registry.methods].
    rewrite (Hnone k Hk), lookup_empty. reflexivity.
  - intros other k Hne. rewrite lookup_insert_ne by congruence. reflexivity.
Qed.

End Registered.

(** *** Registering the arithmetic service of the tests *)

Definition ascii_upper (c : N) : bool := ((65 <=? c) && (c <=? 90))%N.

Definition context_type : reflectType (V := RegistryProps.TestValue) :=
  {| Kind_is_Ptr := false; Implements_Context := true;
     is_error_interface := false; type_String := "context.Context";
     Elem_new := RegistryProps.TPanicArgs;
     Elem_unmarshal := fun _ v => inl v |}.

Definition error_type : reflectType (V := RegistryProps.TestValue) :=
  {| Kind_is_Ptr := false; Implements_Context := false;
     is_error_interface := true; type_String := "error";
     Elem_new := RegistryProps.TPanicArgs;
     Elem_unmarshal := fun _ v => inl v |}.

Definition int_type : reflectType (V := RegistryProps.TestValue) :=
  {| Kind_is_Ptr := false; Implements_Context := false;
     is_error_interface := false; type_String := "int";
     Elem_new := RegistryProps.TPanicArgs;
     Elem_unmarshal := fun _ v => inl v |}.

Definition receiver_type : reflectType (V := RegistryProps.TestValue) :=
  {| Kind_is_Ptr := true; Implements_Context := false;
     is_error_interface := false; type_String := "*rerpc.ArithService";
     Elem_new := RegistryProps.TArithService;
     Elem_unmarshal := fun _ v => inl v |}.

Definition ArithArgs_ptr : reflectType (V := RegistryProps.TestValue) :=
  {| Kind_is_Ptr := true; Implements_Context := false;
     is_error_interface := false; type_String := "*rerpc.ArithArgs";
     Elem_new := RegistryProps.TArithArgs 0 0;
     Elem_unmarshal :=
       RegistryProps.Unmarshal_into RegistryProps.store_ArithArgs_member |}.

Definition ArithReply_ptr : reflectType (V := RegistryProps.TestValue) :=
  {| Kind_is_Ptr := true; Implements_Context := false;
     is_error_interface := false; type_String := "*rerpc.ArithReply";
     Elem_new := RegistryProps.TArithReply 0;
     Elem_unmarshal := fun _ v => inl v |}.

Definition arith_method (mname : string)
    (f : RegistryProps.TestValue -> unit -> RegistryProps.TestValue
         -> RegistryProps.TestValue -> outcome RegistryProps.TestValue)
  : reflectMethod unit :=
  {| m_Name := mname;
     m_In := [receiver_type; context_type; ArithArgs_ptr; ArithReply_ptr];
     m_Out := [error_type];
     m_Func := f |}.

(** A method of the wrong shape: it takes the arguments by value and
    returns an int. *)
Definition Double_method : reflectMethod unit :=
  {| m_Name := "Double";
     m_In := [receiver_type; int_type];
     m_Out := [int_type];
     m_Func := fun _ _ _ reply => Returned reply None |}.

Definition ArithService : goService unit :=
  {| typ_String := "*rerpc.ArithService";
     typ_Name := "ArithService";
     svc_value := RegistryProps.TArithService;
     typ_Methods := [arith_method "Add" RegistryProps.Add;
                     arith_method "Divide" RegistryProps.Divide;
                     Double_method] |}.

Definition with_ArithService : ServiceRegistry RegistryProps.TestValue unit :=
  {| services :=
       <["ArithService" :=
           {| Registry.name := "ArithService";
              rcvr := RegistryProps.TArithService;
              methods := <["Divide" := RegistryProps.arith RegistryProps.Divide]>
                           (<["Add" := RegistryProps.arith RegistryProps.Add]> ∅) |}]>
         ∅ |}.

Lemma Register_then_Call_witness :
  (exists svc mt,
     rcvr svc = RegistryProps.TArithService
     /\ cache unit (arith_method "Add" RegistryProps.Add) = Some mt
     /\ Call with_ArithService tt "ArithService" "Add"
          (Some RegistryProps.args_10_0)
        = call tt svc mt (Some RegistryProps.args_10_0))
  /\ Call with_ArithService tt "ArithService" "Double"
       (Some RegistryProps.args_10_0)
     = Fail (Rpc (NewMethodNotFoundError "ArithService.Double")).
Proof.
  assert (Hreg : register unit ascii_upper (NewServiceRegistry unit)
                   ArithService "" false
                 = Some (with_ArithService, None)) by reflexivity.
  assert (Hnd : NoDup (map (m_Name unit) (typ_Methods unit ArithService))).
  { cbn. repeat (apply NoDup_cons; split;
      [intros H; apply list_elem_of_In in H; cbn in H; intuition discriminate|]).
    apply NoDup_nil_2. }
  split.
  - apply (proj1 (Register_then_Call unit ascii_upper (NewServiceRegistry unit)
                    with_ArithService ArithService "" false tt
                    (Some RegistryProps.args_10_0) Hreg Hnd)
             (arith_method "Add" RegistryProps.Add)).
    + left. reflexivity.
    + reflexivity.
  - apply (proj1 (proj2 (Register_then_Call unit ascii_upper (NewServiceRegistry unit)
                    with_ArithService ArithService "" false tt
                    (Some RegistryProps.args_10_0) Hreg Hnd)) "Double").
    intros m [<-|[<-|[<-|[]]]]; [discriminate|discriminate|].
    intros Hs. discriminate.
Defined.

End RegistrationProps.

(** ** One message, one line *)

Module Framing.
Import Bytes Json GoJson Protocol GoErr Wire Codec Server Connection.
Import ParseFacts TextFacts MarshalFacts.
#[local] Arguments String.append !_ _ / : simpl nomatch.

(** No byte of [s] is a newline. *)
Fixpoint unbroken (s : string) : bool :=
  match s with
  | EmptyString => true
  | String c r => negb (ch_eq c newline) && unbroken r
  end.

(** One line of the stream: bytes without a newline, then a newline. *)
Definition one_line (s : string) : Prop :=
  exists body, s = body +:+ String newline "" /\ unbroken body = true.

Lemma unbroken_app a b : unbroken (a +:+ b) = unbroken a && unbroken b.
Proof.
  induction a as [|c a IH]; [reflexivity|].
  rewrite append_cons. cbn [unbroken]. rewrite IH, andb_assoc. reflexivity.
Qed.

Lemma unbroken_quoted s : unbroken (quoted s) = unbroken s.
Proof.
  unfold quoted. cbn [unbroken]. rewrite unbroken_app. cbn.
  rewrite andb_true_r. reflexivity.
Qed.

Lemma unbroken_join parts :
  Forall (fun p => unbroken p = true) parts -> unbroken (join parts) = true.
Proof.
  induction 1 as [|p ps Hp Hps IH]; [reflexivity|].
  destruct ps as [|q ps]; [exact Hp|].
  change (join (p :: q :: ps)) with (p +:+ "," +:+ join (q :: ps)).
  rewrite !unbroken_app, Hp, IH. reflexivity.
Qed.

Lemma unbroken_escape_ascii c : unbroken (escape_ascii c) = true.
Proof. every_byte c; reflexivity. Qed.

Lemma unbroken_u202 c : unbroken (u202 c) = true.
Proof. every_byte c; reflexivity. Qed.

Lemma unbroken_u00 c : unbroken (u00 c) = true.
Proof. every_byte c; reflexivity. Qed.

Lemma high_no_newline c : high c = true -> negb (ch_eq c newline) = true.
Proof. every_byte c; intros H; try discriminate H; reflexivity. Qed.

Lemma unbroken_encode_body s : unbroken (encode_body s) = true.
Proof.
  induction s as [s IH] using string_length_ind.
  destruct s as [|c r]; [reflexivity|].
  cbn [encode_body].
  destruct (code c <? 128)%N eqn:Hc.
  { rewrite unbroken_app, unbroken_escape_ascii, IH by (simpl; lia). reflexivity. }
  apply not_ascii_high in Hc. apply high_no_newline in Hc.
  destruct r as [|c1 r1]; [reflexivity|].
  destruct (Utf8.lead2 c && Utf8.cont c1) eqn:H2.
  { apply andb_true_iff in H2 as [_ H2]. apply cont_high, high_no_newline in H2.
    cbn [unbroken]. rewrite Hc, H2, IH by (simpl; lia). reflexivity. }
  destruct r1 as [|c2 r2].
  { rewrite unbroken_app, IH by (simpl; lia). reflexivity. }
  destruct (Utf8.lead3 c c1 && Utf8.cont c2) eqn:H3.
  { apply andb_true_iff in H3 as [H3 H3']. apply lead3_high, high_no_newline in H3.
    apply cont_high, high_no_newline in H3'.
    destruct (Utf8.is_line_sep c c1 c2).
    - rewrite unbroken_app, unbroken_u202, IH by (simpl; lia). reflexivity.
    - cbn [unbroken]. rewrite Hc, H3, H3', IH by (simpl; lia). reflexivity. }
  destruct r2 as [|c3 r3].
  { rewrite unbroken_app, IH by (simpl; lia). reflexivity. }
  destruct (Utf8.lead4 c c1 && Utf8.cont c2 && Utf8.cont c3) eqn:H4.
  { apply andb_true_iff in H4 as [H4 H4c]. apply andb_true_iff in H4 as [H4 H4b].
    apply lead4_high, high_no_newline in H4.
    apply cont_high, high_no_newline in H4b.
    apply cont_high, high_no_newline in H4c.
    cbn [unbroken]. rewrite Hc, H4, H4b, H4c, IH by (simpl; lia). reflexivity. }
  rewrite unbroken_app, IH by (simpl; lia). reflexivity.
Qed.

Lemma unbroken_encode_string s : unbroken (encode_string s) = true.
Proof. unfold encode_string. rewrite unbroken_quoted. apply unbroken_encode_body. Qed.

(** *** Numbers *)

Lemma unbroken_string_of_uint d : unbroken (NilZero.string_of_uint d) = true.
Proof.
  unfold NilZero.string_of_uint. destruct d; try reflexivity;
    cbn [NilEmpty.string_of_uint unbroken]; simpl;
    match goal with |- unbroken (NilEmpty.string_of_uint ?d) = true =>
      induction d; simpl; auto end.
Qed.

Lemma unbroken_string_of_Z z : unbroken (Float64.string_of_Z z) = true.
Proof.
  unfold Float64.string_of_Z, NilZero.string_of_int.
  destruct (Z.to_int z) as [d|d]; [apply unbroken_string_of_uint|].
  cbn [unbroken]. rewrite unbroken_string_of_uint. reflexivity.
Qed.

Lemma unbroken_take n : forall s, unbroken s = true -> unbroken (take n s) = true.
Proof.
  induction n as [|n IH]; intros [|c r]; try reflexivity.
  cbn [take unbroken]. intros H. apply andb_true_iff in H as [H1 H2].
  rewrite H1, IH by exact H2. reflexivity.
Qed.

Lemma unbroken_drop n : forall s, unbroken s = true -> unbroken (drop n s) = true.
Proof.
  induction n as [|n IH]; intros [|c r]; try (intros H; exact H).
  cbn [drop unbroken]. intros H. apply andb_true_iff in H as [H1 H2].
  apply IH. exact H2.
Qed.

Lemma unbroken_zeros n : unbroken (Float64.zeros n) = true.
Proof. induction n; [reflexivity|exact IHn]. Qed.

Definition clean (l : list ascii) : bool :=
  forallb (fun c => negb (ch_eq c newline)) l.

Lemma unbroken_clean s : unbroken s = clean (list_ascii_of_string s).
Proof. induction s as [|c s IH]; [reflexivity|]. simpl. rewrite IH. reflexivity. Qed.

Lemma clean_rev l : clean (rev l) = clean l.
Proof.
  unfold clean. induction l as [|c l IH]; [reflexivity|].
  simpl. rewrite forallb_app, IH. simpl. rewrite andb_true_r, andb_comm. reflexivity.
Qed.

Lemma clean_strip l : clean l = true -> clean (Float64.strip_zeros_rev l) = true.
Proof.
  induction l as [|c l IH]; [reflexivity|]. intros H. simpl.
  destruct (ch_eq c "0"); [|exact H].
  apply IH. simpl in H. apply andb_true_iff in H. apply H.
Qed.

Lemma unbroken_strip s :
  unbroken s = true -> unbroken (Float64.strip_trailing_zeros s) = true.
Proof.
  intros H. unfold Float64.strip_trailing_zeros.
  rewrite unbroken_clean, list_ascii_of_string_of_list_ascii, clean_rev.
  apply clean_strip. rewrite clean_rev, <- unbroken_clean. exact H.
Qed.

Lemma unbroken_format_e ds k :
  unbroken ds = true -> unbroken (Float64.format_e ds k) = true.
Proof.
  intros H. unfold Float64.format_e. rewrite unbroken_app.
  apply andb_true_iff. split.
  - destruct ds as [|c [|c' r]]; exact H.
  - destruct (_ <? 0)%Z.
    + rewrite unbroken_app, unbroken_string_of_Z. reflexivity.
    + rewrite !unbroken_app, unbroken_string_of_Z.
      destruct (_ <? 10)%Z; reflexivity.
Qed.

Lemma unbroken_format_f ds k :
  unbroken ds = true -> unbroken (Float64.format_f ds k) = true.
Proof.
  intros H. unfold Float64.format_f.
  destruct (_ <=? 0)%Z.
  { rewrite !unbroken_app, unbroken_zeros, H. reflexivity. }
  destruct (_ <=? k)%Z.
  { rewrite unbroken_app, unbroken_zeros, H. reflexivity. }
  rewrite !unbroken_app, unbroken_take, unbroken_drop by exact H. reflexivity.
Qed.

Lemma unbroken_FormatFloat f t :
  Float64.FormatFloat f = Some t -> unbroken t = true.
Proof.
  unfold Float64.FormatFloat.
  destruct f as [s|s| |s m e]; try discriminate.
  - intros [= <-]. destruct s; reflexivity.
  - destruct (Float64.shortest m e) as [[d k] n].
    match goal with
    | |- context [if ?b then Float64.format_e _ _ else _] => generalize b
    end.
    intros b [= <-].
    rewrite unbroken_app. apply andb_true_iff. split; [destruct s; reflexivity|].
    destruct b; [apply unbroken_format_e|apply unbroken_format_f];
      apply unbroken_strip, unbroken_string_of_Z.
Qed.

(** *** Marshalled values *)

Lemma GoValue_ind_nested (P : GoValue -> Prop) :
  P VNil ->
  (forall b, P (VBool b)) ->
  (forall f, P (VFloat64 f)) ->
  (forall s, P (VString s)) ->
  (forall l, Forall P l -> P (VSlice l)) ->
  (forall m, Forall (fun kv : string * GoValue => P (snd kv)) m -> P (VMap m)) ->
  (forall n, P (VUint64 n)) ->
  forall v, P v.
Proof.
  intros HNil HBool HFloat HStr HSlice HMap HUint.
  fix IH 1. intros [ |b|f|s|l|m|n].
  - exact HNil.
  - apply HBool.
  - apply HFloat.
  - apply HStr.
  - apply HSlice. revert l. fix IHl 1. intros [|x l].
    + constructor.
    + constructor; [apply IH|apply IHl].
  - apply HMap. revert m. fix IHl 1. intros [|x l].
    + constructor.
    + constructor; [apply IH|apply IHl].
  - apply HUint.
Qed.

Lemma sequence_unbroken {A : Type} (f : A -> option string) (l : list A) :
  Forall (fun x => forall t, f x = Some t -> unbroken t = true) l ->
  forall parts, sequence (map f l) = Some parts ->
  Forall (fun p => unbroken p = true) parts.
Proof.
  induction 1 as [|x l Hx _ IH]; simpl; intros parts.
  - intros [= <-]. constructor.
  - destruct (f x) as [t|] eqn:Ht; [|discriminate].
    destruct (sequence (map f l)) as [ps|]; [|discriminate].
    intros [= <-]. constructor; [apply Hx; reflexivity|apply IH; reflexivity].
Qed.

Lemma unbroken_marshal v : forall t, marshal v = Some t -> unbroken t = true.
Proof.
  induction v as [ |b|f|s|l IH|m IH|n] using GoValue_ind_nested; intros t;
    cbn [marshal].
  - intros [= <-]. reflexivity.
  - destruct b; intros [= <-]; reflexivity.
  - apply unbroken_FormatFloat.
  - intros [= <-]. apply unbroken_encode_string.
  - destruct (sequence (map marshal l)) as [parts|] eqn:Hs; [|discriminate].
    intros [= <-]. cbn [unbroken]. rewrite !unbroken_app.
    rewrite (unbroken_join parts (sequence_unbroken _ _ IH _ Hs)). reflexivity.
  - destruct (sequence _) as [parts|] eqn:Hs; [|discriminate].
    intros [= <-]. cbn [unbroken]. rewrite !unbroken_app.
    rewrite (unbroken_join parts); [reflexivity|].
    refine (sequence_unbroken _ _ _ _ Hs).
    eapply Forall_impl; [exact IH|].
    intros [k v] Hv t. cbn [fst snd] in *.
    destruct (marshal v) as [tv|]; [|discriminate].
    cbn [prepend]. intros H. apply (inj Some) in H. subst t.
    rewrite !unbroken_app, unbroken_encode_string.
    apply Hv. reflexivity.
  - intros [= <-]. apply unbroken_string_of_Z.
Qed.

(** *** Compacted payloads *)

Lemma unbroken_scan_string s : forall body rest,
  scan_string s = Some (body, rest) -> unbroken body = true.
Proof.
  induction s as [s IH] using string_length_ind. intros body rest.
  destruct s as [|c r]; [discriminate|]. cbn [scan_string].
  destruct (ch_eq c dquote); [intros [= <- <-]; reflexivity|].
  destruct (ch_eq c backslash) eqn:Hb.
  { apply Ascii.eqb_eq in Hb. subst c.
    destruct r as [|e r1]; [discriminate|].
    destruct (simple_escape e) eqn:He.
    { destruct (scan_string r1) as [[b' r']|] eqn:Hs; [|discriminate].
      intros [= <- <-]. cbn [unbroken].
      rewrite (IH r1 ltac:(simpl; lia) _ _ Hs).
      revert He. every_byte e; intros He; try discriminate He; reflexivity. }
    destruct (ch_eq e "u") eqn:Hu; [|discriminate].
    apply Ascii.eqb_eq in Hu. subst e.
    destruct r1 as [|h1 [|h2 [|h3 [|h4 r5]]]]; try discriminate.
    destruct (is_hex h1 && is_hex h2 && is_hex h3 && is_hex h4) eqn:Hh;
      [|discriminate].
    destruct (scan_string r5) as [[b' r']|] eqn:Hs; [|discriminate].
    intros [= <- <-]. cbn [unbroken].
    rewrite (IH r5 ltac:(simpl; lia) _ _ Hs).
    apply andb_true_iff in Hh as [Hh H4]. apply andb_true_iff in Hh as [Hh H3].
    apply andb_true_iff in Hh as [H1 H2].
    assert (Hx : forall h, is_hex h = true -> negb (ch_eq h newline) = true).
    { intros h. every_byte h; intros H; try discriminate H; reflexivity. }
    rewrite (Hx _ H1), (Hx _ H2), (Hx _ H3), (Hx _ H4). reflexivity. }
  destruct (code c <? 32)%N eqn:Hc; [discriminate|].
  destruct (scan_string r) as [[b' r']|] eqn:Hs; [|discriminate].
  intros [= <- <-]. cbn [unbroken].
  rewrite (IH r ltac:(simpl; lia) _ _ Hs), andb_true_r.
  revert Hc. every_byte c; intros Hc; try discriminate Hc; reflexivity.
Qed.

Lemma unbroken_escape_raw s : unbroken s = true -> unbroken (escape_raw s) = true.
Proof.
  induction s as [s IH] using string_length_ind.
  destruct s as [|c r]; [reflexivity|]. cbn [escape_raw unbroken].
  intros H. apply andb_true_iff in H as [Hc Hr].
  destruct (_ || _)%bool.
  { rewrite unbroken_app, unbroken_u00. apply IH; [simpl; lia|exact Hr]. }
  assert (Hplain : unbroken (String c (escape_raw r)) = true).
  { cbn [unbroken]. rewrite Hc. apply IH; [simpl; lia|exact Hr]. }
  destruct r as [|c1 [|c2 r2]]; try exact Hplain.
  destruct (Utf8.is_line_sep c c1 c2); [|exact Hplain].
  rewrite unbroken_app, unbroken_u202. apply IH; [simpl; lia|].
  cbn [unbroken] in Hr. apply andb_true_iff in Hr as [_ Hr].
  apply andb_true_iff in Hr as [_ Hr]. exact Hr.
Qed.

Lemma num_step_no_newline st c st' :
  num_step st c = Some st' -> negb (ch_eq c newline) = true.
Proof.
  destruct (ch_eq c newline) eqn:Hc; [|reflexivity].
  apply Ascii.eqb_eq in Hc. subst c. destruct st; discriminate.
Qed.

Lemma unbroken_scan_num s : forall st lit rest,
  scan_num st s = Some (lit, rest) -> unbroken lit = true.
Proof.
  induction s as [|c r IH]; intros st lit rest; cbn [scan_num].
  - destruct (num_accepting st); [intros [= <- <-]; reflexivity|discriminate].
  - destruct (num_step st c) as [st'|] eqn:Hst.
    + destruct (scan_num st' r) as [[l' r']|] eqn:Hs; [|discriminate].
      intros [= <- <-]. cbn [unbroken].
      rewrite (num_step_no_newline _ _ _ Hst). exact (IH _ _ _ Hs).
    + destruct (num_accepting st); [intros [= <- <-]; reflexivity|discriminate].
Qed.

Lemma unbroken_scan_number s lit rest :
  scan_number s = Some (lit, rest) -> unbroken lit = true.
Proof.
  destruct s as [|c r]; [discriminate|]. cbn [scan_number].
  destruct (ch_eq c "-") eqn:H1.
  { apply Ascii.eqb_eq in H1. subst c.
    destruct (scan_num NNeg r) as [[l' r']|] eqn:Hs; [|discriminate].
    intros [= <- <-]. exact (unbroken_scan_num _ _ _ _ Hs). }
  destruct (ch_eq c "0") eqn:H2.
  { apply Ascii.eqb_eq in H2. subst c.
    destruct (scan_num NZero r) as [[l' r']|] eqn:Hs; [|discriminate].
    intros [= <- <-]. exact (unbroken_scan_num _ _ _ _ Hs). }
  destruct (is_digit19 c) eqn:H3; [|discriminate].
  destruct (scan_num NInt r) as [[l' r']|] eqn:Hs; [|discriminate].
  intros [= <- <-]. cbn [unbroken]. rewrite (unbroken_scan_num _ _ _ _ Hs).
  revert H3. every_byte c; intros H3; try discriminate H3; reflexivity.
Qed.

(** A parsed value whose literals and string bodies have no newline. *)
Fixpoint tidy (v : Json.value) : bool :=
  match v with
  | Number lit => unbroken lit
  | Str body => unbroken body
  | Array elems => forallb tidy elems
  | Object members =>
    forallb (fun m : string * string * Json.value =>
               unbroken (fst (fst m)) && tidy (snd m)) members
  | _ => true
  end.

Definition tidy_member (m : string * string * Json.value) : bool :=
  unbroken (fst (fst m)) && tidy (snd m).

Lemma expect_tidy lit v s v' r :
  tidy v = true -> expect lit v s = Some (v', r) -> tidy v' = true.
Proof.
  intros Hv. unfold expect. destruct (starts_with lit s); [|discriminate].
  intros H. apply (inj Some) in H. injection H as <- _. exact Hv.
Qed.

Lemma parse_tidy f :
  (forall d s v r, parse_value f d s = Some (v, r) -> tidy v = true)
  /\ (forall d s vs r, parse_elems f d s = Some (vs, r) -> forallb tidy vs = true)
  /\ (forall d s ms r,
        parse_members f d s = Some (ms, r) -> forallb tidy_member ms = true).
Proof.
  induction f as [|f (IHv & IHe & IHm)].
  - repeat split; intros; discriminate.
  - split; [|split].
    + intros d s v r H. destruct s as [|c r0]; [discriminate|].
      cbn [parse_value] in H.
      destruct (ch_eq c "{").
      { destruct d as [|d]; [discriminate|].
        destruct (skip_ws r0) as [|c' r'] eqn:Hws; [discriminate|].
        destruct (ch_eq c' "}"); [injection H as <- _; reflexivity|].
        destruct (parse_members f d (String c' r')) as [[ms rest]|] eqn:E;
          [|discriminate].
        injection H as <- _. exact (IHm _ _ _ _ E). }
      destruct (ch_eq c "[").
      { destruct d as [|d]; [discriminate|].
        destruct (skip_ws r0) as [|c' r'] eqn:Hws; [discriminate|].
        destruct (ch_eq c' "]"); [injection H as <- _; reflexivity|].
        destruct (parse_elems f d (String c' r')) as [[vs rest]|] eqn:E;
          [|discriminate].
        injection H as <- _. exact (IHe _ _ _ _ E). }
      destruct (ch_eq c dquote).
      { destruct (scan_string r0) as [[body rest]|] eqn:E; [|discriminate].
        injection H as <- _. exact (unbroken_scan_string _ _ _ E). }
      destruct (ch_eq c "t"); [exact (expect_tidy _ (Bool true) _ _ _ eq_refl H)|].
      destruct (ch_eq c "f"); [exact (expect_tidy _ (Bool false) _ _ _ eq_refl H)|].
      destruct (ch_eq c "n"); [exact (expect_tidy _ Null _ _ _ eq_refl H)|].
      destruct (scan_number (String c r0)) as [[lit rest]|] eqn:E; [|discriminate].
      injection H as <- _. exact (unbroken_scan_number _ _ _ E).
    + intros d s vs r H. cbn [parse_elems] in H.
      destruct (parse_value f d s) as [[v r1]|] eqn:E; [|discriminate].
      apply IHv in E.
      destruct (skip_ws r1) as [|c r'] eqn:Hws; [discriminate|].
      destruct (ch_eq c ",").
      * destruct (parse_elems f d (skip_ws r')) as [[vs' rest]|] eqn:E2;
          [|discriminate].
        injection H as <- _. cbn [forallb]. rewrite E. exact (IHe _ _ _ _ E2).
      * destruct (ch_eq c "]"); [|discriminate].
        injection H as <- _. cbn [forallb]. rewrite E. reflexivity.
    + intros d s ms r H. destruct s as [|q r0]; [discriminate|].
      cbn [parse_members] in H.
      destruct (ch_eq q dquote); [|discriminate].
      destruct (scan_string r0) as [[key r1]|] eqn:Ek; [|discriminate].
      apply unbroken_scan_string in Ek.
      destruct (skip_ws r1) as [|colon r2] eqn:Hws1; [discriminate|].
      destruct (ch_eq colon ":"); [|discriminate].
      cbv zeta in H.
      destruct (parse_value f d (skip_ws r2)) as [[v r4]|] eqn:Ev; [|discriminate].
      apply IHv in Ev.
      destruct (skip_ws r4) as [|c r5] eqn:Hws3; [discriminate|].
      destruct (ch_eq c ",").
      * destruct (parse_members f d (skip_ws r5)) as [[ms' rest]|] eqn:E2;
          [|discriminate].
        injection H as <- _. cbn [forallb]. unfold tidy_member at 1.
        cbn [fst snd]. rewrite Ek, Ev. exact (IHm _ _ _ _ E2).
      * destruct (ch_eq c "}"); [|discriminate].
        injection H as <- _. cbn [forallb]. unfold tidy_member.
        cbn [fst snd]. rewrite Ek, Ev. reflexivity.
Qed.

Lemma parse_is_tidy s v : Json.parse s = Some v -> tidy v = true.
Proof.
  unfold Json.parse, parse_at.
  destruct (parse_value _ _ _) as [[v' rest]|] eqn:E; [|discriminate].
  destruct (skip_ws rest); [|discriminate].
  intros [= <-]. exact (proj1 (parse_tidy _) _ _ _ _ E).
Qed.

Lemma unbroken_cprint v : tidy v = true -> unbroken (cprint v) = true.
Proof.
  induction v as [ |b|lit|body|elems IH|ms IH] using value_ind_nested;
    cbn [tidy cprint]; intros H.
  - reflexivity.
  - destruct b; reflexivity.
  - exact H.
  - rewrite unbroken_quoted. apply unbroken_escape_raw. exact H.
  - cbn [unbroken]. rewrite !unbroken_app, unbroken_join; [reflexivity|].
    apply Forall_map. rewrite forallb_forall in H.
    rewrite Forall_forall in IH |- *. intros x Hx.
    apply IH; [exact Hx|]. apply H. apply list_elem_of_In. exact Hx.
  - cbn [unbroken]. rewrite !unbroken_app, unbroken_join; [reflexivity|].
    apply Forall_map. rewrite forallb_forall in H.
    rewrite Forall_forall in IH |- *. intros x Hx.
    pose proof Hx as Hx'. apply list_elem_of_In in Hx'.
    apply H in Hx'. apply andb_true_iff in Hx' as [Hk Hv].
    cbn beta. rewrite !unbroken_app, unbroken_quoted.
    rewrite unbroken_escape_raw by exact Hk. rewrite (IH x Hx Hv). reflexivity.
Qed.

Lemma unbroken_compact raw c : compact raw = Some c -> unbroken c = true.
Proof.
  unfold compact. destruct (Json.parse raw) as [v|] eqn:Hp; [|discriminate].
  intros H. apply (inj Some) in H. subst c.
  apply unbroken_cprint. exact (parse_is_tidy _ _ Hp).
Qed.

(** *** Messages *)

Definition unbroken_all (parts : list string) : Prop :=
  Forall (fun p => unbroken p = true) parts.

Lemma unbroken_member name text :
  unbroken name = true -> unbroken text = true ->
  unbroken (member name text) = true.
Proof.
  intros Hn Ht. unfold member.
  rewrite !unbroken_app, unbroken_quoted, Hn, Ht. reflexivity.
Qed.

Lemma unbroken_raw_member name r parts :
  unbroken name = true -> raw_member name r = inl parts -> unbroken_all parts.
Proof.
  intros Hn. unfold raw_member.
  destruct r as [[|c raw]|]; try (intros [= <-]; constructor).
  destruct (compact (String c raw)) as [t|] eqn:Hc; [|discriminate].
  intros H. apply (inj inl) in H. subst. constructor; [|constructor].
  apply unbroken_member; [exact Hn|exact (unbroken_compact _ _ Hc)].
Qed.

Lemma unbroken_interface_member name v parts :
  unbroken name = true -> interface_member name v = inl parts ->
  unbroken_all parts.
Proof.
  intros Hn. unfold interface_member.
  destruct (marshal v) as [t|] eqn:Hm; [|discriminate].
  intros H. apply (inj inl) in H. subst. constructor; [|constructor].
  apply unbroken_member; [exact Hn|exact (unbroken_marshal _ _ Hm)].
Qed.

Lemma unbroken_object parts :
  unbroken_all parts -> unbroken ("{" +:+ join parts +:+ "}") = true.
Proof.
  intros H. cbn [unbroken String.append]. rewrite unbroken_app.
  rewrite (unbroken_join _ H). reflexivity.
Qed.

Lemma unbroken_Marshal_Error e text :
  Marshal_Error e = inl text -> unbroken text = true.
Proof.
  unfold Marshal_Error.
  match goal with
  | |- match ?x with _ => _ end = _ -> _ =>
    assert (Hdata : forall data, x = inl data -> unbroken_all data);
      [|destruct x as [data|err]; [|discriminate]]
  end.
  { intros data. destruct (Data e);
      try exact (unbroken_interface_member "data" _ _ eq_refl);
      intros H; apply (inj inl) in H; subst; constructor. }
  intros H. apply (inj inl) in H. subst. apply unbroken_object.
  constructor; [|constructor; [|exact (Hdata data eq_refl)]].
  - apply unbroken_member; [reflexivity|apply unbroken_string_of_Z].
  - apply unbroken_member; [reflexivity|apply unbroken_encode_string].
Qed.

Lemma unbroken_all_app a b :
  unbroken_all a -> unbroken_all b -> unbroken_all (a ++ b).
Proof. apply Forall_app_2. Qed.

Lemma unbroken_Marshal_Request r text :
  Marshal_Request r = inl text -> unbroken text = true.
Proof.
  unfold Marshal_Request.
  destruct (raw_member "params" (req_Params r)) as [params|err] eqn:Hp;
    [|discriminate].
  destruct (interface_member "id" (req_ID r)) as [id|err] eqn:Hi; [|discriminate].
  intros H. apply (inj inl) in H. subst. apply unbroken_object.
  constructor; [|constructor; [|apply unbroken_all_app]].
  - apply unbroken_member; [reflexivity|apply unbroken_encode_string].
  - apply unbroken_member; [reflexivity|apply unbroken_encode_string].
  - exact (unbroken_raw_member "params" _ _ eq_refl Hp).
  - exact (unbroken_interface_member "id" _ _ eq_refl Hi).
Qed.

Lemma unbroken_Marshal_Response r text :
  Marshal_Response r = inl text -> unbroken text = true.
Proof.
  unfold Marshal_Response.
  destruct (raw_member "result" (resp_Result r)) as [result|err] eqn:Hr.
  2: { repeat match goal with
              | |- match ?x with _ => _ end = _ -> _ => destruct x
              end; discriminate. }
  match goal with
  | |- match ?x with _ => _ end = _ -> _ =>
    assert (Herr : forall parts, x = inl parts -> unbroken_all parts);
      [|destruct x as [error|err]; [|discriminate]]
  end.
  { intros parts. destruct (resp_Error r) as [e|].
    - destruct (Marshal_Error e) as [t|] eqn:He; [|discriminate].
      intros H. apply (inj inl) in H. subst. constructor; [|constructor].
      apply unbroken_member; [reflexivity|exact (unbroken_Marshal_Error _ _ He)].
    - intros H. apply (inj inl) in H. subst. constructor. }
  destruct (interface_member "id" (resp_ID r)) as [id|err] eqn:Hi; [|discriminate].
  intros H. apply (inj inl) in H. subst. apply unbroken_object.
  constructor; [|apply unbroken_all_app; [|apply unbroken_all_app]].
  - apply unbroken_member; [reflexivity|apply unbroken_encode_string].
  - exact (unbroken_raw_member "result" _ _ eq_refl Hr).
  - exact (Herr error eq_refl).
  - exact (unbroken_interface_member "id" _ _ eq_refl Hi).
Qed.

Lemma with_newline_one_line r data :
  (forall text, r = inl text -> unbroken text = true) ->
  with_newline r = inl data -> one_line data.
Proof.
  intros Hr. unfold with_newline. destruct r as [text|err]; [|discriminate].
  intros H. apply (inj inl) in H. subst. exists text. split; [reflexivity|].
  apply Hr. reflexivity.
Qed.

Lemma Ok_inj {A : Type} (x y : A) : Ok x = Ok y -> x = y.
Proof. intros H. injection H as H. exact H. Qed.

Lemma EncodeRequest_one_line req data :
  snd (EncodeRequest req) = Ok data -> one_line data.
Proof.
  unfold EncodeRequest. destruct req as [req|]; [|discriminate].
  destruct (String.eqb (req_Method req) ""); [discriminate|].
  cbv zeta.
  destruct (Encode_Request _) as [text|err] eqn:He; [|discriminate].
  cbn [snd]. intros H. apply Ok_inj in H. subst.
  apply (with_newline_one_line _ _ (unbroken_Marshal_Request _) He).
Qed.

Lemma EncodeResponse_one_line resp data :
  snd (EncodeResponse resp) = Ok data -> one_line data.
Proof.
  unfold EncodeResponse. destruct resp as [resp|]; [|discriminate].
  cbv zeta.
  match goal with
  | |- context [Encode_Response ?r] =>
    generalize (with_newline_one_line _ data (unbroken_Marshal_Response r));
    fold (Encode_Response r);
    destruct (resp_Result r), (resp_Error r); try discriminate;
    destruct (Encode_Response r) as [text|err]; try discriminate;
    cbn [snd]; intros Hl H; apply Ok_inj in H; subst; apply Hl; reflexivity
  end.
Qed.

(** *** Reading lines *)

Lemma ReadBytes_line body : forall rest,
  unbroken body = true ->
  ReadBytes ((body +:+ String newline "") +:+ rest)
  = Some (body +:+ String newline "", rest).
Proof.
  induction body as [|c body IH]; intros rest H; [reflexivity|].
  cbn [unbroken] in H. apply andb_true_iff in H as [Hc Hb].
  rewrite !append_cons. cbn [ReadBytes].
  apply negb_true_iff in Hc. rewrite Hc, (IH rest Hb). reflexivity.
Qed.

Lemma ReadBytes_one_line line rest :
  one_line line -> ReadBytes (line +:+ rest) = Some (line, rest).
Proof. intros (body & -> & Hb). apply ReadBytes_line. exact Hb. Qed.

Lemma ReadBytes_unbroken tail : unbroken tail = true -> ReadBytes tail = None.
Proof.
  induction tail as [|c tail IH]; [reflexivity|].
  cbn [unbroken ReadBytes]. intros H. apply andb_true_iff in H as [Hc Ht].
  apply negb_true_iff in Hc. rewrite Hc, (IH Ht). reflexivity.
Qed.

Lemma ReadBytes_split s : forall line rest,
  ReadBytes s = Some (line, rest) -> one_line line /\ s = line +:+ rest.
Proof.
  induction s as [|c s IH]; intros line rest; [discriminate|].
  cbn [ReadBytes]. destruct (ch_eq c newline) eqn:Hc.
  - apply Ascii.eqb_eq in Hc. subst c. intros [= <- <-].
    split; [exists EmptyString; split; reflexivity|reflexivity].
  - destruct (ReadBytes s) as [[l r]|]; [|discriminate].
    intros [= <- <-]. destruct (IH l r eq_refl) as ((body & -> & Hb) & ->).
    split; [|reflexivity].
    exists (String c body). split; [reflexivity|].
    cbn [unbroken]. rewrite Hc, Hb. reflexivity.
Qed.

(** The stream in which [tail] follows the lines. *)
Fixpoint stream (lines : list string) (tail : string) : string :=
  match lines with
  | [] => tail
  | line :: lines => line +:+ stream lines tail
  end.

Lemma one_line_length line : one_line line -> (1 <= String.length line)%nat.
Proof. intros (body & -> & _). rewrite length_append. simpl. lia. Qed.

Lemma stream_length lines tail :
  Forall one_line lines ->
  (length lines <= String.length (stream lines tail))%nat.
Proof.
  induction 1 as [|line lines Hl _ IH]; cbn [stream length]; [lia|].
  rewrite length_append. apply one_line_length in Hl. lia.
Qed.

(** The number of turns of the loop of [handleConn], from the k-th on,
    that deliver their response when [n] lines are still to come: the loop
    ends at the first turn that finds the server shut down or whose [Write]
    or [Flush] fails. *)
Fixpoint turns (l : Link) (k n : nat) : nat :=
  match n with
  | O => O
  | S n =>
    if shutdown_at l k || write_fails l k || flush_fails l k then O
    else S (turns l (S k) n)
  end.

Section Lines.
Context {V : Type}.
Variable Context_ : Type.
Variable Background : Context_.
Variable Marshal_reply : V -> string + jsonerr.
Variable fmt_v : GoValue -> string.

Lemma processRequest_one_line (s : Server Context_) (data : string) :
  exists bytes,
    processRequest Context_ Background Marshal_reply fmt_v s data = Some bytes
    /\ one_line bytes.
Proof.
  assert (Herr : forall id e text,
            marshals id -> Data e = VString text ->
            one_line (encodeErrorResponse fmt_v id e)).
  { intros id e text Hid He.
    destruct (ServerAnswers.error_answer fmt_v id e text Hid He) as (resp & H & _).
    exact (EncodeResponse_one_line _ _ H). }
  unfold processRequest.
  destruct (DecodeRequest data) as [req|e] eqn:Hdec.
  - pose proof (DecodeRequest_id_marshals data req Hdec) as Hid.
    destruct (parseMethod (req_Method req)) as [[sn mn]|perr].
    + destruct (Registry.Call (registry Context_ s) Background sn mn (req_Params req))
        as [reply|cerr] eqn:Hcall.
      * destruct (ServerAnswers.success_answer Marshal_reply fmt_v (req_ID req)
                    reply Hid) as (resp & H & _).
        eexists. split; [reflexivity|]. exact (EncodeResponse_one_line _ _ H).
      * destruct (ServerAnswers.Call_fail_data _ _ _ _ _ _ Hcall)
          as (rpc & text & -> & Hd).
        eexists. split; [reflexivity|]. exact (Herr _ _ _ Hid Hd).
    + eexists. split; [reflexivity|].
      exact (Herr _ (NewMethodNotFoundError (req_Method req)) _ Hid eq_refl).
  - destruct (ServerAnswers.DecodeRequest_fail_data data e Hdec)
      as (r & text & -> & Hd).
    eexists. split; [reflexivity|].
    exact (Herr _ _ _ ServerAnswers.marshals_VNil Hd).
Qed.

(** Every message that the codec encodes, and every answer of
    [processRequest], is one line: it ends with a newline and has no other
    newline in it, whatever the strings, the payload and the identifier
    are.  [ReadBytes] therefore takes such a message off the front of a
    stream as it was written, whatever follows. *)
Theorem messages_are_single_lines (s : Server Context_) :
  (forall req data, snd (EncodeRequest req) = Ok data -> one_line data)
  /\ (forall resp data, snd (EncodeResponse resp) = Ok data -> one_line data)
  /\ (forall data,
        exists bytes,
          processRequest Context_ Background Marshal_reply fmt_v s data
          = Some bytes
          /\ one_line bytes)
  /\ (forall line rest,
        one_line line -> ReadBytes (line +:+ rest) = Some (line, rest)).
Proof.
  split; [exact EncodeRequest_one_line|].
  split; [exact EncodeResponse_one_line|].
  split; [exact (processRequest_one_line s)|exact ReadBytes_one_line].
Qed.

Lemma handleConn_loop_lines (s : Server Context_) (l : Link) (tail : string) :
  unbroken tail = true ->
  forall lines, Forall one_line lines ->
  exists answers,
    Forall2 (fun line answer =>
               processRequest Context_ Background Marshal_reply fmt_v s line
               = Some answer) lines answers
    /\ Forall one_line answers
    /\ forall n k written,
         (length lines < n)%nat ->
         handleConn_loop Context_ Background Marshal_reply fmt_v n k s l
           (stream lines tail) written
         = Some (written ++ firstn (turns l k (length lines)) answers).
Proof.
  intros Htail. induction 1 as [|line lines Hline _ (answers & HF & HA & IH)].
  - exists []. split; [constructor|]. split; [constructor|].
    intros [|n] k written Hn; [lia|]. cbn [handleConn_loop stream].
    rewrite (ReadBytes_unbroken _ Htail), app_nil_r.
    destruct (shutdown_at l k); reflexivity.
  - destruct (processRequest_one_line s line) as (a & Ha & Hal).
    exists (a :: answers). split; [constructor; assumption|].
    split; [constructor; assumption|].
    intros [|n] k written Hn; [lia|].
    cbn [handleConn_loop stream length turns].
    destruct (shutdown_at l k); [rewrite app_nil_r; reflexivity|].
    rewrite (ReadBytes_one_line _ _ Hline), Ha.
    destruct (write_fails l k); [rewrite app_nil_r; reflexivity|].
    destruct (flush_fails l k); [rewrite app_nil_r; reflexivity|].
    cbn [orb firstn]. rewrite IH by (cbn [length] in Hn; lia).
    rewrite <- app_assoc. reflexivity.
Qed.

(** [handleConn] answers the lines of the stream one by one and in their
    order, each with the answer of [processRequest] to that line, which is
    itself one line; it does so until the stream ends or, before that, a
    turn finds the server shut down or fails to write or flush.  Bytes
    after the last newline are never processed.  The loop never panics. *)
Theorem handleConn_answers_lines (s : Server Context_) (l : Link)
    (lines : list string) (tail : string) :
  Forall one_line lines ->
  unbroken tail = true ->
  exists answers,
    Forall2 (fun line answer =>
               processRequest Context_ Background Marshal_reply fmt_v s line
               = Some answer) lines answers
    /\ Forall one_line answers
    /\ handleConn Context_ Background Marshal_reply fmt_v s l (stream lines tail)
       = Some (firstn (turns l 0 (length lines)) answers).
Proof.
  intros Hlines Htail.
  destruct (handleConn_loop_lines s l tail Htail lines Hlines)
    as (answers & HF & HA & Hloop).
  exists answers. split; [exact HF|]. split; [exact HA|].
  unfold handleConn. rewrite Hloop; [reflexivity|].
  pose proof (stream_length lines tail Hlines). lia.
Qed.

End Lines.

(** Two requests and the beginning of a third on one connection. *)
Definition quiet : Link :=
  mkLink (fun _ => false) (fun _ => false) (fun _ => false).

Definition two_requests : list string :=
  [ServerAnswers.add_bytes; ServerAnswers.subtract_bytes].

Definition unfinished : string := "{" +:+ quoted "jsonrpc".

Lemma handleConn_answers_lines_witness :
  exists answers,
    Forall2 (fun line answer =>
               processRequest unit tt ServerProps.Marshal_TestValue
                 ServerProps.show_id ServerProps.testServer line
               = Some answer) two_requests answers
    /\ Forall one_line answers
    /\ handleConn unit tt ServerProps.Marshal_TestValue ServerProps.show_id
         ServerProps.testServer quiet (stream two_requests unfinished)
       = Some (firstn (turns quiet 0 (length two_requests)) answers).
Proof.
  apply (handleConn_answers_lines unit tt ServerProps.Marshal_TestValue
           ServerProps.show_id ServerProps.testServer quiet two_requests
           unfinished).
  - constructor; [|constructor; [|constructor]].
    + apply (ReadBytes_split ServerAnswers.add_bytes _ EmptyString).
      vm_compute. reflexivity.
    + apply (ReadBytes_split ServerAnswers.subtract_bytes _ EmptyString).
      vm_compute. reflexivity.
  - reflexivity.
Defined.

End Framing.

(** ** What a call leaves behind *)

Module CallBookkeeping.
Import Bytes GoJson Protocol GoErr Wire Codec Pool PoolMaintenance Client ClientCalls.
Import PoolProps PoolBehaviour Framing.
Local Open Scope Z_scope.

Lemma Put_after_Get p w conn p1 w1 :
  closed p = false ->
  0 < maxIdle p ->
  Z.of_nat (length (idleConns p)) <= maxIdle p ->
  Get p w = (Ok conn, p1, w1) ->
  Put (Some conn) p1 w1 = (None, set_idle (idleConns p1 ++ [conn]) p1, w1).
Proof.
  intros Hopen Hpos Hb Hget.
  pose proof (Get_frame p w) as ((Hmi & _) & _ & Hcl).
  rewrite Hget in Hmi, Hcl. cbn [fst snd] in Hmi, Hcl.
  assert (Hroom : Z.of_nat (length (idleConns p1)) < maxIdle p1).
  { unfold Get in Hget. rewrite Hopen in Hget.
    destruct (Get_fast_shrinks _ _ _ _ _ _ eq_refl Hget) as [H|H].
    - lia.
    - rewrite H, Hmi. cbn. lia. }
  unfold Put. rewrite Hcl, Hopen.
  apply Z.ltb_lt in Hroom. rewrite Hroom. reflexivity.
Qed.

Ltac settle :=
  cbn [seq_counter pending connPool set_pending set_connPool set_seq_counter
       set_call_seq seq flushed sent];
  rewrite ?delete_insert_eq; repeat split; try reflexivity; try assumption.

Section Bookkeeping.
Context {A V : Type}.
Variable Marshal_args : A -> string + jsonerr.
Variable Unmarshal_reply : string -> V -> V + jsonerr.
Variable oob : spec_float -> Z.

Lemma receiveResponse_seq read (call : Call (V := V)) :
  seq (snd (receiveResponse Unmarshal_reply oob read call)) = seq call.
Proof.
  unfold receiveResponse. destruct read as [respData [err|]].
  - destruct err as [[]| | | |]; reflexivity.
  - destruct (DecodeResponse respData) as [resp|err]; [|reflexivity].
    destruct (resp_ID resp); try reflexivity.
    destruct (negb _); [reflexivity|].
    destruct (resp_Error resp); [reflexivity|].
    destruct (resp_Result resp), (Reply call); try reflexivity.
    destruct (Unmarshal_reply _ _); reflexivity.
Qed.

(** Whatever becomes of a call, [doCall] gives back what it took.  The
    entry that it made in [pending] under the new sequence number is
    deleted.  When the pool had no connection for it, nothing is sent and
    the error wraps [ErrNoConnection]; when it had one, the connection
    is put back at the end of the idle queue and is not closed, also after
    a failed write, an answer that was not waited for, or an answer that
    was refused; and at most one request, which is one line, has gone out
    on that connection. *)
Theorem doCall_gives_back (args : option A) (call : Call (V := V))
    (c : Client (V := V)) (pw : World) (net : Net) :
  closed (connPool c) = false ->
  0 < maxIdle (connPool c) ->
  Z.of_nat (length (idleConns (connPool c))) <= maxIdle (connPool c) ->
  match doCall Marshal_args Unmarshal_reply oob args call c pw net with
  | (r, call', c', pw', net') =>
    seq_counter c' = wrap_u64 (seq_counter c + 1)
    /\ seq call' = seq_counter c'
    /\ pending c' = delete (seq_counter c') (pending c)
    /\ match Get (connPool c) pw with
       | (Fail err, p1, w1) =>
         r = Some (no_connection err)
         /\ connPool c' = p1 /\ pw' = w1 /\ sent net' = sent net
       | (Ok conn, p1, w1) =>
         connPool c' = set_idle (idleConns p1 ++ [conn]) p1
         /\ pw' = w1
         /\ (sent net' = sent net
             \/ exists data,
                  sent net' = sent net ++ [(conn, data)] /\ one_line data)
       end
  end.
Proof.
  intros Hopen Hpos Hb. unfold doCall.
  cbn [connPool set_seq_counter set_pending set_connPool seq_counter pending].
  destruct (Get (connPool c) pw) as [[[conn|err] p1] w1] eqn:Hget.
  2: { cbn [seq_counter pending connPool set_pending set_connPool set_call_seq seq].
       rewrite delete_insert_eq. repeat split. }
  rewrite (Put_after_Get _ _ _ _ _ Hopen Hpos Hb Hget).
  destruct (match args with
            | Some a => match Marshal_args a with
                        | inl argsData => inl (Some argsData)
                        | inr err => inr err
                        end
            | None => inl None
            end) as [params|err].
  2: { settle. left. reflexivity. }
  destruct (snd (EncodeRequest _)) as [reqData|err] eqn:Henc.
  2: { settle. left. reflexivity. }
  apply EncodeRequest_one_line in Henc.
  cbn [next_write flushed write_err flush_err waits writes].
  destruct (write_err net (writes net)).
  { settle. left. reflexivity. }
  destruct (flush_err net (writes net)).
  { settle. left. reflexivity. }
  destruct (waits net (writes net)) as [read|err late].
  - pose proof (receiveResponse_seq read
                  (set_call_seq (wrap_u64 (seq_counter c + 1)) call)) as Hs.
    destruct (receiveResponse _ _ read _) as [r call'].
    cbn [snd] in Hs. settle.
    right. eexists. split; [reflexivity|exact Henc].
  - settle.
    + destruct late as [read|]; [apply receiveResponse_seq|reflexivity].
    + right. eexists. split; [reflexivity|exact Henc].
Qed.

End Bookkeeping.

(** A call whose context expires while the answer is awaited, on a pool
    with two broken and two sound idle connections. *)
Definition mixed_client : Client (V := unit) :=
  mkClient PoolBehaviour.pool_mixed 41 ∅ false 2 100.

Definition expiring : Net :=
  mkNet (fun _ => None) 0 (fun _ => None) (fun _ => None)
        (fun _ => Expired (Sentinel context_DeadlineExceeded) None) 0 [] [].

Definition add_call : Call (V := unit) :=
  mkCall "ArithService.Add" (Some tt) None 0.

Lemma doCall_gives_back_witness :
  match doCall ClientCallProps.marshal_unit ReceiveProps.keep_reply (fun _ => 0)
          (Some tt) add_call mixed_client PoolBehaviour.picky expiring with
  | (r, call', c', pw', net') =>
    seq_counter c' = wrap_u64 (seq_counter mixed_client + 1)
    /\ seq call' = seq_counter c'
    /\ pending c' = delete (seq_counter c') (pending mixed_client)
    /\ match Get (connPool mixed_client) PoolBehaviour.picky with
       | (Fail err, p1, w1) =>
         r = Some (no_connection err)
         /\ connPool c' = p1 /\ pw' = w1 /\ sent net' = sent expiring
       | (Ok conn, p1, w1) =>
         connPool c' = set_idle (idleConns p1 ++ [conn]) p1
         /\ pw' = w1
         /\ (sent net' = sent expiring
             \/ exists data,
                  sent net' = sent expiring ++ [(conn, data)] /\ one_line data)
       end
  end.
Proof.
  apply (doCall_gives_back ClientCallProps.marshal_unit ReceiveProps.keep_reply
           (fun _ => 0) (Some tt) add_call mixed_client PoolBehaviour.picky
           expiring).
  - reflexivity.
  - reflexivity.
  - simpl. lia.
Defined.

End CallBookkeeping.

(** ** From the client to the handler and back *)

Module CallRoundTrip.
Import Bytes Json GoJson Protocol GoErr Wire Codec Server Client.
Import ParseFacts TextFacts MarshalFacts RoundTrip.
Local Open Scope Z_scope.



Section RoundTrip.
Context {V R : Type}.
Variable Context_ : Type.
Variable Background : Context_.
Variable Marshal_reply : V -> string + jsonerr.
Variable fmt_v : GoValue -> string.
Variable Unmarshal_reply : string -> R -> R + jsonerr.
Variable oob : spec_float -> Z.



End RoundTrip.

(** *** The client of the arithmetic service *)






End CallRoundTrip.

(** ** The client over its life *)

Module ClientLifeProps.
Import Bytes GoJson Protocol GoErr Wire Codec Pool PoolMaintenance Client.
Import ClientCalls ClientLife PoolProps PoolBehaviour.
Local Open Scope Z_scope.

(** A pool in which every open connection is idle. *)
Definition at_rest (p : ConnPool) : Prop :=
  counted p (length (idleConns p))
  /\ 0 < maxActive p
  /\ 0 < maxIdle p
  /\ Z.of_nat (length (idleConns p)) <= maxIdle p
  /\ (closed p = true -> idleConns p = []).

Lemma Get_slow_idle p w :
  idleConns (snd (fst (Get_slow p w))) = idleConns p.
Proof.
  unfold Get_slow. destruct (_ && _); [reflexivity|].
  unfold dial. destruct (dial_answers w (dials w)); reflexivity.
Qed.

Lemma Get_fast_idle_le idle : forall p w,
  idleConns p = idle ->
  (length (idleConns (snd (fst (Get_fast idle p w)))) <= length idle)%nat.
Proof.
  induction idle as [|x rest IH]; intros p w Hidle.
  - cbn [Get_fast]. rewrite Get_slow_idle, Hidle. cbn. lia.
  - cbn [Get_fast set_idle testOnGet has_testConn length].
    destruct (testOnGet p && has_testConn p).
    + unfold testConn. destruct (test_answers w (tests w) x).
      * match goal with
        | |- context [Get_fast rest ?p1 ?w1] =>
          specialize (IH p1 w1 eq_refl)
        end.
        lia.
      * cbn. lia.
    + cbn. lia.
Qed.

Lemma Ping_at_rest p w :
  at_rest p ->
  at_rest (snd (fst (PoolMaintenance.Ping p w)))
  /\ closed (snd (fst (PoolMaintenance.Ping p w))) = closed p.
Proof.
  intros (Hc & Hma & Hmi & Hb & Hcl).
  pose proof (act_inv DoPing (mkSys p w []) Hc I) as [Hinv Hmax].
  cbn [act pool world leased] in Hinv, Hmax.
  pose proof (Get_frame p w) as ((G1 & _) & _ & G3).
  unfold PoolMaintenance.Ping in *.
  destruct (Get p w) as [[[conn|err] p1] w1] eqn:Hget; cbn [fst snd] in *.
  - pose proof (Put_frame (Some conn) p1 w1) as ((P1 & _) & _ & P3).
    assert (Hle : (length (idleConns p1) <= length (idleConns p))%nat).
    { unfold Get in Hget. destruct (closed p); [discriminate|].
      pose proof (Get_fast_idle_le (idleConns p) p w eq_refl) as H.
      rewrite Hget in H. exact H. }
    assert (Hopen : closed p1 = false).
    { rewrite G3. unfold Get in Hget. destruct (closed p); [discriminate|].
      reflexivity. }
    unfold Put in *. rewrite Hopen in *.
    destruct (Z.of_nat (length (idleConns p1)) <? maxIdle p1) eqn:Hroom;
      cbn [fst snd pool inv leased] in *.
    + apply Z.ltb_lt in Hroom. split; [|congruence].
      split; [exact Hinv|].
      cbn [set_idle maxActive maxIdle idleConns closed] in Hmax |- *.
      rewrite length_app. cbn [length].
      split; [lia|]. split; [lia|]. split; [lia|]. congruence.
    + split; [|congruence].
      split; [exact Hinv|].
      cbn [add_active maxActive maxIdle idleConns closed] in Hmax |- *.
      split; [lia|]. split; [lia|]. split; [lia|]. congruence.
  - cbn [pool inv leased] in *. split; [|exact G3].
    assert (Hle : (length (idleConns p1) <= length (idleConns p))%nat).
    { unfold Get in Hget. destruct (closed p) eqn:Hcp.
      - injection Hget as _ <- _. lia.
      - pose proof (Get_fast_idle_le (idleConns p) p w eq_refl) as H.
        rewrite Hget in H. exact H. }
    split; [exact Hinv|]. split; [lia|]. split; [lia|]. split; [lia|].
    intros Hp1. rewrite G3 in Hp1. specialize (Hcl Hp1).
    rewrite Hcl in Hle. cbn in Hle.
    destruct (idleConns p1); [reflexivity|cbn in Hle; lia].
Qed.

Ltac unregistered :=
  cbn [seq_counter pending connPool set_pending set_connPool closed_flag];
  rewrite delete_insert_eq; repeat split.

Section Uses.
Context {A V : Type}.
Variable Marshal_args : A -> string + jsonerr.
Variable Unmarshal_reply : string -> V -> V + jsonerr.
Variable oob : spec_float -> Z.

(** A client between two operations: no call is pending, every open
    connection is idle in the pool, and the pool is closed exactly when the
    client is. *)
Definition settled (c : Client (V := V)) : Prop :=
  pending c = ∅
  /\ at_rest (connPool c)
  /\ closed (connPool c) = closed_flag c.

(** For the pool, [doCall] is a [Ping]. *)
Lemma doCall_as_Ping (args : option A) (call : Call (V := V))
    (c : Client (V := V)) (pw : World) (net : Net) :
  match doCall Marshal_args Unmarshal_reply oob args call c pw net with
  | (_, _, c', pw', _) =>
    connPool c' = snd (fst (PoolMaintenance.Ping (connPool c) pw))
    /\ pw' = snd (PoolMaintenance.Ping (connPool c) pw)
    /\ pending c' = delete (wrap_u64 (seq_counter c + 1)) (pending c)
    /\ closed_flag c' = closed_flag c
  end.
Proof.
  unfold doCall, PoolMaintenance.Ping.
  cbn [connPool set_seq_counter set_pending set_connPool seq_counter pending].
  destruct (Get (connPool c) pw) as [[[conn|err] p1] w1].
  2: { unregistered. }
  destruct (Put (Some conn) p1 w1) as [[e p2] w2]. cbn [fst snd].
  destruct (match args with
            | Some a => match Marshal_args a with
                        | inl argsData => inl (Some argsData)
                        | inr err => inr err
                        end
            | None => inl None
            end) as [params|err]; [|unregistered].
  destruct (snd (EncodeRequest _)) as [reqData|err]; [|unregistered].
  cbn [next_write flushed write_err flush_err waits writes].
  destruct (write_err net (writes net)); [unregistered|].
  destruct (flush_err net (writes net)); [unregistered|].
  destruct (waits net (writes net)) as [read|err late]; [|unregistered].
  destruct (receiveResponse _ _ read _) as [r call']. unregistered.
Qed.

Lemma doCall_settled (args : option A) (call : Call (V := V))
    (c : Client (V := V)) (pw : World) (net : Net) :
  settled c ->
  match doCall Marshal_args Unmarshal_reply oob args call c pw net with
  | (_, _, c', _, _) => settled c'
  end.
Proof.
  intros (Hp & Hr & Hc).
  pose proof (doCall_as_Ping args call c pw net) as H.
  destruct (doCall _ _ _ args call c pw net) as [[[[r call'] c'] pw'] net'].
  destruct H as (H1 & _ & H3 & H4).
  destruct (Ping_at_rest (connPool c) pw Hr) as [R1 R2].
  unfold settled. rewrite H1, H3, H4, Hp, delete_empty.
  split; [reflexivity|]. split; [exact R1|]. congruence.
Qed.

Lemma Call_loop_settled n : forall attempt lastErr (args : option A)
    (call : Call (V := V)) (c : Client (V := V)) (pw : World) (net : Net),
  settled c ->
  match Call_loop Marshal_args Unmarshal_reply oob n attempt lastErr args call
          c pw net with
  | (_, _, c', _, _) => settled c'
  end.
Proof.
  induction n as [|n IH]; intros attempt lastErr args call c pw net Hs;
    cbn [Call_loop]; [exact Hs|].
  destruct (look net) as [[ctxErr|] net1]; [exact Hs|].
  pose proof (doCall_settled args call c pw net1 Hs) as Hd.
  destruct (doCall _ _ _ args call c pw net1) as [[[[[err|] call'] c'] pw'] net'];
    [|exact Hd].
  destruct (negb _); [exact Hd|].
  destruct (attempt <? maxRetries c').
  - destruct (look net') as [[ctxErr|] net2]; [exact Hd|].
    apply IH. exact Hd.
  - apply IH. exact Hd.
Qed.

(** The operations of a client. *)
Inductive use :=
| UseCall (serviceMethod : string) (args : option A) (reply : option V)
| UsePing
| UseClose
| UseSetMaxRetries (n : Z)
| UseSetRetryDelay (d : Z).

Definition apply_use (u : use) (st : Client (V := V) * World * Net)
  : Client (V := V) * World * Net :=
  match st with
  | (c, pw, net) =>
    match u with
    | UseCall m args reply =>
      match Call_ Marshal_args Unmarshal_reply oob m args reply c pw net with
      | (_, _, c, pw, net) => (c, pw, net)
      end
    | UsePing =>
      match ClientLife.Ping c pw with
      | (_, c, pw) => (c, pw, net)
      end
    | UseClose =>
      match ClientLife.Close c pw with
      | (_, _, c, pw) => (c, pw, net)
      end
    | UseSetMaxRetries n => (SetMaxRetries n c, pw, net)
    | UseSetRetryDelay d => (SetRetryDelay d c, pw, net)
    end
  end.

Fixpoint uses (l : list use) (st : Client (V := V) * World * Net)
  : Client (V := V) * World * Net :=
  match l with
  | [] => st
  | u :: rest => uses rest (apply_use u st)
  end.

Lemma Close_settled (c : Client (V := V)) (pw : World) :
  settled c ->
  match ClientLife.Close c pw with
  | (_, failed, c', _) => settled c' /\ closed_flag c' = true /\ failed = ∅
  end.
Proof.
  intros (Hp & Hr & Hc). unfold ClientLife.Close.
  destruct (closed_flag c) eqn:Hf.
  { split; [split; [exact Hp|split; [exact Hr|congruence]]|].
    split; [exact Hf|reflexivity]. }
  destruct Hr as (Hcount & Hma & Hmi & Hb & Hcl).
  unfold Pool.Close. rewrite Hc.
  pose proof (Close_idle_counted (idleConns (connPool c))
                (set_idle [] (set_closed (connPool c))) pw 0 eq_refl Hcount)
    as (C1 & C2 & C3 & C4).
  pose proof (Close_idle_effect (idleConns (connPool c))
                (set_idle [] (set_closed (connPool c))) pw) as (E1 & _).
  destruct (Close_idle _ _ pw) as [p1 w1]. cbn [fst] in *.
  rewrite Hp, fmap_empty.
  split; [|split; reflexivity].
  unfold settled, at_rest. cbn [pending connPool closed_flag].
  rewrite C2. cbn [length].
  split; [reflexivity|]. split; [|exact E1].
  split; [exact C1|]. cbn [set_idle set_closed maxActive maxIdle] in C3, C4.
  split; [lia|]. split; [lia|]. split; [lia|]. reflexivity.
Qed.

Lemma apply_use_settled (u : use) (c : Client (V := V)) (pw : World) (net : Net) :
  settled c ->
  match apply_use u (c, pw, net) with
  | (c', _, _) => settled c'
  end.
Proof.
  intros Hs. destruct u as [m args reply| | |n|d]; cbn [apply_use].
  - unfold Call_. destruct (closed_flag c); [exact Hs|].
    destruct (String.eqb m ""); [exact Hs|].
    destruct reply as [reply|]; [|exact Hs].
    pose proof (Call_loop_settled (Z.to_nat (maxRetries c + 1)) 0 None args
                  (mkCall m (Some reply) None 0) c pw net Hs) as H.
    destruct (Call_loop _ _ _ _ 0 None args _ c pw net)
      as [[[[r call'] c'] pw'] net'].
    exact H.
  - unfold ClientLife.Ping. destruct (closed_flag c) eqn:Hf; [exact Hs|].
    destruct Hs as (Hp & Hr & Hc).
    destruct (Ping_at_rest (connPool c) pw Hr) as [R1 R2].
    destruct (PoolMaintenance.Ping (connPool c) pw) as [[r p1] w1].
    cbn [fst snd] in *. unfold settled.
    cbn [set_connPool pending connPool closed_flag].
    split; [exact Hp|]. split; [exact R1|]. congruence.
  - pose proof (Close_settled c pw Hs) as H.
    destruct (ClientLife.Close c pw) as [[[r failed] c'] pw'].
    apply H.
  - exact Hs.
  - exact Hs.
Qed.

Lemma uses_settled (l : list use) : forall (c : Client (V := V)) pw net,
  settled c ->
  match uses l (c, pw, net) with
  | (c', _, _) => settled c'
  end.
Proof.
  induction l as [|u l IH]; intros c pw net Hs; cbn [uses]; [exact Hs|].
  pose proof (apply_use_settled u c pw net Hs) as H.
  destruct (apply_use u (c, pw, net)) as [[c1 pw1] net1].
  apply IH. exact H.
Qed.

Lemma NewClient_settled config (c0 : Client (V := V)) :
  NewClient config = Ok c0 ->
  settled c0
  /\ 0 <= maxRetries c0
  /\ 0 < retryDelay c0
  /\ testOnGet (connPool c0) = true.
Proof.
  unfold NewClient, NewConnPool.
  destruct (String.eqb (ccfg_Address config) "") eqn:Ha; [discriminate|].
  cbn [cfg_Address cfg_MaxIdle cfg_MaxActive cfg_TestOnGet]. rewrite Ha.
  intros [= <-]. cbn [maxRetries retryDelay connPool testOnGet].
  assert (Hidle : 0 < (if ccfg_MaxIdle config <=? 0 then 10
                       else ccfg_MaxIdle config)).
  { destruct (ccfg_MaxIdle config <=? 0) eqn:H; [lia|].
    apply Z.leb_gt in H. exact H. }
  assert (Hact : 0 < (if ccfg_MaxActive config <=? 0 then 100
                      else ccfg_MaxActive config)).
  { destruct (ccfg_MaxActive config <=? 0) eqn:H; [lia|].
    apply Z.leb_gt in H. exact H. }
  split; [|split; [|split; [|reflexivity]]].
  - unfold settled, at_rest, counted.
    cbn [pending connPool closed_flag idleConns maxActive maxIdle activeNum
         closed length].
    replace ((if ccfg_MaxIdle config <=? 0 then 10 else ccfg_MaxIdle config)
             <=? 0) with false by (symmetry; apply Z.leb_gt; exact Hidle).
    replace ((if ccfg_MaxActive config <=? 0 then 100
              else ccfg_MaxActive config) <? 0)
      with false by (symmetry; apply Z.ltb_ge; lia).
    repeat split; try reflexivity; try lia; try discriminate.
  - destruct (ccfg_MaxRetries config <? 0) eqn:H; [lia|].
    apply Z.ltb_ge in H. exact H.
  - destruct (ccfg_RetryDelay config <=? 0) eqn:H; [unfold Millisecond; lia|].
    apply Z.leb_gt in H. exact H.
Qed.

(** A client made by [NewClient] never keeps a connection for itself.
    After any sequence of calls, pings, changes of the retry settings and
    closes, whatever the calls met on the way, no call is pending and every
    open connection is idle in the pool: the active count of the pool is
    its idle count, which is at most the capacity of the queue, and is
    zero once the client is closed, when the pool is closed too. *)
Theorem client_keeps_no_connection (config : ClientConfig)
    (c0 : Client (V := V)) (pw0 : World) (net0 : Net) (l : list use) :
  NewClient config = Ok c0 ->
  match uses l (c0, pw0, net0) with
  | (c, _, _) =>
    stat_PendingCalls (ClientLife.Stats c) = 0
    /\ stat_ActiveCount (stat_PoolStats (ClientLife.Stats c))
       = stat_IdleCount (stat_PoolStats (ClientLife.Stats c))
    /\ stat_IdleCount (stat_PoolStats (ClientLife.Stats c))
       <= maxIdle (connPool c)
    /\ stat_IsClosed (stat_PoolStats (ClientLife.Stats c))
       = stat_Closed (ClientLife.Stats c)
    /\ (stat_Closed (ClientLife.Stats c) = true ->
        stat_ActiveCount (stat_PoolStats (ClientLife.Stats c)) = 0)
  end.
Proof.
  intros Hnew. destruct (NewClient_settled config c0 Hnew) as (Hs0 & _).
  pose proof (uses_settled l c0 pw0 net0 Hs0) as H.
  destruct (uses l (c0, pw0, net0)) as [[c pw] net].
  destruct H as (Hp & (Hcount & Hma & Hmi & Hb & Hcl) & Hc).
  unfold ClientLife.Stats, PoolMaintenance.Stats, ActiveCount, IdleCount, IsClosed.
  cbn [stat_PendingCalls stat_PoolStats stat_Closed stat_ActiveCount
       stat_IdleCount stat_IsClosed].
  pose proof (counted_exact _ _ Hcount Hma) as He.
  split; [rewrite Hp, map_size_empty; reflexivity|].
  split; [exact He|]. split; [exact Hb|]. split; [exact Hc|].
  intros Hf. rewrite He, Hcl by congruence. reflexivity.
Qed.

End Uses.

(** A client with the default settings whose calls all find the connection
    closed by the server. *)
Definition local_config : ClientConfig :=
  {| ccfg_Network := "tcp"; ccfg_Address := "localhost:8080";
     ccfg_MaxIdle := 0; ccfg_MaxActive := 0; ccfg_DialTimeout := 0;
     ccfg_MaxRetries := 1; ccfg_RetryDelay := 0 |}.

Definition local_client : Client (V := unit) :=
  mkClient (mkPool 10 100 [] 0 true true false) 0 ∅ false 1 (100 * Millisecond).

Definition busy_day : list (use (A := unit) (V := unit)) :=
  [UseCall "ArithService.Add" (Some tt) (Some tt); UsePing;
   UseSetMaxRetries 0; UseCall "ArithService.Add" None (Some tt);
   UseClose; UseCall "ArithService.Add" (Some tt) (Some tt); UsePing;
   UseClose].

Lemma client_keeps_no_connection_witness :
  match uses ClientCallProps.marshal_unit ReceiveProps.keep_reply (fun _ => 0)
          busy_day (local_client, PoolBehaviour.picky, ClientCallProps.patient)
  with
  | (c, _, _) =>
    stat_PendingCalls (ClientLife.Stats c) = 0
    /\ stat_ActiveCount (stat_PoolStats (ClientLife.Stats c))
       = stat_IdleCount (stat_PoolStats (ClientLife.Stats c))
    /\ stat_IdleCount (stat_PoolStats (ClientLife.Stats c))
       <= maxIdle (connPool c)
    /\ stat_IsClosed (stat_PoolStats (ClientLife.Stats c))
       = stat_Closed (ClientLife.Stats c)
    /\ (stat_Closed (ClientLife.Stats c) = true ->
        stat_ActiveCount (stat_PoolStats (ClientLife.Stats c)) = 0)
  end.
Proof.
  apply (client_keeps_no_connection ClientCallProps.marshal_unit
           ReceiveProps.keep_reply (fun _ => 0) local_config local_client
           PoolBehaviour.picky ClientCallProps.patient busy_day).
  reflexivity.
Defined.

End ClientLifeProps.

(** ** When a call succeeds *)

Module CallSuccess.
Import Bytes GoJson Protocol GoErr Wire Codec Pool Client ClientCalls.
Local Open Scope Z_scope.

(** [ctx.Err()] of a context that is done is [context.Canceled] or
    [context.DeadlineExceeded]. *)
Definition context_errors (net : Net) : Prop :=
  forall k err late,
    waits net k = Expired err late ->
    Is err context_Canceled || Is err context_DeadlineExceeded = true.

Lemma context_error_final err :
  Is err context_Canceled || Is err context_DeadlineExceeded = true ->
  shouldRetry (Some err) = false.
Proof.
  intros H. unfold shouldRetry. destruct (Is err ErrClientClosed); [reflexivity|].
  rewrite H. reflexivity.
Qed.

Section Success.
Context {A V : Type}.
Variable Marshal_args : A -> string + jsonerr.
Variable Unmarshal_reply : string -> V -> V + jsonerr.
Variable oob : spec_float -> Z.

(** The response [resp] answers [call] without an error and leaves
    [call'] behind. *)
Definition accepted (resp : Response) (call call' : Call (V := V)) : Prop :=
  (exists f, resp_ID resp = VFloat64 f /\ Float64.to_uint64 oob f = seq call)
  /\ match resp_Error resp with
     | Some e => call' = set_Error (Some (Rpc e)) call
     | None =>
       match resp_Result resp, Reply call with
       | Some result, Some reply =>
         exists reply', Unmarshal_reply result reply = inl reply'
                        /\ call' = set_Reply (Some reply') call
       | _, _ => call' = call
       end
     end.

Lemma receiveResponse_nil read (call call' : Call (V := V)) :
  receiveResponse Unmarshal_reply oob read call = (None, call') ->
  exists respData resp,
    read = (respData, None)
    /\ DecodeResponse respData = Ok resp
    /\ accepted resp call call'.
Proof.
  unfold receiveResponse. destruct read as [respData [err|]].
  { destruct err as [[]| | | |]; discriminate. }
  destruct (DecodeResponse respData) as [resp|err] eqn:Hd; [|discriminate].
  intros H. exists respData, resp. split; [reflexivity|]. split; [exact Hd|].
  unfold accepted.
  destruct (resp_ID resp) as [ |b|f|s|l|m|n]; try discriminate.
  destruct (Float64.to_uint64 oob f =? seq call) eqn:Hid; [|discriminate].
  apply Z.eqb_eq in Hid. cbn [negb] in H.
  split; [exists f; split; [reflexivity|exact Hid]|].
  destruct (resp_Error resp) as [e|]; [congruence|].
  destruct (resp_Result resp) as [result|]; [|congruence].
  destruct (Reply call) as [reply|]; [|congruence].
  destruct (Unmarshal_reply result reply) as [reply'|err]; [|discriminate].
  exists reply'. split; [reflexivity|congruence].
Qed.

Lemma receiveResponse_failed read (call call' : Call (V := V)) err :
  receiveResponse Unmarshal_reply oob read call = (Some err, call') ->
  call' = call.
Proof.
  unfold receiveResponse. destruct read as [respData [e|]].
  { destruct e as [[]| | | |]; congruence. }
  destruct (DecodeResponse respData) as [resp|e]; [|congruence].
  destruct (resp_ID resp); try congruence.
  destruct (negb _); [congruence|].
  destruct (resp_Error resp); [discriminate|].
  destruct (resp_Result resp), (Reply call); try discriminate.
  destruct (Unmarshal_reply _ _); [discriminate|congruence].
Qed.

(** What one attempt leaves: when it returns nil, the answer that it
    accepted; when it returns an error that [Call] retries, the call as it
    was but for its sequence number. *)
Lemma doCall_result (args : option A) (call : Call (V := V))
    (c : Client (V := V)) (pw : World) (net : Net) :
  context_errors net ->
  match doCall Marshal_args Unmarshal_reply oob args call c pw net with
  | (r, call', c', _, net') =>
    waits net' = waits net
    /\ maxRetries c' = maxRetries c
    /\ match r with
       | None =>
         exists respData resp,
           waits net (writes net) = Answered (respData, None)
           /\ writes net' = S (writes net)
           /\ DecodeResponse respData = Ok resp
           /\ accepted resp (set_call_seq (seq_counter c') call) call'
       | Some err =>
         shouldRetry (Some err) = true ->
         call' = set_call_seq (seq_counter c') call
       end
  end.
Proof.
  intros Hctx. unfold doCall.
  cbn [connPool set_seq_counter set_pending set_connPool seq_counter pending].
  destruct (Get (connPool c) pw) as [[[conn|err] p1] w1].
  2: { cbn [seq_counter maxRetries set_pending set_connPool]. repeat split. }
  destruct (Put (Some conn) p1 w1) as [[e p2] w2].
  destruct (match args with
            | Some a => match Marshal_args a with
                        | inl argsData => inl (Some argsData)
                        | inr err => inr err
                        end
            | None => inl None
            end) as [params|err].
  2: { cbn [seq_counter maxRetries set_pending set_connPool]. repeat split. }
  destruct (snd (EncodeRequest _)) as [reqData|err].
  2: { cbn [seq_counter maxRetries set_pending set_connPool]. repeat split. }
  cbn [next_write flushed write_err flush_err waits writes].
  destruct (write_err net (writes net)).
  { cbn [seq_counter maxRetries set_pending set_connPool]. repeat split. }
  destruct (flush_err net (writes net)).
  { cbn [seq_counter maxRetries set_pending set_connPool]. repeat split. }
  destruct (waits net (writes net)) as [read|err late] eqn:Hw.
  - destruct (receiveResponse _ _ read _) as [[err|] call'] eqn:Hr;
      cbn [seq_counter maxRetries set_pending set_connPool waits writes];
      split; try reflexivity; split; try reflexivity.
    + intros _. exact (receiveResponse_failed _ _ _ _ Hr).
    + destruct (receiveResponse_nil _ _ _ Hr) as (respData & resp & -> & Hd & Ha).
      exists respData, resp. repeat split; try assumption; apply Ha.
  - cbn [seq_counter maxRetries set_pending set_connPool waits writes].
    split; [reflexivity|]. split; [reflexivity|].
    intros Hretry. rewrite (context_error_final err (Hctx _ _ _ Hw)) in Hretry.
    discriminate.
Qed.

Lemma context_errors_same (net net' : Net) :
  waits net' = waits net -> context_errors net -> context_errors net'.
Proof. unfold context_errors. intros ->. auto. Qed.

Lemma Call_loop_nil n : forall attempt lastErr (args : option A)
    (call : Call (V := V)) (c : Client (V := V)) (pw : World) (net : Net)
    call' c' pw' net',
  context_errors net ->
  Error call = None ->
  Call_loop Marshal_args Unmarshal_reply oob n attempt lastErr args call c pw net
  = (None, call', c', pw', net') ->
  exists k respData resp,
    writes net' = S k
    /\ waits net k = Answered (respData, None)
    /\ DecodeResponse respData = Ok resp
    /\ resp_Error resp = None
    /\ accepted resp (set_call_seq (seq_counter c') call) call'.
Proof.
  induction n as [|n IH];
    intros attempt lastErr args call c pw net call' c' pw' net' Hctx Herr;
    cbn [Call_loop]; [discriminate|].
  destruct (look net) as [[ctxErr|] net1] eqn:Hlook; [discriminate|].
  assert (Hw1 : waits net1 = waits net).
  { unfold look in Hlook. injection Hlook as _ <-. reflexivity. }
  pose proof (doCall_result args call c pw net1
                (context_errors_same _ _ Hw1 Hctx)) as Hd.
  destruct (doCall _ _ _ args call c pw net1)
    as [[[[[err|] call1] c1] pw1] net2].
  - destruct Hd as (Hw2 & Hm & Hkeep).
    destruct (shouldRetry (Some err)) eqn:Hretry; cbn [negb]; [|discriminate].
    specialize (Hkeep eq_refl). subst call1.
    assert (Hgo : forall net3,
              waits net3 = waits net ->
              Call_loop Marshal_args Unmarshal_reply oob n (attempt + 1)
                (Some err) args (set_call_seq (seq_counter c1) call) c1 pw1 net3
              = (None, call', c', pw', net') ->
              exists k respData resp,
                writes net' = S k
                /\ waits net k = Answered (respData, None)
                /\ DecodeResponse respData = Ok resp
                /\ resp_Error resp = None
                /\ accepted resp (set_call_seq (seq_counter c') call) call').
    { intros net3 Hw3 Hrun.
      destruct (IH _ _ _ (set_call_seq (seq_counter c1) call) _ _ _ _ _ _ _
                  (context_errors_same _ _ Hw3 Hctx) Herr Hrun)
        as (k & respData & resp & H1 & H2 & H3 & H4 & H5).
      exists k, respData, resp. rewrite Hw3 in H2.
      split; [exact H1|]. split; [exact H2|]. split; [exact H3|].
      split; [exact H4|exact H5]. }
    destruct (attempt <? maxRetries c1).
    + destruct (look net2) as [[ctxErr|] net3] eqn:Hlook2; [discriminate|].
      apply Hgo. unfold look in Hlook2. injection Hlook2 as _ <-.
      cbn [nap waits]. congruence.
    + apply Hgo. congruence.
  - destruct Hd as (Hw2 & Hm & respData & resp & Ha & Hwr & Hdec & Hacc).
    intros H. injection H as He <- <- <- <-.
    exists (writes net1), respData, resp.
    split; [exact Hwr|]. split; [rewrite <- Hw1; exact Ha|].
    split; [exact Hdec|].
    destruct Hacc as [Hid Hbody].
    destruct (resp_Error resp) as [e|] eqn:Hre.
    + subst call1. discriminate.
    + split; [reflexivity|]. split; [exact Hid|]. rewrite Hre. exact Hbody.
Qed.

(** [Call] returns nil only for a call that was answered: one of its
    requests was written and flushed, and the bytes read in answer decode
    to a response whose identifier is a number that converts to the
    sequence number of that request and which carries no error; the reply
    is then the result unmarshalled into the reply that was passed, or that
    reply untouched when the response has no result.  The context is taken
    to report [context.Canceled] or [context.DeadlineExceeded] when it is
    done. *)
Theorem Call_success_is_answered (serviceMethod : string) (args : option A)
    (reply reply' : option V) (c c' : Client (V := V)) (pw pw' : World)
    (net net' : Net) :
  context_errors net ->
  Call_ Marshal_args Unmarshal_reply oob serviceMethod args reply c pw net
  = (None, reply', c', pw', net') ->
  exists k respData resp f,
    writes net' = S k
    /\ waits net k = Answered (respData, None)
    /\ DecodeResponse respData = Ok resp
    /\ resp_ID resp = VFloat64 f
    /\ Float64.to_uint64 oob f = seq_counter c'
    /\ resp_Error resp = None
    /\ match resp_Result resp with
       | Some result =>
         exists r0 r1,
           reply = Some r0
           /\ Unmarshal_reply result r0 = inl r1
           /\ reply' = Some r1
       | None => reply' = reply
       end.
Proof.
  intros Hctx. unfold Call_.
  destruct (closed_flag c); [discriminate|].
  destruct (String.eqb serviceMethod ""); [discriminate|].
  destruct reply as [r0|]; [|discriminate].
  destruct (Call_loop _ _ _ _ 0 None args _ c pw net)
    as [[[[r call'] c1] pw1] net1] eqn:Hloop.
  intros H. injection H as -> <- <- <- <-.
  destruct (Call_loop_nil _ _ _ _ (mkCall serviceMethod (Some r0) None 0)
              _ _ _ _ _ _ _ Hctx eq_refl Hloop)
    as (k & respData & resp & H1 & H2 & H3 & H4 & (f & Hf1 & Hf2) & H5).
  exists k, respData, resp, f.
  cbn [set_call_seq seq Reply] in Hf2, H5. rewrite H4 in H5.
  repeat (split; [assumption|]).
  destruct (resp_Result resp) as [result|].
  - destruct H5 as (r1 & Hu & ->). exists r0, r1. repeat split. exact Hu.
  - subst call'. reflexivity.
Qed.

End Success.

(** A call that is answered at once. *)
Definition response_42 : string :=
  "{" +:+ quoted "jsonrpc" +:+ ":" +:+ quoted "2.0" +:+ ","
  +:+ quoted "result" +:+ ":{" +:+ quoted "result" +:+ ":42},"
  +:+ quoted "id" +:+ ":42}" +:+ String newline "".

Definition answering : Net :=
  mkNet (fun _ => None) 0 (fun _ => None) (fun _ => None)
        (fun _ => Answered (response_42, None)) 0 [] [].

Definition first_answer
  : option error * option unit * Client (V := unit) * World * Net :=
  Call_ ClientCallProps.marshal_unit ReceiveProps.keep_reply (fun _ => 0)
    "ArithService.Add" (Some tt) (Some tt) CallBookkeeping.mixed_client
    PoolBehaviour.picky answering.

Lemma Call_success_is_answered_witness :
  exists k respData resp f,
    writes (snd first_answer) = S k
    /\ waits answering k = Answered (respData, None)
    /\ DecodeResponse respData = Ok resp
    /\ resp_ID resp = VFloat64 f
    /\ Float64.to_uint64 (fun _ => 0) f
       = seq_counter (snd (fst (fst first_answer)))
    /\ resp_Error resp = None
    /\ match resp_Result resp with
       | Some result =>
         exists r0 r1,
           Some tt = Some r0
           /\ ReceiveProps.keep_reply result r0 = inl r1
           /\ snd (fst (fst (fst first_answer))) = Some r1
       | None => snd (fst (fst (fst first_answer))) = Some tt
       end.
Proof.
  apply (Call_success_is_answered ClientCallProps.marshal_unit
           ReceiveProps.keep_reply (fun _ => 0) "ArithService.Add" (Some tt)
           (Some tt) (snd (fst (fst (fst first_answer))))
           CallBookkeeping.mixed_client (snd (fst (fst first_answer)))
           PoolBehaviour.picky (snd (fst first_answer))
           answering (snd first_answer)).
  - intros k err late H. discriminate H.
  - vm_compute. reflexivity.
Defined.

End CallSuccess.
